(** * chess-with-llm: the rules engine and the budgeted minimax agent

    A shallow embedding of
      - [src/types/Chess.ts]            (pieces, cells, game states, moves),
      - [ChessLogic/ChessGame.ts]       (class [ChessGame]),
      - [agents/CompressedMinimax.ts]   (abstract class [CompressedMinimax]),
      - [agents/LlmMinimax.ts]          (class [LLMMinimaxAgent]),
      - [agents/RandomAgent.ts]         (class [RandomAgent]),
    followed by the properties checked against them.

    Conventions of the embedding.
      - A JavaScript [number] is the rational that it denotes ([Q]);
        [-Infinity] and [Infinity] are explicit ([ExtNum]), and so is NaN
        where it can arise ([Double.Number]).  Where the program compares or
        returns a number that it has computed (the cache probe, the leaf
        test, the normalised probabilities), every operation is rounded to
        double precision ([Double.round]).  The sums and products that keep
        the books of the budget (the budget used, the shares of the
        children) are exact: they are those of the program whenever the
        exact results are doubles, as with the integer costs of the packaged
        agents.
      - A string is the sequence of the bytes of its UTF-8 encoding.
      - An exception is the outcome [Throw]; every [TypeError] raised by
        reading a property of [undefined] carries the one message
        ["TypeError"].
      - Optional boolean fields of a [Move] are only ever tested for
        truthiness, so [undefined] and [false] are both [false].
      - [console.log], [console.error] and the two log files are not part of
        the state. *)

From Stdlib Require Import ZArith QArith Qabs Qround Qpower String Ascii DecimalString Lia Lqa.
From stdpp Require Import base option list gmap strings.

Local Open Scope string_scope.
Local Open Scope list_scope.
Local Open Scope Z_scope.

(** ** Outcomes of a call *)

Inductive Result (A : Type) : Type :=
| Ok (a : A)            (* normal completion *)
| Throw (e : string)    (* an exception with its message *)
| Blocked               (* the call awaits a promise that is still pending *)
| NoAnswer.             (* the model gives no answer: fuel ran out, or the
                           call writes outside an array row *)
Arguments Ok {A} a.
Arguments Throw {A} e.
Arguments Blocked {A}.
Arguments NoAnswer {A}.

Definition bindR {A B} (r : Result A) (f : A -> Result B) : Result B :=
  match r with
  | Ok a => f a
  | Throw e => Throw e
  | Blocked => Blocked
  | NoAnswer => NoAnswer
  end.

(** Code that updates an object in place: the state is threaded through, and
    is kept when the call throws (the writes made before the exception stay). *)
Definition M (S A : Type) : Type := S -> Result A * S.

Definition ret {S A} (a : A) : M S A := fun s => (Ok a, s).

Definition throw {S A} (e : string) : M S A := fun s => (Throw e, s).

Definition bindM {S A B} (m : M S A) (f : A -> M S B) : M S B := fun s =>
  match m s with
  | (Ok a, s') => f a s'
  | (Throw e, s') => (Throw e, s')
  | (Blocked, s') => (Blocked, s')
  | (NoAnswer, s') => (NoAnswer, s')
  end.

Definition liftR {S A} (r : Result A) : M S A := fun s => (r, s).

Definition get {S} : M S S := fun s => (Ok s, s).

Definition put {S} (s : S) : M S unit := fun _ => (Ok tt, s).

Definition modify {S} (f : S -> S) : M S unit := fun s => (Ok tt, f s).

Notation "'let*' x := m 'in' k" := (bindR m (fun x => k))
  (at level 10, x pattern, m at level 100, k at level 200).
Notation "'do' x <- m ; k" := (bindM m (fun x => k))
  (at level 10, x pattern, m at level 100, k at level 200).

Definition TypeError : string := "TypeError".

(** ** types/Chess.ts *)

Inductive PieceType := pawn | rook | knight | bishop | queen | king.

Inductive PlayerColor := white | black.

#[global] Instance PieceType_eq_dec : EqDecision PieceType.
Proof. solve_decision. Defined.

#[global] Instance PlayerColor_eq_dec : EqDecision PlayerColor.
Proof. solve_decision. Defined.

(** [justMoved2?: boolean]: absent ([None]) until the piece moves. *)
Record Piece := {
  type : PieceType;
  color : PlayerColor;
  hasMoved : bool;
  justMoved2 : option bool
}.

#[global] Instance Piece_eq_dec : EqDecision Piece.
Proof. solve_decision. Defined.

(** [piece: Piece | "empty"]; [None] is the literal ["empty"]. *)
Record CellState := { piece : option Piece }.

#[global] Instance CellState_eq_dec : EqDecision CellState.
Proof. solve_decision. Defined.

Definition blankCell : CellState := {| piece := None |}.

Abbreviation Position := (Z * Z)%type.

Record Move := {
  from : Position;
  to : Position;
  algebraic : string;
  enPassant : bool;
  castling : bool;
  isPawnMoving2 : bool;
  promotion : option PieceType
}.

#[global] Instance Move_eq_dec : EqDecision Move.
Proof. solve_decision. Defined.

Record GameState := {
  turn : PlayerColor;
  boardState : list (list CellState);
  moveHistory : list Move
}.

#[global] Instance GameState_eq_dec : EqDecision GameState.
Proof. solve_decision. Defined.

Inductive EndgameState := checkmateWhite | checkmateBlack | draw | inProgress.

#[global] Instance EndgameState_eq_dec : EqDecision EndgameState.
Proof. solve_decision. Defined.

(** [PieceCountForOnePlayer] and [PieceCount]; the fields are named after the
    piece types and the colours, which are constructors here. *)
Record PieceCountForOnePlayer := {
  count_pawn : Z;
  count_rook : Z;
  count_knight : Z;
  count_bishop : Z;
  count_queen : Z;
  count_king : Z
}.

Record PieceCount := {
  count_white : PieceCountForOnePlayer;
  count_black : PieceCountForOnePlayer
}.

Definition startPiece (t : PieceType) (c : PlayerColor) : CellState :=
  {| piece := Some {| type := t; color := c; hasMoved := false; justMoved2 := None |} |}.

Definition backRank (c : PlayerColor) : list CellState :=
  [ startPiece rook c; startPiece knight c; startPiece bishop c; startPiece queen c;
    startPiece king c; startPiece bishop c; startPiece knight c; startPiece rook c ].

Definition initialGameState : GameState := {|
  turn := white;
  boardState :=
    [ backRank white; replicate 8 (startPiece pawn white) ]
    ++ replicate 4 (replicate 8 blankCell)
    ++ [ replicate 8 (startPiece pawn black); backRank black ];
  moveHistory := []
|}.

(** ** ChessLogic/ChessGame.ts: reading the board *)

Module ChessGame.

Definition linearDirections : list Position := [ (1, 0); (-1, 0); (0, 1); (0, -1) ].

Definition diagonalDirections : list Position := [ (1, 1); (-1, -1); (1, -1); (-1, 1) ].

Definition knightDirections : list Position :=
  [ (2, 1); (2, -1); (-2, 1); (-2, -1); (1, 2); (1, -2); (-1, 2); (-1, -2) ].

(** [arr[i]] for an integer [i]: [undefined] outside the array. *)
Definition index {A} (l : list A) (i : Z) : option A :=
  if i <? 0 then None else l !! Z.to_nat i.

(** [boardState[r][c]] followed by a property access: a [TypeError] when the
    row or the cell is missing. *)
Definition cellAt (b : list (list CellState)) (pos : Position) : Result CellState :=
  match index b pos.1 with
  | None => Throw TypeError
  | Some row =>
      match index row pos.2 with
      | None => Throw TypeError
      | Some c => Ok c
      end
  end.

(** [boardState[r][c] = cell]: a [TypeError] without the row.  Inside the row
    the slot is replaced; a column outside the row would grow the JavaScript
    array, which the model does not follow ([NoAnswer]). *)
Definition setCell (b : list (list CellState)) (pos : Position) (c : CellState)
  : Result (list (list CellState)) :=
  match index b pos.1 with
  | None => Throw TypeError
  | Some row =>
      match index row pos.2 with
      | None => NoAnswer
      | Some _ => Ok (<[Z.to_nat pos.1 := <[Z.to_nat pos.2 := c]> row]> b)
      end
  end.

(** [boardState[r][c].piece = p]: the cell object must exist. *)
Definition setPiece (b : list (list CellState)) (pos : Position) (p : option Piece)
  : Result (list (list CellState)) :=
  let* _ := cellAt b pos in
  setCell b pos {| piece := p |}.

Definition getPosInDirection (position direction : Position) : option Position :=
  let newRow := position.1 + direction.1 in
  let newCol := position.2 + direction.2 in
  if (newRow <? 0) || (newRow >? 7) || (newCol <? 0) || (newCol >? 7)
  then None
  else Some (newRow, newCol).

Definition isCellEmpty (s : GameState) (position : Position) : Result bool :=
  let* c := cellAt (boardState s) position in
  Ok (bool_decide (piece c = None)).

Definition isCellEnemy (s : GameState) (position : Position) (col : PlayerColor)
  : Result bool :=
  let* c := cellAt (boardState s) position in
  Ok (match piece c with
      | None => false
      | Some p => bool_decide (color p <> col)
      end).

(** *** Algebraic notation *)

Definition convertPositionToString (position : Position) : string :=
  let rowString := NilZero.string_of_int (Z.to_int (position.1 + 1)) in
  let colString := String (ascii_of_nat (Z.to_nat (97 + position.2))) "" in
  colString +:+ rowString.

Definition convertPieceTypeToChar (t : PieceType) : string :=
  match t with
  | pawn => ""
  | rook => "R"
  | knight => "N"
  | bishop => "B"
  | queen => "Q"
  | king => "K"
  end.

(** A move before its annotation ([Omit<Move,"algebraic">]). *)
Definition plainMove (f t : Position) : Move :=
  {| from := f; to := t; algebraic := ""; enPassant := false; castling := false;
     isPawnMoving2 := false; promotion := None |}.

Definition withAlgebraic (m : Move) (a : string) : Move :=
  {| from := from m; to := to m; algebraic := a; enPassant := enPassant m;
     castling := castling m; isPawnMoving2 := isPawnMoving2 m;
     promotion := promotion m |}.

Definition annotateCastlingMove (m : Move) : Result Move :=
  if castling m then
    if (to m).2 =? 2 then Ok (withAlgebraic m "0-0-0") else Ok (withAlgebraic m "0-0")
  else Throw "Not a castling move".

Definition annotateMove (s : GameState) (m : Move) : Result Move :=
  if castling m then annotateCastlingMove m
  else
    let* cellStateAtFromPos := cellAt (boardState s) (from m) in
    match piece cellStateAtFromPos with
    | None => Throw "No piece to move"
    | Some pieceMoving =>
        let* cellStateAtToPos := cellAt (boardState s) (to m) in
        let capturing := bool_decide (piece cellStateAtToPos <> None) in
        let pieceChar := convertPieceTypeToChar (type pieceMoving) in
        let toPositionString := convertPositionToString (to m) in
        let capturingChar := if capturing then "x" else "" in
        let promotionChar :=
          match promotion m with
          | Some t => "=" +:+ convertPieceTypeToChar t
          | None => ""
          end in
        Ok (withAlgebraic m
              (pieceChar +:+ capturingChar +:+ toPositionString +:+ promotionChar))
    end.

(** *** Loops that may throw *)

(** [for (const x of l) { acc = f(acc, x) }] *)
Fixpoint forR {A B} (l : list A) (acc : B) (f : B -> A -> Result B) : Result B :=
  match l with
  | [] => Ok acc
  | x :: l' => let* acc' := f acc x in forR l' acc' f
  end.

(** [for (const x of l) { if (f(x)) return true }; false] *)
Fixpoint existsR {A} (f : A -> Result bool) (l : list A) : Result bool :=
  match l with
  | [] => Ok false
  | x :: l' => let* b := f x in if b then Ok true else existsR f l'
  end.

(** *** Move generation *)

Definition setEnPassant (m : Move) : Move :=
  {| from := from m; to := to m; algebraic := algebraic m; enPassant := true;
     castling := castling m; isPawnMoving2 := isPawnMoving2 m;
     promotion := promotion m |}.

Definition setCastling (m : Move) : Move :=
  {| from := from m; to := to m; algebraic := algebraic m; enPassant := enPassant m;
     castling := true; isPawnMoving2 := isPawnMoving2 m; promotion := promotion m |}.

Definition setPawnMoving2 (m : Move) : Move :=
  {| from := from m; to := to m; algebraic := algebraic m; enPassant := enPassant m;
     castling := castling m; isPawnMoving2 := true; promotion := promotion m |}.

(** One side of the en-passant block of [getPawnMoves]: [sidePos] is the cell
    beside the pawn, [diagonalPos] the cell the capture lands on. *)
Definition enPassantSide (s : GameState) (position : Position) (p : Piece)
    (sidePos diagonalPos : option Position) : Result (list Move) :=
  match sidePos with
  | None => Ok []
  | Some sp =>
      let* sideCell := cellAt (boardState s) sp in
      match piece sideCell with
      | Some q =>
          if bool_decide (type q = pawn) && bool_decide (color q <> color p)
             && bool_decide (justMoved2 q = Some true)
          then
            match diagonalPos with
            | None => Throw TypeError
            | Some dp =>
                let* mv := annotateMove s (setEnPassant (plainMove position dp)) in
                Ok [mv]
            end
          else Ok []
      | None => Ok []
      end
  end.

(** The forward block of [getPawnMoves]: one step, and a second one for a
    pawn that has not moved. *)
Definition pawnAdvances (s : GameState) (position : Position) (p : Piece) (direction : Z)
  : Result (list Move) :=
  match getPosInDirection position (direction, 0) with
  | None => Ok []
  | Some forwardPos =>
      let* e := isCellEmpty s forwardPos in
      if e then
        let* mv := annotateMove s (plainMove position forwardPos) in
        if negb (hasMoved p) then
          match getPosInDirection position (direction * 2, 0) with
          | None => Ok [mv]
          | Some doubleForwardCell =>
              let* e2 := isCellEmpty s doubleForwardCell in
              if e2 then
                let* mv2 :=
                  annotateMove s (setPawnMoving2 (plainMove position doubleForwardCell)) in
                Ok [mv; mv2]
              else Ok [mv]
          end
        else Ok [mv]
      else Ok []
  end.

(** One of the two diagonal captures of [getPawnMoves]. *)
Definition pawnCapture (s : GameState) (position : Position) (p : Piece)
    (diagonalPos : option Position) : Result (list Move) :=
  match diagonalPos with
  | None => Ok []
  | Some dp =>
      let* en := isCellEnemy s dp (color p) in
      if en then let* mv := annotateMove s (plainMove position dp) in Ok [mv]
      else Ok []
  end.

Definition getPawnMoves (s : GameState) (position : Position) : Result (list Move) :=
  let* cellState := cellAt (boardState s) position in
  match piece cellState with
  | None => Throw "Not a pawn: can't move like a pawn"
  | Some p =>
      if bool_decide (type p <> pawn) then Throw "Not a pawn: can't move like a pawn"
      else
        let direction := match color p with white => 1 | black => -1 end in
        let leftDiagonalPos := getPosInDirection position (direction, -1) in
        let rightDiagonalPos := getPosInDirection position (direction, 1) in
        let* forwardMoves := pawnAdvances s position p direction in
        let* leftCapture := pawnCapture s position p leftDiagonalPos in
        let* rightCapture := pawnCapture s position p rightDiagonalPos in
        let* enPassantMoves :=
          if (bool_decide (color p = white) && (position.1 =? 4))
             || (bool_decide (color p = black) && (position.1 =? 3))
          then
            let leftPos := getPosInDirection position (0, -1) in
            let rightPos := getPosInDirection position (0, 1) in
            let* l := enPassantSide s position p leftPos leftDiagonalPos in
            let* r := enPassantSide s position p rightPos rightDiagonalPos in
            Ok (l ++ r)
          else Ok [] in
        Ok (forwardMoves ++ leftCapture ++ rightCapture ++ enPassantMoves)
  end.

(** The [while (newPos)] loop of [getMovesInDirection].  A walk along a
    non-zero direction leaves the board within eight steps; [fuel] bounds the
    walk. *)
Fixpoint walkInDirection (fuel : nat) (s : GameState) (startPosition direction : Position)
    (col : PlayerColor) (newPos : option Position) : Result (list Move) :=
  match newPos with
  | None => Ok []
  | Some np =>
      match fuel with
      | O => NoAnswer
      | S fuel' =>
          let* e := isCellEmpty s np in
          if e then
            let* mv := annotateMove s (plainMove startPosition np) in
            let* rest := walkInDirection fuel' s startPosition direction col
                           (getPosInDirection np direction) in
            Ok (mv :: rest)
          else
            let* en := isCellEnemy s np col in
            if en then
              let* mv := annotateMove s (plainMove startPosition np) in Ok [mv]
            else Ok []
      end
  end.

Definition getMovesInDirection (s : GameState) (startPosition direction : Position)
  : Result (list Move) :=
  let* startingCellState := cellAt (boardState s) startPosition in
  match piece startingCellState with
  | None => Throw "No piece to move"
  | Some p =>
      walkInDirection 8 s startPosition direction (color p)
        (getPosInDirection startPosition direction)
  end.

Definition movesInDirections (s : GameState) (position : Position)
    (directions : list Position) : Result (list Move) :=
  forR directions [] (fun moves direction =>
    let* ms := getMovesInDirection s position direction in Ok (moves ++ ms)).

Definition getRookMoves (s : GameState) (position : Position) : Result (list Move) :=
  let* cellState := cellAt (boardState s) position in
  match piece cellState with
  | None => Throw "Cell is empty: don't know what pieces are enemies"
  | Some _ => movesInDirections s position linearDirections
  end.

Definition getBishopMoves (s : GameState) (position : Position) : Result (list Move) :=
  let* cellState := cellAt (boardState s) position in
  match piece cellState with
  | None => Throw "Cell is empty: don't know what pieces are enemies"
  | Some _ => movesInDirections s position diagonalDirections
  end.

Definition getQueenMoves (s : GameState) (position : Position) : Result (list Move) :=
  let* cellState := cellAt (boardState s) position in
  match piece cellState with
  | None => Throw "Cell is empty: don't know what pieces are enemies"
  | Some _ =>
      let* l := movesInDirections s position linearDirections in
      let* d := movesInDirections s position diagonalDirections in
      Ok (l ++ d)
  end.

(** The loop shared by [getKnightMoves] and the first part of [getKingMoves]:
    one step in each direction, onto an empty or an enemy cell. *)
Definition stepMoves (s : GameState) (position : Position) (col : PlayerColor)
    (directions : list Position) : Result (list Move) :=
  forR directions [] (fun moves direction =>
    match getPosInDirection position direction with
    | None => Ok moves
    | Some newPos =>
        let* e := isCellEmpty s newPos in
        let* ok := if e then Ok true else isCellEnemy s newPos col in
        if ok then
          let* mv := annotateMove s (plainMove position newPos) in Ok (moves ++ [mv])
        else Ok moves
    end).

Definition getKnightMoves (s : GameState) (position : Position) : Result (list Move) :=
  let* cellState := cellAt (boardState s) position in
  match piece cellState with
  | None => Throw "Cell is empty: don't know what pieces are enemies"
  | Some p => stepMoves s position (color p) knightDirections
  end.

Definition getKingMoves (s : GameState) (position : Position) : Result (list Move) :=
  let* cellState := cellAt (boardState s) position in
  match piece cellState with
  | None => Throw "Not a king"
  | Some p =>
      if bool_decide (type p <> king) then Throw "Not a king"
      else
        let* moves := stepMoves s position (color p) [ (1, 0); (-1, 0); (0, 1); (0, -1) ] in
        if hasMoved p then Ok moves
        else
          let row := position.1 in
          let* leftRookCellState := cellAt (boardState s) (row, 0) in
          let* leftMoves :=
            match piece leftRookCellState with
            | Some r =>
                if negb (hasMoved r) then
                  let* e1 := isCellEmpty s (row, 1) in
                  let* e2 := isCellEmpty s (row, 2) in
                  let* e3 := isCellEmpty s (row, 3) in
                  if e1 && e2 && e3 then
                    let* mv := annotateMove s (setCastling (plainMove position (row, 2))) in
                    Ok [mv]
                  else Ok []
                else Ok []
            | None => Ok []
            end in
          let* rightRookCellState := cellAt (boardState s) (row, 7) in
          let* rightMoves :=
            match piece rightRookCellState with
            | Some r =>
                if negb (hasMoved r) then
                  let* e5 := isCellEmpty s (row, 5) in
                  let* e6 := isCellEmpty s (row, 6) in
                  if e5 && e6 then
                    let* mv := annotateMove s (setCastling (plainMove position (row, 6))) in
                    Ok [mv]
                  else Ok []
                else Ok []
            | None => Ok []
            end in
          Ok (moves ++ leftMoves ++ rightMoves)
  end.

Definition getMovesFromPosition (s : GameState) (position : Position) : Result (list Move) :=
  let* cellState := cellAt (boardState s) position in
  match piece cellState with
  | None => Ok []
  | Some p =>
      match type p with
      | pawn => getPawnMoves s position
      | rook => getRookMoves s position
      | knight => getKnightMoves s position
      | bishop => getBishopMoves s position
      | queen => getQueenMoves s position
      | king => getKingMoves s position
      end
  end.

(** *** Making a move (the methods that update [this.gameState] in place) *)

Definition withBoard (s : GameState) (b : list (list CellState)) : GameState :=
  {| turn := turn s; boardState := b; moveHistory := moveHistory s |}.

(** A write to the board; when the write throws, the state is left as it was. *)
Definition writeBoard (f : list (list CellState) -> Result (list (list CellState)))
  : M GameState unit := fun s =>
  match f (boardState s) with
  | Ok b => (Ok tt, withBoard s b)
  | Throw e => (Throw e, s)
  | Blocked => (Blocked, s)
  | NoAnswer => (NoAnswer, s)
  end.

Definition addMoveToHistory (move : Move) : M GameState unit :=
  modify (fun s => {| turn := turn s; boardState := boardState s;
                      moveHistory := moveHistory s ++ [move] |}).

Definition otherColor (c : PlayerColor) : PlayerColor :=
  match c with white => black | black => white end.

Definition flipTurn : M GameState unit :=
  modify (fun s => {| turn := otherColor (turn s); boardState := boardState s;
                      moveHistory := moveHistory s |}).

Definition movePieceAccordingToMove (move : Move) : M GameState unit :=
  do s <- get;
  do fromCellState <- liftR (cellAt (boardState s) (from move));
  match piece fromCellState with
  | None => throw "No piece to move"
  | Some p =>
      (* the piece object is updated while it still sits in its cell *)
      let moved := {| type := type p; color := color p; hasMoved := true;
                      justMoved2 := Some (isPawnMoving2 move) |} in
      do _ <- writeBoard (fun b => setPiece b (from move) (Some moved));
      let pieceToPutInToCell :=
        match promotion move with
        | Some t => {| type := t; color := turn s; hasMoved := true; justMoved2 := None |}
        | None => moved
        end in
      do _ <- writeBoard (fun b => setCell b (to move) {| piece := Some pieceToPutInToCell |});
      writeBoard (fun b => setPiece b (from move) None)
  end.

Definition executeEnPassant (move : Move) : M GameState unit :=
  do s <- get;
  let directionOfCapturedPawn := match turn s with white => -1 | black => 1 end in
  let capturedPawnRow := (to move).1 + directionOfCapturedPawn in
  let capturedPawnCol := (to move).2 in
  do capturedPawnCellState <-
    liftR (cellAt (boardState s) (capturedPawnRow, capturedPawnCol));
  match piece capturedPawnCellState with
  | None => throw "No piece to capture"
  | Some _ =>
      do _ <- writeBoard (fun b => setPiece b (capturedPawnRow, capturedPawnCol) None);
      do _ <- addMoveToHistory move;
      do _ <- movePieceAccordingToMove move;
      flipTurn
  end.

Definition executeCastling (move : Move) : M GameState unit :=
  do s <- get;
  let row := (from move).1 in
  let rookStartCol := if (to move).2 =? 6 then 7 else 0 in
  let rookEndCol := if (to move).2 =? 6 then 5 else 3 in
  match index (boardState s) row with
  | None => throw TypeError
  | Some rowCells =>
      let rookCellState := index rowCells rookStartCol in
      do _ <- addMoveToHistory move;
      do _ <- writeBoard (fun b =>
                let* _ := cellAt b (row, rookEndCol) in
                match rookCellState with
                | None => Throw TypeError
                | Some rc => setPiece b (row, rookEndCol) (piece rc)
                end);
      do _ <- writeBoard (fun b => setPiece b (row, rookStartCol) None);
      do _ <- movePieceAccordingToMove move;
      flipTurn
  end.

Definition makeMove (move : Move) : M GameState unit :=
  do s <- get;
  do fromCellState <- liftR (cellAt (boardState s) (from move));
  match piece fromCellState with
  | None => throw ("Failed to make move, " +:+ algebraic move +:+ ": No piece to move")
  | Some p =>
      if bool_decide (color p <> turn s)
      then throw ("Failed to make move, " +:+ algebraic move +:+ " Not your turn")
      else if enPassant move then executeEnPassant move
      else if castling move then executeCastling move
      else
        do _ <- addMoveToHistory move;
        do _ <- movePieceAccordingToMove move;
        flipTurn
  end.

(** *** Check, legal moves, end of the game *)

Definition allPositions : list Position :=
  row ← seqZ 0 8; col ← seqZ 0 8; [ (row, col) ].

Fixpoint findKing (b : list (list CellState)) (col : PlayerColor) (ps : list Position)
  : Result Position :=
  match ps with
  | [] => Throw "King not found"
  | pos :: ps' =>
      let* cellState := cellAt b pos in
      match piece cellState with
      | Some p =>
          if bool_decide (type p = king) && bool_decide (color p = col)
          then Ok pos
          else findKing b col ps'
      | None => findKing b col ps'
      end
  end.

Definition getKingPosition (s : GameState) (col : PlayerColor) : Result Position :=
  findKing (boardState s) col allPositions.

(** The body shared by the three loops of [isCheck]: does the move end on an
    enemy piece for which [attacks] holds? *)
Definition endsOnAttacker (s : GameState) (col : PlayerColor)
    (attacks : Piece -> Move -> bool) (move : Move) : Result bool :=
  let* toCellState := cellAt (boardState s) (to move) in
  match piece toCellState with
  | None => Ok false
  | Some p => Ok (bool_decide (color p <> col) && attacks p move)
  end.

Definition isCheck (s : GameState) (col : PlayerColor) : Result bool :=
  let* kingPosition := getKingPosition s col in
  let* linearDirectionMoves := getRookMoves s kingPosition in
  let* byLine := existsR (endsOnAttacker s col (fun p _ =>
                    bool_decide (type p = rook) || bool_decide (type p = queen)))
                  linearDirectionMoves in
  if byLine then Ok true
  else
    let* diagonalDirectionMoves := getBishopMoves s kingPosition in
    let* byDiagonal := existsR (endsOnAttacker s col (fun p move =>
                          bool_decide (type p = bishop) || bool_decide (type p = queen)
                          || (bool_decide (type p = pawn)
                              && match col with
                                 | white => (to move).1 =? kingPosition.1 + 1
                                 | black => (to move).1 =? kingPosition.1 - 1
                                 end)))
                        diagonalDirectionMoves in
    if byDiagonal then Ok true
    else
      let* knightMoves := getKnightMoves s kingPosition in
      existsR (endsOnAttacker s col (fun p _ => bool_decide (type p = knight))) knightMoves.

(** The move is tried on a deep copy; only the outcome of the copy's
    [makeMove] matters. *)
Definition doesMovePutMovingPlayerInCheck (s : GameState) (move : Move) : Result bool :=
  match makeMove move s with
  | (Ok _, hypotheticalGameState) => isCheck hypotheticalGameState (turn s)
  | (Throw e, _) => Throw e
  | (Blocked, _) => Blocked
  | (NoAnswer, _) => NoAnswer
  end.

(** The body of the two nested loops of [getAllLegalMoves]: what the cell
    [(row, c)] adds to [moves]. *)
Definition scanCell (s : GameState) (col : PlayerColor) (row : Z) (moves : list Move) (c : Z)
  : Result (list Move) :=
  let* cellState := cellAt (boardState s) (row, c) in
  match piece cellState with
  | Some p =>
      if bool_decide (color p = col) then
        let* pieceMoves := getMovesFromPosition s (row, c) in
        forR pieceMoves moves (fun moves move =>
          let* inCheck := doesMovePutMovingPlayerInCheck s move in
          Ok (if inCheck then moves else moves ++ [move]))
      else Ok moves
  | None => Ok moves
  end.

Definition getAllLegalMoves (s : GameState) (col : PlayerColor) : Result (list Move) :=
  forR (seqZ 0 8) [] (fun moves row => forR (seqZ 0 8) moves (scanCell s col row)).

Definition isTerminal (s : GameState) : Result bool :=
  let* moves := getAllLegalMoves s (turn s) in
  Ok (bool_decide (moves = [])).

Definition isCheckmate (s : GameState) (col : PlayerColor) : Result bool :=
  let* c := isCheck s col in
  if negb c then Ok false
  else
    let* allLegalMoves := getAllLegalMoves s col in
    Ok (bool_decide (allLegalMoves = [])).

Definition getEndgameState (s : GameState) : Result EndgameState :=
  let* t := isTerminal s in
  if negb t then Ok inProgress
  else
    let* w := isCheckmate s white in
    if w then Ok checkmateWhite
    else
      let* b := isCheckmate s black in
      if b then Ok checkmateBlack else Ok draw.

(** *** Hashing *)

Definition colorToString (c : PlayerColor) : string :=
  match c with white => "white" | black => "black" end.

Definition typeToString (t : PieceType) : string :=
  match t with
  | pawn => "pawn" | rook => "rook" | knight => "knight"
  | bishop => "bishop" | queen => "queen" | king => "king"
  end.

Definition boolToString (b : bool) : string := if b then "true" else "false".

(** What a template literal or [+=] makes of a value that may be [undefined]. *)
Definition toStringOrUndefined (o : option string) : string :=
  match o with Some s => s | None => "undefined" end.

(** The function builds [out] for an occupied cell but has no [return] for it:
    the result is [undefined] ([None]). *)
Definition hashCellState (cellState : CellState) : option string :=
  match piece cellState with
  | None => Some "empty"
  | Some p =>
      let out := colorToString (color p) +:+ "_" +:+ typeToString (type p) +:+ "_"
                 +:+ boolToString (hasMoved p) in
      let out := if bool_decide (type p = pawn)
                 then out +:+ "_" +:+ toStringOrUndefined (boolToString <$> justMoved2 p)
                 else out in
      None
  end.

(** [str.slice(0, -1)] *)
Fixpoint dropLastChar (str : string) : string :=
  match str with
  | EmptyString => EmptyString
  | String c EmptyString => EmptyString
  | String c rest => String c (dropLastChar rest)
  end.

Definition hashGameState (s : GameState) : string :=
  let hash := colorToString (turn s) +:+ "," in
  let hash :=
    fold_left (fun hash row =>
      fold_left (fun hash cellState =>
        (hash +:+ toStringOrUndefined (hashCellState cellState)) +:+ ",") row hash)
      (boardState s) hash in
  dropLastChar hash.

(** *** Counting the pieces *)

(** [pieceCount[color].type++] *)
Definition increment (t : PieceType) (n : PieceCountForOnePlayer) : PieceCountForOnePlayer :=
  match t with
  | pawn => {| count_pawn := count_pawn n + 1; count_rook := count_rook n;
               count_knight := count_knight n; count_bishop := count_bishop n;
               count_queen := count_queen n; count_king := count_king n |}
  | rook => {| count_pawn := count_pawn n; count_rook := count_rook n + 1;
               count_knight := count_knight n; count_bishop := count_bishop n;
               count_queen := count_queen n; count_king := count_king n |}
  | knight => {| count_pawn := count_pawn n; count_rook := count_rook n;
                 count_knight := count_knight n + 1; count_bishop := count_bishop n;
                 count_queen := count_queen n; count_king := count_king n |}
  | bishop => {| count_pawn := count_pawn n; count_rook := count_rook n;
                 count_knight := count_knight n; count_bishop := count_bishop n + 1;
                 count_queen := count_queen n; count_king := count_king n |}
  | queen => {| count_pawn := count_pawn n; count_rook := count_rook n;
                count_knight := count_knight n; count_bishop := count_bishop n;
                count_queen := count_queen n + 1; count_king := count_king n |}
  | king => {| count_pawn := count_pawn n; count_rook := count_rook n;
               count_knight := count_knight n; count_bishop := count_bishop n;
               count_queen := count_queen n; count_king := count_king n + 1 |}
  end.

(** The body of the two nested loops of [getPieceCount]. *)
Definition countCell (pieceCount : PieceCount) (cellState : CellState) : PieceCount :=
  match piece cellState with
  | None => pieceCount
  | Some p =>
      match color p with
      | white => {| count_white := increment (type p) (count_white pieceCount);
                    count_black := count_black pieceCount |}
      | black => {| count_white := count_white pieceCount;
                    count_black := increment (type p) (count_black pieceCount) |}
      end
  end.

Definition noPieces : PieceCountForOnePlayer :=
  {| count_pawn := 0; count_rook := 0; count_knight := 0; count_bishop := 0;
     count_queen := 0; count_king := 0 |}.

Definition getPieceCount (s : GameState) : PieceCount :=
  fold_left (fun pieceCount row => fold_left countCell row pieceCount) (boardState s)
    {| count_white := noPieces; count_black := noPieces |}.

End ChessGame.

(** ** Game objects and the state objects they refer to

    A [GameState] handed to [new ChessGame(gameState)] is kept by reference:
    the constructor stores the object it is given, and the methods above
    write to it.  The heap below holds game-state objects at their addresses;
    the cells and pieces inside one state object are kept as a value, which
    is exact as long as no cell or piece object is shared between two places
    that are written (lodash's [cloneDeep] and the engine's own writes never
    create such sharing). *)

Module Objects.

Abbreviation Heap := (list GameState).

(** [private gameState: GameState]: the address of the state object. *)
Record ChessGame := { gameState : nat }.

(** [constructor(private gameState: GameState = initialGameState)] called with
    an explicit argument. *)
Definition newChessGame (ref : nat) : ChessGame := {| gameState := ref |}.

(** [_.cloneDeep(obj)]: a fresh object with the same contents. *)
Definition cloneDeep (ref : nat) : M Heap nat := fun h =>
  match h !! ref with
  | Some s => (Ok (length h), h ++ [s])
  | None => (NoAnswer, h)
  end.

Definition getGameState (g : ChessGame) : M Heap nat := cloneDeep (gameState g).

(** [makeMove] runs on the object the game refers to and returns [this]. *)
Definition makeMove (g : ChessGame) (move : Move) : M Heap ChessGame := fun h =>
  match h !! gameState g with
  | None => (NoAnswer, h)
  | Some s =>
      let (r, s') := ChessGame.makeMove move s in
      (let* _ := r in Ok g, <[gameState g := s']> h)
  end.

(** The way the agents apply a move:
    [new ChessGame(_.cloneDeep(gameState)).makeMove(move).getGameState()]. *)
Definition applyOnCopy (ref : nat) (move : Move) : M Heap nat :=
  do copy <- cloneDeep ref;
  do g <- makeMove (newChessGame copy) move;
  getGameState g.

End Objects.

(** The state that [applyOnCopy] returns, as a value. *)
Definition stateAfter (s : GameState) (move : Move) : Result GameState :=
  match ChessGame.makeMove move s with
  | (Ok _, s') => Ok s'
  | (Throw e, _) => Throw e
  | (Blocked, _) => Blocked
  | (NoAnswer, _) => NoAnswer
  end.

(** ** agents/RandomAgent.ts *)

Module RandomAgent.

(** [selectMove]; [Math_random] is the value that [Math.random()] returns.
    Reading the array outside its bounds gives [undefined] ([None]). *)
Definition selectMove (Math_random : Q) (gameState : GameState) : Result (option Move) :=
  let myColor := turn gameState in
  let* legalMoves := ChessGame.getAllLegalMoves gameState myColor in
  if bool_decide (length legalMoves = 0%nat) then Throw "No legal moves"
  else
    let randomIndex := Qfloor (Math_random * inject_Z (Z.of_nat (length legalMoves))) in
    Ok (ChessGame.index legalMoves randomIndex).

End RandomAgent.

(** ** Numbers, promises and the state of an agent *)

Definition Qltb (x y : Q) : bool := negb (Qle_bool y x).

(** A [number] that may be [-Infinity] or [Infinity]. *)
Inductive ExtNum := NegInfinity | Finite (q : Q) | Infinity.

Module ExtNum.

Definition leb (a b : ExtNum) : bool :=
  match a, b with
  | NegInfinity, _ => true
  | _, Infinity => true
  | Finite x, Finite y => Qle_bool x y
  | _, _ => false
  end.

Definition ltb (a b : ExtNum) : bool := negb (leb b a).

Definition gtb (a b : ExtNum) : bool := ltb b a.

(** [Math.max(a, b)] and [Math.min(a, b)] *)
Definition max (a b : ExtNum) : ExtNum := if leb a b then b else a.

Definition min (a b : ExtNum) : ExtNum := if leb a b then a else b.

(** [Math.abs(a)] *)
Definition abs (a : ExtNum) : ExtNum :=
  match a with
  | NegInfinity | Infinity => Infinity
  | Finite x => Finite (Qabs x)
  end.

End ExtNum.

(** *** Arithmetic in double precision

    The result of an arithmetic operation of JavaScript is the exact result
    rounded to the nearest number of the binary64 format, ties to the even
    significand; beyond the largest such number it is an infinity. *)

Module Double.

Definition pow2 (k : Z) : Q := (2 ^ k)%Q.

(** The nearest integer, ties to the even one. *)
Definition roundHalfEven (x : Q) : Z :=
  let f := Qfloor x in
  match (x - inject_Z f ?= 1 # 2)%Q with
  | Lt => f
  | Gt => f + 1
  | Eq => if Z.even f then f else f + 1
  end.

(** For [x > 0], the exponent [e] with [2^e <= x < 2^(e+1)]. *)
Definition exponent (x : Q) : Z :=
  let guess := Z.log2 (Qnum x) - Z.log2 (Zpos (Qden x)) in
  if Qle_bool (pow2 guess) x then guess else guess - 1.

(** For [x > 0], the nearest multiple of the spacing of the format at [x]:
    53 significant bits, and the fixed spacing [2^-1074] below [2^-1022]. *)
Definition nearest (x : Q) : Q :=
  let e := Z.max (exponent x) (-1022) in
  (inject_Z (roundHalfEven (x / pow2 (e - 52))) * pow2 (e - 52))%Q.

Definition round (x : Q) : ExtNum :=
  match Qnum x with
  | Z0 => Finite 0
  | Zpos _ =>
      let v := nearest x in
      if Qle_bool (pow2 1024) v then Infinity else Finite v
  | Zneg _ =>
      let v := nearest (- x) in
      if Qle_bool (pow2 1024) v then NegInfinity else Finite (- v)
  end.

(** [a - b] and [a * b] of two finite numbers. *)
Definition sub (a b : Q) : ExtNum := round (a - b).

Definition mul (a b : Q) : ExtNum := round (a * b).

(** [a + b], where [b] is finite and [a] is the result of an earlier
    operation: an infinity stays what it is. *)
Definition plus (a : ExtNum) (b : Q) : ExtNum :=
  match a with
  | Finite x => round (x + b)
  | NegInfinity => NegInfinity
  | Infinity => Infinity
  end.

(** A number of the program that need not be finite: [None] is NaN. *)
Definition Number : Type := option ExtNum.

(** [a + b].  A sum that is zero is the positive zero, whatever the addends. *)
Definition add (a b : Number) : Number :=
  match a, b with
  | None, _ | _, None => None
  | Some (Finite x), Some (Finite y) => Some (round (x + y))
  | Some Infinity, Some NegInfinity | Some NegInfinity, Some Infinity => None
  | Some Infinity, Some _ | Some _, Some Infinity => Some Infinity
  | Some NegInfinity, Some _ | Some _, Some NegInfinity => Some NegInfinity
  end.

(** [a / b], for a divisor that is not the negative zero. *)
Definition div (a b : Number) : Number :=
  match a, b with
  | None, _ | _, None => None
  | Some (Finite x), Some (Finite y) =>
      if Qeq_bool y 0
      then match (x ?= 0)%Q with
           | Eq => None
           | Gt => Some Infinity
           | Lt => Some NegInfinity
           end
      else Some (round (x / y))
  | Some (Finite _), Some _ => Some (Finite 0)
  | Some Infinity, Some (Finite y) => Some (if Qle_bool 0 y then Infinity else NegInfinity)
  | Some NegInfinity, Some (Finite y) => Some (if Qle_bool 0 y then NegInfinity else Infinity)
  | Some _, Some _ => None
  end.

End Double.

(** A promise object is pending until it is settled, once. *)
Inductive Promise (A : Type) : Type :=
| Pending
| Fulfilled (a : A)
| Rejected (e : string).
Arguments Pending {A}.
Arguments Fulfilled {A} a.
Arguments Rejected {A} e.

(** *** agents/LLM/types.ts *)

Inductive Role := system | user | assistant | tool.

Record Message := { content : option string; role : Role }.

Record TokenLogprob := { token : string; logprob : Q }.

Record TokenLogprobWithTop := {
  own : TokenLogprob;
  top_logprobs : option (list TokenLogprob)
}.

Record Logprobs := { logprobs_content : list TokenLogprobWithTop }.

Record MessageChoice := { message : Message; logprobs : option Logprobs }.

(** The three requests the agent sends.  The text of the prompts is not
    modelled: a request is identified by its task and by what the prompt is
    rendered from. *)
Inductive Prompt :=
| DescribePrompt (gameState : GameState)
| EvaluatePrompt (gameState : GameState) (gameDescriptionMessage : Message)
| SuccessorsPrompt (gameState : GameState) (gameDescriptionMessage : Message)
    (listOfValidMoveRepresentations : list string).

Record CallLLMArgs := {
  messages : Prompt;
  max_tokens : Z;
  temperature : Q;
  n : Z
}.

(** What one call of the oracle does: it throws, or it returns its choices. *)
Inductive LLMReply := Fails (e : string) | Replies (choices : list MessageChoice).

(** The oracle: its answer to a request, given how many requests came before. *)
Definition CallLLM : Type := nat -> CallLLMArgs -> LLMReply.

(** *** agents/CompressedMinimax.ts: types *)

Record CostSetup := {
  maxDepth : Q;
  totalBudget : Q;
  stateEvaluationCost : Q;
  getSuccessorsCost : Q;
  basicMinimaxCost : Q
}.

Record MinimaxIterationResult := {
  computedValue : ExtNum;
  usedBudget : Q
}.

Record GameStateProgression := {
  nextState : GameState;
  move : Move;
  probability : Q
}.

(** [PendingCacheEntry]: [computedValue] is the address of a promise. *)
Record PendingCacheEntry := {
  entry_computedValue : nat;
  entry_budget : Q
}.

(** A call of one of the two abstract methods, or a request to the oracle.
    The history of these is kept next to the caches, as a counting stub
    would, so that "calls" and "does not call" can be stated. *)
Inductive Event :=
| CalledStateEvaluation (gameState : GameState)
| CalledGetSuccessors (gameState : GameState)
| CalledLLM (args : CallLLMArgs).

(** The fields of an agent, with the promise objects its caches refer to. *)
Record AgentState := {
  minimaxCache : gmap string PendingCacheEntry;
  successorsCache : gmap string nat;
  gameDescriptionCache : gmap string nat;
  numberPromises : list (Promise ExtNum);
  successorsPromises : list (Promise (list GameStateProgression));
  messagePromises : list (Promise Message);
  history : list Event
}.

Definition emptyAgent : AgentState := {|
  minimaxCache := ∅; successorsCache := ∅; gameDescriptionCache := ∅;
  numberPromises := []; successorsPromises := []; messagePromises := [];
  history := []
|}.

Definition setMinimaxCache (f : gmap string PendingCacheEntry -> gmap string PendingCacheEntry)
    (σ : AgentState) : AgentState :=
  {| minimaxCache := f (minimaxCache σ); successorsCache := successorsCache σ;
     gameDescriptionCache := gameDescriptionCache σ; numberPromises := numberPromises σ;
     successorsPromises := successorsPromises σ; messagePromises := messagePromises σ;
     history := history σ |}.

Definition setSuccessorsCache (f : gmap string nat -> gmap string nat)
    (σ : AgentState) : AgentState :=
  {| minimaxCache := minimaxCache σ; successorsCache := f (successorsCache σ);
     gameDescriptionCache := gameDescriptionCache σ; numberPromises := numberPromises σ;
     successorsPromises := successorsPromises σ; messagePromises := messagePromises σ;
     history := history σ |}.

Definition setGameDescriptionCache (f : gmap string nat -> gmap string nat)
    (σ : AgentState) : AgentState :=
  {| minimaxCache := minimaxCache σ; successorsCache := successorsCache σ;
     gameDescriptionCache := f (gameDescriptionCache σ); numberPromises := numberPromises σ;
     successorsPromises := successorsPromises σ; messagePromises := messagePromises σ;
     history := history σ |}.

Definition setNumberPromises (f : list (Promise ExtNum) -> list (Promise ExtNum))
    (σ : AgentState) : AgentState :=
  {| minimaxCache := minimaxCache σ; successorsCache := successorsCache σ;
     gameDescriptionCache := gameDescriptionCache σ; numberPromises := f (numberPromises σ);
     successorsPromises := successorsPromises σ; messagePromises := messagePromises σ;
     history := history σ |}.

Definition setSuccessorsPromises
    (f : list (Promise (list GameStateProgression)) -> list (Promise (list GameStateProgression)))
    (σ : AgentState) : AgentState :=
  {| minimaxCache := minimaxCache σ; successorsCache := successorsCache σ;
     gameDescriptionCache := gameDescriptionCache σ; numberPromises := numberPromises σ;
     successorsPromises := f (successorsPromises σ); messagePromises := messagePromises σ;
     history := history σ |}.

Definition setMessagePromises (f : list (Promise Message) -> list (Promise Message))
    (σ : AgentState) : AgentState :=
  {| minimaxCache := minimaxCache σ; successorsCache := successorsCache σ;
     gameDescriptionCache := gameDescriptionCache σ; numberPromises := numberPromises σ;
     successorsPromises := successorsPromises σ; messagePromises := f (messagePromises σ);
     history := history σ |}.

Definition record (e : Event) : M AgentState unit :=
  modify (fun σ =>
  {| minimaxCache := minimaxCache σ; successorsCache := successorsCache σ;
     gameDescriptionCache := gameDescriptionCache σ; numberPromises := numberPromises σ;
     successorsPromises := successorsPromises σ; messagePromises := messagePromises σ;
     history := history σ ++ [e] |}).

(** *** Promises

    One call is followed from its start to its end, and the calls it makes
    are followed in the order in which they are made.  A promise made by the
    call is settled when its computation ends; awaiting a promise that is
    still pending (one of a caller further up, or one whose computation never
    settles it) leaves the call [Blocked]. *)

(** [await p] *)
Definition await {A} (promises : AgentState -> list (Promise A)) (p : nat)
  : M AgentState A := fun σ =>
  match promises σ !! p with
  | Some (Fulfilled a) => (Ok a, σ)
  | Some (Rejected e) => (Throw e, σ)
  | Some Pending => (Blocked, σ)
  | None => (NoAnswer, σ)
  end.

(** Settling happens once: a later [resolve] or [reject] does nothing. *)
Definition settle {A} (p : nat) (v : Promise A) (l : list (Promise A)) : list (Promise A) :=
  match l !! p with
  | Some Pending => <[p := v]> l
  | _ => l
  end.

(** The promise of a call [m] of an [async] function: a new promise, settled
    with the outcome of the call.  [publish p] is what the caller does with
    the promise before it awaits anything (it stores it in a cache); none of
    the calls below reads, before its own first [await], the cache its caller
    publishes to, so publishing first does not change what the call sees. *)
Definition settled {A} (r : Result A) : Promise A :=
  match r with
  | Ok a => Fulfilled a
  | Throw e => Rejected e
  | Blocked | NoAnswer => Pending
  end.

Definition newNumberPromise (v : Promise ExtNum) : M AgentState nat := fun σ =>
  (Ok (length (numberPromises σ)), setNumberPromises (fun l => l ++ [v]) σ).

Definition newSuccessorsPromise : M AgentState nat := fun σ =>
  (Ok (length (successorsPromises σ)), setSuccessorsPromises (fun l => l ++ [Pending]) σ).

Definition newMessagePromise : M AgentState nat := fun σ =>
  (Ok (length (messagePromises σ)), setMessagePromises (fun l => l ++ [Pending]) σ).

(** [try { ... } catch (e) { ... }]: the outcome of the body, as a value. *)
Definition try {S A} (m : M S A) : M S (string + A) := fun s =>
  match m s with
  | (Ok a, s') => (Ok (inr a), s')
  | (Throw e, s') => (Ok (inl e), s')
  | (Blocked, s') => (Blocked, s')
  | (NoAnswer, s') => (NoAnswer, s')
  end.

(** An exception that nothing catches inside a promise executor: the promise
    is never settled, and whoever awaits it waits for ever. *)
Definition uncaught {S A} (m : M S A) : M S A := fun s =>
  match m s with
  | (Throw e, s') => (Blocked, s')
  | other => other
  end.

(** ** agents/CompressedMinimax.ts *)

Module CompressedMinimax.

Import ChessGame.

Definition usedBudgetOf (r : MinimaxIterationResult) : Q := usedBudget r.

(** [private budgetCacheTolerance = 0.1]: the number that the literal
    denotes, the double nearest to one tenth. *)
Definition budgetCacheTolerance : ExtNum := Double.round (1 # 10).

(** The condition of the cache probe of [minimax]:
    [cacheResult.budget >= budget ||
     Math.abs(cacheResult.budget - budget) < this.budgetCacheTolerance]. *)
Definition cacheAnswers (cacheResult : PendingCacheEntry) (budget : Q) : bool :=
  Qle_bool budget (entry_budget cacheResult)
  || ExtNum.ltb (ExtNum.abs (Double.sub (entry_budget cacheResult) budget))
       budgetCacheTolerance.

Definition addToMinimaxCache (gameHash : string) (entry : PendingCacheEntry)
  : M AgentState unit :=
  modify (setMinimaxCache (fun cache =>
    match cache !! gameHash with
    | Some existingEntry =>
        if Qltb (entry_budget entry) (entry_budget existingEntry)
        then cache
        else <[gameHash := entry]> cache
    | None => <[gameHash := entry]> cache
    end)).


(** [Promise.all]: rejected by a rejected member (the first in the list here),
    pending while a member is pending, fulfilled with all the values. *)
Fixpoint promiseAll {A} (rs : list (Result A)) : Result (list A) :=
  match rs with
  | [] => Ok []
  | r :: rs' =>
      match r, promiseAll rs' with
      | NoAnswer, _ => NoAnswer
      | _, NoAnswer => NoAnswer
      | Throw e, _ => Throw e
      | _, Throw e => Throw e
      | Blocked, _ => Blocked
      | _, Blocked => Blocked
      | Ok a, Ok l => Ok (a :: l)
      end
  end.

(** [arr.reduce(f)] without an initial value. *)
Definition reduce {A} (f : A -> A -> A) (l : list A) : Result A :=
  match l with
  | [] => Throw TypeError
  | x :: l' => Ok (fold_left f l' x)
  end.

(** A result of a root child: [MinimaxIterationResult & {move: Move}]. *)
Record MoveResult := {
  mr_move : Move;
  mr_computedValue : ExtNum;
  mr_usedBudget : Q
}.

(** The two reductions at the end of [selectMove]. *)
Definition preferGreater (prev current : MoveResult) : MoveResult :=
  if ExtNum.gtb (mr_computedValue prev) (mr_computedValue current) then prev else current.

Definition preferSmaller (prev current : MoveResult) : MoveResult :=
  if ExtNum.ltb (mr_computedValue prev) (mr_computedValue current) then prev else current.

Definition selectBest (maximizingPlayer : bool) (results : list MoveResult)
  : Result MoveResult :=
  if maximizingPlayer then reduce preferGreater results else reduce preferSmaller results.

Section Agent.

(** The constructor argument, the [parallel] field (initialised to [true] and
    never assigned in the source) and the methods a subclass supplies. *)
Variable costSetup : CostSetup.
Variable parallel : bool.
Variable stateEvaluation : GameState -> M AgentState Q.
Variable getSuccessors : GameState -> M AgentState (list GameStateProgression).
Variable estimateNumberOfSuccessors : GameState -> Q.

Definition callStateEvaluation (gameState : GameState) : M AgentState Q :=
  do _ <- record (CalledStateEvaluation gameState);
  stateEvaluation gameState.

(** [const p = this.getSuccessors(gameState); this.successorsCache.set(gameHash, p)] *)
Definition startGetSuccessors (gameHash : string) (gameState : GameState)
  : M AgentState nat :=
  do p <- newSuccessorsPromise;
  do _ <- modify (setSuccessorsCache (insert gameHash p));
  do _ <- record (CalledGetSuccessors gameState);
  fun σ =>
    let (r, σ') := getSuccessors gameState σ in
    (match r with NoAnswer => NoAnswer | _ => Ok p end,
     setSuccessorsPromises (settle p (settled r)) σ').

(** The signature of [minimax]. *)
Definition MinimaxCall : Type :=
  Q -> GameState -> Q -> ExtNum -> ExtNum -> bool -> M AgentState MinimaxIterationResult.

Section TreeSearch.

Variable minimax : MinimaxCall.

Fixpoint serialMax (budgetForSearch depth : Q) (successors : list GameStateProgression)
    (alpha beta bestValue : ExtNum) (usedBudget : Q)
  : M AgentState MinimaxIterationResult :=
  match successors with
  | [] => ret {| computedValue := bestValue; usedBudget := usedBudget |}
  | successor :: rest =>
      let thisNodeBudget := (budgetForSearch * probability successor)%Q in
      do minimaxReturn <-
        minimax (depth + 1)%Q (nextState successor) thisNodeBudget alpha beta false;
      let value := computedValue minimaxReturn in
      let usedBudget := (usedBudget + usedBudgetOf minimaxReturn)%Q in
      let bestValue := ExtNum.max bestValue value in
      let alpha := ExtNum.max alpha value in
      if ExtNum.leb beta alpha
      then ret {| computedValue := bestValue; usedBudget := usedBudget |}
      else serialMax budgetForSearch depth rest alpha beta bestValue usedBudget
  end.

Fixpoint serialMin (budgetForSearch depth : Q) (successors : list GameStateProgression)
    (alpha beta bestValue : ExtNum) (usedBudget : Q)
  : M AgentState MinimaxIterationResult :=
  match successors with
  | [] => ret {| computedValue := bestValue; usedBudget := usedBudget |}
  | successor :: rest =>
      let thisNodeBudget := (budgetForSearch * probability successor)%Q in
      do minimaxReturn <-
        minimax (depth + 1)%Q (nextState successor) thisNodeBudget alpha beta true;
      let value := computedValue minimaxReturn in
      let usedBudget := (usedBudget + usedBudgetOf minimaxReturn)%Q in
      let bestValue := ExtNum.min bestValue value in
      let beta := ExtNum.min beta value in
      if ExtNum.leb beta alpha
      then ret {| computedValue := bestValue; usedBudget := usedBudget |}
      else serialMin budgetForSearch depth rest alpha beta bestValue usedBudget
  end.

Definition minimaxSerialTreeSearch (budgetForSearch : Q)
    (successors : list GameStateProgression) (depth : Q) (alpha beta : ExtNum)
    (maximizingPlayer : bool) : M AgentState MinimaxIterationResult :=
  if maximizingPlayer
  then serialMax budgetForSearch depth successors alpha beta NegInfinity 0%Q
  else serialMin budgetForSearch depth successors alpha beta Infinity 0%Q.

(** The children of a node, each started at [childDepth] with its share of
    the budget and run in the order of the list; every child runs, whatever
    the others do. *)
Fixpoint startAll (budgetForSearch childDepth : Q) (maximizingPlayer : bool)
    (successors : list GameStateProgression) (σ : AgentState)
  : list (Result MinimaxIterationResult) * AgentState :=
  match successors with
  | [] => ([], σ)
  | successor :: rest =>
      let thisNodeBudget := (budgetForSearch * probability successor)%Q in
      let (r, σ') :=
        minimax childDepth (nextState successor) thisNodeBudget NegInfinity Infinity
          (negb maximizingPlayer) σ in
      let (rs, σ'') := startAll budgetForSearch childDepth maximizingPlayer rest σ' in
      (r :: rs, σ'')
  end.

Definition minimaxParallelTreeSearch (budgetForSearch : Q)
    (successors : list GameStateProgression) (depth : Q) (maximizingPlayer : bool)
  : M AgentState MinimaxIterationResult :=
  do subnodeResults <-
    (fun σ => let (rs, σ') :=
                startAll budgetForSearch (depth + 1)%Q maximizingPlayer successors σ in
              (promiseAll rs, σ'));
  let usedBudget :=
    (0 + fold_left (fun acc val => acc + usedBudgetOf val) subnodeResults 0)%Q in
  let values := map computedValue subnodeResults in
  if maximizingPlayer
  then ret {| computedValue := fold_left ExtNum.max values NegInfinity;
              usedBudget := usedBudget |}
  else ret {| computedValue := fold_left ExtNum.min values Infinity;
              usedBudget := usedBudget |}.

(** The leaf branch of the function given to [new Promise] in [minimax]. *)
Definition evaluateLeaf (gameState : GameState) (usedBudget : Q)
  : M AgentState MinimaxIterationResult :=
  let usedBudget := (usedBudget + stateEvaluationCost costSetup)%Q in
  do value <- uncaught (callStateEvaluation gameState);
  ret {| computedValue := Finite value; usedBudget := usedBudget |}.

(** Its other branch ("from here on we'll be exploring the tree").  After
    [reject(new Error("No successors found"))] the source runs on over the
    empty list and calls [resolve], which a settled promise ignores. *)
Definition expandNode (depth : Q) (gameState : GameState) (gameHash : string) (budget : Q)
    (alpha beta : ExtNum) (maximizingPlayer : bool) (usedBudget : Q)
    (cachedSuccessors : option (list GameStateProgression))
    (realizedGetSuccessorsCost : Q) : M AgentState MinimaxIterationResult :=
  let usedBudget := (usedBudget + realizedGetSuccessorsCost)%Q in
  do successors <-
    match cachedSuccessors with
    | None =>
        do successorsPromise <- startGetSuccessors gameHash gameState;
        await successorsPromises successorsPromise
    | Some l => ret l
    end;
  if bool_decide (length successors = 0%nat) then throw "No successors found"
  else
    let remainingBudgetBeforeTreeSearch := (budget - usedBudget)%Q in
    do minimaxTreeSearchResult <-
      (if parallel
       then minimaxParallelTreeSearch remainingBudgetBeforeTreeSearch successors depth
              maximizingPlayer
       else minimaxSerialTreeSearch remainingBudgetBeforeTreeSearch successors depth
              alpha beta maximizingPlayer);
    let usedBudget := (usedBudget + usedBudgetOf minimaxTreeSearchResult)%Q in
    ret {| computedValue := computedValue minimaxTreeSearchResult;
           usedBudget := usedBudget |}.

(** [realizedGetSuccessorsCost + estimatedNumberOfSuccessors *
    this.costSetup.stateEvaluationCost + usedBudget], the product first and
    the two sums from left to right, each operation rounded (the sum of two
    doubles does not depend on their order). *)
Definition leafThreshold (realizedGetSuccessorsCost estimatedNumberOfSuccessors usedBudget : Q)
  : ExtNum :=
  Double.plus
    (Double.plus (Double.mul estimatedNumberOfSuccessors (stateEvaluationCost costSetup))
       realizedGetSuccessorsCost)
    usedBudget.

(** The function given to [new Promise] in [minimax], from the look-up in the
    successors cache on.  [Ok] stands for [resolve], [Throw] for [reject];
    an exception that the function does not catch leaves the promise pending
    ([uncaught]). *)
Definition explore (depth : Q) (gameState : GameState) (gameHash : string) (budget : Q)
    (alpha beta : ExtNum) (maximizingPlayer : bool) (usedBudget : Q)
  : M AgentState MinimaxIterationResult :=
  do σ <- get;
  do cachedSuccessors <-
    match successorsCache σ !! gameHash with
    | None => ret None
    | Some cachedSuccessorsPromise =>
        do l <- uncaught (await successorsPromises cachedSuccessorsPromise);
        ret (Some l)
    end;
  let estimatedNumberOfSuccessors :=
    match cachedSuccessors with
    | None => estimateNumberOfSuccessors gameState
    | Some l => inject_Z (Z.of_nat (length l))
    end in
  let realizedGetSuccessorsCost :=
    match cachedSuccessors with
    | Some _ => 0%Q
    | None => getSuccessorsCost costSetup
    end in
  if Qle_bool (maxDepth costSetup) depth
     || ExtNum.ltb (Finite budget)
          (leafThreshold realizedGetSuccessorsCost estimatedNumberOfSuccessors usedBudget)
  then evaluateLeaf gameState usedBudget
  else expandNode depth gameState gameHash budget alpha beta maximizingPlayer usedBudget
         cachedSuccessors realizedGetSuccessorsCost.

End TreeSearch.

(** [computedValueWrapper]: the promise stored in the cache follows the
    outcome of the exploration. *)
Definition settling (p : nat) (m : M AgentState MinimaxIterationResult)
  : M AgentState MinimaxIterationResult := fun σ =>
  match m σ with
  | (Ok r, σ') => (Ok r, setNumberPromises (settle p (Fulfilled (computedValue r))) σ')
  | (Throw e, σ') => (Throw e, setNumberPromises (settle p (Rejected e)) σ')
  | other => other
  end.

(** [minimax].  The calls nest without a bound known beforehand, so the
    recursion is on [fuel]: a call that needs more nesting than [fuel] has
    [NoAnswer].  The entry of the node is written to the cache before the
    exploration starts; in the source it is written when the exploration
    reaches its first [await], and nothing before that point reads the
    minimax cache. *)
Fixpoint minimax (fuel : nat) (depth : Q) (gameState : GameState) (budget : Q)
    (alpha beta : ExtNum) (maximizingPlayer : bool) {struct fuel}
  : M AgentState MinimaxIterationResult :=
  match fuel with
  | O => fun σ => (NoAnswer, σ)
  | S fuel' =>
      let gameHash := hashGameState gameState in
      let usedBudget := 0%Q in
      do σ <- get;
      let probe :=
        match minimaxCache σ !! gameHash with
        | Some cacheResult =>
            if cacheAnswers cacheResult budget then Some cacheResult else None
        | None => None
        end in
      match probe with
      | Some cacheResult =>
          do v <- await numberPromises (entry_computedValue cacheResult);
          ret {| computedValue := v; usedBudget := usedBudget |}
      | None =>
          let usedBudget := (usedBudget + basicMinimaxCost costSetup)%Q in
          do endgameState <- liftR (getEndgameState gameState);
          match endgameState with
          | checkmateWhite =>
              do p <- newNumberPromise (Fulfilled (Finite (-1)));
              do _ <- addToMinimaxCache gameHash
                        {| entry_computedValue := p; entry_budget := usedBudget |};
              ret {| computedValue := Finite (-1); usedBudget := usedBudget |}
          | checkmateBlack =>
              do p <- newNumberPromise (Fulfilled (Finite 1));
              do _ <- addToMinimaxCache gameHash
                        {| entry_computedValue := p; entry_budget := usedBudget |};
              ret {| computedValue := Finite 1; usedBudget := usedBudget |}
          | _ =>
              do p <- newNumberPromise Pending;
              do _ <- addToMinimaxCache gameHash
                        {| entry_computedValue := p; entry_budget := budget |};
              settling p
                (explore (minimax fuel') depth gameState gameHash budget alpha beta
                   maximizingPlayer usedBudget)
          end
      end
  end.

Definition withMove (successor : GameStateProgression) (r : MinimaxIterationResult)
  : MoveResult :=
  {| mr_move := move successor; mr_computedValue := computedValue r;
     mr_usedBudget := usedBudgetOf r |}.

(** The children of the root are started like those of any other node, at
    depth 1. *)
Definition selectMove (fuel : nat) (gameState : GameState) : M AgentState Move :=
  let maximizingPlayer := bool_decide (turn gameState = white) in
  let budget := totalBudget costSetup in
  let gameHash := hashGameState gameState in
  do σ <- get;
  do (successorsPromise, budget) <-
    match successorsCache σ !! gameHash with
    | Some p => ret (p, budget)
    | None =>
        do p <- startGetSuccessors gameHash gameState;
        ret (p, (budget - getSuccessorsCost costSetup)%Q)
    end;
  do successors <- await successorsPromises successorsPromise;
  if bool_decide (length successors = 0%nat) then throw "No successors found"
  else
    do results <-
      (fun σ => let (rs, σ') :=
                  startAll (minimax fuel) budget 1%Q maximizingPlayer successors σ in
                (promiseAll rs, σ'));
    do best <- liftR (selectBest maximizingPlayer (zip_with withMove successors results));
    ret (mr_move best).

End Agent.

End CompressedMinimax.

(** ** agents/LlmMinimax.ts *)

Module LLMMinimaxAgent.

Import ChessGame.

Definition maxLLMTries : nat := 5.

Definition targetSuccessorCount : Q := 8.

Definition estimateNumberOfSuccessors (game : GameState) : Q := targetSuccessorCount.

(** *** The state as text *)

Definition newline : string := String "010" "".

Definition numberToString (n : Z) : string := NilZero.string_of_int (Z.to_int n).

Definition cellStateToAsciiRepresentation (cellState : CellState) : string :=
  match piece cellState with
  | None => "."
  | Some piece =>
      let isWhite := bool_decide (color piece = white) in
      match type piece with
      | pawn => if isWhite then "P" else "p"
      | rook => if isWhite then "R" else "r"
      | knight => if isWhite then "N" else "n"
      | bishop => if isWhite then "B" else "b"
      | queen => if isWhite then "Q" else "q"
      | king => if isWhite then "K" else "k"
      end
  end.

(** [gameStateToAsciiPicture] reads the rows 7 to 0 and the columns 0 to 7 of
    each: a row or a cell that the board does not have is [undefined], and
    reading from it throws a [TypeError]. *)
Definition gameStateToAsciiPicture (gameState : GameState) : Result string :=
  let algebraicNotation := "" in
  let algebraicNotation := algebraicNotation +:+ "  a b c d e f g h" +:+ newline in
  forR (reverse (seqZ 0 8)) algebraicNotation (fun algebraicNotation row =>
    let rowString := numberToString (row + 1) +:+ " " in
    let* rowString :=
      forR (seqZ 0 8) rowString (fun rowString col =>
        let* cellState := cellAt (boardState gameState) (row, col) in
        let rowString := rowString +:+ cellStateToAsciiRepresentation cellState in
        Ok (rowString +:+ " ")) in
    let rowString := rowString +:+ numberToString (row + 1) +:+ newline in
    Ok (algebraicNotation +:+ rowString)).

Definition asciiPictureDescription : string :=
  "Above is the game state in drawn out in ascii characters." +:+ newline
  +:+ newline
  +:+ "  Each piece is represented by a single character:" +:+ newline
  +:+ "  White pieces: uppercase letters (K = king, Q = queen, R = rook, N = knight, B = bishop, P = pawn)"
  +:+ newline
  +:+ "  Black pieces: lowercase letters (k = king, q = queen, r = rook, n = knight, b = bishop, p = pawn)"
  +:+ newline
  +:+ "  ".

Definition getAllPiecePositionsAsString (gameState : GameState) : Result string :=
  let* (whitePiecesStrings, blackPiecesStrings) :=
    forR (seqZ 0 8) ([], []) (fun strings row =>
      forR (seqZ 0 8) strings (fun '(whitePiecesStrings, blackPiecesStrings) col =>
        let* cellState := cellAt (boardState gameState) (row, col) in
        match piece cellState with
        | None => Ok (whitePiecesStrings, blackPiecesStrings)
        | Some piece =>
            let locationString := convertPositionToString (row, col) in
            let pieceLocationString :=
              colorToString (color piece) +:+ " " +:+ typeToString (type piece)
              +:+ " at " +:+ locationString in
            if bool_decide (color piece = white)
            then Ok (whitePiecesStrings ++ [pieceLocationString], blackPiecesStrings)
            else Ok (whitePiecesStrings, blackPiecesStrings ++ [pieceLocationString])
        end)) in
  Ok ("Here are the positions of the pieces:" +:+ newline
      +:+ "    White pieces:" +:+ newline
      +:+ "    " +:+ String.concat newline whitePiecesStrings +:+ newline
      +:+ "    Black pieces:" +:+ newline
      +:+ "    " +:+ String.concat newline blackPiecesStrings +:+ newline
      +:+ "    ").

Definition getMoveHistoryAsString (gameState : GameState) : string :=
  let moveHistoryStrings := map algebraic (moveHistory gameState) in
  String.concat " " moveHistoryStrings.

Definition quoted (str : string) : string := String "034" (str +:+ String "034" "").

(** [JSON.stringify(pieceCount, null, 2)] *)
Definition stringifyForOnePlayer (count : PieceCountForOnePlayer) : string :=
  "{" +:+ newline
  +:+ "    " +:+ quoted "pawn" +:+ ": " +:+ numberToString (count_pawn count) +:+ ","
  +:+ newline
  +:+ "    " +:+ quoted "rook" +:+ ": " +:+ numberToString (count_rook count) +:+ ","
  +:+ newline
  +:+ "    " +:+ quoted "knight" +:+ ": " +:+ numberToString (count_knight count) +:+ ","
  +:+ newline
  +:+ "    " +:+ quoted "bishop" +:+ ": " +:+ numberToString (count_bishop count) +:+ ","
  +:+ newline
  +:+ "    " +:+ quoted "queen" +:+ ": " +:+ numberToString (count_queen count) +:+ ","
  +:+ newline
  +:+ "    " +:+ quoted "king" +:+ ": " +:+ numberToString (count_king count) +:+ newline
  +:+ "  }".

Definition stringifyPieceCount (pieceCount : PieceCount) : string :=
  "{" +:+ newline
  +:+ "  " +:+ quoted "white" +:+ ": " +:+ stringifyForOnePlayer (count_white pieceCount)
  +:+ "," +:+ newline
  +:+ "  " +:+ quoted "black" +:+ ": " +:+ stringifyForOnePlayer (count_black pieceCount)
  +:+ newline
  +:+ "}".

Definition getPieceCountAsString (gameState : GameState) : string :=
  let pieceCount := getPieceCount gameState in
  let pieceCountStringified := stringifyPieceCount pieceCount in
  "Here is the piece count for each player:" +:+ newline
  +:+ "    " +:+ pieceCountStringified.

(** [getTextRepresentation]: the template is filled from left to right, the
    picture first. *)
Definition getTextRepresentation (gameState : GameState) : Result string :=
  let* picture := gameStateToAsciiPicture gameState in
  let pieceCount := getPieceCountAsString gameState in
  let* positions := getAllPiecePositionsAsString gameState in
  Ok ("This is a regular game of chess. Here's what the board looks like:" +:+ newline
      +:+ "    " +:+ picture +:+ newline
      +:+ "    " +:+ asciiPictureDescription +:+ newline
      +:+ "    " +:+ pieceCount +:+ newline
      +:+ "    " +:+ positions +:+ newline
      +:+ "    Here is the move history in algebraic notation:" +:+ newline
      +:+ "    " +:+ getMoveHistoryAsString gameState +:+ newline
      +:+ newline
      +:+ "    It is the " +:+ colorToString (turn gameState)
      +:+ " player's turn to move." +:+ newline
      +:+ "    ").

(** *** The strings of [extractMovesFromMessage] *)

(** A string of the program is kept as the bytes of its UTF-8 encoding: a
    character of ASCII is one byte, any other character a sequence of two to
    four bytes from 128 on, and no sequence occurs inside another. *)
Definition bytes (codes : list Z) : string :=
  string_of_list_ascii (map (fun code => ascii_of_nat (Z.to_nat code)) codes).

(** The line terminators of ECMAScript: LF, CR, U+2028 and U+2029. *)
Definition lineTerminators : list string :=
  [ bytes [10]; bytes [13]; bytes [226; 128; 168]; bytes [226; 128; 169] ].

(** Its white space: TAB, VT, FF, SP, U+00A0, U+FEFF, and the other space
    separators of Unicode, U+1680, U+2000 to U+200A, U+202F, U+205F and
    U+3000. *)
Definition whiteSpaces : list string :=
  [ bytes [9]; bytes [11]; bytes [12]; bytes [32]; bytes [194; 160]; bytes [239; 187; 191];
    bytes [225; 154; 128] ]
  ++ map (fun last => bytes [226; 128; last]) (seqZ 128 11)
  ++ [ bytes [226; 128; 175]; bytes [226; 129; 159]; bytes [227; 128; 128] ].

(** The rest of [s] after [pat], when [s] starts with [pat]. *)
Fixpoint stripPrefix (pat s : string) : option string :=
  match pat, s with
  | EmptyString, _ => Some s
  | String a pat', String b s' => if bool_decide (a = b) then stripPrefix pat' s' else None
  | String _ _, EmptyString => None
  end.

(** The rest of [s] after the first of [pats] that [s] starts with. *)
Fixpoint stripAny (pats : list string) (s : string) : option string :=
  match pats with
  | [] => None
  | pat :: pats' =>
      match stripPrefix pat s with
      | Some rest => Some rest
      | None => stripAny pats' s
      end
  end.

(** The rest of [s] after the first occurrence of [pat]. *)
Fixpoint afterFirst (pat s : string) : option string :=
  match stripPrefix pat s with
  | Some rest => Some rest
  | None =>
      match s with
      | EmptyString => None
      | String _ s' => afterFirst pat s'
      end
  end.

(** What the group matches: the characters up to the end of the line (the
    dot of a regular expression matches no line terminator). *)
Fixpoint restOfLine (s : string) : string :=
  match stripAny lineTerminators s with
  | Some _ => EmptyString
  | None =>
      match s with
      | EmptyString => EmptyString
      | String c s' => String c (restOfLine s')
      end
  end.

(** [searchRegex.exec(llmOutput)] for the pattern ["Moves: "] followed by the
    rest of the line: the group of the first match. *)
Definition matchMoves (llmOutput : string) : option string :=
  restOfLine <$> afterFirst "Moves: " llmOutput.

(** [str.split(",")] *)
Fixpoint splitOnComma (s : string) : list string :=
  match s with
  | EmptyString => [EmptyString]
  | String c s' =>
      if bool_decide (c = ","%char) then EmptyString :: splitOnComma s'
      else
        match splitOnComma s' with
        | [] => [String c EmptyString]
        | w :: ws => String c w :: ws
        end
  end.

Definition reverseString (s : string) : string :=
  string_of_list_ascii (rev (list_ascii_of_string s)).

(** [s] without the sequences of [pats] that it starts with; each round
    removes at least one byte, so [fuel] is the length of [s]. *)
Fixpoint dropLeading (pats : list string) (fuel : nat) (s : string) : string :=
  match fuel with
  | O => s
  | S fuel' =>
      match stripAny pats s with
      | Some rest => dropLeading pats fuel' rest
      | None => s
      end
  end.

Definition trimStart (s : string) : string :=
  dropLeading (lineTerminators ++ whiteSpaces) (String.length s) s.

Definition trimEnd (s : string) : string :=
  reverseString
    (dropLeading (map reverseString (lineTerminators ++ whiteSpaces)) (String.length s)
       (reverseString s)).

(** [str.trim()]: without the white space and the line terminators at either
    end. *)
Definition trim (s : string) : string := trimEnd (trimStart s).

Definition validMoveMappingOf (validMoves : list Move) : gmap string Move :=
  fold_left (fun mapping mv => <[algebraic mv := mv]> mapping) validMoves ∅.

(** One round of the loop over [moveStrings]: the move that the string
    selects, if any. *)
Definition selectedMove (validMoveMapping : gmap string Move) (moveString : string)
  : option Move :=
  match validMoveMapping !! moveString with
  | Some mv => Some mv
  | None =>
      let withoutFirstChar :=
        match moveString with
        | String c rest =>
            if bool_decide (c = "P"%char) || bool_decide (c = "p"%char)
            then validMoveMapping !! rest
            else None
        | EmptyString => None
        end in
      match withoutFirstChar with
      | Some mv => Some mv
      | None =>
          let shortCastle :=
            if bool_decide (moveString = "O-O") then validMoveMapping !! "0-0" else None in
          match shortCastle with
          | Some mv => Some mv
          | None =>
              if bool_decide (moveString = "O-O-O") then validMoveMapping !! "0-0-0"
              else None
          end
      end
  end.

Definition extractMovesFromMessage (validMoveMapping : gmap string Move)
    (llmOutput : string) : option (list Move) :=
  match matchMoves llmOutput with
  | None => None
  | Some movesString =>
      let moveStrings := map trim (splitOnComma movesString) in
      let moves := omap (selectedMove validMoveMapping) moveStrings in
      if bool_decide (length moves = 0%nat) then None else Some moves
  end.

Section Agent.

(** The constructor arguments: the oracle and the cost setup.  [Math.exp] is
    taken as given: what it returns is the double nearest to [Math_exp x],
    zero where that underflows and [Infinity] where it overflows. *)
Variable callLLM : CallLLM.
Variable Math_exp : Q -> Q.
Variable costSetup : CostSetup.

Definition isRequest (e : Event) : bool :=
  match e with CalledLLM _ => true | _ => false end.

(** The number of requests sent so far. *)
Definition requestsSent (σ : AgentState) : nat := length (filter isRequest (history σ)).

(** [await this.callLLM(args)] *)
Definition request (args : CallLLMArgs) : M AgentState (list MessageChoice) := fun σ =>
  let σ' := snd (record (CalledLLM args) σ) in
  match callLLM (requestsSent σ) args with
  | Fails e => (Throw e, σ')
  | Replies choices => (Ok choices, σ')
  end.

(** [while ((!messageChoices) && tries++ < maxLLMTries) { try { messageChoices
    = await this.callLLM(...) } catch (e) { continue } }], with [triesLeft]
    for [maxLLMTries - tries]; any array the oracle returns ends the loop. *)
Fixpoint askUntilAnswered (triesLeft : nat) (args : CallLLMArgs)
  : M AgentState (option (list MessageChoice)) :=
  match triesLeft with
  | O => ret None
  | S triesLeft' =>
      do r <- try (request args);
      match r with
      | inr messageChoices => ret (Some messageChoices)
      | inl _ => askUntilAnswered triesLeft' args
      end
  end.

Definition settleMessage (p : nat) (v : Promise Message) : M AgentState unit :=
  modify (setMessagePromises (settle p v)).

(** [getGameDescription], its second component (the first is the text, which
    the prompts of the model stand for by the state that it renders).  The
    new promise is stored in the cache before the loop runs; the source
    stores it when the loop reaches its first [await], and the loop does not
    read the cache. *)
Definition getGameDescription (gameState : GameState) : M AgentState Message :=
  let hash := hashGameState gameState in
  do textRepresentation <- liftR (getTextRepresentation gameState);
  do σ <- get;
  match gameDescriptionCache σ !! hash with
  | Some p => await messagePromises p
  | None =>
      do descriptionAsPromise <- newMessagePromise;
      do _ <- modify (setGameDescriptionCache (insert hash descriptionAsPromise));
      do messageChoices <-
        askUntilAnswered maxLLMTries
          {| messages := DescribePrompt gameState; max_tokens := 500;
             temperature := 6 # 10; n := 1 |};
      do _ <-
        match messageChoices with
        | None =>
            settleMessage descriptionAsPromise
              (Rejected "Exceeded max tries and could not get game description from LLM")
        | Some [] => ret tt   (* [messageChoices[0].message] throws, uncaught *)
        | Some (messageChoice :: _) =>
            settleMessage descriptionAsPromise (Fulfilled (message messageChoice))
        end;
      await messagePromises descriptionAsPromise
  end.

Definition normalizeLogprobs (logprobs : list TokenLogprob) : gmap string Double.Number :=
  let unNormalizedProbs :=
    map (fun t => (token t, Some (Double.round (Math_exp (logprob t))))) logprobs in
  let unNormalizedProbsSum :=
    fold_left (fun acc tp => Double.add acc tp.2) unNormalizedProbs (Some (Finite 0)) in
  fold_left (fun normalizedProbs tp =>
               <[tp.1 := Double.div tp.2 unNormalizedProbsSum]> normalizedProbs)
    unNormalizedProbs ∅.

(** [stateEvaluation].  The value of the search is a finite number in the
    model: where the source returns NaN or an infinity, the model has no
    answer. *)
Definition stateEvaluation (gameState : GameState) : M AgentState Q :=
  do gameDescriptionMessage <- getGameDescription gameState;
  do messageChoices <-
    askUntilAnswered maxLLMTries
      {| messages := EvaluatePrompt gameState gameDescriptionMessage; max_tokens := 1;
         temperature := 0; n := 1 |};
  match messageChoices with
  | None => throw "Exceeded max tries and could not get game description from LLM"
  | Some [] => throw TypeError
  | Some (messageChoice :: _) =>
      match logprobs messageChoice with
      | None =>
          if bool_decide (content (message messageChoice) = Some "black")
          then ret (-1)%Q
          else ret 1%Q
      | Some lp =>
          match logprobs_content lp with
          | [] => throw TypeError
          | first :: _ =>
              match top_logprobs first with
              | None => throw "No top logprobs in message choice"
              | Some topLogprobs =>
                  let normalizedProbs := normalizeLogprobs topLogprobs in
                  match normalizedProbs !! "white", normalizedProbs !! "black" with
                  | Some (Some (Finite w)), Some _ => ret w
                  | Some _, Some _ => fun σ => (NoAnswer, σ)
                  | _, _ => throw "Black or white not in normalized probs"
                  end
              end
          end
      end
  end.

(** The [while (moves === null)] loop of
    [getSuccessorsInOneSingleOptionLLMCall].  Nothing bounds the number of its
    rounds beforehand, so the recursion is on [fuel]. *)
Fixpoint askForMoves (fuel : nat) (tires : nat) (args : CallLLMArgs)
    (validMoveMapping : gmap string Move) : M AgentState (list Move) :=
  match fuel with
  | O => fun σ => (NoAnswer, σ)
  | S fuel' =>
      if bool_decide (maxLLMTries <= tires)%nat
      then throw "Exceeded max tries and could not extract moves from LLM output"
      else
        do r <- try (request args);
        match r with
        | inl _ => askForMoves fuel' tires args validMoveMapping   (* [continue] *)
        | inr [] => throw TypeError
        | inr (messageChoice :: _) =>
            match content (message messageChoice) with
            | None | Some EmptyString => throw "No message content in message choice"
            | Some messageContent =>
                match extractMovesFromMessage validMoveMapping messageContent with
                | Some moves => ret moves
                | None => askForMoves fuel' (S tires) args validMoveMapping
                end
            end
        end
  end.

(** [moves.map(move => ({nextState: ..., move, probability}))] *)
Fixpoint progressions (gameState : GameState) (constantProbability : Q) (moves : list Move)
  : Result (list GameStateProgression) :=
  match moves with
  | [] => Ok []
  | mv :: rest =>
      let* next := stateAfter gameState mv in
      let* ps := progressions gameState constantProbability rest in
      Ok ({| nextState := next; move := mv; probability := constantProbability |} :: ps)
  end.

Definition getSuccessorsInOneSingleOptionLLMCall (fuel : nat) (gameState : GameState)
  : M AgentState (list GameStateProgression) :=
  do gameDescriptionMessage <- getGameDescription gameState;
  do validMoves <- liftR (getAllLegalMoves gameState (turn gameState));
  let listOfValidMoveRepresentations := map algebraic validMoves in
  let args :=
    {| messages := SuccessorsPrompt gameState gameDescriptionMessage
                     listOfValidMoveRepresentations;
       max_tokens := 300; temperature := 1; n := 1 |} in
  let validMoveMapping := validMoveMappingOf validMoves in
  do moves <- askForMoves fuel 0 args validMoveMapping;
  let constantProbability := (1 / inject_Z (Z.of_nat (length moves)))%Q in
  liftR (progressions gameState constantProbability moves).

Definition getSuccessors (fuel : nat) (gameState : GameState)
  : M AgentState (list GameStateProgression) :=
  getSuccessorsInOneSingleOptionLLMCall fuel gameState.

(** The inherited methods, with the ones above in place of the abstract ones
    ([parallel] is [true]). *)
Definition minimax (fuel : nat) : CompressedMinimax.MinimaxCall :=
  CompressedMinimax.minimax costSetup true stateEvaluation (getSuccessors fuel)
    estimateNumberOfSuccessors fuel.

Definition selectMove (fuel : nat) (gameState : GameState) : M AgentState Move :=
  CompressedMinimax.selectMove costSetup true stateEvaluation (getSuccessors fuel)
    estimateNumberOfSuccessors fuel gameState.

End Agent.

End LLMMinimaxAgent.

(** ** agents/callGenericAgent.ts: the cost setup of both packaged agents *)

Definition packagedCostSetup : CostSetup := {|
  maxDepth := 1;
  totalBudget := 500;
  stateEvaluationCost := 10;
  getSuccessorsCost := 10;
  basicMinimaxCost := 1
|}.

(** ** Notions used in the statements *)

(** A board of eight rows of eight cells. *)
Definition wfBoard (b : list (list CellState)) : Prop :=
  length b = 8%nat /\ Forall (fun row => length row = 8%nat) b.

Definition onBoard (pos : Position) : Prop :=
  0 <= pos.1 <= 7 /\ 0 <= pos.2 <= 7.

(** Which cells of a board are empty. *)
Definition occupancy (b : list (list CellState)) : list (list bool) :=
  map (map (fun c => bool_decide (piece c = None))) b.

(** One of the eight directions in which a piece slides. *)
Definition slidingDirection (d : Position) : Prop :=
  d ∈ ChessGame.linearDirections ++ ChessGame.diagonalDirections.

(** The number of steps from [pos] in direction [d] that can stay on the
    board, and one more. *)
Definition stepsToEdge (d pos : Position) : Z :=
  if d.1 =? 1 then 8 - pos.1
  else if d.1 =? -1 then pos.1 + 1
  else if d.2 =? 1 then 8 - pos.2
  else pos.2 + 1.

(** The move is among those generated for the piece at [pos]. *)
Definition generated (s : GameState) (pos : Position) (mv : Move) : Prop :=
  exists l, ChessGame.getMovesFromPosition s pos = Ok l /\ mv ∈ l.

(** The move is in [getAllLegalMoves(col)]. *)
Definition legal (s : GameState) (col : PlayerColor) (mv : Move) : Prop :=
  exists l, ChessGame.getAllLegalMoves s col = Ok l /\ mv ∈ l.

Definition isLegal (s : GameState) (col : PlayerColor) (mv : Move) : bool :=
  match ChessGame.getAllLegalMoves s col with
  | Ok l => bool_decide (mv ∈ l)
  | _ => false
  end.

(** The pawn at [pos], of colour [col], is offered the en-passant capture that
    lands on [target]: the capture is generated for it, and is in the list of
    legal moves of [col] unless it leaves the mover in check. *)
Definition enPassantOffered (s : GameState) (col : PlayerColor) (pos target : Position)
  : Prop :=
  exists ep, generated s pos ep /\ from ep = pos /\ to ep = target /\ enPassant ep = true
    /\ (ChessGame.doesMovePutMovingPlayerInCheck s ep = Ok false ->
        forall l, ChessGame.getAllLegalMoves s col = Ok l -> ep ∈ l).

(** The capture [ep], legal for black in [s1], is gone once black has moved and
    white has answered with a move that is not a double step of a pawn. *)
Definition enPassantExpires (s1 : GameState) (ep : Move) : Prop :=
  forall b s2 w s3,
    legal s1 black b -> ChessGame.makeMove b s1 = (Ok tt, s2) ->
    legal s2 white w -> isPawnMoving2 w = false ->
    ChessGame.makeMove w s2 = (Ok tt, s3) ->
    ~ legal s3 black ep.

(** The cells that [makeMove] may write when [col] is to move. *)
Definition squaresWritten (col : PlayerColor) (mv : Move) : list Position :=
  [ from mv; to mv ]
  ++ (if enPassant mv
      then [ ((to mv).1 + match col with white => -1 | black => 1 end, (to mv).2) ]
      else if castling mv
      then [ ((from mv).1, if (to mv).2 =? 6 then 7 else 0);
             ((from mv).1, if (to mv).2 =? 6 then 5 else 3) ]
      else []).

(** What one generated move adds to the list of legal moves. *)
Definition legalOfMove (s : GameState) (mv : Move) : Result (list Move) :=
  let* inCheck := ChessGame.doesMovePutMovingPlayerInCheck s mv in
  Ok (if inCheck then [] else [mv]).

(** Every run of [m] takes a state to one related to it by [R]. *)
Definition keeps {S A} (R : S -> S -> Prop) (m : M S A) : Prop :=
  forall s, R s (snd (m s)).

(** The board stays a board, and reads as before outside the cells [W]. *)
Definition sameOutside (W : list Position) (s s' : GameState) : Prop :=
  (wfBoard (boardState s) -> wfBoard (boardState s'))
  /\ forall pos, pos ∉ W ->
       ChessGame.cellAt (boardState s') pos = ChessGame.cellAt (boardState s) pos.

(** What the minimax cache holds for a hash: the state of the promise of its
    entry. *)
Definition cachedValue (σ : AgentState) (gameHash : string) : option (Promise ExtNum) :=
  match minimaxCache σ !! gameHash with
  | Some entry => numberPromises σ !! entry_computedValue entry
  | None => None
  end.

(** The cache probe of [minimax] does not answer a request for [gameState]
    with [budget]. *)
Definition probeMisses (σ : AgentState) (gameState : GameState) (budget : Q) : Prop :=
  match minimaxCache σ !! ChessGame.hashGameState gameState with
  | Some cacheResult => CompressedMinimax.cacheAnswers cacheResult budget = false
  | None => True
  end.

(** The value of a state in which the game is decided. *)
Definition terminalValue (e : EndgameState) : option Q :=
  match e with
  | checkmateWhite => Some (-1)%Q
  | checkmateBlack => Some 1%Q
  | draw | inProgress => None
  end.

(** The state of an agent once a node has published its entry: a new promise
    in state [v], offered to the cache under [gameHash] with [budget]. *)
Definition published (σ : AgentState) (gameHash : string) (v : Promise ExtNum) (budget : Q)
  : AgentState :=
  snd (CompressedMinimax.addToMinimaxCache gameHash
         {| entry_computedValue := length (numberPromises σ); entry_budget := budget |}
         (snd (newNumberPromise v σ))).


(** [a] is at least as good as [b] for the player who chooses. *)
Definition atLeastAsGood (maximizingPlayer : bool) (a b : ExtNum) : bool :=
  if maximizingPlayer then ExtNum.leb b a else ExtNum.leb a b.

(** The agent after [n] more requests with [args] that changed nothing else. *)
Definition withRequests (σ : AgentState) (args : CallLLMArgs) (n : nat) : AgentState :=
  {| minimaxCache := minimaxCache σ; successorsCache := successorsCache σ;
     gameDescriptionCache := gameDescriptionCache σ; numberPromises := numberPromises σ;
     successorsPromises := successorsPromises σ; messagePromises := messagePromises σ;
     history := history σ ++ replicate n (CalledLLM args) |}.

(** The description cache holds, under [gameHash], a promise rejected with [e]. *)
Definition descriptionRejected (σ : AgentState) (gameHash : string) (e : string) : Prop :=
  exists p, gameDescriptionCache σ !! gameHash = Some p
    /\ messagePromises σ !! p = Some (Rejected e).

(** Whatever rejected description the cache holds in [σ], it holds in [σ']. *)
Definition rejectionsStay (σ σ' : AgentState) : Prop :=
  forall gameHash e, descriptionRejected σ gameHash e -> descriptionRejected σ' gameHash e.

(** The oracle fails the [n] requests that follow those already sent. *)
Definition failsNext (callLLM : CallLLM) (σ : AgentState) (n : nat) : Prop :=
  forall k args, (LLMMinimaxAgent.requestsSent σ <= k < LLMMinimaxAgent.requestsSent σ + n)%nat ->
    exists e, callLLM k args = Fails e.

Definition describeArgs (gameState : GameState) : CallLLMArgs :=
  {| messages := DescribePrompt gameState; max_tokens := 500; temperature := 6 # 10; n := 1 |}.

Definition evaluateArgs (gameState : GameState) (gameDescriptionMessage : Message)
  : CallLLMArgs :=
  {| messages := EvaluatePrompt gameState gameDescriptionMessage; max_tokens := 1;
     temperature := 0; n := 1 |}.

Definition exhausted : string :=
  "Exceeded max tries and could not get game description from LLM".

(** ** Positions and moves used as examples *)

Definition emptyBoard : list (list CellState) := replicate 8 (replicate 8 blankCell).

Definition place (r c : nat) (p : Piece) (b : list (list CellState))
  : list (list CellState) :=
  match b !! r with
  | Some row => <[r := <[c := {| piece := Some p |}]> row]> b
  | None => b
  end.

Definition aPiece (t : PieceType) (c : PlayerColor) (moved : bool) : Piece :=
  {| type := t; color := c; hasMoved := moved; justMoved2 := None |}.

Definition simpleMove (f t : Position) (a : string) : Move :=
  {| from := f; to := t; algebraic := a; enPassant := false; castling := false;
     isPawnMoving2 := false; promotion := None |}.

(** The start position with a bishop on b1 instead of the knight. *)
Definition bishopOnB1 : GameState := {|
  turn := white;
  boardState := place 0 1 (aPiece bishop white false) (boardState initialGameState);
  moveHistory := []
|}.

(** White: Ke1, Ng1, pawn e2.  Black: Ke8, pawn d4.  White to move. *)
Definition pawnsFacing : GameState := {|
  turn := white;
  boardState :=
    place 0 4 (aPiece king white false)
      (place 0 6 (aPiece knight white false)
        (place 1 4 (aPiece pawn white false)
          (place 3 3 (aPiece pawn black true)
            (place 7 4 (aPiece king black false) emptyBoard))));
  moveHistory := []
|}.

Definition e2e4 : Move :=
  {| from := (1, 4); to := (3, 4); algebraic := "e4"; enPassant := false;
     castling := false; isPawnMoving2 := true; promotion := None |}.

Definition d4xe3 : Move :=
  {| from := (3, 3); to := (2, 4); algebraic := "e3"; enPassant := true;
     castling := false; isPawnMoving2 := false; promotion := None |}.


Definition Ke8e7 : Move := simpleMove (7, 4) (6, 4) "Ke7".

Definition Ng1f3 : Move := simpleMove (0, 6) (2, 5) "Nf3".

Definition afterE4 : GameState := snd (ChessGame.makeMove e2e4 pawnsFacing).

Definition afterKe7 : GameState := snd (ChessGame.makeMove Ke8e7 afterE4).

Definition afterNf3 : GameState := snd (ChessGame.makeMove Ng1f3 afterKe7).

(** White: Ka1.  Black: Qb2, Kh8.  White to move, and mated. *)
Definition whiteMated : GameState := {|
  turn := white;
  boardState :=
    place 0 0 (aPiece king white true)
      (place 1 1 (aPiece queen black true)
        (place 7 7 (aPiece king black true) emptyBoard));
  moveHistory := []
|}.

(** Black: Kh8.  White: Qg7, Ka1.  Black to move, and mated. *)
Definition blackMated : GameState := {|
  turn := black;
  boardState :=
    place 7 7 (aPiece king black true)
      (place 6 6 (aPiece queen white true)
        (place 0 0 (aPiece king white true) emptyBoard));
  moveHistory := []
|}.

(** White: Ka1.  Black: Nb2, Kh8.  White to move; the cells occupied are those
    of [whiteMated], and the game goes on. *)
Definition whiteNotMated : GameState := {|
  turn := white;
  boardState :=
    place 0 0 (aPiece king white true)
      (place 1 1 (aPiece knight black true)
        (place 7 7 (aPiece king black true) emptyBoard));
  moveHistory := []
|}.

(** An agent that has searched [whiteNotMated] with budget 5, its evaluation
    being 0.25: its minimax cache holds that entry under the hash that
    [whiteMated] has too. *)
Definition staleAgent : AgentState :=
  snd (CompressedMinimax.minimax packagedCostSetup true
         (fun _ => ret (1 # 4)) (fun _ => throw "not called") (fun _ => 8%Q)
         1 1 whiteNotMated 5 NegInfinity Infinity true emptyAgent).

(** An agent that has searched the start position with budget 500 while its
    [getSuccessors] threw: the promise of its entry in the minimax cache and
    the promise in its successors cache are rejected. *)
Definition failedAgent : AgentState :=
  snd (CompressedMinimax.minimax packagedCostSetup true
         (fun _ => ret (1 # 2)) (fun _ => throw "oracle down") (fun _ => 8%Q)
         2 0 initialGameState 500 NegInfinity Infinity true emptyAgent).

(** Stub oracles. *)
Definition says (text : string) : MessageChoice :=
  {| message := {| content := Some text; role := assistant |}; logprobs := None |}.

(** Answers the first request, fails every later one. *)
Definition answersOnce : CallLLM := fun k _ =>
  match k with
  | O => Replies [says "a quiet position"]
  | S _ => Fails "rate limit"
  end.

(** Fails every request. *)
Definition alwaysFails : CallLLM := fun _ _ => Fails "rate limit".

(** Describes the position, and answers "draw", without log-probabilities,
    when asked who is more likely to win. *)
Definition saysDraw : CallLLM := fun _ args =>
  match messages args with
  | DescribePrompt _ => Replies [says "a quiet position"]
  | EvaluatePrompt _ _ => Replies [says "draw"]
  | SuccessorsPrompt _ _ _ => Replies [says "Moves: e4"]
  end.


(** Describes the position; asked who is more likely to win, fails while
    fewer than three requests were sent, and then answers "black", without
    log-probabilities. *)
Definition saysBlackLate : CallLLM := fun k args =>
  match messages args with
  | DescribePrompt _ => Replies [says "a quiet position"]
  | EvaluatePrompt _ _ =>
      if (k <? 3)%nat then Fails "rate limit" else Replies [says "black"]
  | SuccessorsPrompt _ _ _ => Replies [says "Moves: e4"]
  end.

(** ** Notions for the moves of the pieces *)

(** The square [k] steps from [pos] in direction [d]. *)
Definition along (pos d : Position) (k : Z) : Position :=
  (pos.1 + k * d.1, pos.2 + k * d.2).

(** The cell at [pos] holds the piece [p]; it holds none. *)
Definition holds (s : GameState) (pos : Position) (p : Piece) : Prop :=
  ChessGame.cellAt (boardState s) pos = Ok {| piece := Some p |}.

Definition emptyAt (s : GameState) (pos : Position) : Prop :=
  ChessGame.cellAt (boardState s) pos = Ok {| piece := None |}.

Definition enemyAt (s : GameState) (col : PlayerColor) (pos : Position) : Prop :=
  exists q, holds s pos q /\ color q <> col.

(** A square a piece of colour [col] may end on: empty, or held by the other
    side. *)
Definition notOwn (s : GameState) (col : PlayerColor) (pos : Position) : Prop :=
  emptyAt s pos \/ enemyAt s col pos.

(** The move from [pos] to [target] with the flags of [flags], as
    [annotateMove] completes it in [s]. *)
Definition annotated (s : GameState) (flags : Move -> Move) (pos target : Position)
    (m : Move) : Prop :=
  ChessGame.annotateMove s (flags (ChessGame.plainMove pos target)) = Ok m.

(** [m] goes from [pos] along one of [dirs], over empty squares only, to a
    square on the board that the side [col] does not hold. *)
Definition slidesTo (s : GameState) (pos : Position) (col : PlayerColor)
    (dirs : list Position) (m : Move) : Prop :=
  exists d k, d ∈ dirs /\ 1 <= k /\ onBoard (along pos d k)
    /\ (forall j, 1 <= j < k -> emptyAt s (along pos d j))
    /\ notOwn s col (along pos d k)
    /\ annotated s id pos (along pos d k) m.

(** [m] is one step of [dirs] from [pos], to a square on the board that the
    side [col] does not hold. *)
Definition stepsTo (s : GameState) (pos : Position) (col : PlayerColor)
    (dirs : list Position) (m : Move) : Prop :=
  exists d, d ∈ dirs /\ onBoard (along pos d 1)
    /\ notOwn s col (along pos d 1)
    /\ annotated s id pos (along pos d 1) m.

(** The directions in which a piece of type [t] slides. *)
Definition slideDirections (t : PieceType) : list Position :=
  match t with
  | rook => ChessGame.linearDirections
  | bishop => ChessGame.diagonalDirections
  | queen => ChessGame.linearDirections ++ ChessGame.diagonalDirections
  | pawn | knight | king => []
  end.

(** Towards the other side of the board. *)
Definition forward (col : PlayerColor) : Z :=
  match col with white => 1 | black => -1 end.

(** The row from which a pawn of colour [col] captures en passant. *)
Definition enPassantRow (col : PlayerColor) : Z :=
  match col with white => 4 | black => 3 end.

(** The four kinds of move of the pawn [p] at [pos]: one step forward onto an
    empty square; two steps, for a pawn that has not moved, over an empty
    square onto an empty square; a capture on one of the two squares
    diagonally ahead; a capture en passant, from the en-passant row, of an
    enemy pawn beside it whose [justMoved2] is set. *)
Definition pawnMovesTo (s : GameState) (pos : Position) (p : Piece) (m : Move) : Prop :=
  let f := forward (color p) in
  (onBoard (pos.1 + f, pos.2) /\ emptyAt s (pos.1 + f, pos.2)
   /\ annotated s id pos (pos.1 + f, pos.2) m)
  \/ (hasMoved p = false
      /\ onBoard (pos.1 + f, pos.2) /\ emptyAt s (pos.1 + f, pos.2)
      /\ onBoard (pos.1 + f * 2, pos.2) /\ emptyAt s (pos.1 + f * 2, pos.2)
      /\ annotated s ChessGame.setPawnMoving2 pos (pos.1 + f * 2, pos.2) m)
  \/ (exists side, (side = -1 \/ side = 1)
        /\ onBoard (pos.1 + f, pos.2 + side)
        /\ enemyAt s (color p) (pos.1 + f, pos.2 + side)
        /\ annotated s id pos (pos.1 + f, pos.2 + side) m)
  \/ (exists side q, (side = -1 \/ side = 1)
        /\ pos.1 = enPassantRow (color p)
        /\ onBoard (pos.1, pos.2 + side)
        /\ holds s (pos.1, pos.2 + side) q
        /\ type q = pawn /\ color q <> color p /\ justMoved2 q = Some true
        /\ annotated s ChessGame.setEnPassant pos (pos.1 + f, pos.2 + side) m).

(** The castling move of the king at [pos] that lands in column [target],
    with the notation [a]. *)
Definition castlingMove (pos : Position) (target : Z) (a : string) : Move :=
  {| from := pos; to := (pos.1, target); algebraic := a; enPassant := false;
     castling := true; isPawnMoving2 := false; promotion := None |}.

(** Castling as [getKingMoves] offers it to the king [p] at [pos]: the king
    has not moved, the corner of its row holds a piece that has not moved, and
    the squares between them are empty. *)
Definition castlesTo (s : GameState) (pos : Position) (p : Piece) (m : Move) : Prop :=
  hasMoved p = false
  /\ (((exists r, holds s (pos.1, 0) r /\ hasMoved r = false)
       /\ emptyAt s (pos.1, 1) /\ emptyAt s (pos.1, 2) /\ emptyAt s (pos.1, 3)
       /\ m = castlingMove pos 2 "0-0-0")
      \/ ((exists r, holds s (pos.1, 7) r /\ hasMoved r = false)
          /\ emptyAt s (pos.1, 5) /\ emptyAt s (pos.1, 6)
          /\ m = castlingMove pos 6 "0-0")).

(** ** Notions for the effect of a move *)

(** The piece that [movePieceAccordingToMove] puts on the target square when
    [col] is to move and [p] is the piece that moves. *)
Definition movedPiece (col : PlayerColor) (m : Move) (p : Piece) : Piece :=
  match promotion m with
  | Some t => {| type := t; color := col; hasMoved := true; justMoved2 := None |}
  | None => {| type := type p; color := color p; hasMoved := true;
               justMoved2 := Some (isPawnMoving2 m) |}
  end.

(** The square that [executeEnPassant] empties when [col] is to move. *)
Definition capturedSquare (col : PlayerColor) (m : Move) : Position :=
  ((to m).1 + match col with white => -1 | black => 1 end, (to m).2).

(** The squares between which [executeCastling] moves the piece of the
    corner. *)
Definition rookStart (m : Move) : Position :=
  ((from m).1, if (to m).2 =? 6 then 7 else 0).

Definition rookEnd (m : Move) : Position :=
  ((from m).1, if (to m).2 =? 6 then 5 else 3).

(** ** Notions for the end of the game *)

Definition checkmateOf (col : PlayerColor) : EndgameState :=
  match col with white => checkmateWhite | black => checkmateBlack end.

(** The error [e] is that of [makeMove] refusing a move generated for a piece
    of [col], which is not to move. *)
Definition refused (s : GameState) (col : PlayerColor) (e : string) : Prop :=
  exists pos p m,
    holds s pos p /\ color p = col /\ generated s pos m
    /\ e = "Failed to make move, " +:+ algebraic m +:+ " Not your turn".

(** ** Notions for check *)

(** From [kpos], the square [target] lies in one of the directions [dirs]
    with only empty squares between them. *)
Definition seesAlong (s : GameState) (kpos : Position) (dirs : list Position)
    (target : Position) : Prop :=
  exists d k, d ∈ dirs /\ 1 <= k /\ target = along kpos d k
    /\ forall j, 1 <= j < k -> emptyAt s (along kpos d j).

(** The king of [col] at [kpos] is attacked: an enemy rook or queen stands on
    an open line, an enemy bishop or queen on an open diagonal, an enemy pawn
    on one of the two squares diagonally ahead, or an enemy knight a jump
    away. *)
Definition attacked (s : GameState) (col : PlayerColor) (kpos : Position) : Prop :=
  exists target q,
    holds s target q /\ color q <> col
    /\ ((seesAlong s kpos ChessGame.linearDirections target
         /\ (type q = rook \/ type q = queen))
        \/ (seesAlong s kpos ChessGame.diagonalDirections target
            /\ (type q = bishop \/ type q = queen
                \/ (type q = pawn /\ target.1 = kpos.1 + forward col)))
        \/ ((exists d, d ∈ ChessGame.knightDirections /\ target = along kpos d 1)
            /\ type q = knight)).

(** ** Notions for the piece count *)

(** One entry of a [PieceCount]. *)
Definition countOf (pieceCount : PieceCount) (col : PlayerColor) (t : PieceType) : Z :=
  let n := match col with
           | white => count_white pieceCount
           | black => count_black pieceCount
           end in
  match t with
  | pawn => count_pawn n
  | rook => count_rook n
  | knight => count_knight n
  | bishop => count_bishop n
  | queen => count_queen n
  | king => count_king n
  end.

(** The cell holds a piece of this colour and type. *)
Definition cellIs (col : PlayerColor) (t : PieceType) (c : CellState) : Prop :=
  exists p, piece c = Some p /\ color p = col /\ type p = t.

#[global] Instance cellIs_dec col t c : Decision (cellIs col t c).
Proof.
  destruct c as [[p|]].
  - destruct (decide (color p = col)) as [Hc|Hc], (decide (type p = t)) as [Ht|Ht].
    + left. by exists p.
    + right. intros (p' & [= <-] & _ & H). done.
    + right. intros (p' & [= <-] & H & _). done.
    + right. intros (p' & [= <-] & H & _). done.
  - right. intros (p' & H & _). discriminate.
Defined.

(** ** Notions for the answers of the oracle *)

(** Every character of the string satisfies [P]. *)
Fixpoint allChars (P : ascii -> bool) (str : string) : bool :=
  match str with
  | EmptyString => true
  | String c rest => P c && allChars P rest
  end.

(** A character of ASCII that is printed, other than the space and the
    comma. *)
Definition plainChar (c : ascii) : bool :=
  (33 <=? nat_of_ascii c)%nat && (nat_of_ascii c <=? 126)%nat
  && negb (bool_decide (c = ","%char)).

(** A move string as the prompt lists it: of such characters only. *)
Definition cleanKey (k : string) : bool := allChars plainChar k.

(** The characters of [joinComma keys]: those of the keys, the comma and the
    space. *)
Definition listChar (c : ascii) : bool :=
  plainChar c || bool_decide (c = ","%char) || bool_decide (c = " "%char).

(** [keys.join(", ")] *)
Fixpoint joinComma (keys : list string) : string :=
  match keys with
  | [] => ""
  | [k] => k
  | k :: rest => k +:+ ", " +:+ joinComma rest
  end.

(** The end of the line: the end of the text or a line terminator. *)
Definition endsLine (tail : string) : Prop :=
  tail = ""
  \/ is_Some (LLMMinimaxAgent.stripAny LLMMinimaxAgent.lineTerminators tail).

(** The last move of the list with this notation. *)
Definition lastWithNotation (k : string) (moves : list Move) : option Move :=
  last (filter (fun mv => algebraic mv = k) moves).

(** ** Notions for the methods of the LLM agent *)

(** The two caches of the search and the promises they refer to are the same
    in [σ'] as in [σ]. *)
Definition searchUntouched (σ σ' : AgentState) : Prop :=
  minimaxCache σ' = minimaxCache σ /\ successorsCache σ' = successorsCache σ
  /\ numberPromises σ' = numberPromises σ
  /\ successorsPromises σ' = successorsPromises σ.

(** The description cache holds, under [gameHash], a promise fulfilled with
    [msg]. *)
Definition descriptionKnown (σ : AgentState) (gameHash : string) (msg : Message) : Prop :=
  exists p, gameDescriptionCache σ !! gameHash = Some p
    /\ messagePromises σ !! p = Some (Fulfilled msg).

(** From [σ] to [σ'] the search is untouched, the history has grown by
    requests to the oracle only, every entry of the description cache is
    still there, and every settled promise of a description is as it was. *)
Definition oracleStep (σ σ' : AgentState) : Prop :=
  searchUntouched σ σ'
  /\ (exists events, history σ' = history σ ++ events
        /\ Forall (fun ev => LLMMinimaxAgent.isRequest ev = true) events)
  /\ (forall gameHash p, gameDescriptionCache σ !! gameHash = Some p ->
        gameDescriptionCache σ' !! gameHash = Some p)
  /\ forall p v, messagePromises σ !! p = Some v -> v <> Pending ->
       messagePromises σ' !! p = Some v.

(** Every run of [m] sends at most [k] requests to the oracle. *)
Definition sendsAtMost {A} (k : nat) (m : M AgentState A) : Prop :=
  forall σ, (LLMMinimaxAgent.requestsSent (snd (m σ)) <= LLMMinimaxAgent.requestsSent σ + k)%nat.

(** The sum of the probabilities of a list of successors. *)
Definition totalProbability (successors : list GameStateProgression) : Q :=
  fold_right (fun successor acc => (probability successor + acc)%Q) 0%Q successors.

(** An oracle that describes the position and, asked who is more likely to
    win, answers with the log-probabilities of its two most likely tokens. *)
Definition weighsColours : CallLLM := fun _ args =>
  match messages args with
  | DescribePrompt _ => Replies [says "a quiet position"]
  | EvaluatePrompt _ _ =>
      Replies [ {| message := {| content := Some "white"; role := assistant |};
                   logprobs :=
                     Some {| logprobs_content :=
                               [ {| own := {| token := "white"; logprob := 0 |};
                                    top_logprobs :=
                                      Some [ {| token := "white"; logprob := 0 |};
                                             {| token := "black"; logprob := -1 |} ] |} ] |} |} ]
  | SuccessorsPrompt _ _ _ => Replies [says "Moves: e4"]
  end.

(** A stand-in for [Math.exp] on the log-probabilities of the examples: 1
    from 0 on, one half from -1 on, and 0 below. *)
Definition halves (x : Q) : Q :=
  if Qle_bool 0 x then 1 else if Qle_bool (-1) x then 1 # 2 else 0.

(** An oracle whose answers name no move. *)
Definition saysNothing : CallLLM := fun _ _ => Replies [says "no idea"].

(** White: Ke1, Rh1, neither has moved.  Black: Ke8.  White to move. *)
Definition castlingReady : GameState := {|
  turn := white;
  boardState :=
    place 0 4 (aPiece king white false)
      (place 0 7 (aPiece rook white false)
        (place 7 4 (aPiece king black false) emptyBoard));
  moveHistory := []
|}.

Definition castleShort : Move := castlingMove (0, 4) 6 "0-0".

(** ** Notions for the caches of the search *)

(** From [σ] to [σ'] no entry has left the minimax cache and none has had its
    budget lowered, every entry of the successors cache is as it was, and
    every settled promise of the search is as it was. *)
Definition cacheGrows (σ σ' : AgentState) : Prop :=
  (forall gameHash entry, minimaxCache σ !! gameHash = Some entry ->
     exists entry', minimaxCache σ' !! gameHash = Some entry'
       /\ (entry_budget entry <= entry_budget entry')%Q)
  /\ (forall gameHash p, successorsCache σ !! gameHash = Some p ->
        successorsCache σ' !! gameHash = Some p)
  /\ (forall p v, numberPromises σ !! p = Some v -> v <> Pending ->
        numberPromises σ' !! p = Some v)
  /\ forall p v, successorsPromises σ !! p = Some v -> v <> Pending ->
       successorsPromises σ' !! p = Some v.

(** ** Notions for the numbers of the evaluation *)

(** [a <= b] for two numbers of the program, neither of them NaN. *)
Definition numberLe (a b : Double.Number) : Prop :=
  match a, b with
  | Some x, Some y => ExtNum.leb x y = true
  | _, _ => False
  end.

(** A double that is not negative, or [Infinity]. *)
Definition weight (p : Double.Number) : Prop :=
  p = Some Infinity
  \/ exists v, p = Some (Finite v) /\ (0 <= v)%Q
       /\ ExtNum.leb (Finite v) (Double.round v) = true.

(** A number that is not negative, or [Infinity]. *)
Definition notNegative (p : Double.Number) : Prop :=
  p = Some Infinity \/ exists v, p = Some (Finite v) /\ (0 <= v)%Q.

(** * Properties *)

(** ** General facts about outcomes *)

Lemma bindR_Ok {A B} (r : Result A) (f : A -> Result B) (b : B) :
  bindR r f = Ok b -> exists a, r = Ok a /\ f a = Ok b.
Proof. destruct r; simpl; intros H; try discriminate. eauto. Qed.

Lemma forR_shift {A B} (g : A -> Result (list B)) (f : list B -> A -> Result (list B)) :
  (forall acc x, f acc x = let* ys := g x in Ok (acc ++ ys)) ->
  forall l acc, ChessGame.forR l acc f = let* ys := ChessGame.forR l [] f in Ok (acc ++ ys).
Proof.
  intros Hf l. induction l as [|x l IH]; intros acc; simpl.
  - by rewrite app_nil_r.
  - rewrite !Hf. destruct (g x) as [ys| | |]; simpl; try reflexivity.
    rewrite (IH (acc ++ ys)), (IH ys).
    destruct (ChessGame.forR l [] f) as [zs| | |]; simpl; try reflexivity.
    by rewrite app_assoc.
Qed.

Lemma forR_collect {A B} (g : A -> Result (list B)) (f : list B -> A -> Result (list B)) :
  (forall acc x, f acc x = let* ys := g x in Ok (acc ++ ys)) ->
  forall l res, ChessGame.forR l [] f = Ok res ->
  forall m, m ∈ res <-> exists x ys, x ∈ l /\ g x = Ok ys /\ m ∈ ys.
Proof.
  intros Hf l. induction l as [|x l IH]; intros res Hres m; simpl in Hres.
  - inversion Hres; subst. split.
    + intros Hm. by apply elem_of_nil in Hm.
    + intros (x & ys & Hx & _). by apply elem_of_nil in Hx.
  - rewrite Hf in Hres. destruct (g x) as [ys| | |] eqn:Hg; simpl in Hres; try discriminate.
    rewrite (forR_shift g f Hf) in Hres.
    destruct (ChessGame.forR l [] f) as [zs| | |] eqn:Hl; simpl in Hres; try discriminate.
    inversion Hres; subst res. rewrite elem_of_app, (IH zs eq_refl m). split.
    + intros [Hm | (x' & ys' & Hx' & Hg' & Hm)].
      * exists x, ys. split; [left | done].
      * exists x', ys'. split; [by right | done].
    + intros (x' & ys' & Hx' & Hg' & Hm). apply elem_of_cons in Hx' as [-> | Hx'].
      * left. congruence.
      * right. eauto.
Qed.

(** ** The hash of a state *)

Section Hash.

Import ChessGame.

Lemma hashCellState_occupancy (c1 c2 : CellState) :
  bool_decide (piece c1 = None) = bool_decide (piece c2 = None) ->
  hashCellState c1 = hashCellState c2.
Proof.
  unfold hashCellState. destruct (piece c1), (piece c2); simpl; intros H;
    try reflexivity; apply bool_decide_eq_true in H || symmetry in H;
    try apply bool_decide_eq_true in H; congruence.
Qed.

Lemma hash_row_occupancy (r1 r2 : list CellState) :
  map (fun c => bool_decide (piece c = None)) r1
  = map (fun c => bool_decide (piece c = None)) r2 ->
  forall h,
    fold_left (fun hash cellState =>
      (hash +:+ toStringOrUndefined (hashCellState cellState)) +:+ ",") r1 h
    = fold_left (fun hash cellState =>
      (hash +:+ toStringOrUndefined (hashCellState cellState)) +:+ ",") r2 h.
Proof.
  revert r2. induction r1 as [|c1 r1 IH]; intros [|c2 r2] H h; simpl in *;
    try discriminate; [reflexivity|].
  injection H as Hc Hr. rewrite (hashCellState_occupancy c1 c2 Hc). by apply IH.
Qed.

(** The hash sees the side to move and which cells are occupied, nothing else. *)
Lemma hashGameState_occupancy (s1 s2 : GameState) :
  turn s1 = turn s2 ->
  occupancy (boardState s1) = occupancy (boardState s2) ->
  hashGameState s1 = hashGameState s2.
Proof.
  unfold hashGameState, occupancy. intros -> H. f_equal.
  generalize (colorToString (turn s2) +:+ ",").
  revert H. generalize (boardState s2). generalize (boardState s1).
  intros b1. induction b1 as [|r1 b1 IH]; intros [|r2 b2] H h; simpl in *;
    try discriminate; [reflexivity|].
  injection H as Hr Hb. rewrite (hash_row_occupancy r1 r2 Hr). by apply IH.
Qed.

End Hash.

(** C1 (the code departs from the claim).  Claim: two states have the same
    hash if and only if they have the same legal moves.  In the code
    [hashCellState] returns nothing for an occupied cell, so the start position
    and the start position with a bishop in place of the knight on b1 have the
    same hash, while their legal moves differ. *)
Theorem C1_hashGameState_collision :
  ChessGame.hashGameState initialGameState = ChessGame.hashGameState bishopOnB1
  /\ ChessGame.getAllLegalMoves initialGameState white
     <> ChessGame.getAllLegalMoves bishopOnB1 white.
Proof.
  split.
  - by vm_compute.
  - intros H.
    apply (f_equal (fun r => match r with Ok l => length l | _ => 0%nat end)) in H.
    vm_compute in H. discriminate.
Qed.

(** ** Reading and writing a board *)

Section Board.

Import ChessGame.

Lemma index_Some {A} (l : list A) (i : Z) (x : A) :
  index l i = Some x <-> 0 <= i /\ l !! Z.to_nat i = Some x.
Proof.
  unfold index. destruct (Z.ltb_spec i 0) as [Hlt|Hge].
  - split; [discriminate | lia].
  - split; [intros Hx; split; [lia | exact Hx] | intros [_ Hx]; exact Hx].
Qed.

Lemma index_in_range {A} (l : list A) (i : Z) :
  0 <= i < Z.of_nat (length l) -> exists x, index l i = Some x.
Proof.
  intros Hi. destruct (lookup_lt_is_Some_2 l (Z.to_nat i)) as [x Hx]; [lia|].
  exists x. apply index_Some. split; [lia | done].
Qed.

Lemma cellAt_onBoard (b : list (list CellState)) (pos : Position) :
  wfBoard b -> onBoard pos -> exists c, cellAt b pos = Ok c.
Proof.
  intros [Hlen Hrows] [Hr Hc]. unfold cellAt.
  destruct (index_in_range b pos.1) as [row Hrow]; [lia|]. rewrite Hrow.
  apply index_Some in Hrow as [_ Hrow].
  assert (length row = 8%nat) as Hl.
  { eapply Forall_lookup_1 in Hrows; eauto. }
  destruct (index_in_range row pos.2) as [c Hcell]; [lia|]. rewrite Hcell. eauto.
Qed.

Lemma getPosInDirection_Some (p d q : Position) :
  getPosInDirection p d = Some q -> q = (p.1 + d.1, p.2 + d.2) /\ onBoard q.
Proof.
  unfold getPosInDirection, onBoard.
  destruct (Z.ltb_spec (p.1 + d.1) 0), (Z.gtb_spec (p.1 + d.1) 7),
    (Z.ltb_spec (p.2 + d.2) 0), (Z.gtb_spec (p.2 + d.2) 7); simpl; intros Hq;
    try discriminate.
  injection Hq as <-. simpl. split; [reflexivity | lia].
Qed.

Lemma getPosInDirection_onBoard (p d : Position) :
  onBoard (p.1 + d.1, p.2 + d.2) ->
  getPosInDirection p d = Some (p.1 + d.1, p.2 + d.2).
Proof.
  unfold getPosInDirection, onBoard. simpl. intros [? ?].
  destruct (Z.ltb_spec (p.1 + d.1) 0), (Z.gtb_spec (p.1 + d.1) 7),
    (Z.ltb_spec (p.2 + d.2) 0), (Z.gtb_spec (p.2 + d.2) 7); simpl; try lia.
  reflexivity.
Qed.

(** After a write that succeeds, the written cell holds the new value and
    every other position reads as before. *)
Lemma cellAt_setCell (b b' : list (list CellState)) (pos : Position) (c : CellState) :
  setCell b pos c = Ok b' ->
  forall pos', cellAt b' pos' = if decide (pos' = pos) then Ok c else cellAt b pos'.
Proof.
  unfold setCell. destruct (index b pos.1) as [row|] eqn:Hrow; [|discriminate].
  destruct (index row pos.2) as [old|] eqn:Hold; [|discriminate].
  intros H; injection H as <-. intros pos'.
  apply index_Some in Hrow as [Hr Hrow]. apply index_Some in Hold as [Hc Hold].
  unfold cellAt, index.
  destruct (Z.ltb_spec pos'.1 0) as [Hneg|Hr'].
  { destruct (decide (pos' = pos)) as [->|]; [lia | reflexivity]. }
  destruct (decide (Z.to_nat pos'.1 = Z.to_nat pos.1)) as [Heq|Hne].
  - rewrite Heq, list_lookup_insert_eq by (by eapply lookup_lt_Some). rewrite Hrow.
    destruct (Z.ltb_spec pos'.2 0) as [Hneg|Hc'].
    { destruct (decide (pos' = pos)) as [->|]; [lia | reflexivity]. }
    destruct (decide (Z.to_nat pos'.2 = Z.to_nat pos.2)) as [Heq2|Hne2].
    + rewrite Heq2, list_lookup_insert_eq by (by eapply lookup_lt_Some).
      destruct (decide (pos' = pos)) as [|Hd]; [reflexivity|].
      exfalso. apply Hd. destruct pos', pos; simpl in *. f_equal; lia.
    + rewrite list_lookup_insert_ne by done.
      destruct (decide (pos' = pos)) as [->|]; [done | reflexivity].
  - rewrite list_lookup_insert_ne by done.
    destruct (decide (pos' = pos)) as [->|]; [done | reflexivity].
Qed.

Lemma setCell_wfBoard (b b' : list (list CellState)) (pos : Position) (c : CellState) :
  setCell b pos c = Ok b' -> wfBoard b -> wfBoard b'.
Proof.
  unfold setCell. destruct (index b pos.1) as [row|] eqn:Hrow; [|discriminate].
  destruct (index row pos.2) as [old|]; [|discriminate].
  intros H; injection H as <-. intros [Hlen Hrows].
  apply index_Some in Hrow as [_ Hrow]. split.
  - by rewrite length_insert.
  - apply Forall_insert; [done|]. rewrite length_insert.
    eapply Forall_lookup_1 in Hrows; eauto.
Qed.

Lemma cellAt_setPiece (b b' : list (list CellState)) (pos : Position) (p : option Piece) :
  setPiece b pos p = Ok b' ->
  forall pos', cellAt b' pos' = if decide (pos' = pos) then Ok {| piece := p |} else cellAt b pos'.
Proof.
  unfold setPiece. intros H. apply bindR_Ok in H as (? & _ & H).
  by apply cellAt_setCell.
Qed.

Lemma setPiece_wfBoard (b b' : list (list CellState)) (pos : Position) (p : option Piece) :
  setPiece b pos p = Ok b' -> wfBoard b -> wfBoard b'.
Proof.
  unfold setPiece. intros H. apply bindR_Ok in H as (? & _ & H).
  by eapply setCell_wfBoard.
Qed.

End Board.

(** ** What a move writes *)

Section Keeps.

Context {S : Type} (R : S -> S -> Prop) `{!Reflexive R} `{!Transitive R}.

Lemma keeps_ret {A} (a : A) : keeps R (ret a).
Proof. intros s. simpl. reflexivity. Qed.

Lemma keeps_throw {A} (e : string) : keeps R (@throw S A e).
Proof. intros s. simpl. reflexivity. Qed.

Lemma keeps_liftR {A} (r : Result A) : keeps R (liftR r).
Proof. intros s. simpl. reflexivity. Qed.

Lemma keeps_get : keeps R get.
Proof. intros s. simpl. reflexivity. Qed.

Lemma keeps_bind {A B} (m : M S A) (k : A -> M S B) :
  keeps R m -> (forall a, keeps R (k a)) -> keeps R (bindM m k).
Proof.
  intros Hm Hk s. unfold bindM. specialize (Hm s).
  destruct (m s) as [[a|e| |] s']; simpl in *; try exact Hm.
  etransitivity; [exact Hm | apply Hk].
Qed.

End Keeps.

Section Frame.

Import ChessGame.

#[local] Instance sameOutside_refl W : Reflexive (sameOutside W).
Proof. intros s. split; [tauto | reflexivity]. Qed.

#[local] Instance sameOutside_trans W : Transitive (sameOutside W).
Proof.
  intros s1 s2 s3 [Hw1 Hc1] [Hw2 Hc2]. split; [tauto|].
  intros pos Hpos. rewrite Hc2, Hc1; done.
Qed.

Lemma sameOutside_mono (W W' : list Position) (s s' : GameState) :
  W ⊆ W' -> sameOutside W s s' -> sameOutside W' s s'.
Proof.
  intros Hsub [Hw Hc]. split; [done|]. intros pos Hpos. apply Hc.
  intros Hin. apply Hpos, Hsub, Hin.
Qed.

Lemma keeps_mono {A} (W W' : list Position) (m : M GameState A) :
  W ⊆ W' -> keeps (sameOutside W) m -> keeps (sameOutside W') m.
Proof. intros Hsub Hm s. eapply sameOutside_mono; [exact Hsub | apply Hm]. Qed.

Lemma keeps_writeBoard (W : list Position)
    (f : list (list CellState) -> Result (list (list CellState))) :
  (forall b b', f b = Ok b' ->
     (wfBoard b -> wfBoard b') /\ forall pos, pos ∉ W -> cellAt b' pos = cellAt b pos) ->
  keeps (sameOutside W) (writeBoard f).
Proof.
  intros Hf s. unfold writeBoard.
  destruct (f (boardState s)) as [b'| | |] eqn:Hb; simpl; try reflexivity.
  exact (Hf _ _ Hb).
Qed.

Lemma keeps_setPiece (W : list Position) (pos : Position) (p : option Piece) :
  pos ∈ W -> keeps (sameOutside W) (writeBoard (fun b => setPiece b pos p)).
Proof.
  intros Hin. apply keeps_writeBoard. intros b b' Hb. split.
  - by eapply setPiece_wfBoard.
  - intros pos' Hpos'. rewrite (cellAt_setPiece _ _ _ _ Hb).
    destruct (decide (pos' = pos)) as [->|]; [done | reflexivity].
Qed.

Lemma keeps_setCell (W : list Position) (pos : Position) (c : CellState) :
  pos ∈ W -> keeps (sameOutside W) (writeBoard (fun b => setCell b pos c)).
Proof.
  intros Hin. apply keeps_writeBoard. intros b b' Hb. split.
  - by eapply setCell_wfBoard.
  - intros pos' Hpos'. rewrite (cellAt_setCell _ _ _ _ Hb).
    destruct (decide (pos' = pos)) as [->|]; [done | reflexivity].
Qed.

Lemma keeps_addMoveToHistory (W : list Position) (mv : Move) :
  keeps (sameOutside W) (addMoveToHistory mv).
Proof. intros s. simpl. split; [tauto | reflexivity]. Qed.

Lemma keeps_flipTurn (W : list Position) : keeps (sameOutside W) flipTurn.
Proof. intros s. simpl. split; [tauto | reflexivity]. Qed.

Lemma keeps_movePiece (W : list Position) (mv : Move) :
  from mv ∈ W -> to mv ∈ W -> keeps (sameOutside W) (movePieceAccordingToMove mv).
Proof.
  intros Hf Ht. unfold movePieceAccordingToMove.
  apply keeps_bind; try apply _; [apply keeps_get; apply _ | intros s].
  apply keeps_bind; try apply _; [apply keeps_liftR; apply _ | intros c].
  destruct (piece c) as [p|]; [|apply keeps_throw; apply _].
  apply keeps_bind; try apply _; [by apply keeps_setPiece | intros _].
  apply keeps_bind; try apply _; [by apply keeps_setCell | intros _].
  by apply keeps_setPiece.
Qed.

Lemma executeEnPassant_frame (mv : Move) (s : GameState) :
  enPassant mv = true ->
  sameOutside (squaresWritten (turn s) mv) s (snd (executeEnPassant mv s)).
Proof.
  intros Hep. unfold executeEnPassant.
  change (bindM get ?k s) with (k s s).
  set (W := squaresWritten (turn s) mv).
  set (captured := ((to mv).1 + match turn s with white => -1 | black => 1 end, (to mv).2)).
  assert (from mv ∈ W /\ to mv ∈ W /\ captured ∈ W) as (Hf & Ht & Hc).
  { unfold W, squaresWritten. rewrite Hep. set_solver. }
  revert s W captured Hf Ht Hc. intros s W captured Hf Ht Hc.
  cut (keeps (sameOutside W)
         (do capturedPawnCellState <- liftR (cellAt (boardState s) captured);
          match piece capturedPawnCellState with
          | None => throw "No piece to capture"
          | Some _ =>
              do _ <- writeBoard (fun b => setPiece b captured None);
              do _ <- addMoveToHistory mv;
              do _ <- movePieceAccordingToMove mv;
              flipTurn
          end)).
  { intros H. apply H. }
  apply keeps_bind; try apply _; [apply keeps_liftR; apply _ | intros c].
  destruct (piece c); [|apply keeps_throw; apply _].
  apply keeps_bind; try apply _; [by apply keeps_setPiece | intros _].
  apply keeps_bind; try apply _; [apply keeps_addMoveToHistory | intros _].
  apply keeps_bind; try apply _; [by apply keeps_movePiece | intros _].
  apply keeps_flipTurn.
Qed.

Lemma executeCastling_frame (mv : Move) (s : GameState) (col : PlayerColor) :
  enPassant mv = false -> castling mv = true ->
  sameOutside (squaresWritten col mv) s (snd (executeCastling mv s)).
Proof.
  intros Hep Hc. unfold executeCastling.
  change (bindM get ?k s) with (k s s).
  set (W := squaresWritten col mv).
  set (rookStart := ((from mv).1, if (to mv).2 =? 6 then 7 else 0)).
  set (rookEnd := ((from mv).1, if (to mv).2 =? 6 then 5 else 3)).
  assert (from mv ∈ W /\ to mv ∈ W /\ rookStart ∈ W /\ rookEnd ∈ W) as (Hf & Ht & Hs & He).
  { unfold W, squaresWritten. rewrite Hep, Hc. set_solver. }
  destruct (index (boardState s) (from mv).1) as [rowCells|].
  2:{ simpl. reflexivity. }
  cut (keeps (sameOutside W)
         (do _ <- addMoveToHistory mv;
          do _ <- writeBoard (fun b =>
                    let* _ := cellAt b rookEnd in
                    match index rowCells (if (to mv).2 =? 6 then 7 else 0) with
                    | None => Throw TypeError
                    | Some rc => setPiece b rookEnd (piece rc)
                    end);
          do _ <- writeBoard (fun b => setPiece b rookStart None);
          do _ <- movePieceAccordingToMove mv;
          flipTurn)).
  { intros H. apply H. }
  apply keeps_bind; try apply _; [apply keeps_addMoveToHistory | intros _].
  apply keeps_bind; try apply _.
  { apply keeps_writeBoard. intros b b' Hb. apply bindR_Ok in Hb as (? & _ & Hb).
    destruct (index rowCells _) as [rc|]; [|discriminate]. split.
    - by eapply setPiece_wfBoard.
    - intros pos Hpos. rewrite (cellAt_setPiece _ _ _ _ Hb).
      destruct (decide (pos = rookEnd)) as [->|]; [done | reflexivity]. }
  intros _.
  apply keeps_bind; try apply _; [by apply keeps_setPiece | intros _].
  apply keeps_bind; try apply _; [by apply keeps_movePiece | intros _].
  apply keeps_flipTurn.
Qed.

(** [makeMove] writes no cell outside [squaresWritten], whatever its outcome,
    and leaves a board with its eight rows of eight cells. *)
Lemma makeMove_frame (mv : Move) (s : GameState) :
  sameOutside (squaresWritten (turn s) mv) s (snd (makeMove mv s)).
Proof.
  unfold makeMove. change (bindM get ?k s) with (k s s).
  unfold bindM at 1. unfold liftR at 1.
  destruct (cellAt (boardState s) (from mv)) as [c| | |]; simpl; try reflexivity.
  destruct (piece c) as [p|]; simpl; [|reflexivity].
  destruct (bool_decide (color p ≠ turn s)); simpl; [reflexivity|].
  destruct (enPassant mv) eqn:Hep; [by apply executeEnPassant_frame|].
  destruct (castling mv) eqn:Hc; [by apply executeCastling_frame|].
  assert (from mv ∈ squaresWritten (turn s) mv /\ to mv ∈ squaresWritten (turn s) mv)
    as [Hf Ht].
  { unfold squaresWritten. set_solver. }
  cut (keeps (sameOutside (squaresWritten (turn s) mv))
         (do _ <- addMoveToHistory mv; do _ <- movePieceAccordingToMove mv; flipTurn)).
  { intros H. apply H. }
  apply keeps_bind; try apply _; [apply keeps_addMoveToHistory | intros _].
  apply keeps_bind; try apply _; [by apply keeps_movePiece | intros _].
  apply keeps_flipTurn.
Qed.

End Frame.

(** ** Generated and legal moves *)

Lemma forR_all_Ok {A B} (g : A -> Result (list B)) (f : list B -> A -> Result (list B)) :
  (forall acc x, f acc x = let* ys := g x in Ok (acc ++ ys)) ->
  forall l res, ChessGame.forR l [] f = Ok res ->
  forall x, x ∈ l -> exists ys, g x = Ok ys.
Proof.
  intros Hf l. induction l as [|y l IH]; intros res Hres x Hx; simpl in Hres.
  - by apply elem_of_nil in Hx.
  - rewrite Hf in Hres. destruct (g y) as [ys| | |] eqn:Hg; simpl in Hres; try discriminate.
    rewrite (forR_shift g f Hf) in Hres.
    destruct (ChessGame.forR l [] f) as [zs| | |] eqn:Hl; simpl in Hres; try discriminate.
    apply elem_of_cons in Hx as [-> | Hx]; [eauto | by eapply IH].
Qed.

Lemma bindM_Ok {S A B} (m : M S A) (k : A -> M S B) (s s' : S) (b : B) :
  bindM m k s = (Ok b, s') -> exists a s1, m s = (Ok a, s1) /\ k a s1 = (Ok b, s').
Proof.
  unfold bindM. destruct (m s) as [[a|e| |] s1]; intros H; try discriminate. eauto.
Qed.

Lemma liftR_Ok {S A} (r : Result A) (s s' : S) (a : A) :
  liftR r s = (Ok a, s') -> r = Ok a /\ s' = s.
Proof. unfold liftR. intros H. injection H as -> ->. done. Qed.

Lemma await_Ok {A} (promises : AgentState -> list (Promise A)) (p : nat)
    (σ σ' : AgentState) (a : A) :
  await promises p σ = (Ok a, σ') -> promises σ !! p = Some (Fulfilled a) /\ σ' = σ.
Proof.
  unfold await. destruct (promises σ !! p) as [[|b|e]|]; intros H; try discriminate.
  by injection H as -> ->.
Qed.

Lemma writeBoard_Ok (f : list (list CellState) -> Result (list (list CellState)))
    (s s' : GameState) (u : unit) :
  ChessGame.writeBoard f s = (Ok u, s') ->
  exists b, f (boardState s) = Ok b /\ s' = ChessGame.withBoard s b.
Proof.
  unfold ChessGame.writeBoard. destruct (f (boardState s)) as [b| | |]; intros H;
    try discriminate.
  injection H as <-. eauto.
Qed.

Section Moves.

Import ChessGame.

Lemma isCellEmpty_Ok (s : GameState) (pos : Position) :
  wfBoard (boardState s) -> onBoard pos -> exists b, isCellEmpty s pos = Ok b.
Proof.
  intros Hwf Hpos. unfold isCellEmpty.
  destruct (cellAt_onBoard _ _ Hwf Hpos) as [c ->]. simpl. eauto.
Qed.

Lemma isCellEnemy_Ok (s : GameState) (pos : Position) (col : PlayerColor) :
  wfBoard (boardState s) -> onBoard pos -> exists b, isCellEnemy s pos col = Ok b.
Proof.
  intros Hwf Hpos. unfold isCellEnemy.
  destruct (cellAt_onBoard _ _ Hwf Hpos) as [c ->]. simpl. eauto.
Qed.

Lemma annotateMove_Ok (s : GameState) (m : Move) (c : CellState) (p : Piece) :
  wfBoard (boardState s) -> onBoard (to m) ->
  cellAt (boardState s) (from m) = Ok c -> piece c = Some p ->
  exists a, annotateMove s m = Ok (withAlgebraic m a).
Proof.
  intros Hwf Hto Hc Hp. unfold annotateMove, annotateCastlingMove.
  destruct (castling m).
  - destruct ((to m).2 =? 2); eauto.
  - rewrite Hc. simpl. rewrite Hp.
    destruct (cellAt_onBoard _ _ Hwf Hto) as [c' ->]. simpl. eauto.
Qed.

Section PawnAt.

Variables (s : GameState) (position : Position) (c : CellState) (p : Piece).
Hypothesis Hwf : wfBoard (boardState s).
Hypothesis Hcell : cellAt (boardState s) position = Ok c.
Hypothesis Hpiece : piece c = Some p.

Lemma pawnAdvances_Ok (direction : Z) :
  exists l, pawnAdvances s position p direction = Ok l.
Proof.
  unfold pawnAdvances.
  destruct (getPosInDirection position (direction, 0)) as [fp|] eqn:Hfp; [|eauto].
  apply getPosInDirection_Some in Hfp as [_ Hfp].
  destruct (isCellEmpty_Ok s fp Hwf Hfp) as [e ->]. simpl.
  destruct e; [|eauto].
  destruct (annotateMove_Ok s (plainMove position fp) c p Hwf Hfp Hcell Hpiece) as [a ->].
  simpl. destruct (negb (hasMoved p)); [|eauto].
  destruct (getPosInDirection position (direction * 2, 0)) as [dp|] eqn:Hdp; [|eauto].
  apply getPosInDirection_Some in Hdp as [_ Hdp].
  destruct (isCellEmpty_Ok s dp Hwf Hdp) as [e2 ->]. simpl.
  destruct e2; [|eauto].
  destruct (annotateMove_Ok s (setPawnMoving2 (plainMove position dp)) c p Hwf Hdp Hcell Hpiece)
    as [a2 ->].
  simpl. eauto.
Qed.

Lemma pawnCapture_Ok (direction : Position) :
  exists l, pawnCapture s position p (getPosInDirection position direction) = Ok l.
Proof.
  unfold pawnCapture.
  destruct (getPosInDirection position direction) as [dp|] eqn:Hdp; [|eauto].
  apply getPosInDirection_Some in Hdp as [_ Hdp].
  destruct (isCellEnemy_Ok s dp (color p) Hwf Hdp) as [en ->]. simpl.
  destruct en; [|eauto].
  destruct (annotateMove_Ok s (plainMove position dp) c p Hwf Hdp Hcell Hpiece) as [a ->].
  simpl. eauto.
Qed.

Lemma enPassantSide_Ok (side diagonal : Position) :
  (is_Some (getPosInDirection position side) ->
   is_Some (getPosInDirection position diagonal)) ->
  exists l, enPassantSide s position p (getPosInDirection position side)
              (getPosInDirection position diagonal) = Ok l.
Proof.
  intros Hboth. unfold enPassantSide.
  destruct (getPosInDirection position side) as [sp|] eqn:Hsp; [|eauto].
  apply getPosInDirection_Some in Hsp as [_ Hsp].
  destruct (cellAt_onBoard _ _ Hwf Hsp) as [sc ->]. simpl.
  destruct (piece sc) as [q|]; [|eauto].
  destruct (_ && _); [|eauto].
  destruct Hboth as [dp Hdp]; [eauto|]. rewrite Hdp.
  apply getPosInDirection_Some in Hdp as [_ Hdp].
  destruct (annotateMove_Ok s (setEnPassant (plainMove position dp)) c p Hwf Hdp Hcell Hpiece)
    as [a ->].
  simpl. eauto.
Qed.

Lemma enPassantSide_hit (sp dp : Position) (q : Piece) :
  onBoard dp ->
  cellAt (boardState s) sp = Ok {| piece := Some q |} ->
  type q = pawn -> color q <> color p -> justMoved2 q = Some true ->
  exists a, enPassantSide s position p (Some sp) (Some dp)
            = Ok [withAlgebraic (setEnPassant (plainMove position dp)) a].
Proof.
  intros Hdp Hsp Ht Hc Hj. unfold enPassantSide. rewrite Hsp. simpl.
  rewrite !bool_decide_eq_true_2 by done. simpl.
  destruct (annotateMove_Ok s (setEnPassant (plainMove position dp)) c p Hwf Hdp Hcell Hpiece)
    as [a ->].
  simpl. eauto.
Qed.

End PawnAt.

#[local] Arguments enPassantSide : simpl never.
#[local] Arguments annotateMove : simpl never.

(** A black pawn on row 3 beside a white pawn whose [justMoved2] is set is
    offered the capture. *)
Lemma enPassant_generated (s : GameState) (c d : Z) (q w : Piece) :
  wfBoard (boardState s) ->
  0 <= c <= 7 -> 0 <= d <= 7 -> d = c - 1 \/ d = c + 1 ->
  cellAt (boardState s) (3, d) = Ok {| piece := Some q |} ->
  type q = pawn -> color q = black ->
  cellAt (boardState s) (3, c) = Ok {| piece := Some w |} ->
  type w = pawn -> color w = white -> justMoved2 w = Some true ->
  exists ep, generated s (3, d) ep
    /\ from ep = (3, d) /\ to ep = (2, c) /\ enPassant ep = true.
Proof.
  intros Hwf Hc Hd Hcd Hq Hqt Hqc Hw Hwt Hwc Hwj.
  assert (color w <> color q) as Hne by (rewrite Hwc, Hqc; discriminate).
  assert (exists a l, getPawnMoves s (3, d) = Ok l
            /\ withAlgebraic (setEnPassant (plainMove (3, d) (2, c))) a ∈ l)
    as (a & l & Hl & Hin).
  { unfold getPawnMoves. rewrite Hq. simpl. rewrite Hqt, Hqc. simpl.
    destruct (pawnAdvances_Ok s (3, d) _ q Hwf Hq eq_refl (-1)) as [fm ->].
    destruct (pawnCapture_Ok s (3, d) _ q Hwf Hq eq_refl (-1, -1)) as [lc ->].
    destruct (pawnCapture_Ok s (3, d) _ q Hwf Hq eq_refl (-1, 1)) as [rc ->].
    simpl. destruct Hcd as [-> | ->].
    - (* the white pawn stands on the right *)
      rewrite (getPosInDirection_onBoard (3, c - 1) (0, 1)) by (unfold onBoard; simpl; lia).
      rewrite (getPosInDirection_onBoard (3, c - 1) (-1, 1)) by (unfold onBoard; simpl; lia).
      cbn [fst snd bindR]. replace (3 + 0) with 3 by lia. replace (3 + -1) with 2 by lia.
      replace (c - 1 + 1) with c by lia.
      destruct (enPassantSide_Ok s (3, c - 1) _ q Hwf Hq eq_refl (0, -1) (-1, -1)) as [el ->].
      { intros [sp Hsp]. apply getPosInDirection_Some in Hsp as [-> [_ Hsp]]. simpl in Hsp.
        rewrite getPosInDirection_onBoard by (unfold onBoard; simpl; lia). eauto. }
      destruct (enPassantSide_hit s (3, c - 1) _ q Hwf Hq eq_refl (3, c) (2, c) w)
        as [a Ha]; try done; try (unfold onBoard; simpl; lia).
      exists a. eexists. cbn [bindR]. rewrite Ha. simpl. split; [reflexivity|].
      rewrite ?elem_of_app, ?elem_of_cons. auto 10.
    - (* the white pawn stands on the left *)
      rewrite (getPosInDirection_onBoard (3, c + 1) (0, -1)) by (unfold onBoard; simpl; lia).
      rewrite (getPosInDirection_onBoard (3, c + 1) (-1, -1)) by (unfold onBoard; simpl; lia).
      cbn [fst snd bindR]. replace (3 + 0) with 3 by lia. replace (3 + -1) with 2 by lia.
      replace (c + 1 + -1) with c by lia.
      destruct (enPassantSide_hit s (3, c + 1) _ q Hwf Hq eq_refl (3, c) (2, c) w)
        as [a Ha]; try done; try (unfold onBoard; simpl; lia).
      destruct (enPassantSide_Ok s (3, c + 1) _ q Hwf Hq eq_refl (0, 1) (-1, 1)) as [er Her].
      { intros [sp Hsp]. apply getPosInDirection_Some in Hsp as [-> [_ Hsp]]. simpl in Hsp.
        rewrite getPosInDirection_onBoard by (unfold onBoard; simpl; lia). eauto. }
      exists a. eexists. rewrite Ha. cbn [bindR]. rewrite Her. simpl.
      split; [reflexivity|].
      rewrite ?elem_of_app, ?elem_of_cons. auto 10. }
  exists (withAlgebraic (setEnPassant (plainMove (3, d) (2, c))) a).
  split; [|done].
  exists l. split; [|done].
  unfold getMovesFromPosition. rewrite Hq. simpl. by rewrite Hqt.
Qed.

(** A plain move (no capture en passant, no castling, no promotion) that
    succeeds puts the moved piece on its target, marked as moved and with
    [justMoved2] telling whether the move was a double step. *)
Lemma makeMove_plain (mv : Move) (s s' : GameState) :
  enPassant mv = false -> castling mv = false -> promotion mv = None ->
  from mv <> to mv ->
  makeMove mv s = (Ok tt, s') ->
  exists p,
    cellAt (boardState s) (from mv) = Ok {| piece := Some p |}
    /\ cellAt (boardState s') (to mv)
       = Ok {| piece := Some {| type := type p; color := color p; hasMoved := true;
                                justMoved2 := Some (isPawnMoving2 mv) |} |}.
Proof.
  intros Hep Hc Hpr Hne H. unfold makeMove in H.
  apply bindM_Ok in H as (s0 & s1 & Hget & H). injection Hget as <- <-.
  apply bindM_Ok in H as (c0 & s1 & Hc0 & H). apply liftR_Ok in Hc0 as [Hfrom ->].
  destruct c0 as [[p|]]; simpl in H; [|discriminate].
  destruct (bool_decide (color p <> turn s)); [discriminate|].
  rewrite Hep, Hc in H.
  apply bindM_Ok in H as ([] & s1 & Hhist & H). injection Hhist as <-.
  apply bindM_Ok in H as ([] & s2 & Hmove & H). injection H as <-.
  unfold movePieceAccordingToMove in Hmove.
  apply bindM_Ok in Hmove as (s0 & s1 & Hget & Hmove). injection Hget as <- <-.
  apply bindM_Ok in Hmove as (c0 & s1 & Hc0 & Hmove). apply liftR_Ok in Hc0 as [Hfrom' ->].
  simpl in Hfrom'. rewrite Hfrom in Hfrom'. injection Hfrom' as <-. simpl in Hmove.
  rewrite Hpr in Hmove.
  apply bindM_Ok in Hmove as ([] & s1 & Hw1 & Hmove).
  apply writeBoard_Ok in Hw1 as (b1 & Hb1 & ->).
  apply bindM_Ok in Hmove as ([] & s2' & Hw2 & Hw3).
  apply writeBoard_Ok in Hw2 as (b2 & Hb2 & ->).
  apply writeBoard_Ok in Hw3 as (b3 & Hb3 & ->).
  simpl in *. exists p. split; [exact Hfrom|].
  rewrite (cellAt_setPiece _ _ _ _ Hb3). destruct (decide (to mv = from mv)); [congruence|].
  rewrite (cellAt_setCell _ _ _ _ Hb2). by rewrite decide_True.
Qed.

(** *** The walk of a sliding piece ends within its fuel *)

Lemma cellAt_answers (b : list (list CellState)) (pos : Position) :
  cellAt b pos <> NoAnswer /\ cellAt b pos <> Blocked.
Proof.
  unfold cellAt. destruct (index b pos.1) as [row|]; [|done].
  by destruct (index row pos.2).
Qed.

Lemma annotateMove_answers (s : GameState) (m : Move) :
  annotateMove s m <> NoAnswer.
Proof.
  unfold annotateMove, annotateCastlingMove. destruct (castling m).
  - by destruct ((to m).2 =? 2).
  - destruct (cellAt_answers (boardState s) (from m)) as [H1 _].
    destruct (cellAt (boardState s) (from m)) as [c| | |]; simpl; try done.
    destruct (piece c); [|done].
    destruct (cellAt_answers (boardState s) (to m)) as [H2 _].
    by destruct (cellAt (boardState s) (to m)).
Qed.

Lemma walkInDirection_answers (s : GameState) (startPosition d : Position)
    (col : PlayerColor) (fuel : nat) (np : Position) :
  slidingDirection d -> onBoard np -> stepsToEdge d np <= Z.of_nat fuel ->
  walkInDirection fuel s startPosition d col (Some np) <> NoAnswer.
Proof.
  intros Hd. revert np. induction fuel as [|fuel IH]; intros np Hnp Hsteps.
  - exfalso. unfold slidingDirection in Hd. unfold stepsToEdge, onBoard in *.
    repeat (apply elem_of_cons in Hd as [-> | Hd]; [simpl in *; lia|]).
    by apply elem_of_nil in Hd.
  - cbn [walkInDirection]. unfold isCellEmpty, isCellEnemy.
    destruct (cellAt_answers (boardState s) np) as [Hc _].
    destruct (cellAt (boardState s) np) as [c| | |]; simpl; try done.
    destruct (bool_decide (piece c = None)).
    + pose proof (annotateMove_answers s (plainMove startPosition np)) as Ha.
      destruct (annotateMove s (plainMove startPosition np)) as [mv| | |]; simpl; try done.
      destruct (getPosInDirection np d) as [np'|] eqn:Hnext; [|by destruct fuel].
      apply getPosInDirection_Some in Hnext as [-> Hon].
      specialize (IH (np.1 + d.1, np.2 + d.2) Hon).
      destruct (walkInDirection fuel s startPosition d col _) as [rest| | |];
        simpl; try done.
      apply IH. clear IH Ha Hc.
      unfold slidingDirection in Hd. unfold stepsToEdge, onBoard in *.
      repeat (apply elem_of_cons in Hd as [-> | Hd]; [simpl in *; lia|]).
      by apply elem_of_nil in Hd.
    + destruct (piece c) as [p|]; simpl; [|done].
      destruct (bool_decide (color p <> col)); [|done].
      pose proof (annotateMove_answers s (plainMove startPosition np)) as Ha.
      by destruct (annotateMove s (plainMove startPosition np)).
Qed.

(** The eight steps given to [getMovesInDirection] are enough. *)
Lemma getMovesInDirection_answers (s : GameState) (startPosition d : Position) :
  slidingDirection d -> getMovesInDirection s startPosition d <> NoAnswer.
Proof.
  intros Hd. unfold getMovesInDirection.
  destruct (cellAt_answers (boardState s) startPosition) as [Hc _].
  destruct (cellAt (boardState s) startPosition) as [c| | |]; cbn [bindR]; try done.
  destruct (piece c) as [p|]; [|done].
  destruct (getPosInDirection startPosition d) as [np|] eqn:Hnp; [|done].
  apply getPosInDirection_Some in Hnp as [-> Hon].
  apply walkInDirection_answers; [exact Hd | exact Hon |].
  unfold slidingDirection in Hd. unfold stepsToEdge, onBoard in *.
  repeat (apply elem_of_cons in Hd as [-> | Hd]; [simpl in *; lia|]).
  by apply elem_of_nil in Hd.
Qed.

(** *** The list of legal moves *)

Lemma legalOfPiece_shape (s : GameState) (acc : list Move) (mv : Move) :
  (let* inCheck := doesMovePutMovingPlayerInCheck s mv in
   Ok (if inCheck then acc else acc ++ [mv]))
  = let* ys := legalOfMove s mv in Ok (acc ++ ys).
Proof.
  unfold legalOfMove. destruct (doesMovePutMovingPlayerInCheck s mv) as [[|]| | |]; simpl;
    try reflexivity. by rewrite app_nil_r.
Qed.

Lemma legalOfCell_shape (s : GameState) (col : PlayerColor) (row : Z)
    (acc : list Move) (c : Z) :
  scanCell s col row acc c = let* ys := scanCell s col row [] c in Ok (acc ++ ys).
Proof.
  unfold scanCell.
  destruct (cellAt (boardState s) (row, c)) as [cellState| | |]; simpl; try reflexivity.
  destruct (piece cellState) as [p|]; [|simpl; by rewrite app_nil_r].
  destruct (bool_decide (color p = col)); [|simpl; by rewrite app_nil_r].
  destruct (getMovesFromPosition s (row, c)) as [pm| | |]; simpl; try reflexivity.
  apply (forR_shift (legalOfMove s)). apply legalOfPiece_shape.
Qed.

Lemma legalOfRow_shape (s : GameState) (col : PlayerColor) (acc : list Move) (row : Z) :
  forR (seqZ 0 8) acc (scanCell s col row)
  = let* ys := forR (seqZ 0 8) [] (scanCell s col row) in Ok (acc ++ ys).
Proof.
  apply (forR_shift (scanCell s col row [])). apply legalOfCell_shape.
Qed.

(** A move generated for a piece of the colour is in the list of legal moves
    exactly when it does not leave the mover in check. *)
Lemma getAllLegalMoves_spec (s : GameState) (col : PlayerColor) (l : list Move) :
  getAllLegalMoves s col = Ok l ->
  forall mv, mv ∈ l <->
    exists pos p pm, onBoard pos
      /\ cellAt (boardState s) pos = Ok {| piece := Some p |} /\ color p = col
      /\ getMovesFromPosition s pos = Ok pm /\ mv ∈ pm
      /\ doesMovePutMovingPlayerInCheck s mv = Ok false.
Proof.
  intros Hl mv. unfold getAllLegalMoves in Hl.
  change (forR (seqZ 0 8) [] (fun moves row => forR (seqZ 0 8) moves (scanCell s col row))
          = Ok l) in Hl.
  pose proof (forR_collect _ _ (legalOfRow_shape s col) _ _ Hl mv) as Hrows.
  pose proof (forR_all_Ok _ _ (legalOfRow_shape s col) _ _ Hl) as Hrows_ok.
  rewrite Hrows. clear Hrows. split.
  - intros (row & ys & Hrow & Hys & Hmv).
    pose proof (forR_collect _ _ (legalOfCell_shape s col row) _ _ Hys mv) as Hcols.
    apply Hcols in Hmv as (c & zs & Hc & Hzs & Hmv).
    unfold scanCell in Hzs.
    destruct (cellAt (boardState s) (row, c)) as [[pc]| | |] eqn:Hcell; simpl in Hzs;
      try discriminate.
    destruct pc as [p|]; simpl in Hzs; [|inversion Hzs; subst; by apply elem_of_nil in Hmv].
    destruct (bool_decide (color p = col)) eqn:Hcol;
      [|inversion Hzs; subst; by apply elem_of_nil in Hmv].
    apply bool_decide_eq_true in Hcol.
    destruct (getMovesFromPosition s (row, c)) as [pm| | |] eqn:Hpm; simpl in Hzs;
      try discriminate.
    pose proof (forR_collect _ _ (legalOfPiece_shape s) _ _ Hzs mv) as Hpiece.
    apply Hpiece in Hmv as (mv' & us & Hmv' & Hus & Hmv).
    unfold legalOfMove in Hus.
    destruct (doesMovePutMovingPlayerInCheck s mv') as [[|]| | |] eqn:Hchk; simpl in Hus;
      try discriminate; inversion Hus; subst us.
    { by apply elem_of_nil in Hmv. }
    apply list_elem_of_singleton in Hmv as ->.
    exists (row, c), p, pm. repeat split; try done.
    all: apply elem_of_seqZ in Hrow, Hc; simpl; lia.
  - intros ([row c] & p & pm & [Hr Hc] & Hcell & Hcol & Hpm & Hmv & Hchk). simpl in Hr, Hc.
    assert (row ∈ seqZ 0 8) as Hrow by (apply elem_of_seqZ; lia).
    assert (c ∈ seqZ 0 8) as Hcin by (apply elem_of_seqZ; lia).
    destruct (Hrows_ok row Hrow) as [ys Hys]. exists row, ys. repeat split; try done.
    pose proof (forR_collect _ _ (legalOfCell_shape s col row) _ _ Hys mv) as Hcols.
    pose proof (forR_all_Ok _ _ (legalOfCell_shape s col row) _ _ Hys c Hcin) as [zs Hzs].
    apply Hcols. exists c, zs. repeat split; try done.
    unfold scanCell in Hzs. rewrite Hcell in Hzs. simpl in Hzs.
    rewrite bool_decide_eq_true_2 in Hzs by done. rewrite Hpm in Hzs. simpl in Hzs.
    pose proof (forR_collect _ _ (legalOfPiece_shape s) _ _ Hzs mv) as Hpiece.
    apply Hpiece. exists mv, [mv]. repeat split; try done;
      [|by apply list_elem_of_singleton].
    unfold legalOfMove. by rewrite Hchk.
Qed.

End Moves.

(** ** En passant *)

(** Closed facts about concrete positions are decided by evaluation. *)
Ltac by_evaluation :=
  match goal with |- ?P => apply (bool_decide_unpack P); vm_compute; exact I end.

Section EnPassant.

Import ChessGame.

Lemma enPassantOffered_intro (s : GameState) (c d : Z) (q w : Piece) :
  wfBoard (boardState s) ->
  0 <= c <= 7 -> 0 <= d <= 7 -> d = c - 1 \/ d = c + 1 ->
  cellAt (boardState s) (3, d) = Ok {| piece := Some q |} ->
  type q = pawn -> color q = black ->
  cellAt (boardState s) (3, c) = Ok {| piece := Some w |} ->
  type w = pawn -> color w = white -> justMoved2 w = Some true ->
  enPassantOffered s black (3, d) (2, c).
Proof.
  intros Hwf Hc Hd Hcd Hq Hqt Hqc Hw Hwt Hwc Hwj.
  destruct (enPassant_generated s c d q w) as (ep & Hgen & Hf & Ht & Hep); try done.
  exists ep. repeat split; try done.
  intros Hchk l Hl. apply (getAllLegalMoves_spec s black l Hl).
  destruct Hgen as (pm & Hpm & Hin).
  exists (3, d), q, pm. repeat split; try done; simpl; lia.
Qed.

Lemma makeMove_keeps_cell (mv : Move) (s s' : GameState) (r : Result unit) (pos : Position) :
  makeMove mv s = (r, s') -> pos ∉ squaresWritten (turn s) mv ->
  cellAt (boardState s') pos = cellAt (boardState s) pos.
Proof.
  intros H Hpos. pose proof (makeMove_frame mv s) as [_ Hc]. rewrite H in Hc. by apply Hc.
Qed.

Lemma makeMove_wfBoard (mv : Move) (s s' : GameState) (r : Result unit) :
  makeMove mv s = (r, s') -> wfBoard (boardState s) -> wfBoard (boardState s').
Proof.
  intros H. pose proof (makeMove_frame mv s) as [Hw _]. by rewrite H in Hw.
Qed.

End EnPassant.

(** C2 (as the code has it).  A pawn's [justMoved2] flag is set by its double
    step and cleared only when that pawn moves again.  After white has played
    a pawn from row 1 to row 3, a black pawn beside it is offered the
    en-passant capture (generated for it, and legal unless it leaves black in
    check) on the next ply, and is still offered it after a black and a white
    move that write neither pawn's cell, whatever kind of move white plays. *)
Theorem C2_enPassant_window (s0 s1 s2 s3 : GameState) (m b w : Move) (c d : Z)
    (p q : Piece) :
  wfBoard (boardState s0) ->
  0 <= c <= 7 -> 0 <= d <= 7 -> d = c - 1 \/ d = c + 1 ->
  ChessGame.cellAt (boardState s0) (1, c) = Ok {| piece := Some p |} ->
  type p = pawn -> color p = white ->
  from m = (1, c) -> to m = (3, c) -> isPawnMoving2 m = true ->
  enPassant m = false -> castling m = false -> promotion m = None ->
  ChessGame.makeMove m s0 = (Ok tt, s1) ->
  ChessGame.cellAt (boardState s0) (3, d) = Ok {| piece := Some q |} ->
  type q = pawn -> color q = black ->
  ChessGame.makeMove b s1 = (Ok tt, s2) ->
  ChessGame.makeMove w s2 = (Ok tt, s3) ->
  (3, c) ∉ squaresWritten (turn s1) b -> (3, d) ∉ squaresWritten (turn s1) b ->
  (3, c) ∉ squaresWritten (turn s2) w -> (3, d) ∉ squaresWritten (turn s2) w ->
  enPassantOffered s1 black (3, d) (2, c) /\ enPassantOffered s3 black (3, d) (2, c).
Proof.
  intros Hwf Hc Hd Hcd Hp Hpt Hpc Hfrom Hto Hdouble Hep Hcas Hpro Hm Hq Hqt Hqc
    Hb Hw Hbc Hbd Hwc Hwd.
  destruct (makeMove_plain m s0 s1) as (p' & Hp' & Hcell); try done.
  { rewrite Hfrom, Hto. intros H. injection H. lia. }
  rewrite Hfrom, Hp in Hp'. injection Hp' as <-. rewrite Hto, Hdouble in Hcell.
  assert (ChessGame.cellAt (boardState s1) (3, d) = Ok {| piece := Some q |}) as Hq1.
  { rewrite (makeMove_keeps_cell m s0 s1 _ (3, d) Hm); [done|].
    unfold squaresWritten. rewrite Hep, Hcas, Hfrom, Hto. simpl.
    rewrite !not_elem_of_cons. repeat split; try apply not_elem_of_nil.
    - intros H; injection H; lia.
    - intros H; injection H; lia. }
  pose proof (makeMove_wfBoard m s0 s1 _ Hm Hwf) as Hwf1.
  pose proof (makeMove_wfBoard b s1 s2 _ Hb Hwf1) as Hwf2.
  pose proof (makeMove_wfBoard w s2 s3 _ Hw Hwf2) as Hwf3.
  assert (ChessGame.cellAt (boardState s3) (3, d) = Ok {| piece := Some q |}) as Hq3.
  { rewrite (makeMove_keeps_cell w s2 s3 _ (3, d) Hw Hwd).
    by rewrite (makeMove_keeps_cell b s1 s2 _ (3, d) Hb Hbd). }
  assert (ChessGame.cellAt (boardState s3) (3, c) = ChessGame.cellAt (boardState s1) (3, c))
    as Hcell3.
  { rewrite (makeMove_keeps_cell w s2 s3 _ (3, c) Hw Hwc).
    by rewrite (makeMove_keeps_cell b s1 s2 _ (3, c) Hb Hbc). }
  rewrite Hcell in Hcell3.
  split.
  - exact (enPassantOffered_intro s1 c d q _ Hwf1 Hc Hd Hcd Hq1 Hqt Hqc Hcell Hpt Hpc eq_refl).
  - exact (enPassantOffered_intro s3 c d q _ Hwf3 Hc Hd Hcd Hq3 Hqt Hqc Hcell3 Hpt Hpc eq_refl).
Qed.

Lemma C2_enPassant_window_witness :
  enPassantOffered afterE4 black (3, 3) (2, 4)
  /\ enPassantOffered afterNf3 black (3, 3) (2, 4).
Proof.
  apply (C2_enPassant_window pawnsFacing afterE4 afterKe7 afterNf3 e2e4 Ke8e7 Ng1f3 4 3
           (aPiece pawn white false) (aPiece pawn black true)).
  - split; [reflexivity | repeat constructor].
  - lia.
  - lia.
  - left; reflexivity.
  - reflexivity.
  - reflexivity.
  - reflexivity.
  - reflexivity.
  - reflexivity.
  - reflexivity.
  - reflexivity.
  - reflexivity.
  - reflexivity.
  - reflexivity.
  - reflexivity.
  - reflexivity.
  - reflexivity.
  - reflexivity.
  - reflexivity.
  - by_evaluation.
  - by_evaluation.
  - by_evaluation.
  - by_evaluation.
Defined.

(** C2 (the claim as stated fails).  White plays e2-e4 beside the black pawn on
    d4, black answers Ke7, white plays the knight to f3, which is no double
    step of a pawn, and the capture d4xe3 en passant is still legal. *)
Lemma C2_counterexample :
  legal afterE4 black d4xe3 /\ ~ enPassantExpires afterE4 d4xe3.
Proof.
  assert (forall s col mv, isLegal s col mv = true -> legal s col mv) as Hlegal.
  { intros s col mv H. unfold isLegal in H.
    destruct (ChessGame.getAllLegalMoves s col) as [l| | |] eqn:Hl; try discriminate.
    apply bool_decide_eq_true in H. by exists l. }
  split.
  - apply Hlegal. by vm_compute.
  - intros H. apply (H Ke8e7 afterKe7 Ng1f3 afterNf3).
    + apply Hlegal. by vm_compute.
    + reflexivity.
    + apply Hlegal. by vm_compute.
    + reflexivity.
    + reflexivity.
    + apply Hlegal. by vm_compute.
Qed.

(** ** Moves and the state object of a game *)

Lemma cloneDeep_spec (h : Objects.Heap) (ref : nat) (s : GameState) :
  h !! ref = Some s -> Objects.cloneDeep ref h = (Ok (length h), h ++ [s]).
Proof. intros H. unfold Objects.cloneDeep. by rewrite H. Qed.

Lemma makeMove_object_spec (h : Objects.Heap) (ref : nat) (s : GameState) (mv : Move) :
  h !! ref = Some s ->
  Objects.makeMove (Objects.newChessGame ref) mv h
  = (let* _ := fst (ChessGame.makeMove mv s) in Ok (Objects.newChessGame ref),
     <[ref := snd (ChessGame.makeMove mv s)]> h).
Proof.
  intros H. unfold Objects.makeMove. simpl. rewrite H.
  by destruct (ChessGame.makeMove mv s).
Qed.

(** What [applyOnCopy] does to the heap: a copy is added and moved on; when
    the move succeeds a copy of the result is added and returned. *)
Lemma applyOnCopy_spec (h : Objects.Heap) (ref : nat) (s : GameState) (mv : Move) :
  h !! ref = Some s ->
  Objects.applyOnCopy ref mv h
  = match ChessGame.makeMove mv s with
    | (Ok _, s') => (Ok (S (length h)), h ++ [s'] ++ [s'])
    | (Throw e, s') => (Throw e, h ++ [s'])
    | (Blocked, s') => (Blocked, h ++ [s'])
    | (NoAnswer, s') => (NoAnswer, h ++ [s'])
    end.
Proof.
  intros H. unfold Objects.applyOnCopy, bindM. rewrite (cloneDeep_spec h ref s H).
  assert ((h ++ [s]) !! length h = Some s) as Hcopy.
  { rewrite lookup_app_r by lia. by rewrite Nat.sub_diag. }
  rewrite (makeMove_object_spec _ _ s mv Hcopy).
  assert (forall s', <[length h := s']> (h ++ [s]) = h ++ [s']) as Hins.
  { intros s'. rewrite insert_app_r_alt by lia. by rewrite Nat.sub_diag. }
  rewrite Hins.
  destruct (ChessGame.makeMove mv s) as [[[]|e| |] s']; simpl; try reflexivity.
  unfold Objects.getGameState. simpl.
  assert ((h ++ [s']) !! length h = Some s') as Hres.
  { rewrite lookup_app_r by lia. by rewrite Nat.sub_diag. }
  rewrite (cloneDeep_spec _ _ s' Hres). rewrite length_app. simpl.
  rewrite <- app_assoc. f_equal. f_equal. lia.
Qed.

(** C9 (as the code has it).  [makeMove] updates in place the state object its
    game was built from, so that object changes; applied the way the agents
    apply it, to a game built from a deep copy, it leaves the given state
    object as it was and returns a new object that holds the state after the
    move. *)
Theorem C9_makeMove_in_place (h : Objects.Heap) (ref : nat) (s : GameState) (mv : Move) :
  h !! ref = Some s ->
  snd (Objects.makeMove (Objects.newChessGame ref) mv h) !! ref
    = Some (snd (ChessGame.makeMove mv s))
  /\ snd (Objects.applyOnCopy ref mv h) !! ref = Some s
  /\ (forall s', stateAfter s mv = Ok s' ->
      exists ref', fst (Objects.applyOnCopy ref mv h) = Ok ref'
        /\ ref' <> ref
        /\ snd (Objects.applyOnCopy ref mv h) !! ref' = Some s').
Proof.
  intros Href. pose proof (lookup_lt_Some _ _ _ Href) as Hlt.
  rewrite (makeMove_object_spec h ref s mv Href), (applyOnCopy_spec h ref s mv Href).
  split; [|split].
  - cbn [snd]. by apply list_lookup_insert_eq.
  - destruct (ChessGame.makeMove mv s) as [[[]|e| |] s1]; cbn [snd]; by rewrite lookup_app_l.
  - intros s' Hs'. unfold stateAfter in Hs'.
    destruct (ChessGame.makeMove mv s) as [[[]|e| |] s1]; cbn [fst snd]; try discriminate.
    injection Hs' as ->. exists (S (length h)). split; [reflexivity|]. split; [lia|].
    rewrite lookup_app_r by lia. by replace (S (length h) - length h)%nat with 1%nat by lia.
Qed.

Lemma C9_makeMove_in_place_witness :
  snd (Objects.makeMove (Objects.newChessGame 0) e2e4 [pawnsFacing]) !! 0%nat
    = Some (snd (ChessGame.makeMove e2e4 pawnsFacing))
  /\ snd (Objects.applyOnCopy 0 e2e4 [pawnsFacing]) !! 0%nat = Some pawnsFacing
  /\ (forall s', stateAfter pawnsFacing e2e4 = Ok s' ->
      exists ref', fst (Objects.applyOnCopy 0 e2e4 [pawnsFacing]) = Ok ref'
        /\ ref' <> 0%nat
        /\ snd (Objects.applyOnCopy 0 e2e4 [pawnsFacing]) !! ref' = Some s').
Proof.
  apply (C9_makeMove_in_place [pawnsFacing] 0 pawnsFacing e2e4). reflexivity.
Defined.

(** C9 (the claim as stated fails).  A game is built from the state object at
    address 0, which holds the start position; after [makeMove] with e2-e4 the
    object no longer holds the start position. *)
Lemma C9_counterexample :
  snd (Objects.makeMove (Objects.newChessGame 0)
         {| from := (1, 4); to := (3, 4); algebraic := "e4"; enPassant := false;
            castling := false; isPawnMoving2 := true; promotion := None |}
         [initialGameState]) !! 0%nat
  <> Some initialGameState.
Proof. vm_compute. discriminate. Qed.
(** ** Rounding to double precision *)

Section Rounding.

Import Double.

Local Open Scope Z_scope.

Lemma pow2_pos (k : Z) : (0 < pow2 k)%Q.
Proof. apply Qpower_0_lt. reflexivity. Qed.

Lemma pow2_add (a b : Z) : (pow2 (a + b) == pow2 a * pow2 b)%Q.
Proof. apply Qpower_plus. discriminate. Qed.

Lemma pow2_le (a b : Z) : a <= b -> (pow2 a <= pow2 b)%Q.
Proof. intros H. apply Qpower_le_compat_l; [exact H | discriminate]. Qed.

Lemma pow2_lt (a b : Z) : a < b -> (pow2 a < pow2 b)%Q.
Proof. intros H. apply Qpower_lt_compat_l; [exact H | reflexivity]. Qed.

Lemma pow2_Z (k : Z) : 0 <= k -> (inject_Z (2 ^ k) == pow2 k)%Q.
Proof. intros H. unfold pow2. by rewrite (Zpower_Qpower 2 k H). Qed.

Lemma roundHalfEven_bounds (x : Q) :
  Qfloor x <= roundHalfEven x <= Qfloor x + 1.
Proof.
  unfold roundHalfEven. destruct (_ ?= _)%Q; [destruct (Z.even _)| |]; lia.
Qed.

Lemma roundHalfEven_mono (x y : Q) : (x <= y)%Q -> roundHalfEven x <= roundHalfEven y.
Proof.
  intros Hxy. pose proof (Qfloor_resp_le x y Hxy) as Hf.
  pose proof (roundHalfEven_bounds x) as Hx. pose proof (roundHalfEven_bounds y) as Hy.
  destruct (Z.eq_dec (Qfloor x) (Qfloor y)) as [Heq | Hne]; [|lia].
  unfold roundHalfEven in *. rewrite <- Heq in *.
  destruct (Qcompare_spec (x - inject_Z (Qfloor x)) (1 # 2)) as [Hcx | Hcx | Hcx];
    destruct (Qcompare_spec (y - inject_Z (Qfloor x)) (1 # 2)) as [Hcy | Hcy | Hcy];
    try (destruct (Z.even (Qfloor x))); try lia; exfalso; lra.
Qed.

Lemma roundHalfEven_Z (z : Z) : roundHalfEven (inject_Z z) = z.
Proof.
  unfold roundHalfEven. rewrite Qfloor_Z.
  destruct (Qcompare_spec (inject_Z z - inject_Z z) (1 # 2)) as [Hc | Hc | Hc];
    [exfalso; lra | reflexivity | exfalso; lra].
Qed.

Lemma roundHalfEven_comp (x y : Q) : (x == y)%Q -> roundHalfEven x = roundHalfEven y.
Proof.
  intros H. apply Z.le_antisymm; apply roundHalfEven_mono; rewrite H; apply Qle_refl.
Qed.

(** The exponent of a positive number. *)
Lemma exponent_spec (x : Q) :
  (0 < x)%Q -> (pow2 (exponent x) <= x)%Q /\ (x < pow2 (exponent x + 1))%Q.
Proof.
  intros Hx. destruct x as [n d]. unfold exponent. cbn [Qnum Qden].
  assert (0 < n) as Hn.
  { unfold Qlt in Hx. simpl in Hx. lia. }
  set (ln := Z.log2 n). set (ld := Z.log2 (Z.pos d)).
  destruct (Z.log2_spec n Hn) as [Hn1 Hn2]. fold ln in Hn1, Hn2.
  destruct (Z.log2_spec (Z.pos d)) as [Hd1 Hd2]; [lia|]. fold ld in Hd1, Hd2.
  assert (0 <= ln) as Hln by apply Z.log2_nonneg.
  assert (0 <= ld) as Hld by apply Z.log2_nonneg.
  assert (n # d == inject_Z n / inject_Z (Z.pos d))%Q as Hdiv by apply Qmake_Qdiv.
  assert (0 < inject_Z (Z.pos d))%Q as Hdpos by (unfold Qlt; simpl; lia).
  assert (pow2 ld <= inject_Z (Z.pos d))%Q as Hd1q.
  { rewrite <- pow2_Z by lia. rewrite <- Zle_Qle. exact Hd1. }
  assert (inject_Z (Z.pos d) < pow2 (ld + 1))%Q as Hd2q.
  { rewrite <- pow2_Z by lia. rewrite <- Zlt_Qlt. replace (ld + 1) with (Z.succ ld) by lia.
    exact Hd2. }
  assert (pow2 ln <= inject_Z n)%Q as Hn1q.
  { rewrite <- pow2_Z by lia. rewrite <- Zle_Qle. exact Hn1. }
  assert (inject_Z n < pow2 (ln + 1))%Q as Hn2q.
  { rewrite <- pow2_Z by lia. rewrite <- Zlt_Qlt. replace (ln + 1) with (Z.succ ln) by lia.
    exact Hn2. }
  assert (n # d < pow2 (ln - ld + 1))%Q as Hupper.
  { rewrite Hdiv. apply Qlt_shift_div_r; [exact Hdpos|].
    replace (ln - ld + 1) with ((ln + 1) + - ld) by lia. rewrite pow2_add.
    assert (pow2 (- ld) * pow2 ld == 1)%Q as Hinv.
    { rewrite <- pow2_add. replace (- ld + ld) with 0 by lia. reflexivity. }
    pose proof (pow2_pos (ln + 1)) as H1. pose proof (pow2_pos (- ld)) as H2.
    pose proof (pow2_pos ld) as H3.
    assert (pow2 (ln + 1) * pow2 (- ld) * pow2 ld <= pow2 (ln + 1) * pow2 (- ld) * inject_Z (Z.pos d))%Q.
    { apply Qmult_le_l; [|exact Hd1q]. apply Qmult_lt_0_compat; assumption. }
    assert (pow2 (ln + 1) * pow2 (- ld) * pow2 ld == pow2 (ln + 1))%Q as Heq.
    { rewrite <- Qmult_assoc, Hinv. ring. }
    rewrite Heq in H. lra. }
  assert (pow2 (ln - ld - 1) <= n # d)%Q as Hlower.
  { rewrite Hdiv. apply Qle_shift_div_l; [exact Hdpos|].
    replace (ln - ld - 1) with (ln + - (ld + 1)) by lia. rewrite pow2_add.
    assert (pow2 (- (ld + 1)) * pow2 (ld + 1) == 1)%Q as Hinv.
    { rewrite <- pow2_add. replace (- (ld + 1) + (ld + 1)) with 0 by lia. reflexivity. }
    pose proof (pow2_pos ln) as H1. pose proof (pow2_pos (- (ld + 1))) as H2.
    assert (pow2 ln * pow2 (- (ld + 1)) * inject_Z (Z.pos d)
            <= pow2 ln * pow2 (- (ld + 1)) * pow2 (ld + 1))%Q.
    { apply Qmult_le_l; [apply Qmult_lt_0_compat; assumption|]. lra. }
    assert (pow2 ln * pow2 (- (ld + 1)) * pow2 (ld + 1) == pow2 ln)%Q as Heq.
    { rewrite <- Qmult_assoc, Hinv. ring. }
    rewrite Heq in H. lra. }
  destruct (Qle_bool (pow2 (ln - ld)) (n # d)) eqn:Hguess.
  - apply Qle_bool_iff in Hguess. split; [exact Hguess | exact Hupper].
  - split; [exact Hlower|]. replace (ln - ld - 1 + 1) with (ln - ld) by lia.
    apply Qnot_le_lt. intros H. apply Qle_bool_iff in H. congruence.
Qed.

Lemma exponent_mono (x y : Q) : (0 < x)%Q -> (x <= y)%Q -> exponent x <= exponent y.
Proof.
  intros Hx Hxy. destruct (exponent_spec x Hx) as [Hx1 _].
  destruct (exponent_spec y) as [_ Hy2]; [lra|].
  destruct (Z_le_gt_dec (exponent x) (exponent y)) as [H | H]; [exact H|].
  assert (pow2 (exponent y + 1) <= pow2 (exponent x))%Q by (apply pow2_le; lia). lra.
Qed.

Lemma scaled (x : Q) (k : Z) (c : Z) :
  (x <= pow2 (k + c))%Q -> (x / pow2 k <= pow2 c)%Q.
Proof.
  intros H. apply Qle_shift_div_r; [apply pow2_pos|].
  rewrite <- pow2_add. by replace (c + k) with (k + c) by lia.
Qed.

Lemma scaled_ge (x : Q) (k : Z) (c : Z) :
  (pow2 (k + c) <= x)%Q -> (pow2 c <= x / pow2 k)%Q.
Proof.
  intros H. apply Qle_shift_div_l; [apply pow2_pos|].
  rewrite <- pow2_add. by replace (c + k) with (k + c) by lia.
Qed.

(** The nearest double does not decrease when the number grows. *)
Lemma nearest_mono (x y : Q) : (0 < x)%Q -> (x <= y)%Q -> (nearest x <= nearest y)%Q.
Proof.
  intros Hx Hxy. assert (0 < y)%Q as Hy by lra.
  pose proof (exponent_mono x y Hx Hxy) as He.
  destruct (exponent_spec x Hx) as [Hx1 Hx2]. destruct (exponent_spec y Hy) as [Hy1 Hy2].
  unfold nearest.
  set (ex := Z.max (exponent x) (-1022)). set (ey := Z.max (exponent y) (-1022)).
  assert (ex <= ey) as Hexy by (unfold ex, ey; lia).
  destruct (Z.eq_dec ex ey) as [Heq | Hne].
  - rewrite <- Heq. apply Qmult_le_compat_r; [|apply Qlt_le_weak, pow2_pos].
    rewrite <- Zle_Qle. apply roundHalfEven_mono.
    apply Qmult_le_compat_r; [exact Hxy|].
    apply Qlt_le_weak, Qinv_lt_0_compat, pow2_pos.
  - assert (ey = exponent y) as Hey by (unfold ex, ey in *; lia).
    assert (exponent x + 1 <= ex + 1) as Hex1 by (unfold ex; lia).
    (* nearest x <= 2^(ex+1) <= 2^ey <= nearest y *)
    apply Qle_trans with (pow2 (ex + 1)).
    + assert (roundHalfEven (x / pow2 (ex - 52)) <= 2 ^ 53) as Hm.
      { rewrite <- (roundHalfEven_Z (2 ^ 53)). apply roundHalfEven_mono.
        rewrite (pow2_Z 53) by lia. apply scaled.
        replace (ex - 52 + 53) with (ex + 1) by lia.
        apply Qle_trans with (pow2 (exponent x + 1)); [lra | by apply pow2_le]. }
      replace (ex + 1) with (53 + (ex - 52)) by lia. rewrite pow2_add.
      apply Qmult_le_compat_r; [|apply Qlt_le_weak, pow2_pos].
      rewrite <- (pow2_Z 53) by lia. by rewrite <- Zle_Qle.
    + apply Qle_trans with (pow2 ey); [apply pow2_le; lia|].
      assert (2 ^ 52 <= roundHalfEven (y / pow2 (ey - 52))) as Hm.
      { rewrite <- (roundHalfEven_Z (2 ^ 52)) at 1. apply roundHalfEven_mono.
        rewrite (pow2_Z 52) by lia. apply scaled_ge.
        replace (ey - 52 + 52) with ey by lia. by rewrite Hey. }
      replace ey with (52 + (ey - 52)) at 1 by lia. rewrite pow2_add.
      apply Qmult_le_compat_r; [|apply Qlt_le_weak, pow2_pos].
      rewrite <- (pow2_Z 52) by lia. by rewrite <- Zle_Qle.
Qed.

Lemma exponent_unique (y : Q) (k : Z) :
  (pow2 k <= y)%Q -> (y < pow2 (k + 1))%Q -> exponent y = k.
Proof.
  intros Hlow Hhigh. pose proof (pow2_pos k) as Hk.
  destruct (exponent_spec y) as [Hy1 Hy2]; [lra|].
  destruct (Z_lt_le_dec (exponent y) k) as [Hlt | Hge].
  - assert (pow2 (exponent y + 1) <= pow2 k)%Q by (apply pow2_le; lia). lra.
  - destruct (Z_lt_le_dec k (exponent y)) as [Hlt | Hle]; [|lia].
    assert (pow2 (k + 1) <= pow2 (exponent y))%Q by (apply pow2_le; lia). lra.
Qed.

Lemma scaled_back (m q : Z) : (inject_Z m * pow2 q / pow2 q == inject_Z m)%Q.
Proof. pose proof (pow2_pos q). field. lra. Qed.

(** A positive result of the rounding is a double: rounding leaves it as it
    is. *)
Lemma nearest_fixed (x : Q) :
  (0 < x)%Q -> (0 < nearest x)%Q -> (nearest (nearest x) == nearest x)%Q.
Proof.
  intros Hx Hpos. destruct (exponent_spec x Hx) as [Hx1 Hx2].
  unfold nearest at 2 3. unfold nearest in Hpos.
  set (e := Z.max (exponent x) (-1022)) in *. set (q := e - 52) in *.
  set (m := roundHalfEven (x / pow2 q)) in *.
  pose proof (pow2_pos q) as Hq.
  assert (0 < m) as Hm0.
  { destruct (Z_lt_le_dec 0 m) as [H | H]; [exact H|]. exfalso.
    assert (inject_Z m <= 0)%Q by (change 0%Q with (inject_Z 0); by rewrite <- Zle_Qle).
    assert (inject_Z m * pow2 q <= 0 * pow2 q)%Q
      by (apply Qmult_le_compat_r; [done | lra]).
    lra. }
  assert (m <= 2 ^ 53) as Hm.
  { unfold m. rewrite <- (roundHalfEven_Z (2 ^ 53)). apply roundHalfEven_mono.
    rewrite (pow2_Z 53) by lia. apply scaled.
    replace (q + 53) with (e + 1) by (unfold q; lia).
    apply Qle_trans with (pow2 (exponent x + 1)); [lra | apply pow2_le; unfold e; lia]. }
  assert (inject_Z (2 ^ 53) * pow2 q == pow2 (e + 1))%Q as H53.
  { rewrite (pow2_Z 53) by lia. rewrite <- pow2_add. by replace (53 + q) with (e + 1)
      by (unfold q; lia). }
  assert (inject_Z (2 ^ 52) * pow2 q == pow2 e)%Q as H52.
  { rewrite (pow2_Z 52) by lia. rewrite <- pow2_add. by replace (52 + q) with e
      by (unfold q; lia). }
  destruct (Z.eq_dec m (2 ^ 53)) as [Heq | Hne].
  - (* the significand was carried to the next power of two *)
    rewrite Heq in *. clear Heq.
    assert (exponent (inject_Z (2 ^ 53) * pow2 q) = e + 1) as He.
    { apply exponent_unique; [rewrite H53; apply Qle_refl|].
      rewrite H53. apply pow2_lt. lia. }
    unfold nearest. rewrite He.
    replace (Z.max (e + 1) (-1022)) with (e + 1) by (unfold e; lia).
    assert (roundHalfEven (inject_Z (2 ^ 53) * pow2 q / pow2 (e + 1 - 52)) = 2 ^ 52) as ->.
    { rewrite <- (roundHalfEven_Z (2 ^ 52)). apply roundHalfEven_comp.
      rewrite H53. replace (e + 1) with (52 + (e + 1 - 52)) at 1 by lia.
      rewrite pow2_add, (pow2_Z 52) by lia. pose proof (pow2_pos (e + 1 - 52)).
      field. lra. }
    rewrite H53. rewrite (pow2_Z 52) by lia. rewrite <- pow2_add.
    by replace (52 + (e + 1 - 52)) with (e + 1) by lia.
  - assert (inject_Z m * pow2 q < pow2 (e + 1))%Q as Hhigh.
    { rewrite <- H53. apply Qmult_lt_compat_r; [exact Hq|]. rewrite <- Zlt_Qlt. lia. }
    assert (Z.max (exponent (inject_Z m * pow2 q)) (-1022) = e) as He.
    { destruct (exponent_spec (inject_Z m * pow2 q) Hpos) as [Hy1 Hy2].
      assert (exponent (inject_Z m * pow2 q) <= e) as Hle.
      { destruct (Z_lt_le_dec e (exponent (inject_Z m * pow2 q))) as [H | H]; [|exact H].
        assert (pow2 (e + 1) <= pow2 (exponent (inject_Z m * pow2 q)))%Q
          by (apply pow2_le; lia).
        lra. }
      destruct (Z.eq_dec e (-1022)) as [Hsub | Hnormal]; [lia|].
      assert (e = exponent x) as Hex by (unfold e in *; lia).
      assert (2 ^ 52 <= m) as Hm52.
      { unfold m. rewrite <- (roundHalfEven_Z (2 ^ 52)) at 1. apply roundHalfEven_mono.
        rewrite (pow2_Z 52) by lia. apply scaled_ge.
        replace (q + 52) with e by (unfold q; lia). by rewrite Hex. }
      assert (pow2 e <= inject_Z m * pow2 q)%Q as Hlow.
      { rewrite <- H52. apply Qmult_le_compat_r; [|lra]. by rewrite <- Zle_Qle. }
      rewrite (exponent_unique _ e Hlow Hhigh). lia. }
    unfold nearest. rewrite He. fold q.
    assert (roundHalfEven (inject_Z m * pow2 q / pow2 q) = m) as ->; [|apply Qeq_refl].
    rewrite <- (roundHalfEven_Z m) at 2. apply roundHalfEven_comp, scaled_back.
Qed.

Lemma round_zero (x : Q) : (x == 0)%Q -> round x = Finite 0.
Proof.
  intros Hx. destruct x as [[|n|n] d]; unfold Qeq in Hx; simpl in Hx; [done | lia | lia].
Qed.

Lemma round_positive (x : Q) :
  (0 < x)%Q ->
  round x = if Qle_bool (pow2 1024) (nearest x) then Infinity else Finite (nearest x).
Proof.
  intros Hx. destruct x as [[|n|n] d]; unfold Qlt in Hx; simpl in Hx; try lia. reflexivity.
Qed.

Lemma round_negative (x : Q) :
  (x < 0)%Q ->
  round x = if Qle_bool (pow2 1024) (nearest (- x)) then NegInfinity
            else Finite (- nearest (- x)).
Proof.
  intros Hx. destruct x as [[|n|n] d]; unfold Qlt in Hx; simpl in Hx; try lia. reflexivity.
Qed.

Lemma nearest_nonneg (x : Q) : (0 < x)%Q -> (0 <= nearest x)%Q.
Proof.
  intros Hx. unfold nearest.
  apply Qmult_le_0_compat; [|apply Qlt_le_weak, pow2_pos].
  change 0%Q with (inject_Z 0). rewrite <- Zle_Qle.
  rewrite <- (roundHalfEven_Z 0). apply roundHalfEven_mono.
  apply Qmult_le_0_compat; [by apply Qlt_le_weak|].
  apply Qlt_le_weak, Qinv_lt_0_compat, pow2_pos.
Qed.

(** Below zero, a difference nearer to zero has a rounded magnitude that is
    not larger. *)
Lemma abs_round_below (x y : Q) (t : ExtNum) :
  (x <= y)%Q -> (y < 0)%Q ->
  ExtNum.ltb (ExtNum.abs (round x)) t = true ->
  ExtNum.ltb (ExtNum.abs (round y)) t = true.
Proof.
  intros Hxy Hy. rewrite (round_negative x) by lra. rewrite (round_negative y Hy).
  assert (nearest (- y) <= nearest (- x))%Q as Hmono by (apply nearest_mono; lra).
  pose proof (nearest_nonneg (- y)) as Hy0. pose proof (nearest_nonneg (- x)) as Hx0.
  destruct (Qle_bool (pow2 1024) (nearest (- x))) eqn:Hox.
  { destruct t; simpl; discriminate. }
  assert (Qle_bool (pow2 1024) (nearest (- y)) = false) as ->.
  { apply not_true_iff_false. intros H. apply Qle_bool_iff in H.
    apply not_true_iff_false in Hox. apply Hox. apply Qle_bool_iff. lra. }
  destruct t as [| t |]; try done.
  unfold ExtNum.ltb, ExtNum.abs, ExtNum.leb. rewrite !negb_true_iff.
  intros H. apply not_true_iff_false. intros Hle. apply Qle_bool_iff in Hle.
  apply not_true_iff_false in H. apply H. apply Qle_bool_iff.
  assert (Qabs (- nearest (- x)) == nearest (- x))%Q as Hax.
  { rewrite Qabs_opp. apply Qabs_pos, Hx0. lra. }
  assert (Qabs (- nearest (- y)) == nearest (- y))%Q as Hay.
  { rewrite Qabs_opp. apply Qabs_pos, Hy0. lra. }
  lra.
Qed.

(** Rounding keeps the order of numbers that are not negative. *)
Lemma round_mono (x y : Q) :
  (0 <= x)%Q -> (x <= y)%Q -> ExtNum.leb (round x) (round y) = true.
Proof.
  intros Hx Hxy.
  destruct (Qlt_le_dec 0 x) as [Hpos | Hzero].
  - rewrite (round_positive x Hpos), (round_positive y) by lra.
    pose proof (nearest_mono x y Hpos Hxy) as Hmono.
    destruct (Qle_bool (pow2 1024) (nearest y)) eqn:Hoy.
    { by destruct (Qle_bool (pow2 1024) (nearest x)). }
    assert (Qle_bool (pow2 1024) (nearest x) = false) as ->.
    { apply not_true_iff_false. intros H. apply Qle_bool_iff in H.
      apply not_true_iff_false in Hoy. apply Hoy. apply Qle_bool_iff. lra. }
    by apply Qle_bool_iff.
  - rewrite (round_zero x) by lra.
    destruct (Qlt_le_dec 0 y) as [Hypos | Hyzero].
    + rewrite (round_positive y Hypos).
      destruct (Qle_bool (pow2 1024) (nearest y)); [done|].
      apply Qle_bool_iff. by apply nearest_nonneg.
    + rewrite (round_zero y) by lra. by apply Qle_bool_iff.
Qed.

(** What the rounding of a number that is not negative gives. *)
Lemma round_nonneg (x : Q) :
  (0 <= x)%Q ->
  round x = Infinity
  \/ exists v, round x = Finite v /\ (0 <= v)%Q /\ ExtNum.leb (Finite v) (round v) = true.
Proof.
  intros Hx. destruct (Qlt_le_dec 0 x) as [Hpos | Hzero].
  - rewrite (round_positive x Hpos).
    destruct (Qle_bool (pow2 1024) (nearest x)) eqn:Hox; [by left|].
    right. exists (nearest x). split; [done|].
    pose proof (nearest_nonneg x Hpos) as Hv. split; [exact Hv|].
    destruct (Qlt_le_dec 0 (nearest x)) as [Hvpos | Hvzero].
    + pose proof (nearest_fixed x Hpos Hvpos) as Hfix.
      rewrite (round_positive (nearest x) Hvpos).
      assert (Qle_bool (pow2 1024) (nearest (nearest x)) = false) as ->.
      { apply not_true_iff_false. intros H. apply Qle_bool_iff in H.
        apply not_true_iff_false in Hox. apply Hox. apply Qle_bool_iff. lra. }
      apply Qle_bool_iff. lra.
    + rewrite (round_zero (nearest x)) by lra. apply Qle_bool_iff. lra.
  - right. exists 0%Q. rewrite (round_zero x) by lra.
    split; [done|]. split; [lra | done].
Qed.

End Rounding.

(** ** Comparisons of numbers *)

Lemma Qltb_lt (x y : Q) : Qltb x y = true <-> (x < y)%Q.
Proof.
  unfold Qltb. rewrite negb_true_iff. split.
  - intros H. apply Qnot_le_lt. intros Hle. apply Qle_bool_iff in Hle. congruence.
  - intros H. destruct (Qle_bool y x) eqn:Hle; [|reflexivity].
    apply Qle_bool_iff in Hle. exfalso. exact (Qlt_not_le _ _ H Hle).
Qed.

Lemma Qltb_ge (x y : Q) : Qltb x y = false <-> (y <= x)%Q.
Proof.
  unfold Qltb. rewrite negb_false_iff. apply Qle_bool_iff.
Qed.

Lemma cacheAnswers_true (cacheResult : PendingCacheEntry) (budget : Q) :
  CompressedMinimax.cacheAnswers cacheResult budget = true <->
  (budget <= entry_budget cacheResult)%Q
  \/ ExtNum.ltb (ExtNum.abs (Double.sub (entry_budget cacheResult) budget))
       CompressedMinimax.budgetCacheTolerance = true.
Proof.
  unfold CompressedMinimax.cacheAnswers. by rewrite orb_true_iff, Qle_bool_iff.
Qed.

(** ** The cache probe and the terminal probe of [minimax] *)

Section Probes.

Variable costSetup : CostSetup.
Variable parallel : bool.
Variable stateEvaluation : GameState -> M AgentState Q.
Variable getSuccessors : GameState -> M AgentState (list GameStateProgression).
Variable estimateNumberOfSuccessors : GameState -> Q.

#[local] Abbreviation minimax :=
  (CompressedMinimax.minimax costSetup parallel stateEvaluation getSuccessors
     estimateNumberOfSuccessors).

(** When the probe answers, the call is the [await] of the promise of the entry. *)
Lemma minimax_probe_hit (fuel : nat) (depth : Q) (s : GameState) (budget : Q)
    (alpha beta : ExtNum) (maximizingPlayer : bool) (σ : AgentState)
    (cacheResult : PendingCacheEntry) :
  minimaxCache σ !! ChessGame.hashGameState s = Some cacheResult ->
  CompressedMinimax.cacheAnswers cacheResult budget = true ->
  minimax (S fuel) depth s budget alpha beta maximizingPlayer σ
  = (match numberPromises σ !! entry_computedValue cacheResult with
     | Some (Fulfilled v) => Ok {| computedValue := v; usedBudget := 0 |}
     | Some (Rejected e) => Throw e
     | Some Pending => Blocked
     | None => NoAnswer
     end, σ).
Proof.
  intros Hentry Hans. cbn [CompressedMinimax.minimax].
  change (bindM get ?k σ) with (k σ σ). cbv beta. rewrite Hentry, Hans.
  unfold bindM, await.
  destruct (numberPromises σ !! entry_computedValue cacheResult) as [[|v|e]|]; reflexivity.
Qed.

(** When the probe does not answer, the state is classified first. *)
Lemma minimax_probe_miss (fuel : nat) (depth : Q) (s : GameState) (budget : Q)
    (alpha beta : ExtNum) (maximizingPlayer : bool) (σ : AgentState) (e : EndgameState) :
  probeMisses σ s budget ->
  ChessGame.getEndgameState s = Ok e ->
  minimax (S fuel) depth s budget alpha beta maximizingPlayer σ
  = match terminalValue e with
    | Some v =>
        (Ok {| computedValue := Finite v; usedBudget := 0 + basicMinimaxCost costSetup |},
         published σ (ChessGame.hashGameState s) (Fulfilled (Finite v))
           (0 + basicMinimaxCost costSetup))
    | None =>
        CompressedMinimax.settling (length (numberPromises σ))
          (CompressedMinimax.explore costSetup parallel stateEvaluation getSuccessors
             estimateNumberOfSuccessors (minimax fuel) depth s (ChessGame.hashGameState s)
             budget alpha beta maximizingPlayer (0 + basicMinimaxCost costSetup)%Q)
          (published σ (ChessGame.hashGameState s) Pending budget)
    end.
Proof.
  intros Hmiss He. cbn [CompressedMinimax.minimax].
  change (bindM get ?k σ) with (k σ σ). cbv beta.
  unfold probeMisses in Hmiss.
  assert (match minimaxCache σ !! ChessGame.hashGameState s with
          | Some cacheResult =>
              if CompressedMinimax.cacheAnswers cacheResult budget
              then Some cacheResult else None
          | None => None
          end = None) as ->.
  { destruct (minimaxCache σ !! ChessGame.hashGameState s); [by rewrite Hmiss | done]. }
  unfold bindM at 1. unfold liftR at 1. rewrite He.
  destruct e; reflexivity.
Qed.

End Probes.

(** What the terminal probe does at a checkmate that the cache probe does not
    answer: it returns the value with the basic cost as used budget, records
    no call, and offers the value to the cache, which takes it unless it holds
    an entry with a strictly larger budget. *)
Lemma minimax_terminal_probe (costSetup : CostSetup) (parallel : bool)
    (stateEvaluation : GameState -> M AgentState Q)
    (getSuccessors : GameState -> M AgentState (list GameStateProgression))
    (estimateNumberOfSuccessors : GameState -> Q)
    (fuel : nat) (depth : Q) (s : GameState) (budget : Q) (alpha beta : ExtNum)
    (maximizingPlayer : bool) (σ : AgentState) (e : EndgameState) (v : Q) :
  probeMisses σ s budget ->
  ChessGame.getEndgameState s = Ok e ->
  terminalValue e = Some v ->
  exists σ',
    CompressedMinimax.minimax costSetup parallel stateEvaluation getSuccessors
      estimateNumberOfSuccessors (S fuel) depth s budget alpha beta maximizingPlayer σ
    = (Ok {| computedValue := Finite v; usedBudget := 0 + basicMinimaxCost costSetup |}, σ')
    /\ history σ' = history σ
    /\ successorsCache σ' = successorsCache σ
    /\ gameDescriptionCache σ' = gameDescriptionCache σ
    /\ (cachedValue σ' (ChessGame.hashGameState s) = Some (Fulfilled (Finite v))
        \/ exists kept,
             minimaxCache σ !! ChessGame.hashGameState s = Some kept
             /\ (0 + basicMinimaxCost costSetup < entry_budget kept)%Q
             /\ minimaxCache σ' !! ChessGame.hashGameState s = Some kept).
Proof.
  intros Hmiss He Hv.
  rewrite (minimax_probe_miss _ _ _ _ _ fuel depth s budget alpha beta maximizingPlayer σ e
             Hmiss He), Hv.
  eexists. split; [reflexivity|].
  unfold published, CompressedMinimax.addToMinimaxCache, modify, newNumberPromise. simpl.
  repeat split.
  unfold cachedValue. simpl.
  destruct (minimaxCache σ !! ChessGame.hashGameState s) as [kept|] eqn:Hkept.
  - destruct (Qltb (0 + basicMinimaxCost costSetup) (entry_budget kept)) eqn:Hlt.
    + right. exists kept. repeat split; [by apply Qltb_lt | exact Hkept].
    + left. rewrite lookup_insert_eq. simpl.
      rewrite lookup_app_r by lia. by rewrite Nat.sub_diag.
  - left. rewrite lookup_insert_eq. simpl.
    rewrite lookup_app_r by lia. by rewrite Nat.sub_diag.
Qed.

(** Where the only entry that the cache can hold under the hash of a
    checkmate is one that the terminal probe published for it (its value,
    with the basic cost as budget), [minimax] returns the value of the
    checkmate, records no call, and leaves the value in the cache. *)
Lemma minimax_terminal_own_entry (costSetup : CostSetup) (parallel : bool)
    (stateEvaluation : GameState -> M AgentState Q)
    (getSuccessors : GameState -> M AgentState (list GameStateProgression))
    (estimateNumberOfSuccessors : GameState -> Q)
    (fuel : nat) (depth : Q) (s : GameState) (budget : Q) (alpha beta : ExtNum)
    (maximizingPlayer : bool) (σ : AgentState) (e : EndgameState) (v : Q) :
  ChessGame.getEndgameState s = Ok e ->
  terminalValue e = Some v ->
  (forall entry,
     minimaxCache σ !! ChessGame.hashGameState s = Some entry ->
     (entry_budget entry == 0 + basicMinimaxCost costSetup)%Q
     /\ numberPromises σ !! entry_computedValue entry = Some (Fulfilled (Finite v))) ->
  exists used σ',
    CompressedMinimax.minimax costSetup parallel stateEvaluation getSuccessors
      estimateNumberOfSuccessors (S fuel) depth s budget alpha beta maximizingPlayer σ
    = (Ok {| computedValue := Finite v; usedBudget := used |}, σ')
    /\ history σ' = history σ
    /\ cachedValue σ' (ChessGame.hashGameState s) = Some (Fulfilled (Finite v)).
Proof.
  intros He Hv Hown.
  destruct (minimaxCache σ !! ChessGame.hashGameState s) as [entry|] eqn:Hentry.
  - destruct (Hown entry eq_refl) as [Hbudget Hvalue].
    destruct (CompressedMinimax.cacheAnswers entry budget) eqn:Hanswers.
    + exists 0%Q, σ.
      rewrite (minimax_probe_hit _ _ _ _ _ fuel depth s budget alpha beta maximizingPlayer σ
                 entry Hentry Hanswers), Hvalue.
      repeat split. unfold cachedValue. by rewrite Hentry.
    + destruct (minimax_terminal_probe costSetup parallel stateEvaluation getSuccessors
                  estimateNumberOfSuccessors fuel depth s budget alpha beta maximizingPlayer
                  σ e v) as (σ' & Hrun & Hhist & _ & _ & Hcached); try done.
      { unfold probeMisses. by rewrite Hentry. }
      exists (0 + basicMinimaxCost costSetup)%Q, σ'. repeat split; try done.
      destruct Hcached as [Hcached | (kept & Hkept & Hlt & _)]; [exact Hcached|].
      rewrite Hentry in Hkept. injection Hkept as <-. exfalso. lra.
  - destruct (minimax_terminal_probe costSetup parallel stateEvaluation getSuccessors
                estimateNumberOfSuccessors fuel depth s budget alpha beta maximizingPlayer
                σ e v) as (σ' & Hrun & Hhist & _ & _ & Hcached); try done.
    { unfold probeMisses. by rewrite Hentry. }
    exists (0 + basicMinimaxCost costSetup)%Q, σ'. repeat split; try done.
    destruct Hcached as [Hcached | (kept & Hkept & _)]; [exact Hcached|].
    rewrite Hentry in Hkept. discriminate.
Qed.

(** C5 (as the code has it).  If the minimax cache holds, under the hash of
    the state, an entry whose budget is at least the requested one, or differs
    from it by less than 0.1 (the difference and the comparison in double
    precision), [minimax] awaits the promise of that entry and does nothing
    else: the agent is left as it was, so no cache changes and no call is
    made.  A fulfilled promise gives its value, with [usedBudget = 0]; a
    rejected one makes the call throw what it was rejected with; a pending one
    keeps the call waiting (and an index that names no promise, which no run
    produces, gives no answer). *)
Theorem C5_cache_probe (costSetup : CostSetup) (parallel : bool)
    (stateEvaluation : GameState -> M AgentState Q)
    (getSuccessors : GameState -> M AgentState (list GameStateProgression))
    (estimateNumberOfSuccessors : GameState -> Q)
    (fuel : nat) (depth : Q) (s : GameState) (budget : Q) (alpha beta : ExtNum)
    (maximizingPlayer : bool) (σ : AgentState) (cacheResult : PendingCacheEntry) :
  minimaxCache σ !! ChessGame.hashGameState s = Some cacheResult ->
  (budget <= entry_budget cacheResult)%Q
  \/ ExtNum.ltb (ExtNum.abs (Double.sub (entry_budget cacheResult) budget))
       CompressedMinimax.budgetCacheTolerance = true ->
  CompressedMinimax.minimax costSetup parallel stateEvaluation getSuccessors
    estimateNumberOfSuccessors (S fuel) depth s budget alpha beta maximizingPlayer σ
  = (match numberPromises σ !! entry_computedValue cacheResult with
     | Some (Fulfilled v) => Ok {| computedValue := v; usedBudget := 0 |}
     | Some (Rejected e) => Throw e
     | Some Pending => Blocked
     | None => NoAnswer
     end, σ).
Proof.
  intros Hentry Hbudget.
  apply (minimax_probe_hit _ _ _ _ _ fuel depth s budget alpha beta maximizingPlayer σ
           cacheResult Hentry).
  by apply cacheAnswers_true.
Qed.

Lemma C5_cache_probe_witness :
  CompressedMinimax.minimax packagedCostSetup true
    (fun _ => throw "not called") (fun _ => throw "not called") (fun _ => 8%Q)
    1 1 whiteNotMated 3 NegInfinity Infinity true staleAgent
  = (match numberPromises staleAgent !! 0%nat with
     | Some (Fulfilled v) => Ok {| computedValue := v; usedBudget := 0 |}
     | Some (Rejected e) => Throw e
     | Some Pending => Blocked
     | None => NoAnswer
     end, staleAgent).
Proof.
  apply (C5_cache_probe packagedCostSetup true _ _ _ 0 1 whiteNotMated 3 NegInfinity Infinity
           true staleAgent {| entry_computedValue := 0; entry_budget := 5 |}).
  - by vm_compute.
  - left. by vm_compute.
Defined.

(** C5 (the claim as stated fails).  The agent has searched the start position
    with budget 500, and [getSuccessors] threw: its minimax cache holds an
    entry of budget 500 for the position, the promise of which is rejected.  A
    request for the same position with budget 3 is answered by the probe, and
    throws: it returns no value. *)
Lemma C5_counterexample :
  let run :=
    CompressedMinimax.minimax packagedCostSetup true
      (fun _ => ret (1 # 2)) (fun _ => throw "oracle down") (fun _ => 8%Q)
      2 0 initialGameState 3 NegInfinity Infinity true failedAgent in
  (exists entry,
     minimaxCache failedAgent !! ChessGame.hashGameState initialGameState = Some entry
     /\ (3 <= entry_budget entry)%Q
     /\ numberPromises failedAgent !! entry_computedValue entry
        = Some (Rejected "oracle down"))
  /\ run = (Throw "oracle down", failedAgent)
  /\ forall r, fst run <> Ok r.
Proof.
  assert (minimaxCache failedAgent !! ChessGame.hashGameState initialGameState
          = Some {| entry_computedValue := 0; entry_budget := 500 |}) as Hentry
    by (by vm_compute).
  assert (numberPromises failedAgent !! 0%nat = Some (Rejected "oracle down")) as Hvalue
    by (by vm_compute).
  assert (CompressedMinimax.minimax packagedCostSetup true
            (fun _ => ret (1 # 2)) (fun _ => throw "oracle down") (fun _ => 8%Q)
            2 0 initialGameState 3 NegInfinity Infinity true failedAgent
          = (Throw "oracle down", failedAgent)) as Hrun.
  { rewrite (minimax_probe_hit _ _ _ _ _ 1 0 initialGameState 3 NegInfinity Infinity true
               failedAgent _ Hentry); [|by vm_compute].
    cbn [entry_computedValue]. by rewrite Hvalue. }
  cbv zeta. split; [|split].
  - eexists. split; [exact Hentry|]. split; [by vm_compute | exact Hvalue].
  - exact Hrun.
  - intros r. rewrite Hrun. discriminate.
Qed.

(** C7 (the code departs from the claim).  Claim: at a checkmate [minimax]
    returns -1 or +1 and the value is in the cache when it returns.  White is
    mated in [whiteMated].  [hashGameState] gives this state the hash of
    [whiteNotMated], where other pieces stand on the same cells and the game
    goes on, and the agent has searched that state with budget 5 and found
    the value 0.25 for it.  A request for the mated state with budget 3 is
    answered by the cache probe with 0.25; a request with budget 10 returns
    -1 and leaves the cache holding 0.25 under the hash. *)
Theorem C7_terminal_probe_foreign_entry :
  let request := fun budget : Q =>
    CompressedMinimax.minimax packagedCostSetup true
      (fun _ => throw "not called") (fun _ => throw "not called") (fun _ => 8%Q)
      1 1 whiteMated budget NegInfinity Infinity true staleAgent in
  ChessGame.getEndgameState whiteMated = Ok checkmateWhite
  /\ ChessGame.getEndgameState whiteNotMated = Ok inProgress
  /\ ChessGame.hashGameState whiteNotMated = ChessGame.hashGameState whiteMated
  /\ fst (request 3%Q) = Ok {| computedValue := Finite (1 # 4); usedBudget := 0 |}
  /\ fst (request 10%Q) = Ok {| computedValue := Finite (-1); usedBudget := 0 + 1 |}
  /\ cachedValue (snd (request 10%Q)) (ChessGame.hashGameState whiteMated)
     = Some (Fulfilled (Finite (1 # 4))).
Proof.
  cbv zeta. repeat split; by vm_compute.
Qed.
(** ** The leaf decision *)




(** ** The choice at the root *)

Section Order.

Lemma Qle_bool_total (x y : Q) : Qle_bool x y = true \/ Qle_bool y x = true.
Proof.
  rewrite !Qle_bool_iff. destruct (Qlt_le_dec x y) as [H|H]; [left | right]; [|exact H].
  by apply Qlt_le_weak.
Qed.

Lemma ExtNum_leb_total (a b : ExtNum) : ExtNum.leb a b = true \/ ExtNum.leb b a = true.
Proof. destruct a, b; simpl; auto using Qle_bool_total. Qed.

Lemma ExtNum_leb_trans (a b c : ExtNum) :
  ExtNum.leb a b = true -> ExtNum.leb b c = true -> ExtNum.leb a c = true.
Proof.
  destruct a, b, c; simpl; try done. rewrite !Qle_bool_iff. apply Qle_trans.
Qed.

Lemma atLeastAsGood_total (mx : bool) (a b : ExtNum) :
  atLeastAsGood mx a b = true \/ atLeastAsGood mx b a = true.
Proof. destruct mx; simpl; apply ExtNum_leb_total. Qed.

Lemma atLeastAsGood_trans (mx : bool) (a b c : ExtNum) :
  atLeastAsGood mx a b = true -> atLeastAsGood mx b c = true -> atLeastAsGood mx a c = true.
Proof. destruct mx; simpl; eauto using ExtNum_leb_trans. Qed.

(** Both reductions keep the earlier child only when the later one is not at
    least as good. *)
Lemma prefer_spec (mx : bool) (prev current : CompressedMinimax.MoveResult) :
  (if mx then CompressedMinimax.preferGreater else CompressedMinimax.preferSmaller)
    prev current
  = if atLeastAsGood mx (CompressedMinimax.mr_computedValue current)
         (CompressedMinimax.mr_computedValue prev)
    then current else prev.
Proof.
  destruct mx; simpl;
    unfold CompressedMinimax.preferGreater, CompressedMinimax.preferSmaller,
      ExtNum.gtb, ExtNum.ltb;
    by destruct (ExtNum.leb _ _).
Qed.

Lemma fold_prefer (mx : bool) (rs before after : list CompressedMinimax.MoveResult)
    (best : CompressedMinimax.MoveResult) :
  (forall r, r ∈ before ->
     atLeastAsGood mx (CompressedMinimax.mr_computedValue best)
       (CompressedMinimax.mr_computedValue r) = true) ->
  (forall r, r ∈ after ->
     atLeastAsGood mx (CompressedMinimax.mr_computedValue r)
       (CompressedMinimax.mr_computedValue best) = false) ->
  exists before' best' after',
    fold_left (if mx then CompressedMinimax.preferGreater else CompressedMinimax.preferSmaller)
      rs best = best'
    /\ before ++ best :: after ++ rs = before' ++ best' :: after'
    /\ (forall r, r ∈ before' ->
          atLeastAsGood mx (CompressedMinimax.mr_computedValue best')
            (CompressedMinimax.mr_computedValue r) = true)
    /\ (forall r, r ∈ after' ->
          atLeastAsGood mx (CompressedMinimax.mr_computedValue r)
            (CompressedMinimax.mr_computedValue best') = false).
Proof.
  revert before after best. induction rs as [|current rs IH]; intros before after best Hb Ha.
  - exists before, best, after. rewrite app_nil_r. done.
  - simpl. rewrite prefer_spec.
    destruct (atLeastAsGood mx (CompressedMinimax.mr_computedValue current)
                (CompressedMinimax.mr_computedValue best)) eqn:Hcur.
    + (* the later child takes over *)
      destruct (IH (before ++ best :: after) [] current) as (b' & x & a' & Hf & Hl & Hb' & Ha').
      * intros r Hr. apply elem_of_app in Hr as [Hr | Hr].
        { eapply atLeastAsGood_trans; [exact Hcur | by apply Hb]. }
        apply elem_of_cons in Hr as [-> | Hr]; [exact Hcur|].
        destruct (atLeastAsGood_total mx (CompressedMinimax.mr_computedValue best)
                    (CompressedMinimax.mr_computedValue r)) as [H | H].
        { eapply atLeastAsGood_trans; [exact Hcur | exact H]. }
        rewrite (Ha r Hr) in H. discriminate.
      * intros r Hr. by apply elem_of_nil in Hr.
      * exists b', x, a'. repeat split; try done.
        rewrite <- Hl. rewrite <- !app_assoc. simpl. reflexivity.
    + (* the earlier child stays *)
      destruct (IH before (after ++ [current]) best) as (b' & x & a' & Hf & Hl & Hb' & Ha').
      * exact Hb.
      * intros r Hr. apply elem_of_app in Hr as [Hr | Hr]; [by apply Ha|].
        apply list_elem_of_singleton in Hr as ->. exact Hcur.
      * exists b', x, a'. repeat split; try done.
        rewrite <- Hl. rewrite <- !app_assoc. simpl. reflexivity.
Qed.

End Order.







(** ** The oracle tasks of the LLM agent *)

(** *** The state as text *)

Lemma forR_succeeds {A B} (l : list A) (acc : B) (f : B -> A -> Result B) :
  (forall acc x, x ∈ l -> exists acc', f acc x = Ok acc') ->
  exists r, ChessGame.forR l acc f = Ok r.
Proof.
  revert acc. induction l as [|x l IH]; intros acc Hf; [by exists acc|].
  cbn [ChessGame.forR]. destruct (Hf acc x) as [acc' ->]; [by left|]. simpl.
  apply IH. intros acc0 y Hy. apply Hf. by right.
Qed.

(** The text of a state whose board has its 64 cells is drawn; on any other
    board (a missing row, a short row) the outcome is an exception. *)
Lemma getTextRepresentation_wfBoard (s : GameState) :
  wfBoard (boardState s) -> exists text, LLMMinimaxAgent.getTextRepresentation s = Ok text.
Proof.
  intros Hwf.
  assert (forall row col, row ∈ seqZ 0 8 -> col ∈ seqZ 0 8 ->
            exists c, ChessGame.cellAt (boardState s) (row, col) = Ok c) as Hcell.
  { intros row col Hrow Hcol. apply elem_of_seqZ in Hrow, Hcol.
    apply cellAt_onBoard; [exact Hwf|]. unfold onBoard. simpl. lia. }
  unfold LLMMinimaxAgent.getTextRepresentation.
  assert (exists picture, LLMMinimaxAgent.gameStateToAsciiPicture s = Ok picture)
    as [picture ->].
  { unfold LLMMinimaxAgent.gameStateToAsciiPicture. apply forR_succeeds.
    intros acc row Hrow. apply elem_of_reverse in Hrow.
    match goal with
    | |- context [ChessGame.forR (seqZ 0 8) ?a ?f] =>
        destruct (forR_succeeds (seqZ 0 8) a f) as [rowString ->]
    end; [|by eexists].
    intros rowString col Hcol. destruct (Hcell row col Hrow Hcol) as [c ->]. by eexists. }
  assert (exists positions, LLMMinimaxAgent.getAllPiecePositionsAsString s = Ok positions)
    as [positions ->]; [|by eexists].
  unfold LLMMinimaxAgent.getAllPiecePositionsAsString.
  match goal with
  | |- context [ChessGame.forR (seqZ 0 8) ?a ?f] =>
      destruct (forR_succeeds (seqZ 0 8) a f) as [[w b] ->]
  end; [|by eexists].
  intros strings row Hrow. apply forR_succeeds.
  intros [w b] col Hcol. destruct (Hcell row col Hrow Hcol) as [c ->]. simpl.
  destruct (piece c) as [pc|]; [|by eexists].
  destruct (bool_decide (color pc = white)); by eexists.
Qed.

(** [getGameDescription] once the text is there. *)
Lemma getGameDescription_rendered (callLLM : CallLLM) (s : GameState) (text : string)
    (σ : AgentState) :
  LLMMinimaxAgent.getTextRepresentation s = Ok text ->
  LLMMinimaxAgent.getGameDescription callLLM s σ
  = match gameDescriptionCache σ !! ChessGame.hashGameState s with
    | Some p => await messagePromises p σ
    | None =>
        (do descriptionAsPromise <- newMessagePromise;
         do _ <- modify (setGameDescriptionCache
                           (insert (ChessGame.hashGameState s) descriptionAsPromise));
         do messageChoices <-
           LLMMinimaxAgent.askUntilAnswered callLLM LLMMinimaxAgent.maxLLMTries
             (describeArgs s);
         do _ <-
           match messageChoices with
           | None =>
               LLMMinimaxAgent.settleMessage descriptionAsPromise (Rejected exhausted)
           | Some [] => ret tt
           | Some (messageChoice :: _) =>
               LLMMinimaxAgent.settleMessage descriptionAsPromise
                 (Fulfilled (message messageChoice))
           end;
         await messagePromises descriptionAsPromise) σ
    end.
Proof.
  intros Htext. unfold LLMMinimaxAgent.getGameDescription.
  unfold bindM at 1. unfold liftR at 1. rewrite Htext.
  change (bindM get ?k σ) with (k σ σ). cbv beta.
  by destruct (gameDescriptionCache σ !! ChessGame.hashGameState s).
Qed.

(** Without the text there is no description, and nothing happens. *)
Lemma getGameDescription_not_rendered (callLLM : CallLLM) (s : GameState) (σ : AgentState) :
  (forall text, LLMMinimaxAgent.getTextRepresentation s <> Ok text) ->
  snd (LLMMinimaxAgent.getGameDescription callLLM s σ) = σ
  /\ forall msg, fst (LLMMinimaxAgent.getGameDescription callLLM s σ) <> Ok msg.
Proof.
  intros Hno. unfold LLMMinimaxAgent.getGameDescription.
  unfold bindM at 1 3. unfold liftR.
  destruct (LLMMinimaxAgent.getTextRepresentation s) as [text| | |];
    [by destruct (Hno text) | done..].
Qed.

Section Requests.

Variable callLLM : CallLLM.

Lemma requestsSent_withRequests (σ : AgentState) (args : CallLLMArgs) (n : nat) :
  LLMMinimaxAgent.requestsSent (withRequests σ args n)
  = (LLMMinimaxAgent.requestsSent σ + n)%nat.
Proof.
  unfold LLMMinimaxAgent.requestsSent, withRequests. simpl.
  rewrite filter_app, length_app. f_equal.
  induction n as [|n IH]; [reflexivity|]. cbn [replicate].
  rewrite filter_cons_True by exact I. cbn [length]. by rewrite IH.
Qed.

Lemma withRequests_0 (σ : AgentState) (args : CallLLMArgs) : withRequests σ args 0 = σ.
Proof. destruct σ. unfold withRequests. simpl. by rewrite app_nil_r. Qed.

Lemma withRequests_S (σ : AgentState) (args : CallLLMArgs) (n : nat) :
  withRequests (withRequests σ args 1) args n = withRequests σ args (S n).
Proof. unfold withRequests. simpl. by rewrite <- app_assoc. Qed.

Lemma request_fails (σ : AgentState) (args : CallLLMArgs) (e : string) :
  callLLM (LLMMinimaxAgent.requestsSent σ) args = Fails e ->
  LLMMinimaxAgent.request callLLM args σ = (Throw e, withRequests σ args 1).
Proof. intros H. unfold LLMMinimaxAgent.request. by rewrite H. Qed.

Lemma request_replies (σ : AgentState) (args : CallLLMArgs) (choices : list MessageChoice) :
  callLLM (LLMMinimaxAgent.requestsSent σ) args = Replies choices ->
  LLMMinimaxAgent.request callLLM args σ = (Ok choices, withRequests σ args 1).
Proof. intros H. unfold LLMMinimaxAgent.request. by rewrite H. Qed.

Lemma failsNext_step (σ : AgentState) (args : CallLLMArgs) (n : nat) :
  failsNext callLLM σ (S n) ->
  (exists e, callLLM (LLMMinimaxAgent.requestsSent σ) args = Fails e)
  /\ failsNext callLLM (withRequests σ args 1) n.
Proof.
  intros H. split; [apply H; lia|].
  intros k args' Hk. rewrite requestsSent_withRequests in Hk. apply H. lia.
Qed.

(** The loop of [getGameDescription] and [stateEvaluation] gives up after
    [triesLeft] failed requests. *)
Lemma askUntilAnswered_all_fail (triesLeft : nat) (args : CallLLMArgs) (σ : AgentState) :
  failsNext callLLM σ triesLeft ->
  LLMMinimaxAgent.askUntilAnswered callLLM triesLeft args σ
  = (Ok None, withRequests σ args triesLeft).
Proof.
  revert σ. induction triesLeft as [|k IH]; intros σ Hfail.
  - simpl. by rewrite withRequests_0.
  - destruct (failsNext_step σ args k Hfail) as [[e He] Hrest].
    cbn [LLMMinimaxAgent.askUntilAnswered]. unfold bindM, try.
    rewrite (request_fails σ args e He). rewrite (IH _ Hrest). by rewrite withRequests_S.
Qed.

Lemma askUntilAnswered_first (triesLeft : nat) (args : CallLLMArgs) (σ : AgentState)
    (choices : list MessageChoice) :
  callLLM (LLMMinimaxAgent.requestsSent σ) args = Replies choices ->
  LLMMinimaxAgent.askUntilAnswered callLLM (S triesLeft) args σ
  = (Ok (Some choices), withRequests σ args 1).
Proof.
  intros H. cbn [LLMMinimaxAgent.askUntilAnswered]. unfold bindM, try.
  by rewrite (request_replies σ args choices H).
Qed.

(** The loop ends with the first array that the oracle returns, on any of
    its [triesLeft] attempts. *)
Lemma askUntilAnswered_answered (triesLeft failed : nat) (args : CallLLMArgs)
    (σ : AgentState) (choices : list MessageChoice) :
  (failed < triesLeft)%nat ->
  (forall k, (k < failed)%nat ->
     exists e, callLLM (LLMMinimaxAgent.requestsSent σ + k)%nat args = Fails e) ->
  callLLM (LLMMinimaxAgent.requestsSent σ + failed)%nat args = Replies choices ->
  LLMMinimaxAgent.askUntilAnswered callLLM triesLeft args σ
  = (Ok (Some choices), withRequests σ args (S failed)).
Proof.
  revert triesLeft σ. induction failed as [|j IH]; intros triesLeft σ Hlt Hfail Hreply.
  - destruct triesLeft as [|t]; [lia|]. rewrite Nat.add_0_r in Hreply.
    by apply askUntilAnswered_first.
  - destruct triesLeft as [|t]; [lia|].
    destruct (Hfail 0%nat) as [e He]; [lia|]. rewrite Nat.add_0_r in He.
    cbn [LLMMinimaxAgent.askUntilAnswered]. unfold bindM, try.
    rewrite (request_fails σ args e He).
    rewrite (IH t (withRequests σ args 1)); [by rewrite withRequests_S | lia | |].
    + intros k Hk. rewrite requestsSent_withRequests.
      destruct (Hfail (S k)) as [e' He']; [lia|]. exists e'.
      by replace (LLMMinimaxAgent.requestsSent σ + 1 + k)%nat
        with (LLMMinimaxAgent.requestsSent σ + S k)%nat by lia.
    + rewrite requestsSent_withRequests.
      by replace (LLMMinimaxAgent.requestsSent σ + 1 + j)%nat
        with (LLMMinimaxAgent.requestsSent σ + S j)%nat by lia.
Qed.

(** The loop of [getSuccessorsInOneSingleOptionLLMCall] does not count a
    request that throws: while the oracle throws, it goes on. *)
Lemma askForMoves_all_fail (fuel tires : nat) (args : CallLLMArgs)
    (validMoveMapping : gmap string Move) (σ : AgentState) :
  (tires < LLMMinimaxAgent.maxLLMTries)%nat ->
  failsNext callLLM σ fuel ->
  LLMMinimaxAgent.askForMoves callLLM fuel tires args validMoveMapping σ
  = (NoAnswer, withRequests σ args fuel).
Proof.
  intros Htires. revert σ. induction fuel as [|k IH]; intros σ Hfail.
  - simpl. by rewrite withRequests_0.
  - destruct (failsNext_step σ args k Hfail) as [[e He] Hrest].
    cbn [LLMMinimaxAgent.askForMoves].
    rewrite bool_decide_eq_false_2 by lia. unfold bindM, try.
    rewrite (request_fails σ args e He). rewrite (IH _ Hrest). by rewrite withRequests_S.
Qed.

Lemma askForMoves_round (fuel tires : nat) (args : CallLLMArgs)
    (validMoveMapping : gmap string Move) :
  LLMMinimaxAgent.askForMoves callLLM (S fuel) tires args validMoveMapping
  = if bool_decide (LLMMinimaxAgent.maxLLMTries <= tires)%nat
    then throw "Exceeded max tries and could not extract moves from LLM output"
    else
      do r <- try (LLMMinimaxAgent.request callLLM args);
      match r with
      | inl _ => LLMMinimaxAgent.askForMoves callLLM fuel tires args validMoveMapping
      | inr [] => throw TypeError
      | inr (messageChoice :: _) =>
          match content (message messageChoice) with
          | None | Some EmptyString => throw "No message content in message choice"
          | Some messageContent =>
              match LLMMinimaxAgent.extractMovesFromMessage validMoveMapping messageContent with
              | Some moves => ret moves
              | None =>
                  LLMMinimaxAgent.askForMoves callLLM fuel (S tires) args validMoveMapping
              end
          end
      end.
Proof. reflexivity. Qed.

(** It counts the answers in which no move is found, and gives up after
    [maxLLMTries] of them. *)
Lemma askForMoves_all_unusable (tires more : nat) (args : CallLLMArgs)
    (validMoveMapping : gmap string Move) (σ : AgentState) :
  (forall k, (LLMMinimaxAgent.requestsSent σ <= k)%nat ->
     exists c text others,
       callLLM k args
       = Replies ({| message := {| content := Some (String c text); role := assistant |};
                     logprobs := None |} :: others)
       /\ LLMMinimaxAgent.extractMovesFromMessage validMoveMapping (String c text) = None) ->
  (tires <= LLMMinimaxAgent.maxLLMTries)%nat ->
  LLMMinimaxAgent.askForMoves callLLM (S (LLMMinimaxAgent.maxLLMTries - tires + more)) tires
    args validMoveMapping σ
  = (Throw "Exceeded max tries and could not extract moves from LLM output",
     withRequests σ args (LLMMinimaxAgent.maxLLMTries - tires)).
Proof.
  intros Hbad Htires.
  remember (LLMMinimaxAgent.maxLLMTries - tires)%nat as left eqn:Hleft.
  revert tires σ Hbad Htires Hleft. induction left as [|left IH]; intros tires σ Hbad Htires Hleft.
  - rewrite askForMoves_round, bool_decide_eq_true_2 by lia.
    unfold throw. by rewrite withRequests_0.
  - rewrite askForMoves_round, bool_decide_eq_false_2 by lia. cbn [Nat.add].
    destruct (Hbad (LLMMinimaxAgent.requestsSent σ)) as (c & text & others & Hreply & Hnone);
      [lia|].
    unfold bindM, try. rewrite (request_replies σ args _ Hreply).
    cbn [message content]. rewrite Hnone.
    rewrite (IH (S tires) (withRequests σ args 1)); [by rewrite withRequests_S | | lia | lia].
    intros k Hk. apply Hbad. rewrite requestsSent_withRequests in Hk. lia.
Qed.

End Requests.

(** C3 (the code departs from the claim).  Claim: when every oracle call fails,
    each oracle task stops after at most five attempts.  With an oracle that
    answers the description request and throws on every later one,
    [getSuccessors] never gives up: whatever bound [fuel] is put on the rounds
    of its loop, the loop is still running when the bound is reached, after
    [fuel] requests for moves (one more request was the description). *)
Theorem C3_getSuccessors_retries_without_bound (fuel : nat) :
  let run :=
    LLMMinimaxAgent.getSuccessors answersOnce fuel initialGameState emptyAgent in
  fst run = NoAnswer /\ LLMMinimaxAgent.requestsSent (snd run) = S fuel.
Proof.
  cbv zeta.
  assert (exists σ1 args,
            LLMMinimaxAgent.requestsSent σ1 = 1%nat
            /\ LLMMinimaxAgent.getSuccessors answersOnce fuel initialGameState emptyAgent
               = (NoAnswer, withRequests σ1 args fuel)) as (σ1 & args & Hsent & ->).
  { unfold LLMMinimaxAgent.getSuccessors,
      LLMMinimaxAgent.getSuccessorsInOneSingleOptionLLMCall.
    destruct (LLMMinimaxAgent.getGameDescription answersOnce initialGameState emptyAgent)
      as [r σ1] eqn:Hdesc.
    assert (r = Ok {| content := Some "a quiet position"; role := assistant |}
            /\ LLMMinimaxAgent.requestsSent σ1 = 1%nat) as [-> Hsent].
    { apply (f_equal fst) in Hdesc as Hr. apply (f_equal snd) in Hdesc as Hs.
      simpl in Hr, Hs. subst r σ1. split; by vm_compute. }
    destruct (ChessGame.getAllLegalMoves initialGameState (turn initialGameState))
      as [validMoves| | |] eqn:Hmoves; try (vm_compute in Hmoves; discriminate).
    exists σ1. eexists. split; [exact Hsent|].
    unfold bindM at 1. rewrite Hdesc.
    unfold bindM at 1. unfold liftR at 1.
    unfold bindM at 1.
    rewrite (askForMoves_all_fail answersOnce fuel 0); [reflexivity | |].
    - unfold LLMMinimaxAgent.maxLLMTries. lia.
    - intros k args Hk. rewrite Hsent in Hk. destruct k as [|k]; [lia|].
      by exists "rate limit". }
  cbn [fst snd]. rewrite requestsSent_withRequests. split; [reflexivity | lia].
Qed.

(** The other two loops do stop: after five failed requests the description
    is given up. *)
Lemma getGameDescription_gives_up (callLLM : CallLLM) (s : GameState) (σ : AgentState) :
  wfBoard (boardState s) ->
  gameDescriptionCache σ !! ChessGame.hashGameState s = None ->
  failsNext callLLM σ LLMMinimaxAgent.maxLLMTries ->
  exists σ',
    LLMMinimaxAgent.getGameDescription callLLM s σ = (Throw exhausted, σ')
    /\ LLMMinimaxAgent.requestsSent σ'
       = (LLMMinimaxAgent.requestsSent σ + LLMMinimaxAgent.maxLLMTries)%nat
    /\ gameDescriptionCache σ' !! ChessGame.hashGameState s
       = Some (length (messagePromises σ))
    /\ messagePromises σ' !! length (messagePromises σ) = Some (Rejected exhausted).
Proof.
  intros Hwf Hmiss Hfail. destruct (getTextRepresentation_wfBoard s Hwf) as [text Htext].
  set (p := length (messagePromises σ)).
  set (σb := setGameDescriptionCache (insert (ChessGame.hashGameState s) p)
               (setMessagePromises (fun l => l ++ [Pending]) σ)).
  assert (LLMMinimaxAgent.askUntilAnswered callLLM LLMMinimaxAgent.maxLLMTries
            (describeArgs s) σb
          = (Ok None, withRequests σb (describeArgs s) LLMMinimaxAgent.maxLLMTries))
    as Hloop.
  { apply askUntilAnswered_all_fail. exact Hfail. }
  set (σd := setMessagePromises (settle p (Rejected exhausted))
               (withRequests σb (describeArgs s) LLMMinimaxAgent.maxLLMTries)).
  assert (messagePromises σd !! p = Some (Rejected exhausted)) as Hp.
  { unfold σd, σb, settle. cbn [messagePromises setMessagePromises withRequests
      setGameDescriptionCache].
    rewrite lookup_app_r by (unfold p; lia). unfold p. rewrite Nat.sub_diag.
    cbn [lookup list_lookup]. apply list_lookup_insert_eq. rewrite length_app. simpl. lia. }
  exists σd. split; [|split; [|split]].
  - rewrite (getGameDescription_rendered callLLM s text σ Htext), Hmiss.
    unfold bindM at 1. unfold newMessagePromise at 1.
    unfold bindM at 1. unfold modify at 1.
    unfold bindM at 1. fold p. fold σb. rewrite Hloop.
    unfold bindM at 1. unfold LLMMinimaxAgent.settleMessage, modify.
    fold σd. unfold await. by rewrite Hp.
  - unfold σd. change (LLMMinimaxAgent.requestsSent
                         (withRequests σb (describeArgs s) LLMMinimaxAgent.maxLLMTries)
                       = (LLMMinimaxAgent.requestsSent σ + LLMMinimaxAgent.maxLLMTries)%nat).
    by rewrite requestsSent_withRequests.
  - unfold σd, σb. cbn [gameDescriptionCache setMessagePromises withRequests
      setGameDescriptionCache]. apply lookup_insert_eq.
  - exact Hp.
Qed.

(** So does the evaluation, once the description is there. *)
Lemma stateEvaluation_gives_up (callLLM : CallLLM) (Math_exp : Q -> Q) (s : GameState)
    (σ : AgentState) (p : nat) (description : Message) :
  wfBoard (boardState s) ->
  gameDescriptionCache σ !! ChessGame.hashGameState s = Some p ->
  messagePromises σ !! p = Some (Fulfilled description) ->
  failsNext callLLM σ LLMMinimaxAgent.maxLLMTries ->
  LLMMinimaxAgent.stateEvaluation callLLM Math_exp s σ
  = (Throw exhausted,
     withRequests σ (evaluateArgs s description) LLMMinimaxAgent.maxLLMTries).
Proof.
  intros Hwf Hcache Hprom Hfail. destruct (getTextRepresentation_wfBoard s Hwf) as [text Htext].
  unfold LLMMinimaxAgent.stateEvaluation.
  unfold bindM at 1. rewrite (getGameDescription_rendered callLLM s text σ Htext), Hcache.
  unfold await. rewrite Hprom. fold (evaluateArgs s description).
  unfold bindM at 1.
  by rewrite (askUntilAnswered_all_fail callLLM _ (evaluateArgs s description) σ Hfail).
Qed.

(** A description that was given up is not asked for again. *)
Lemma getGameDescription_rejected (callLLM : CallLLM) (s : GameState) (σ : AgentState)
    (e : string) :
  wfBoard (boardState s) ->
  descriptionRejected σ (ChessGame.hashGameState s) e ->
  LLMMinimaxAgent.getGameDescription callLLM s σ = (Throw e, σ).
Proof.
  intros Hwf (p & Hp & Hrej). destruct (getTextRepresentation_wfBoard s Hwf) as [text Htext].
  rewrite (getGameDescription_rendered callLLM s text σ Htext), Hp.
  unfold await. by rewrite Hrej.
Qed.

(** C4 (as the code has it).  When the answer of the evaluate oracle, the
    first array that it returns on one of the [maxLLMTries] attempts of
    [stateEvaluation], carries no log-probabilities, [stateEvaluation] returns
    -1 if the content of the message is the literal "black", and +1 for every
    other content, the literal "white" included; it raises no error. *)
Theorem C4_evaluation_without_logprobs (callLLM : CallLLM) (Math_exp : Q -> Q)
    (s : GameState) (σ : AgentState) (description : Message) (failed : nat)
    (messageChoice : MessageChoice) (others : list MessageChoice) :
  fst (LLMMinimaxAgent.getGameDescription callLLM s σ) = Ok description ->
  let sent :=
    LLMMinimaxAgent.requestsSent (snd (LLMMinimaxAgent.getGameDescription callLLM s σ)) in
  (failed < LLMMinimaxAgent.maxLLMTries)%nat ->
  (forall k, (k < failed)%nat ->
     exists e, callLLM (sent + k)%nat (evaluateArgs s description) = Fails e) ->
  callLLM (sent + failed)%nat (evaluateArgs s description)
  = Replies (messageChoice :: others) ->
  logprobs messageChoice = None ->
  fst (LLMMinimaxAgent.stateEvaluation callLLM Math_exp s σ)
  = Ok (if bool_decide (content (message messageChoice) = Some "black")
        then (-1)%Q else 1%Q).
Proof.
  intros Hdesc sent Hfailed Hfail Hreply Hnone. unfold LLMMinimaxAgent.stateEvaluation.
  unfold bindM at 1. subst sent.
  destruct (LLMMinimaxAgent.getGameDescription callLLM s σ) as [r σ1].
  simpl in Hdesc, Hfail, Hreply. subst r.
  unfold bindM at 1. fold (evaluateArgs s description).
  rewrite (askUntilAnswered_answered callLLM LLMMinimaxAgent.maxLLMTries failed
             (evaluateArgs s description) σ1 (messageChoice :: others) Hfailed Hfail Hreply).
  rewrite Hnone. by destruct (bool_decide _).
Qed.

Lemma C4_evaluation_without_logprobs_witness :
  fst (LLMMinimaxAgent.stateEvaluation saysBlackLate (fun q => q) initialGameState
         emptyAgent)
  = Ok (if bool_decide (content (message (says "black")) = Some "black")
        then (-1)%Q else 1%Q).
Proof.
  apply (C4_evaluation_without_logprobs saysBlackLate (fun q => q) initialGameState
           emptyAgent {| content := Some "a quiet position"; role := assistant |} 2
           (says "black") []).
  - vm_compute. reflexivity.
  - unfold LLMMinimaxAgent.maxLLMTries. lia.
  - intros k Hk. exists "rate limit". destruct k as [|[|k]]; [by vm_compute.. | lia].
  - vm_compute. reflexivity.
  - reflexivity.
Defined.

(** C4 (the claim as stated fails).  The oracle answers "draw", without
    log-probabilities: the content is neither "black" nor "white", and
    [stateEvaluation] returns 1 where the claim has it raise an error. *)
Lemma C4_counterexample :
  fst (LLMMinimaxAgent.stateEvaluation saysDraw (fun q => q) initialGameState emptyAgent)
  = Ok 1%Q
  /\ forall e,
       fst (LLMMinimaxAgent.stateEvaluation saysDraw (fun q => q) initialGameState emptyAgent)
       <> Throw e.
Proof.
  assert (fst (LLMMinimaxAgent.stateEvaluation saysDraw (fun q => q) initialGameState
                 emptyAgent) = Ok 1%Q) as H by (by vm_compute).
  split; [exact H|]. intros e. rewrite H. discriminate.
Qed.

(** ** A rejected description is never removed *)

Section Stays.

#[local] Instance rejectionsStay_refl : Reflexive rejectionsStay.
Proof. intros σ h e H. exact H. Qed.

#[local] Instance rejectionsStay_trans : Transitive rejectionsStay.
Proof. intros σ1 σ2 σ3 H12 H23 h e H. apply H23, H12, H. Qed.

(** A step that leaves the description cache and its promises alone. *)
Lemma rejectionsStay_same (σ σ' : AgentState) :
  gameDescriptionCache σ' = gameDescriptionCache σ ->
  messagePromises σ' = messagePromises σ ->
  rejectionsStay σ σ'.
Proof. intros Hc Hp h e (p & H1 & H2). exists p. by rewrite Hc, Hp. Qed.

Lemma keeps_modify_same (f : AgentState -> AgentState) :
  (forall σ, gameDescriptionCache (f σ) = gameDescriptionCache σ) ->
  (forall σ, messagePromises (f σ) = messagePromises σ) ->
  keeps rejectionsStay (modify f).
Proof. intros Hc Hp σ. apply rejectionsStay_same; [apply Hc | apply Hp]. Qed.

Lemma keeps_record (ev : Event) : keeps rejectionsStay (record ev).
Proof. by apply keeps_modify_same. Qed.

Lemma keeps_await {A} (promises : AgentState -> list (Promise A)) (p : nat) :
  keeps rejectionsStay (await promises p).
Proof.
  intros σ. unfold await. destruct (promises σ !! p) as [[| |]|]; reflexivity.
Qed.

Lemma keeps_try {A} (m : M AgentState A) :
  keeps rejectionsStay m -> keeps rejectionsStay (try m).
Proof. intros H σ. unfold try. specialize (H σ). by destruct (m σ) as [[| | |] ?]. Qed.

Lemma keeps_uncaught {A} (m : M AgentState A) :
  keeps rejectionsStay m -> keeps rejectionsStay (uncaught m).
Proof. intros H σ. unfold uncaught. specialize (H σ). by destruct (m σ) as [[| | |] ?]. Qed.

Lemma keeps_newNumberPromise (v : Promise ExtNum) :
  keeps rejectionsStay (newNumberPromise v).
Proof. intros σ. by apply rejectionsStay_same. Qed.

Lemma keeps_newSuccessorsPromise : keeps rejectionsStay newSuccessorsPromise.
Proof. intros σ. by apply rejectionsStay_same. Qed.

Lemma keeps_newMessagePromise : keeps rejectionsStay newMessagePromise.
Proof.
  intros σ h e (p & H1 & H2). exists p. split; [exact H1|]. simpl.
  by apply lookup_app_l_Some.
Qed.

Lemma keeps_settleMessage (p : nat) (v : Promise Message) :
  keeps rejectionsStay (LLMMinimaxAgent.settleMessage p v).
Proof.
  intros σ h e (q & H1 & H2). exists q. split; [exact H1|]. simpl. unfold settle.
  destruct (messagePromises σ !! p) as [[| |]|] eqn:Hp; try exact H2.
  rewrite list_lookup_insert_ne; [exact H2|]. intros ->. congruence.
Qed.

Section WithOracle.

Variable callLLM : CallLLM.
Variable Math_exp : Q -> Q.

Lemma keeps_request (args : CallLLMArgs) :
  keeps rejectionsStay (LLMMinimaxAgent.request callLLM args).
Proof.
  intros σ. unfold LLMMinimaxAgent.request.
  destruct (callLLM _ args); by apply rejectionsStay_same.
Qed.

Lemma keeps_askUntilAnswered (triesLeft : nat) (args : CallLLMArgs) :
  keeps rejectionsStay (LLMMinimaxAgent.askUntilAnswered callLLM triesLeft args).
Proof.
  induction triesLeft as [|k IH]; simpl.
  - apply keeps_ret; apply _.
  - apply keeps_bind; try apply _; [apply keeps_try, keeps_request|].
    intros [e|choices]; [exact IH | apply keeps_ret; apply _].
Qed.

Lemma keeps_askForMoves (fuel tires : nat) (args : CallLLMArgs)
    (validMoveMapping : gmap string Move) :
  keeps rejectionsStay (LLMMinimaxAgent.askForMoves callLLM fuel tires args validMoveMapping).
Proof.
  revert tires. induction fuel as [|k IH]; intros tires; simpl.
  - intros σ. reflexivity.
  - destruct (bool_decide _); [apply keeps_throw; apply _|].
    apply keeps_bind; try apply _; [apply keeps_try, keeps_request|].
    intros [e|[|messageChoice others]]; [apply IH | apply keeps_throw; apply _ |].
    destruct (content (message messageChoice)) as [[|c text]|];
      try (apply keeps_throw; apply _).
    destruct (LLMMinimaxAgent.extractMovesFromMessage _ _);
      [apply keeps_ret; apply _ | apply IH].
Qed.

Lemma keeps_getGameDescription (s : GameState) :
  keeps rejectionsStay (LLMMinimaxAgent.getGameDescription callLLM s).
Proof.
  unfold LLMMinimaxAgent.getGameDescription.
  apply keeps_bind; try apply _; [apply keeps_liftR; apply _|]. intros text σ.
  change (bindM get ?k σ) with (k σ σ). cbv beta.
  destruct (gameDescriptionCache σ !! ChessGame.hashGameState s) as [p|] eqn:Hcache.
  { apply keeps_await. }
  unfold bindM at 1. unfold newMessagePromise at 1.
  unfold bindM at 1. unfold modify at 1.
  set (σ2 := setGameDescriptionCache _ _).
  assert (rejectionsStay σ σ2) as Hσ2.
  { intros h e (q & H1 & H2). exists q. unfold σ2. simpl. split.
    - rewrite lookup_insert_ne; [exact H1|]. intros <-. congruence.
    - by apply lookup_app_l_Some. }
  etransitivity; [exact Hσ2|].
  match goal with |- rejectionsStay σ2 (snd (?m σ2)) => cut (keeps rejectionsStay m) end.
  { intros H. apply H. }
  apply keeps_bind; try apply _; [apply keeps_askUntilAnswered|].
  intros messageChoices. apply keeps_bind; try apply _.
  - destruct messageChoices as [[|messageChoice others]|];
      [apply keeps_ret; apply _ | apply keeps_settleMessage | apply keeps_settleMessage].
  - intros _. apply keeps_await.
Qed.

Lemma keeps_stateEvaluation (s : GameState) :
  keeps rejectionsStay (LLMMinimaxAgent.stateEvaluation callLLM Math_exp s).
Proof.
  unfold LLMMinimaxAgent.stateEvaluation.
  apply keeps_bind; try apply _; [apply keeps_getGameDescription|]. intros description.
  apply keeps_bind; try apply _; [apply keeps_askUntilAnswered|].
  intros [[|messageChoice others]|]; try (apply keeps_throw; apply _).
  destruct (logprobs messageChoice) as [lp|].
  - destruct (logprobs_content lp) as [|first others']; [apply keeps_throw; apply _|].
    destruct (top_logprobs first) as [topLogprobs|]; [|apply keeps_throw; apply _].
    cbv zeta.
    match goal with
    | |- context [?m !! "white"] =>
        destruct (m !! "white") as [[[| |]|]|], (m !! "black")
    end;
      first [apply keeps_throw; apply _ | apply keeps_ret; apply _
            | intros σ0; reflexivity].
  - destruct (bool_decide _); apply keeps_ret; apply _.
Qed.

Lemma keeps_getSuccessors (fuel : nat) (s : GameState) :
  keeps rejectionsStay (LLMMinimaxAgent.getSuccessors callLLM fuel s).
Proof.
  unfold LLMMinimaxAgent.getSuccessors,
    LLMMinimaxAgent.getSuccessorsInOneSingleOptionLLMCall.
  apply keeps_bind; try apply _; [apply keeps_getGameDescription|]. intros description.
  apply keeps_bind; try apply _; [apply keeps_liftR; apply _|]. intros validMoves.
  apply keeps_bind; try apply _; [apply keeps_askForMoves|]. intros moves.
  apply keeps_liftR; apply _.
Qed.

End WithOracle.

(** The search itself only touches the other two caches. *)
Section Search.

Variable costSetup : CostSetup.
Variable parallel : bool.
Variable stateEvaluation : GameState -> M AgentState Q.
Variable getSuccessors : GameState -> M AgentState (list GameStateProgression).
Variable estimateNumberOfSuccessors : GameState -> Q.
Hypothesis stateEvaluation_keeps : forall s, keeps rejectionsStay (stateEvaluation s).
Hypothesis getSuccessors_keeps : forall s, keeps rejectionsStay (getSuccessors s).

Lemma keeps_addToMinimaxCache (gameHash : string) (entry : PendingCacheEntry) :
  keeps rejectionsStay (CompressedMinimax.addToMinimaxCache gameHash entry).
Proof. by apply keeps_modify_same. Qed.

Lemma keeps_startGetSuccessors (gameHash : string) (s : GameState) :
  keeps rejectionsStay (CompressedMinimax.startGetSuccessors getSuccessors gameHash s).
Proof.
  unfold CompressedMinimax.startGetSuccessors.
  apply keeps_bind; try apply _; [apply keeps_newSuccessorsPromise|]. intros p.
  apply keeps_bind; try apply _; [by apply keeps_modify_same|]. intros _.
  apply keeps_bind; try apply _; [apply keeps_record|]. intros _.
  intros σ. pose proof (getSuccessors_keeps s σ) as H.
  destruct (getSuccessors s σ) as [r σ']. simpl in *.
  etransitivity; [exact H|]. by apply rejectionsStay_same.
Qed.

Lemma keeps_settling (p : nat) (m : M AgentState MinimaxIterationResult) :
  keeps rejectionsStay m -> keeps rejectionsStay (CompressedMinimax.settling p m).
Proof.
  intros H σ. unfold CompressedMinimax.settling. specialize (H σ).
  destruct (m σ) as [[r|e| |] σ']; simpl in *; try exact H;
    (etransitivity; [exact H|]; by apply rejectionsStay_same).
Qed.

Section Children.

Variable minimax : CompressedMinimax.MinimaxCall.
Hypothesis minimax_keeps :
  forall depth s budget alpha beta mx, keeps rejectionsStay (minimax depth s budget alpha beta mx).

Lemma keeps_serialMax (budgetForSearch depth : Q) (successors : list GameStateProgression) :
  forall alpha beta bestValue usedBudget,
    keeps rejectionsStay
      (CompressedMinimax.serialMax minimax budgetForSearch depth successors alpha beta
         bestValue usedBudget).
Proof.
  induction successors as [|successor rest IH]; intros alpha beta bestValue usedBudget; simpl.
  - apply keeps_ret; apply _.
  - apply keeps_bind; try apply _; [apply minimax_keeps|]. intros r.
    destruct (ExtNum.leb _ _); [apply keeps_ret; apply _ | apply IH].
Qed.

Lemma keeps_serialMin (budgetForSearch depth : Q) (successors : list GameStateProgression) :
  forall alpha beta bestValue usedBudget,
    keeps rejectionsStay
      (CompressedMinimax.serialMin minimax budgetForSearch depth successors alpha beta
         bestValue usedBudget).
Proof.
  induction successors as [|successor rest IH]; intros alpha beta bestValue usedBudget; simpl.
  - apply keeps_ret; apply _.
  - apply keeps_bind; try apply _; [apply minimax_keeps|]. intros r.
    destruct (ExtNum.leb _ _); [apply keeps_ret; apply _ | apply IH].
Qed.

Lemma startAll_keeps (budgetForSearch childDepth : Q) (mx : bool)
    (successors : list GameStateProgression) (σ : AgentState) :
  rejectionsStay σ
    (snd (CompressedMinimax.startAll minimax budgetForSearch childDepth mx successors σ)).
Proof.
  revert σ. induction successors as [|successor rest IH]; intros σ; simpl; [reflexivity|].
  pose proof (minimax_keeps childDepth (nextState successor)
                (budgetForSearch * probability successor)%Q NegInfinity Infinity (negb mx) σ)
    as H.
  destruct (minimax _ _ _ _ _ _ σ) as [r σ']. simpl in H.
  specialize (IH σ').
  destruct (CompressedMinimax.startAll _ _ _ _ rest σ') as [rs σ'']. simpl in *.
  etransitivity; [exact H | exact IH].
Qed.

Lemma keeps_joinAll (budgetForSearch childDepth : Q) (mx : bool)
    (successors : list GameStateProgression) :
  keeps rejectionsStay
    (fun σ => let (rs, σ') :=
                CompressedMinimax.startAll minimax budgetForSearch childDepth mx successors σ in
              (CompressedMinimax.promiseAll rs, σ')).
Proof.
  intros σ. pose proof (startAll_keeps budgetForSearch childDepth mx successors σ) as H.
  by destruct (CompressedMinimax.startAll _ _ _ _ _ σ).
Qed.

Lemma keeps_treeSearch (budgetForSearch : Q) (successors : list GameStateProgression)
    (depth : Q) (alpha beta : ExtNum) (mx : bool) :
  keeps rejectionsStay
    (if parallel
     then CompressedMinimax.minimaxParallelTreeSearch minimax budgetForSearch successors
            depth mx
     else CompressedMinimax.minimaxSerialTreeSearch minimax budgetForSearch successors
            depth alpha beta mx).
Proof.
  destruct parallel.
  - unfold CompressedMinimax.minimaxParallelTreeSearch.
    apply keeps_bind; try apply _; [apply keeps_joinAll|]. intros results.
    destruct mx; apply keeps_ret; apply _.
  - unfold CompressedMinimax.minimaxSerialTreeSearch.
    destruct mx; [apply keeps_serialMax | apply keeps_serialMin].
Qed.

Lemma keeps_explore (depth : Q) (s : GameState) (gameHash : string) (budget : Q)
    (alpha beta : ExtNum) (mx : bool) (usedBudget : Q) :
  keeps rejectionsStay
    (CompressedMinimax.explore costSetup parallel stateEvaluation getSuccessors
       estimateNumberOfSuccessors minimax depth s gameHash budget alpha beta mx usedBudget).
Proof.
  unfold CompressedMinimax.explore.
  apply keeps_bind; try apply _; [apply keeps_get; apply _|]. intros σ.
  apply keeps_bind; try apply _.
  { destruct (successorsCache σ !! gameHash); [|apply keeps_ret; apply _].
    apply keeps_bind; try apply _; [apply keeps_uncaught, keeps_await|].
    intros l. apply keeps_ret; apply _. }
  intros cached. destruct (_ || _).
  - unfold CompressedMinimax.evaluateLeaf, CompressedMinimax.callStateEvaluation.
    apply keeps_bind; try apply _; [|intros v; apply keeps_ret; apply _].
    apply keeps_uncaught. apply keeps_bind; try apply _; [apply keeps_record|].
    intros _. apply stateEvaluation_keeps.
  - unfold CompressedMinimax.expandNode.
    apply keeps_bind; try apply _.
    { destruct cached; [apply keeps_ret; apply _|].
      apply keeps_bind; try apply _; [apply keeps_startGetSuccessors|].
      intros p. apply keeps_await. }
    intros successors. destruct (bool_decide _); [apply keeps_throw; apply _|].
    apply keeps_bind; try apply _; [apply keeps_treeSearch|].
    intros r. apply keeps_ret; apply _.
Qed.

End Children.

Lemma keeps_minimax (fuel : nat) :
  forall depth s budget alpha beta mx,
    keeps rejectionsStay
      (CompressedMinimax.minimax costSetup parallel stateEvaluation getSuccessors
         estimateNumberOfSuccessors fuel depth s budget alpha beta mx).
Proof.
  induction fuel as [|fuel IH]; intros depth s budget alpha beta mx.
  - intros σ. reflexivity.
  - cbn [CompressedMinimax.minimax].
    apply keeps_bind; try apply _; [apply keeps_get; apply _|]. intros σ.
    destruct (match minimaxCache σ !! ChessGame.hashGameState s with
              | Some cacheResult =>
                  if CompressedMinimax.cacheAnswers cacheResult budget
                  then Some cacheResult else None
              | None => None
              end) as [cacheResult|].
    { apply keeps_bind; try apply _; [apply keeps_await|].
      intros v. apply keeps_ret; apply _. }
    apply keeps_bind; try apply _; [apply keeps_liftR; apply _|]. intros e.
    destruct e.
    + apply keeps_bind; try apply _; [apply keeps_newNumberPromise|]. intros p.
      apply keeps_bind; try apply _; [apply keeps_addToMinimaxCache|]. intros _.
      apply keeps_ret; apply _.
    + apply keeps_bind; try apply _; [apply keeps_newNumberPromise|]. intros p.
      apply keeps_bind; try apply _; [apply keeps_addToMinimaxCache|]. intros _.
      apply keeps_ret; apply _.
    + apply keeps_bind; try apply _; [apply keeps_newNumberPromise|]. intros p.
      apply keeps_bind; try apply _; [apply keeps_addToMinimaxCache|]. intros _.
      apply keeps_settling, keeps_explore, IH.
    + apply keeps_bind; try apply _; [apply keeps_newNumberPromise|]. intros p.
      apply keeps_bind; try apply _; [apply keeps_addToMinimaxCache|]. intros _.
      apply keeps_settling, keeps_explore, IH.
Qed.

Lemma keeps_selectMove (fuel : nat) (s : GameState) :
  keeps rejectionsStay
    (CompressedMinimax.selectMove costSetup parallel stateEvaluation getSuccessors
       estimateNumberOfSuccessors fuel s).
Proof.
  unfold CompressedMinimax.selectMove.
  apply keeps_bind; try apply _; [apply keeps_get; apply _|]. intros σ.
  apply keeps_bind; try apply _.
  { destruct (successorsCache σ !! ChessGame.hashGameState s); [apply keeps_ret; apply _|].
    apply keeps_bind; try apply _; [apply keeps_startGetSuccessors|].
    intros p. apply keeps_ret; apply _. }
  intros [p budget].
  apply keeps_bind; try apply _; [apply keeps_await|]. intros successors.
  destruct (bool_decide _); [apply keeps_throw; apply _|].
  apply keeps_bind; try apply _; [apply keeps_joinAll, keeps_minimax|]. intros results.
  apply keeps_bind; try apply _; [apply keeps_liftR; apply _|]. intros best.
  apply keeps_ret; apply _.
Qed.

End Search.

(** No request to the LLM agent removes a rejected description. *)
Lemma rejected_description_stays (callLLM : CallLLM) (Math_exp : Q -> Q)
    (costSetup : CostSetup) (fuel : nat) (s : GameState) :
  keeps rejectionsStay (LLMMinimaxAgent.selectMove callLLM Math_exp costSetup fuel s)
  /\ keeps rejectionsStay (LLMMinimaxAgent.stateEvaluation callLLM Math_exp s)
  /\ keeps rejectionsStay (LLMMinimaxAgent.getSuccessors callLLM fuel s).
Proof.
  split; [|split].
  - apply keeps_selectMove; intros; [apply keeps_stateEvaluation | apply keeps_getSuccessors].
  - apply keeps_stateEvaluation.
  - apply keeps_getSuccessors.
Qed.

End Stays.

(** ** A failed description *)

(** C10.  States are on a board of 8 rows of 8 cells: [getGameDescription]
    renders the state as text before it looks at its cache, and that throws
    on a board that lacks a cell.  When the description oracle fails
    [maxLLMTries] times for a state whose description is not cached,
    [getGameDescription] raises the exhaustion error after exactly that many
    requests and leaves, under the hash of the state, a promise rejected with
    that error.  No request to the agent ([selectMove], an evaluation, a
    successors request) removes a rejected description from the cache.  In
    every state of the agent in which the cache holds that rejected promise,
    an evaluation and a successors request for a state with this hash raise
    the same error at once: the agent is left as it was, so no request is sent
    to the oracle. *)
Theorem C10_failed_description_is_cached (callLLM : CallLLM) (Math_exp : Q -> Q)
    (s : GameState) (σ : AgentState) :
  wfBoard (boardState s) ->
  gameDescriptionCache σ !! ChessGame.hashGameState s = None ->
  failsNext callLLM σ LLMMinimaxAgent.maxLLMTries ->
  (exists σ',
     LLMMinimaxAgent.getGameDescription callLLM s σ = (Throw exhausted, σ')
     /\ LLMMinimaxAgent.requestsSent σ'
        = (LLMMinimaxAgent.requestsSent σ + LLMMinimaxAgent.maxLLMTries)%nat
     /\ descriptionRejected σ' (ChessGame.hashGameState s) exhausted)
  /\ (forall costSetup fuel s' σa,
        rejectionsStay σa
          (snd (LLMMinimaxAgent.selectMove callLLM Math_exp costSetup fuel s' σa))
        /\ rejectionsStay σa (snd (LLMMinimaxAgent.stateEvaluation callLLM Math_exp s' σa))
        /\ rejectionsStay σa (snd (LLMMinimaxAgent.getSuccessors callLLM fuel s' σa)))
  /\ (forall later s' fuel,
        wfBoard (boardState s') ->
        ChessGame.hashGameState s' = ChessGame.hashGameState s ->
        descriptionRejected later (ChessGame.hashGameState s) exhausted ->
        LLMMinimaxAgent.stateEvaluation callLLM Math_exp s' later = (Throw exhausted, later)
        /\ LLMMinimaxAgent.getSuccessors callLLM fuel s' later = (Throw exhausted, later)).
Proof.
  intros Hwf Hmiss Hfail. split; [|split].
  - destruct (getGameDescription_gives_up callLLM s σ Hwf Hmiss Hfail)
      as (σ' & Hrun & Hsent & Hcache & Hprom).
    exists σ'. repeat split; try done. by exists (length (messagePromises σ)).
  - intros costSetup fuel s' σa.
    destruct (rejected_description_stays callLLM Math_exp costSetup fuel s') as (H1 & H2 & H3).
    split; [apply H1 | split; [apply H2 | apply H3]].
  - intros later s' fuel Hwf' Hhash Hrej. rewrite <- Hhash in Hrej. split.
    + unfold LLMMinimaxAgent.stateEvaluation. unfold bindM at 1.
      by rewrite (getGameDescription_rejected callLLM s' later exhausted Hwf' Hrej).
    + unfold LLMMinimaxAgent.getSuccessors,
        LLMMinimaxAgent.getSuccessorsInOneSingleOptionLLMCall. unfold bindM at 1.
      by rewrite (getGameDescription_rejected callLLM s' later exhausted Hwf' Hrej).
Qed.

Lemma C10_failed_description_is_cached_witness :
  (exists σ',
     LLMMinimaxAgent.getGameDescription alwaysFails initialGameState emptyAgent
     = (Throw exhausted, σ')
     /\ LLMMinimaxAgent.requestsSent σ'
        = (LLMMinimaxAgent.requestsSent emptyAgent + LLMMinimaxAgent.maxLLMTries)%nat
     /\ descriptionRejected σ' (ChessGame.hashGameState initialGameState) exhausted)
  /\ (forall costSetup fuel s' σa,
        rejectionsStay σa
          (snd (LLMMinimaxAgent.selectMove alwaysFails (fun q => q) costSetup fuel s' σa))
        /\ rejectionsStay σa
             (snd (LLMMinimaxAgent.stateEvaluation alwaysFails (fun q => q) s' σa))
        /\ rejectionsStay σa (snd (LLMMinimaxAgent.getSuccessors alwaysFails fuel s' σa)))
  /\ (forall later s' fuel,
        wfBoard (boardState s') ->
        ChessGame.hashGameState s' = ChessGame.hashGameState initialGameState ->
        descriptionRejected later (ChessGame.hashGameState initialGameState) exhausted ->
        LLMMinimaxAgent.stateEvaluation alwaysFails (fun q => q) s' later
        = (Throw exhausted, later)
        /\ LLMMinimaxAgent.getSuccessors alwaysFails fuel s' later
           = (Throw exhausted, later)).
Proof.
  apply (C10_failed_description_is_cached alwaysFails (fun q => q) initialGameState
           emptyAgent).
  - split; [reflexivity | repeat constructor].
  - reflexivity.
  - intros k args _. by exists "rate limit".
Defined.

(** ** The moves of each piece, square by square *)

Section Generation.

Import ChessGame.

#[local] Arguments annotateMove : simpl never.
#[local] Arguments getPosInDirection : simpl never.

Lemma annotateMove_inv (s : GameState) (m m' : Move) :
  annotateMove s m = Ok m' -> exists a, m' = withAlgebraic m a.
Proof.
  unfold annotateMove, annotateCastlingMove. destruct (castling m).
  - destruct ((to m).2 =? 2); intros H; injection H as <-; eauto.
  - intros H. apply bindR_Ok in H as (c & _ & H). destruct (piece c); [|discriminate].
    apply bindR_Ok in H as (c' & _ & H). injection H as <-. eauto.
Qed.

Lemma cellAt_wf_onBoard (b : list (list CellState)) (pos : Position) (c : CellState) :
  wfBoard b -> cellAt b pos = Ok c -> onBoard pos.
Proof.
  intros [Hlen Hrows]. unfold cellAt.
  destruct (index b pos.1) as [row|] eqn:Hrow; [|discriminate].
  destruct (index row pos.2) as [c'|] eqn:Hc; [|discriminate]. intros _.
  apply index_Some in Hrow as [Hr Hrow]. apply index_Some in Hc as [Hc0 Hc].
  assert (length row = 8%nat) as Hl by (eapply Forall_lookup_1 in Hrows; eauto).
  apply lookup_lt_Some in Hrow, Hc. unfold onBoard. lia.
Qed.

Lemma holds_or_empty (s : GameState) (pos : Position) :
  wfBoard (boardState s) -> onBoard pos -> emptyAt s pos \/ exists q, holds s pos q.
Proof.
  intros Hwf Hpos. destruct (cellAt_onBoard _ _ Hwf Hpos) as [[[q|]] Hc]; [right | left].
  - by exists q.
  - exact Hc.
Qed.

Lemma holds_not_empty (s : GameState) (pos : Position) (q : Piece) :
  holds s pos q -> ~ emptyAt s pos.
Proof. unfold holds, emptyAt. intros -> H. discriminate. Qed.

Lemma holds_inj (s : GameState) (pos : Position) (q q' : Piece) :
  holds s pos q -> holds s pos q' -> q = q'.
Proof. unfold holds. intros -> H. by injection H. Qed.

Lemma isCellEmpty_empty (s : GameState) (pos : Position) :
  emptyAt s pos -> isCellEmpty s pos = Ok true.
Proof. unfold emptyAt, isCellEmpty. by intros ->. Qed.

Lemma isCellEmpty_holds (s : GameState) (pos : Position) (q : Piece) :
  holds s pos q -> isCellEmpty s pos = Ok false.
Proof. unfold holds, isCellEmpty. by intros ->. Qed.

Lemma isCellEnemy_empty (s : GameState) (pos : Position) (col : PlayerColor) :
  emptyAt s pos -> isCellEnemy s pos col = Ok false.
Proof. unfold emptyAt, isCellEnemy. by intros ->. Qed.

Lemma isCellEnemy_holds (s : GameState) (pos : Position) (col : PlayerColor) (q : Piece) :
  holds s pos q -> isCellEnemy s pos col = Ok (bool_decide (color q <> col)).
Proof. unfold holds, isCellEnemy. by intros ->. Qed.

Lemma notOwn_holds (s : GameState) (pos : Position) (col : PlayerColor) (q : Piece) :
  holds s pos q -> notOwn s col pos <-> color q <> col.
Proof.
  intros Hq. split.
  - intros [He | (q' & Hq' & Hc)]; [by apply holds_not_empty in Hq|].
    by rewrite (holds_inj _ _ _ _ Hq Hq').
  - intros Hc. right. by exists q.
Qed.

Lemma annotated_fun (s : GameState) (flags : Move -> Move) (pos target : Position)
    (m m' : Move) :
  annotated s flags pos target m -> annotated s flags pos target m' -> m = m'.
Proof. unfold annotated. intros -> H. by injection H. Qed.

Lemma annotated_Ok (s : GameState) (flags : Move -> Move) (pos target : Position)
    (p : Piece) :
  wfBoard (boardState s) -> holds s pos p -> onBoard target ->
  (forall m, from (flags m) = from m /\ to (flags m) = to m) ->
  exists m, annotated s flags pos target m.
Proof.
  intros Hwf Hp Ht Hflags. unfold annotated.
  destruct (Hflags (plainMove pos target)) as [Hf Hto].
  destruct (annotateMove_Ok s (flags (plainMove pos target)) {| piece := Some p |} p Hwf)
    as [a Ha]; [by rewrite Hto | by rewrite Hf | reflexivity |].
  eauto.
Qed.

Lemma along_0 (pos d : Position) : along pos d 0 = pos.
Proof. destruct pos as [r c]. unfold along. simpl. f_equal; lia. Qed.

Lemma along_1 (pos d : Position) : along pos d 1 = (pos.1 + d.1, pos.2 + d.2).
Proof. unfold along. f_equal; lia. Qed.

Lemma along_next (pos d : Position) (k : Z) :
  along (pos.1 + d.1, pos.2 + d.2) d k = along pos d (k + 1).
Proof. unfold along. simpl. f_equal; lia. Qed.

Lemma getPosInDirection_None (p d : Position) :
  getPosInDirection p d = None -> ~ onBoard (p.1 + d.1, p.2 + d.2).
Proof.
  intros H Hon. by rewrite (getPosInDirection_onBoard _ _ Hon) in H.
Qed.

(** *** Rook, bishop and queen *)

Lemma off_board_stays (np d : Position) (k : Z) :
  slidingDirection d -> onBoard np -> ~ onBoard (np.1 + d.1, np.2 + d.2) -> 1 <= k ->
  ~ onBoard (along np d k).
Proof.
  unfold slidingDirection, onBoard, along. intros Hd Hnp Hoff Hk.
  repeat (apply elem_of_cons in Hd as [-> | Hd]; [simpl in *; lia|]).
  by apply elem_of_nil in Hd.
Qed.

Lemma stepsToEdge_next (np d : Position) :
  slidingDirection d -> onBoard np -> onBoard (np.1 + d.1, np.2 + d.2) ->
  1 <= stepsToEdge d np /\ stepsToEdge d (np.1 + d.1, np.2 + d.2) = stepsToEdge d np - 1.
Proof.
  unfold slidingDirection, onBoard, stepsToEdge. intros Hd Hnp Hon.
  repeat (apply elem_of_cons in Hd as [-> | Hd]; [simpl in *; lia|]).
  by apply elem_of_nil in Hd.
Qed.

Lemma stepsToEdge_positive (np d : Position) :
  slidingDirection d -> onBoard np -> 1 <= stepsToEdge d np <= 8.
Proof.
  unfold slidingDirection, onBoard, stepsToEdge. intros Hd Hnp.
  repeat (apply elem_of_cons in Hd as [-> | Hd]; [simpl in *; lia|]).
  by apply elem_of_nil in Hd.
Qed.

(** The walk from [np] on: it ends, and finds the squares up to the first
    piece, that piece's square included when the piece is an enemy. *)
Lemma walkInDirection_spec (s : GameState) (startPosition d : Position)
    (col : PlayerColor) (p : Piece) :
  wfBoard (boardState s) -> holds s startPosition p -> slidingDirection d ->
  forall (fuel : nat) (np : Position),
    onBoard np -> stepsToEdge d np <= Z.of_nat fuel ->
    exists moves,
      walkInDirection fuel s startPosition d col (Some np) = Ok moves
      /\ forall m, m ∈ moves <->
           exists k, 0 <= k /\ onBoard (along np d k)
             /\ (forall j, 0 <= j < k -> emptyAt s (along np d j))
             /\ notOwn s col (along np d k)
             /\ annotated s id startPosition (along np d k) m.
Proof.
  intros Hwf Hstart Hd fuel. induction fuel as [|fuel IH]; intros np Hnp Hsteps.
  { pose proof (stepsToEdge_positive np d Hd Hnp). lia. }
  cbn [walkInDirection].
  destruct (annotated_Ok s id startPosition np p Hwf Hstart Hnp) as [mv Hmv]; [done|].
  pose proof Hmv as Hmv'. unfold annotated, id in Hmv'.
  destruct (holds_or_empty s np Hwf Hnp) as [He | [q Hq]].
  - rewrite (isCellEmpty_empty _ _ He). cbn [bindR]. rewrite Hmv'. cbn [bindR].
    destruct (getPosInDirection np d) as [np'|] eqn:Hnext.
    + apply getPosInDirection_Some in Hnext as [-> Hon].
      destruct (stepsToEdge_next np d Hd Hnp Hon) as [_ Hless].
      destruct (IH _ Hon) as (rest & -> & Hspec); [lia|].
      cbn [bindR]. eexists; split; [reflexivity|].
      intros m. rewrite elem_of_cons, Hspec. split.
      * intros [-> | (k & Hk & Hok & Hbetween & Hto & Hm)].
        -- exists 0. rewrite along_0.
           split; [lia|]. split; [done|]. split; [intros j Hj; lia|]. split; [by left | done].
        -- exists (k + 1). rewrite <- along_next.
           split; [lia|]. split; [done|]. split; [|done].
           intros j Hj. destruct (decide (j = 0)) as [-> | Hj0]; [by rewrite along_0|].
           replace j with ((j - 1) + 1) by lia. rewrite <- along_next. apply Hbetween. lia.
      * intros (k & Hk & Hok & Hbetween & Hto & Hm).
        destruct (decide (k = 0)) as [-> | Hk0].
        -- left. rewrite along_0 in Hm. by eapply annotated_fun.
        -- right. exists (k - 1). rewrite along_next. replace (k - 1 + 1) with k by lia.
           split; [lia|]. split; [done|]. split; [|done].
           intros j Hj. rewrite along_next. apply Hbetween. lia.
    + apply getPosInDirection_None in Hnext.
      assert (walkInDirection fuel s startPosition d col None = Ok []) as ->
        by (by destruct fuel).
      cbn [bindR]. eexists; split; [reflexivity|].
      intros m. rewrite list_elem_of_singleton. split.
      * intros ->. exists 0. rewrite along_0.
        split; [lia|]. split; [done|]. split; [intros j Hj; lia|]. split; [by left | done].
      * intros (k & Hk & Hok & Hbetween & Hto & Hm).
        destruct (decide (k = 0)) as [-> | Hk0].
        -- rewrite along_0 in Hm. by eapply annotated_fun.
        -- exfalso. eapply (off_board_stays np d k); try done. lia.
  - rewrite (isCellEmpty_holds _ _ _ Hq). cbn [bindR].
    rewrite (isCellEnemy_holds _ _ col _ Hq). cbn [bindR].
    assert (forall k, 0 <= k -> (forall j, 0 <= j < k -> emptyAt s (along np d j)) -> k = 0)
      as Hfirst.
    { intros k Hk Hbetween. destruct (decide (k = 0)) as [|Hk0]; [done|].
      exfalso. apply (holds_not_empty _ _ _ Hq). rewrite <- (along_0 np d).
      apply Hbetween. lia. }
    destruct (bool_decide (color q <> col)) eqn:Hcol.
    + apply bool_decide_eq_true in Hcol. rewrite Hmv'. cbn [bindR].
      eexists; split; [reflexivity|].
      intros m. rewrite list_elem_of_singleton. split.
      * intros ->. exists 0. rewrite along_0.
        split; [lia|]. split; [done|]. split; [intros j Hj; lia|].
        split; [right; by exists q | done].
      * intros (k & Hk & Hok & Hbetween & Hto & Hm).
        rewrite (Hfirst k Hk Hbetween), along_0 in Hm. by eapply annotated_fun.
    + apply bool_decide_eq_false in Hcol.
      eexists; split; [reflexivity|].
      intros m. split; [intros Hm; by apply elem_of_nil in Hm|].
      intros (k & Hk & Hok & Hbetween & Hto & Hm).
      rewrite (Hfirst k Hk Hbetween), along_0 in Hto.
      by apply (notOwn_holds _ _ col _ Hq) in Hto.
Qed.

Lemma getMovesInDirection_spec (s : GameState) (pos d : Position) (p : Piece) :
  wfBoard (boardState s) -> holds s pos p -> slidingDirection d ->
  exists moves,
    getMovesInDirection s pos d = Ok moves
    /\ forall m, m ∈ moves <-> slidesTo s pos (color p) [d] m.
Proof.
  intros Hwf Hp Hd. unfold getMovesInDirection. pose proof Hp as Hp'. unfold holds in Hp'.
  rewrite Hp'. cbn [bindR piece].
  assert (onBoard pos) as Hpos by (by eapply cellAt_wf_onBoard).
  destruct (getPosInDirection pos d) as [np|] eqn:Hnext.
  - apply getPosInDirection_Some in Hnext as [-> Hon].
    destruct (stepsToEdge_positive _ d Hd Hon) as [_ Hle].
    destruct (walkInDirection_spec s pos d (color p) p Hwf Hp Hd 8 _ Hon)
      as (moves & -> & Hspec); [lia|].
    exists moves. split; [reflexivity|]. intros m. rewrite Hspec. unfold slidesTo. split.
    + intros (k & Hk & Hok & Hbetween & Hto & Hm). exists d, (k + 1).
      rewrite <- along_next.
      split; [by apply list_elem_of_singleton|]. split; [lia|]. split; [done|].
      split; [|done].
      intros j Hj. replace j with ((j - 1) + 1) by lia. rewrite <- along_next.
      apply Hbetween. lia.
    + intros (d' & k & Hd' & Hk & Hok & Hbetween & Hto & Hm).
      apply list_elem_of_singleton in Hd' as ->. exists (k - 1).
      rewrite along_next. replace (k - 1 + 1) with k by lia.
      split; [lia|]. split; [done|]. split; [|done].
      intros j Hj. rewrite along_next. apply Hbetween. lia.
  - apply getPosInDirection_None in Hnext.
    exists []. split; [reflexivity|]. intros m. split; [intros Hm; by apply elem_of_nil in Hm|].
    intros (d' & k & Hd' & Hk & Hok & _). apply list_elem_of_singleton in Hd' as ->.
    exfalso. by eapply (off_board_stays pos d k).
Qed.

Lemma forR_total {A B} (g : A -> Result (list B)) (f : list B -> A -> Result (list B)) :
  (forall acc x, f acc x = let* ys := g x in Ok (acc ++ ys)) ->
  forall l, (forall x, x ∈ l -> exists ys, g x = Ok ys) ->
  exists res, forR l [] f = Ok res.
Proof.
  intros Hf l. induction l as [|y l IH]; intros Hg; simpl; [eauto|].
  rewrite Hf. destruct (Hg y) as [ys ->]; [by left|]. simpl.
  rewrite (forR_shift g f Hf). destruct IH as [res ->]; [|simpl; eauto].
  intros x Hx. apply Hg. by right.
Qed.

Lemma slidesTo_dirs (s : GameState) (pos : Position) (col : PlayerColor)
    (dirs : list Position) (m : Move) :
  slidesTo s pos col dirs m <-> exists d, d ∈ dirs /\ slidesTo s pos col [d] m.
Proof.
  unfold slidesTo. split.
  - intros (d & k & Hd & H). exists d. split; [done|]. exists d, k.
    split; [by apply list_elem_of_singleton | done].
  - intros (d & Hd & d' & k & Hd' & H). apply list_elem_of_singleton in Hd' as ->.
    exists d, k. done.
Qed.

Lemma movesInDirections_spec (s : GameState) (pos : Position) (p : Piece)
    (dirs : list Position) :
  wfBoard (boardState s) -> holds s pos p ->
  (forall d, d ∈ dirs -> slidingDirection d) ->
  exists moves,
    movesInDirections s pos dirs = Ok moves
    /\ forall m, m ∈ moves <-> slidesTo s pos (color p) dirs m.
Proof.
  intros Hwf Hp Hdirs. unfold movesInDirections.
  set (f := fun (moves : list Move) direction =>
              let* ms := getMovesInDirection s pos direction in Ok (moves ++ ms)).
  assert (forall acc x, f acc x = let* ys := getMovesInDirection s pos x in Ok (acc ++ ys))
    as Hf by done.
  destruct (forR_total _ f Hf dirs) as [res Hres].
  { intros d Hd. destruct (getMovesInDirection_spec s pos d p Hwf Hp (Hdirs d Hd))
      as (ys & -> & _). eauto. }
  exists res. split; [exact Hres|]. intros m.
  rewrite (forR_collect _ f Hf dirs res Hres m), slidesTo_dirs. split.
  - intros (d & ys & Hd & Hys & Hm). exists d. split; [done|].
    destruct (getMovesInDirection_spec s pos d p Hwf Hp (Hdirs d Hd)) as (ys' & Hys' & Hspec).
    rewrite Hys in Hys'. injection Hys' as <-. by apply Hspec.
  - intros (d & Hd & Hm).
    destruct (getMovesInDirection_spec s pos d p Hwf Hp (Hdirs d Hd)) as (ys & Hys & Hspec).
    exists d, ys. split; [done|]. split; [done|]. by apply Hspec.
Qed.

Lemma slidesTo_app (s : GameState) (pos : Position) (col : PlayerColor)
    (dirs dirs' : list Position) (m : Move) :
  slidesTo s pos col (dirs ++ dirs') m
  <-> slidesTo s pos col dirs m \/ slidesTo s pos col dirs' m.
Proof.
  rewrite !slidesTo_dirs. split.
  - intros (d & Hd & H). apply elem_of_app in Hd as [Hd | Hd]; [left | right]; eauto.
  - intros [(d & Hd & H) | (d & Hd & H)]; exists d; (split; [|done]);
      apply elem_of_app; auto.
Qed.

Lemma slideDirections_sliding (t : PieceType) (d : Position) :
  d ∈ slideDirections t -> slidingDirection d.
Proof.
  unfold slidingDirection. destruct t; cbn [slideDirections]; intros Hd;
    try (by apply elem_of_nil in Hd); try done; apply elem_of_app; auto.
Qed.

Lemma slidingMoves_spec (s : GameState) (pos : Position) (p : Piece) :
  wfBoard (boardState s) -> holds s pos p ->
  type p = rook \/ type p = bishop \/ type p = queen ->
  exists moves,
    getMovesFromPosition s pos = Ok moves
    /\ forall m, m ∈ moves <-> slidesTo s pos (color p) (slideDirections (type p)) m.
Proof.
  intros Hwf Hp Ht. unfold getMovesFromPosition. pose proof Hp as Hp'. unfold holds in Hp'.
  rewrite Hp'. cbn [bindR piece].
  destruct Ht as [Ht | [Ht | Ht]]; rewrite Ht; cbn [slideDirections].
  - unfold getRookMoves. rewrite Hp'. cbn [bindR piece].
    apply movesInDirections_spec; try done.
    intros d Hd. apply (slideDirections_sliding rook d Hd).
  - unfold getBishopMoves. rewrite Hp'. cbn [bindR piece].
    apply movesInDirections_spec; try done.
    intros d Hd. apply (slideDirections_sliding bishop d Hd).
  - unfold getQueenMoves. rewrite Hp'. cbn [bindR piece].
    destruct (movesInDirections_spec s pos p linearDirections Hwf Hp) as (l & -> & Hl).
    { intros d Hd. apply (slideDirections_sliding rook d Hd). }
    destruct (movesInDirections_spec s pos p diagonalDirections Hwf Hp) as (dg & -> & Hdg).
    { intros d Hd. apply (slideDirections_sliding bishop d Hd). }
    cbn [bindR]. eexists; split; [reflexivity|].
    intros m. by rewrite elem_of_app, slidesTo_app, Hl, Hdg.
Qed.

(** *** Knight and king *)

Lemma stepMoves_spec (s : GameState) (pos : Position) (p : Piece) (col : PlayerColor)
    (dirs : list Position) :
  wfBoard (boardState s) -> holds s pos p ->
  exists moves,
    stepMoves s pos col dirs = Ok moves
    /\ forall m, m ∈ moves <-> stepsTo s pos col dirs m.
Proof.
  intros Hwf Hp. unfold stepMoves.
  set (g := fun direction : Position =>
              match getPosInDirection pos direction with
              | None => Ok []
              | Some newPos =>
                  let* e := isCellEmpty s newPos in
                  let* ok := if e then Ok true else isCellEnemy s newPos col in
                  if ok then
                    let* mv := annotateMove s (plainMove pos newPos) in Ok [mv]
                  else Ok []
              end).
  set (f := fun (moves : list Move) (direction : Position) =>
              match getPosInDirection pos direction with
              | None => Ok moves
              | Some newPos =>
                  let* e := isCellEmpty s newPos in
                  let* ok := if e then Ok true else isCellEnemy s newPos col in
                  if ok then
                    let* mv := annotateMove s (plainMove pos newPos) in Ok (moves ++ [mv])
                  else Ok moves
              end).
  assert (forall acc x, f acc x = let* ys := g x in Ok (acc ++ ys)) as Hf.
  { intros acc x. unfold f, g. destruct (getPosInDirection pos x) as [np|];
      [|cbn [bindR]; by rewrite app_nil_r].
    destruct (isCellEmpty s np) as [[|]| | |]; cbn [bindR]; try done.
    - destruct (annotateMove s (plainMove pos np)); done.
    - destruct (isCellEnemy s np col) as [[|]| | |]; cbn [bindR]; try done.
      + destruct (annotateMove s (plainMove pos np)); done.
      + by rewrite app_nil_r. }
  assert (forall d, exists ys, g d = Ok ys
            /\ forall m, m ∈ ys <-> onBoard (along pos d 1)
                 /\ notOwn s col (along pos d 1)
                 /\ annotated s id pos (along pos d 1) m) as Hg.
  { intros d. unfold g. rewrite along_1.
    destruct (getPosInDirection pos d) as [np|] eqn:Hnext.
    - apply getPosInDirection_Some in Hnext as [-> Hon].
      destruct (annotated_Ok s id pos _ p Hwf Hp Hon) as [mv Hmv]; [done|].
      pose proof Hmv as Hmv'. unfold annotated, id in Hmv'.
      destruct (holds_or_empty s _ Hwf Hon) as [He | [q Hq]].
      + rewrite (isCellEmpty_empty _ _ He). cbn [bindR]. rewrite Hmv'. cbn [bindR].
        eexists; split; [reflexivity|]. intros m. rewrite list_elem_of_singleton. split.
        * intros ->. split; [done|]. split; [by left | done].
        * intros (_ & _ & Hm). by eapply annotated_fun.
      + rewrite (isCellEmpty_holds _ _ _ Hq). cbn [bindR].
        rewrite (isCellEnemy_holds _ _ col _ Hq). cbn [bindR].
        destruct (bool_decide (color q <> col)) eqn:Hcol.
        * apply bool_decide_eq_true in Hcol. rewrite Hmv'. cbn [bindR].
          eexists; split; [reflexivity|]. intros m. rewrite list_elem_of_singleton. split.
          -- intros ->. split; [done|]. split; [right; by exists q | done].
          -- intros (_ & _ & Hm). by eapply annotated_fun.
        * apply bool_decide_eq_false in Hcol.
          eexists; split; [reflexivity|]. intros m.
          split; [intros Hm; by apply elem_of_nil in Hm|].
          intros (_ & Hto & _). by apply (notOwn_holds _ _ col _ Hq) in Hto.
    - apply getPosInDirection_None in Hnext.
      eexists; split; [reflexivity|]. intros m.
      split; [intros Hm; by apply elem_of_nil in Hm|]. by intros (Hon & _). }
  destruct (forR_total g f Hf dirs) as [res Hres].
  { intros d _. destruct (Hg d) as (ys & -> & _). eauto. }
  exists res. split; [exact Hres|]. intros m.
  rewrite (forR_collect g f Hf dirs res Hres m). unfold stepsTo. split.
  - intros (d & ys & Hd & Hys & Hm). exists d. split; [done|].
    destruct (Hg d) as (ys' & Hys' & Hspec). rewrite Hys in Hys'. injection Hys' as <-.
    by apply Hspec.
  - intros (d & Hd & Hm). destruct (Hg d) as (ys & Hys & Hspec).
    exists d, ys. split; [done|]. split; [done|]. by apply Hspec.
Qed.

Lemma knightMoves_spec (s : GameState) (pos : Position) (p : Piece) :
  wfBoard (boardState s) -> holds s pos p -> type p = knight ->
  exists moves,
    getMovesFromPosition s pos = Ok moves
    /\ forall m, m ∈ moves <-> stepsTo s pos (color p) knightDirections m.
Proof.
  intros Hwf Hp Ht. unfold getMovesFromPosition. pose proof Hp as Hp'. unfold holds in Hp'.
  rewrite Hp'. cbn [bindR piece]. rewrite Ht.
  unfold getKnightMoves. rewrite Hp'. cbn [bindR piece].
  by apply (stepMoves_spec s pos p).
Qed.

Lemma castlingMove_annotated (s : GameState) (pos : Position) (target : Z) :
  annotateMove s (setCastling (plainMove pos (pos.1, target)))
  = Ok (castlingMove pos target (if target =? 2 then "0-0-0" else "0-0")).
Proof.
  unfold annotateMove, annotateCastlingMove. cbn [castling setCastling to plainMove snd].
  by destruct (target =? 2).
Qed.

Lemma kingMoves_spec (s : GameState) (pos : Position) (p : Piece) :
  wfBoard (boardState s) -> holds s pos p -> type p = king ->
  exists moves,
    getMovesFromPosition s pos = Ok moves
    /\ forall m, m ∈ moves <->
         stepsTo s pos (color p) linearDirections m \/ castlesTo s pos p m.
Proof.
  intros Hwf Hp Ht. unfold getMovesFromPosition. pose proof Hp as Hp'. unfold holds in Hp'.
  rewrite Hp'. cbn [bindR piece]. rewrite Ht.
  unfold getKingMoves. rewrite Hp'. cbn [bindR piece]. rewrite Ht.
  rewrite bool_decide_eq_false_2 by (intros H; by apply H).
  destruct (stepMoves_spec s pos p (color p) [(1, 0); (-1, 0); (0, 1); (0, -1)] Hwf Hp)
    as (steps & -> & Hsteps).
  cbn [bindR]. unfold castlesTo.
  destruct (hasMoved p) eqn:Hmoved.
  { eexists; split; [reflexivity|]. intros m. rewrite Hsteps. split; [by left|].
    intros [H | [H _]]; [done | discriminate]. }
  assert (onBoard pos) as [Hrow Hcol] by (by eapply cellAt_wf_onBoard).
  assert (forall c, 0 <= c <= 7 -> onBoard (pos.1, c)) as Hon
    by (intros c Hc; unfold onBoard; simpl; lia).
  assert (forall c, 0 <= c <= 7 ->
            (emptyAt s (pos.1, c) /\ isCellEmpty s (pos.1, c) = Ok true)
            \/ (~ emptyAt s (pos.1, c) /\ isCellEmpty s (pos.1, c) = Ok false)) as Hcell.
  { intros c Hc. destruct (holds_or_empty s (pos.1, c) Hwf (Hon c Hc)) as [He | [q Hq]].
    - left. split; [done | by apply isCellEmpty_empty].
    - right. split; [by eapply holds_not_empty | by eapply isCellEmpty_holds]. }
  assert (forall c0, cellAt (boardState s) (pos.1, 0) = Ok c0 ->
          exists leftMoves,
            match piece c0 with
            | Some r =>
                if negb (hasMoved r) then
                  let* e1 := isCellEmpty s (pos.1, 1) in
                  let* e2 := isCellEmpty s (pos.1, 2) in
                  let* e3 := isCellEmpty s (pos.1, 3) in
                  if e1 && e2 && e3 then
                    let* mv := annotateMove s (setCastling (plainMove pos (pos.1, 2))) in
                    Ok [mv]
                  else Ok []
                else Ok []
            | None => Ok []
            end = Ok leftMoves
            /\ forall m, m ∈ leftMoves <->
                 (exists r, holds s (pos.1, 0) r /\ hasMoved r = false)
                 /\ emptyAt s (pos.1, 1) /\ emptyAt s (pos.1, 2) /\ emptyAt s (pos.1, 3)
                 /\ m = castlingMove pos 2 "0-0-0") as Hleft.
  { intros [[r|]] Hr; cbn [piece].
    2:{ eexists; split; [reflexivity|]. intros m.
        split; [intros Hm; by apply elem_of_nil in Hm|].
        intros ((r & Hr' & _) & _). by apply holds_not_empty in Hr'. }
    destruct (hasMoved r) eqn:Hrm; cbn [negb].
    { eexists; split; [reflexivity|]. intros m.
      split; [intros Hm; by apply elem_of_nil in Hm|].
      intros ((r' & Hr'' & Hnm) & _). rewrite <- (holds_inj _ _ _ _ Hr Hr'') in Hnm.
      congruence. }
    destruct (Hcell 1 ltac:(lia)) as [[H1 ->] | [H1 ->]],
             (Hcell 2 ltac:(lia)) as [[H2 ->] | [H2 ->]],
             (Hcell 3 ltac:(lia)) as [[H3 ->] | [H3 ->]]; cbn [bindR andb];
      try (eexists; split; [reflexivity|]; intros m;
           split; [intros Hm; by apply elem_of_nil in Hm | by intros (_ & ? & ? & ? & _)]).
    rewrite castlingMove_annotated. cbn [bindR Z.eqb Pos.eqb].
    eexists; split; [reflexivity|]. intros m. rewrite list_elem_of_singleton.
    split; [intros ->; split; [by exists r | done] | by intros (_ & _ & _ & _ & ->)]. }
  assert (forall c7, cellAt (boardState s) (pos.1, 7) = Ok c7 ->
          exists rightMoves,
            match piece c7 with
            | Some r =>
                if negb (hasMoved r) then
                  let* e5 := isCellEmpty s (pos.1, 5) in
                  let* e6 := isCellEmpty s (pos.1, 6) in
                  if e5 && e6 then
                    let* mv := annotateMove s (setCastling (plainMove pos (pos.1, 6))) in
                    Ok [mv]
                  else Ok []
                else Ok []
            | None => Ok []
            end = Ok rightMoves
            /\ forall m, m ∈ rightMoves <->
                 (exists r, holds s (pos.1, 7) r /\ hasMoved r = false)
                 /\ emptyAt s (pos.1, 5) /\ emptyAt s (pos.1, 6)
                 /\ m = castlingMove pos 6 "0-0") as Hright.
  { intros [[r|]] Hr; cbn [piece].
    2:{ eexists; split; [reflexivity|]. intros m.
        split; [intros Hm; by apply elem_of_nil in Hm|].
        intros ((r & Hr' & _) & _). by apply holds_not_empty in Hr'. }
    destruct (hasMoved r) eqn:Hrm; cbn [negb].
    { eexists; split; [reflexivity|]. intros m.
      split; [intros Hm; by apply elem_of_nil in Hm|].
      intros ((r' & Hr'' & Hnm) & _). rewrite <- (holds_inj _ _ _ _ Hr Hr'') in Hnm.
      congruence. }
    destruct (Hcell 5 ltac:(lia)) as [[H5 ->] | [H5 ->]],
             (Hcell 6 ltac:(lia)) as [[H6 ->] | [H6 ->]]; cbn [bindR andb];
      try (eexists; split; [reflexivity|]; intros m;
           split; [intros Hm; by apply elem_of_nil in Hm | by intros (_ & ? & ? & _)]).
    rewrite castlingMove_annotated. cbn [bindR Z.eqb Pos.eqb].
    eexists; split; [reflexivity|]. intros m. rewrite list_elem_of_singleton.
    split; [intros ->; split; [by exists r | done] | by intros (_ & _ & _ & ->)]. }
  destruct (cellAt_onBoard _ _ Hwf (Hon 0 ltac:(lia))) as [c0 Hc0].
  rewrite Hc0. cbn [bindR].
  destruct (Hleft c0 Hc0) as (leftMoves & -> & HleftSpec). cbn [bindR].
  destruct (cellAt_onBoard _ _ Hwf (Hon 7 ltac:(lia))) as [c7 Hc7].
  rewrite Hc7. cbn [bindR].
  destruct (Hright c7 Hc7) as (rightMoves & -> & HrightSpec). cbn [bindR].
  eexists; split; [reflexivity|]. intros m.
  rewrite !elem_of_app, Hsteps, HleftSpec, HrightSpec. split.
  - intros [H | [H | H]]; [by left | right; split; [done | by left]
                          | right; split; [done | by right]].
  - intros [H | [_ [H | H]]]; auto.
Qed.

(** *** Pawn *)

Lemma getPosInDirection_cases (p d : Position) :
  (getPosInDirection p d = Some (p.1 + d.1, p.2 + d.2) /\ onBoard (p.1 + d.1, p.2 + d.2))
  \/ (getPosInDirection p d = None /\ ~ onBoard (p.1 + d.1, p.2 + d.2)).
Proof.
  destruct (getPosInDirection p d) as [q|] eqn:Hq.
  - apply getPosInDirection_Some in Hq as [-> Hon]. by left.
  - right. split; [done | by apply getPosInDirection_None].
Qed.

Section PawnMoves.

Variables (s : GameState) (pos : Position) (p : Piece).
Hypothesis Hwf : wfBoard (boardState s).
Hypothesis Hp : holds s pos p.

Lemma pawnAdvances_spec (f : Z) :
  exists l,
    pawnAdvances s pos p f = Ok l
    /\ forall m, m ∈ l <->
         (onBoard (pos.1 + f, pos.2) /\ emptyAt s (pos.1 + f, pos.2)
          /\ annotated s id pos (pos.1 + f, pos.2) m)
         \/ (hasMoved p = false
             /\ onBoard (pos.1 + f, pos.2) /\ emptyAt s (pos.1 + f, pos.2)
             /\ onBoard (pos.1 + f * 2, pos.2) /\ emptyAt s (pos.1 + f * 2, pos.2)
             /\ annotated s setPawnMoving2 pos (pos.1 + f * 2, pos.2) m).
Proof.
  unfold pawnAdvances.
  destruct (getPosInDirection_cases pos (f, 0)) as [[-> Hon] | [-> Hoff]];
    cbn [fst snd] in *; rewrite ?Z.add_0_r in *.
  2:{ eexists; split; [reflexivity|]. intros m.
      split; [intros Hm; by apply elem_of_nil in Hm | intros [[? _] | (_ & ? & _)]; done]. }
  destruct (holds_or_empty s _ Hwf Hon) as [He | [q Hq]].
  2:{ rewrite (isCellEmpty_holds _ _ _ Hq). cbn [bindR].
      eexists; split; [reflexivity|]. intros m.
      split; [intros Hm; by apply elem_of_nil in Hm|].
      intros [(_ & He & _) | (_ & _ & He & _)]; by apply holds_not_empty in Hq. }
  rewrite (isCellEmpty_empty _ _ He). cbn [bindR].
  destruct (annotated_Ok s id pos _ p Hwf Hp Hon) as [mv Hmv]; [done|].
  pose proof Hmv as Hmv'. unfold annotated, id in Hmv'. rewrite Hmv'. cbn [bindR].
  destruct (hasMoved p) eqn:Hmoved; cbn [negb].
  { eexists; split; [reflexivity|]. intros m. rewrite list_elem_of_singleton. split.
    - intros ->. by left.
    - intros [(_ & _ & Hm) | (? & _)]; [by eapply annotated_fun | discriminate]. }
  destruct (getPosInDirection_cases pos (f * 2, 0)) as [[-> Hon2] | [-> Hoff2]];
    cbn [fst snd] in *; rewrite ?Z.add_0_r in *.
  2:{ eexists; split; [reflexivity|]. intros m. rewrite list_elem_of_singleton. split.
      - intros ->. by left.
      - intros [(_ & _ & Hm) | (_ & _ & _ & ? & _)]; [by eapply annotated_fun | done]. }
  destruct (holds_or_empty s _ Hwf Hon2) as [He2 | [q2 Hq2]].
  2:{ rewrite (isCellEmpty_holds _ _ _ Hq2). cbn [bindR].
      eexists; split; [reflexivity|]. intros m. rewrite list_elem_of_singleton. split.
      - intros ->. by left.
      - intros [(_ & _ & Hm) | (_ & _ & _ & _ & He2 & _)]; [by eapply annotated_fun|].
        by apply holds_not_empty in Hq2. }
  rewrite (isCellEmpty_empty _ _ He2). cbn [bindR].
  destruct (annotated_Ok s setPawnMoving2 pos _ p Hwf Hp Hon2) as [mv2 Hmv2]; [done|].
  pose proof Hmv2 as Hmv2'. unfold annotated in Hmv2'. rewrite Hmv2'. cbn [bindR].
  eexists; split; [reflexivity|]. intros m.
  rewrite elem_of_cons, list_elem_of_singleton. split.
  - intros [-> | ->]; [by left | by right].
  - intros [(_ & _ & Hm) | (_ & _ & _ & _ & _ & Hm)];
      [left | right]; by eapply annotated_fun.
Qed.

Lemma pawnCapture_spec (f side : Z) :
  exists l,
    pawnCapture s pos p (getPosInDirection pos (f, side)) = Ok l
    /\ forall m, m ∈ l <->
         onBoard (pos.1 + f, pos.2 + side)
         /\ enemyAt s (color p) (pos.1 + f, pos.2 + side)
         /\ annotated s id pos (pos.1 + f, pos.2 + side) m.
Proof.
  unfold pawnCapture.
  destruct (getPosInDirection_cases pos (f, side)) as [[-> Hon] | [-> Hoff]];
    cbn [fst snd] in *.
  2:{ eexists; split; [reflexivity|]. intros m.
      split; [intros Hm; by apply elem_of_nil in Hm | by intros [? _]]. }
  destruct (holds_or_empty s _ Hwf Hon) as [He | [q Hq]].
  { rewrite (isCellEnemy_empty _ _ _ He). cbn [bindR].
    eexists; split; [reflexivity|]. intros m.
    split; [intros Hm; by apply elem_of_nil in Hm|].
    intros (_ & (q & Hq & _) & _). by apply holds_not_empty in Hq. }
  rewrite (isCellEnemy_holds _ _ (color p) _ Hq). cbn [bindR].
  destruct (bool_decide (color q <> color p)) eqn:Hcol.
  - apply bool_decide_eq_true in Hcol.
    destruct (annotated_Ok s id pos _ p Hwf Hp Hon) as [mv Hmv]; [done|].
    pose proof Hmv as Hmv'. unfold annotated, id in Hmv'. rewrite Hmv'. cbn [bindR].
    eexists; split; [reflexivity|]. intros m. rewrite list_elem_of_singleton. split.
    + intros ->. split; [done|]. split; [by exists q | done].
    + intros (_ & _ & Hm). by eapply annotated_fun.
  - apply bool_decide_eq_false in Hcol.
    eexists; split; [reflexivity|]. intros m.
    split; [intros Hm; by apply elem_of_nil in Hm|].
    intros (_ & (q' & Hq' & Hc) & _). by rewrite (holds_inj _ _ _ _ Hq Hq') in Hcol.
Qed.

Lemma enPassantSide_spec (f side : Z) :
  0 <= pos.1 + f <= 7 ->
  exists l,
    enPassantSide s pos p (getPosInDirection pos (0, side)) (getPosInDirection pos (f, side))
    = Ok l
    /\ forall m, m ∈ l <->
         onBoard (pos.1, pos.2 + side)
         /\ exists q, holds s (pos.1, pos.2 + side) q
              /\ type q = pawn /\ color q <> color p /\ justMoved2 q = Some true
              /\ annotated s setEnPassant pos (pos.1 + f, pos.2 + side) m.
Proof.
  intros Hrow. unfold enPassantSide.
  destruct (getPosInDirection_cases pos (0, side)) as [[-> Hon] | [-> Hoff]];
    cbn [fst snd] in *; rewrite ?Z.add_0_r in *.
  2:{ eexists; split; [reflexivity|]. intros m.
      split; [intros Hm; by apply elem_of_nil in Hm | by intros [? _]]. }
  destruct (holds_or_empty s _ Hwf Hon) as [He | [q Hq]].
  { pose proof He as He'. unfold emptyAt in He'. rewrite He'. cbn [bindR piece].
    eexists; split; [reflexivity|]. intros m.
    split; [intros Hm; by apply elem_of_nil in Hm|].
    intros (_ & q & Hq & _). by apply holds_not_empty in Hq. }
  pose proof Hq as Hq'. unfold holds in Hq'. rewrite Hq'. cbn [bindR piece].
  destruct (bool_decide (type q = pawn) && bool_decide (color q <> color p)
            && bool_decide (justMoved2 q = Some true)) eqn:Hcond.
  - apply andb_prop in Hcond as [Hcond Hj]. apply andb_prop in Hcond as [Ht Hc].
    apply bool_decide_eq_true in Ht, Hc, Hj.
    assert (onBoard (pos.1 + f, pos.2 + side)) as Hdiag.
    { unfold onBoard in *. simpl in *. lia. }
    rewrite (getPosInDirection_onBoard pos (f, side)) by exact Hdiag. cbn [fst snd].
    destruct (annotated_Ok s setEnPassant pos _ p Hwf Hp Hdiag) as [mv Hmv]; [done|].
    pose proof Hmv as Hmv'. unfold annotated in Hmv'. rewrite Hmv'. cbn [bindR].
    eexists; split; [reflexivity|]. intros m. rewrite list_elem_of_singleton. split.
    + intros ->. split; [done|]. by exists q.
    + intros (_ & q' & _ & _ & _ & _ & Hm). by eapply annotated_fun.
  - eexists; split; [reflexivity|]. intros m.
    split; [intros Hm; by apply elem_of_nil in Hm|].
    intros (_ & q' & Hq'' & Ht & Hc & Hj & _).
    rewrite <- (holds_inj _ _ _ _ Hq Hq'') in Ht, Hc, Hj.
    rewrite !bool_decide_eq_true_2 in Hcond by done. discriminate.
Qed.

End PawnMoves.

Lemma pawnMoves_spec (s : GameState) (pos : Position) (p : Piece) :
  wfBoard (boardState s) -> holds s pos p -> type p = pawn ->
  exists moves,
    getMovesFromPosition s pos = Ok moves
    /\ forall m, m ∈ moves <-> pawnMovesTo s pos p m.
Proof.
  intros Hwf Hp Ht. unfold getMovesFromPosition. pose proof Hp as Hp'. unfold holds in Hp'.
  rewrite Hp'. cbn [bindR piece]. rewrite Ht.
  unfold getPawnMoves. rewrite Hp'. cbn [bindR piece]. rewrite Ht.
  rewrite bool_decide_eq_false_2 by (intros H; by apply H).
  change (match color p with white => 1 | black => -1 end) with (forward (color p)).
  set (f := forward (color p)).
  destruct (pawnAdvances_spec s pos p Hwf Hp f) as (fm & -> & Hfm).
  destruct (pawnCapture_spec s pos p Hwf Hp f (-1)) as (lc & -> & Hlc).
  destruct (pawnCapture_spec s pos p Hwf Hp f 1) as (rc & -> & Hrc).
  cbn [bindR].
  assert (exists ep,
            (if (bool_decide (color p = white) && (pos.1 =? 4))
                || (bool_decide (color p = black) && (pos.1 =? 3))
             then
               let* l := enPassantSide s pos p (getPosInDirection pos (0, -1))
                           (getPosInDirection pos (f, -1)) in
               let* r := enPassantSide s pos p (getPosInDirection pos (0, 1))
                           (getPosInDirection pos (f, 1)) in
               Ok (l ++ r)
             else Ok []) = Ok ep
            /\ forall m, m ∈ ep <->
                 exists side q, (side = -1 \/ side = 1)
                   /\ pos.1 = enPassantRow (color p)
                   /\ onBoard (pos.1, pos.2 + side)
                   /\ holds s (pos.1, pos.2 + side) q
                   /\ type q = pawn /\ color q <> color p /\ justMoved2 q = Some true
                   /\ annotated s setEnPassant pos (pos.1 + f, pos.2 + side) m)
    as (ep & -> & Hep).
  { destruct ((bool_decide (color p = white) && (pos.1 =? 4))
              || (bool_decide (color p = black) && (pos.1 =? 3))) eqn:Hrow.
    - assert (pos.1 = enPassantRow (color p)) as Hr.
      { unfold enPassantRow. destruct (color p); simpl in Hrow;
          rewrite ?orb_false_r in Hrow; lia. }
      assert (0 <= pos.1 + f <= 7) as Hrange.
      { unfold f, forward. rewrite Hr. unfold enPassantRow. destruct (color p); lia. }
      destruct (enPassantSide_spec s pos p Hwf Hp f (-1) Hrange) as (l & -> & Hl).
      destruct (enPassantSide_spec s pos p Hwf Hp f 1 Hrange) as (r & -> & Hrr).
      cbn [bindR]. eexists; split; [reflexivity|]. intros m.
      rewrite elem_of_app, Hl, Hrr. split.
      + intros [(Hon & q & H) | (Hon & q & H)];
          [exists (-1), q | exists 1, q]; (split; [auto|]); split; done.
      + intros (side & q & [-> | ->] & _ & Hon & H); [left | right];
          (split; [done|]); by exists q.
    - eexists; split; [reflexivity|]. intros m.
      split; [intros Hm; by apply elem_of_nil in Hm|].
      intros (side & q & _ & Hr & _). unfold enPassantRow in Hr.
      destruct (color p); simpl in Hrow; rewrite ?orb_false_r in Hrow; lia. }
  cbn [bindR]. eexists; split; [reflexivity|]. intros m.
  rewrite !elem_of_app, Hfm, Hlc, Hrc, Hep. unfold pawnMovesTo. fold f. split.
  - intros [[H | H] | [H | [H | H]]].
    + by left.
    + right. by left.
    + right. right. left. exists (-1). split; [by left | done].
    + right. right. left. exists 1. split; [by right | done].
    + right. right. by right.
  - intros [H | [H | [(side & [-> | ->] & H) | H]]].
    + left. by left.
    + left. by right.
    + right. by left.
    + right. right. by left.
    + right. right. by right.
Qed.

(** A generated move of any piece. *)
Lemma generated_spec (s : GameState) (pos : Position) (p : Piece) :
  wfBoard (boardState s) -> holds s pos p ->
  exists moves,
    getMovesFromPosition s pos = Ok moves
    /\ forall m, m ∈ moves <->
         match type p with
         | pawn => pawnMovesTo s pos p m
         | knight => stepsTo s pos (color p) knightDirections m
         | king => stepsTo s pos (color p) linearDirections m \/ castlesTo s pos p m
         | rook | bishop | queen => slidesTo s pos (color p) (slideDirections (type p)) m
         end.
Proof.
  intros Hwf Hp. destruct (type p) eqn:Ht.
  - by apply pawnMoves_spec.
  - rewrite <- Ht. apply slidingMoves_spec; auto.
  - by apply knightMoves_spec.
  - rewrite <- Ht. apply slidingMoves_spec; auto.
  - rewrite <- Ht. apply slidingMoves_spec; auto.
  - by apply kingMoves_spec.
Qed.

End Generation.

(** ** What every generated move has *)

Section Wellformed.

Import ChessGame.

Lemma annotated_fields (s : GameState) (flags : Move -> Move) (pos target : Position)
    (m : Move) :
  annotated s flags pos target m ->
  from m = from (flags (plainMove pos target))
  /\ to m = to (flags (plainMove pos target))
  /\ enPassant m = enPassant (flags (plainMove pos target))
  /\ castling m = castling (flags (plainMove pos target))
  /\ isPawnMoving2 m = isPawnMoving2 (flags (plainMove pos target))
  /\ promotion m = promotion (flags (plainMove pos target)).
Proof.
  unfold annotated. intros H. apply annotateMove_inv in H as [a ->]. done.
Qed.

Lemma along_moves (pos d : Position) (k : Z) :
  d ∈ linearDirections ++ diagonalDirections ++ knightDirections -> 1 <= k ->
  along pos d k <> pos.
Proof.
  intros Hd Hk Heq. destruct pos as [r c]. unfold along in Heq. simpl in Heq.
  injection Heq as Hr Hc.
  repeat (apply elem_of_cons in Hd as [-> | Hd]; [simpl in *; lia|]).
  by apply elem_of_nil in Hd.
Qed.

Lemma generated_wellformed (s : GameState) (pos : Position) (p : Piece) (m : Move) :
  wfBoard (boardState s) -> holds s pos p -> generated s pos m ->
  from m = pos /\ onBoard (to m) /\ to m <> pos /\ promotion m = None
  /\ (enPassant m = false -> notOwn s (color p) (to m)).
Proof.
  intros Hwf Hp (l & Hl & Hm).
  destruct (generated_spec s pos p Hwf Hp) as (l' & Hl' & Hspec).
  rewrite Hl in Hl'. injection Hl' as <-. apply Hspec in Hm. clear Hspec Hl.
  assert (onBoard pos) as Hpos by (by eapply cellAt_wf_onBoard).
  assert (forall dirs, slidesTo s pos (color p) dirs m ->
            (forall d, d ∈ dirs -> d ∈ linearDirections ++ diagonalDirections ++ knightDirections) ->
            from m = pos /\ onBoard (to m) /\ to m <> pos /\ promotion m = None
            /\ (enPassant m = false -> notOwn s (color p) (to m))) as Hslide.
  { intros dirs (d & k & Hd & Hk & Hon & _ & Hto & Ha) Hdirs.
    apply annotated_fields in Ha as (Hf & Ht & _ & _ & _ & Hpr). simpl in Hf, Ht, Hpr.
    rewrite Hf, Ht, Hpr. split; [done|]. split; [done|]. split; [|done].
    by apply along_moves; [apply Hdirs|]. }
  assert (forall dirs, stepsTo s pos (color p) dirs m ->
            (forall d, d ∈ dirs -> d ∈ linearDirections ++ diagonalDirections ++ knightDirections) ->
            from m = pos /\ onBoard (to m) /\ to m <> pos /\ promotion m = None
            /\ (enPassant m = false -> notOwn s (color p) (to m))) as Hstep.
  { intros dirs (d & Hd & Hon & Hto & Ha) Hdirs.
    apply annotated_fields in Ha as (Hf & Ht & _ & _ & _ & Hpr). simpl in Hf, Ht, Hpr.
    rewrite Hf, Ht, Hpr. split; [done|]. split; [done|]. split; [|done].
    by apply along_moves; [apply Hdirs|]. }
  destruct (type p) eqn:Htype.
  - (* pawn *)
    assert (forall x : Z, x + forward (color p) <> x) as Hfw
      by (intros x; unfold forward; destruct (color p); lia).
    assert (forall x : Z, x + forward (color p) * 2 <> x) as Hfw2
      by (intros x; unfold forward; destruct (color p); lia).
    destruct Hm as [(Hon & He & Ha) | [(_ & _ & _ & Hon & He & Ha)
                   | [(side & _ & Hon & Hen & Ha) | (side & q & Hside & Hrow & Hon & _ & _ & _ & _ & Ha)]]];
      apply annotated_fields in Ha as (Hf & Ht & Hep & _ & _ & Hpr);
      simpl in Hf, Ht, Hep, Hpr; rewrite Hf, Ht, Hpr.
    + split; [done|]. split; [done|]. split; [|split; [done | by left]].
      destruct pos; simpl. intros [= H]. by apply Hfw in H.
    + split; [done|]. split; [done|]. split; [|split; [done | by left]].
      destruct pos; simpl. intros [= H]. by apply Hfw2 in H.
    + split; [done|]. split; [done|]. split; [|split; [done | by right]].
      destruct pos; simpl. intros [= H _]. by apply Hfw in H.
    + assert (onBoard (pos.1 + forward (color p), pos.2 + side)) as Hdiag.
      { unfold onBoard, forward, enPassantRow in *. simpl in *. destruct (color p); lia. }
      split; [done|]. split; [done|]. split; [|split; [done | rewrite Hep; discriminate]].
      destruct pos; simpl. intros [= H _]. by apply Hfw in H.
  - apply (Hslide _ Hm). intros d Hd. cbn [slideDirections] in Hd.
    rewrite elem_of_app. auto.
  - apply (Hstep _ Hm). intros d Hd. rewrite !elem_of_app. auto.
  - apply (Hslide _ Hm). intros d Hd. cbn [slideDirections] in Hd.
    rewrite !elem_of_app. auto.
  - apply (Hslide _ Hm). intros d Hd. cbn [slideDirections] in Hd.
    rewrite app_assoc, elem_of_app. auto.
  - destruct Hm as [Hm | (_ & [(_ & _ & He & _ & ->) | (_ & _ & He & ->)])].
    + apply (Hstep _ Hm). intros d Hd. rewrite elem_of_app. auto.
    + cbn [castlingMove from to promotion enPassant].
      split; [done|]. split; [unfold onBoard in *; simpl; lia|].
      split; [|split; [done | by left]].
      intros Heq. rewrite Heq in He. by apply holds_not_empty in Hp.
    + cbn [castlingMove from to promotion enPassant].
      split; [done|]. split; [unfold onBoard in *; simpl; lia|].
      split; [|split; [done | by left]].
      intros Heq. rewrite Heq in He. by apply holds_not_empty in Hp.
Qed.

End Wellformed.

(** ** What a move does to the board *)

Section MakeMove.

Import ChessGame.

Lemma setCell_total (b : list (list CellState)) (pos : Position) (c : CellState) :
  wfBoard b -> onBoard pos -> exists b', setCell b pos c = Ok b'.
Proof.
  intros Hwf Hpos. destruct (cellAt_onBoard b pos Hwf Hpos) as [c0 Hc0].
  unfold cellAt in Hc0. unfold setCell.
  destruct (index b pos.1) as [row|]; [|discriminate].
  destruct (index row pos.2); [eauto | discriminate].
Qed.

Lemma setPiece_total (b : list (list CellState)) (pos : Position) (p : option Piece) :
  wfBoard b -> onBoard pos -> exists b', setPiece b pos p = Ok b'.
Proof.
  intros Hwf Hpos. unfold setPiece.
  destruct (cellAt_onBoard b pos Hwf Hpos) as [c0 ->]. cbn [bindR].
  by apply setCell_total.
Qed.

(** The board after [movePieceAccordingToMove], cell by cell. *)
Lemma movePiece_spec (m : Move) (s s' : GameState) :
  movePieceAccordingToMove m s = (Ok tt, s') ->
  exists p b',
    holds s (from m) p /\ s' = withBoard s b'
    /\ (wfBoard (boardState s) -> wfBoard b')
    /\ forall pos,
         cellAt b' pos
         = if decide (pos = from m) then Ok {| piece := None |}
           else if decide (pos = to m)
                then Ok {| piece := Some (movedPiece (turn s) m p) |}
                else cellAt (boardState s) pos.
Proof.
  intros H. unfold movePieceAccordingToMove in H.
  apply bindM_Ok in H as (s0 & s1 & Hget & H). injection Hget as <- <-.
  apply bindM_Ok in H as (c0 & s1 & Hc0 & H). apply liftR_Ok in Hc0 as [Hfrom ->].
  destruct c0 as [[p|]]; cbn [piece] in H; [|discriminate].
  apply bindM_Ok in H as ([] & s1 & Hw1 & H).
  apply writeBoard_Ok in Hw1 as (b1 & Hb1 & ->).
  apply bindM_Ok in H as ([] & s2 & Hw2 & Hw3).
  apply writeBoard_Ok in Hw2 as (b2 & Hb2 & ->).
  apply writeBoard_Ok in Hw3 as (b3 & Hb3 & ->).
  cbn [boardState withBoard] in *.
  exists p, b3. split; [exact Hfrom|]. split; [reflexivity|]. split.
  { intros Hwf. eapply setPiece_wfBoard; [exact Hb3|].
    eapply setCell_wfBoard; [exact Hb2|]. by eapply setPiece_wfBoard. }
  intros pos. rewrite (cellAt_setPiece _ _ _ _ Hb3).
  destruct (decide (pos = from m)) as [|Hnf]; [reflexivity|].
  rewrite (cellAt_setCell _ _ _ _ Hb2).
  destruct (decide (pos = to m)) as [|Hnt].
  { unfold movedPiece. by destruct (promotion m). }
  rewrite (cellAt_setPiece _ _ _ _ Hb1). by rewrite decide_False.
Qed.

Lemma movePiece_total (m : Move) (s : GameState) (p : Piece) :
  wfBoard (boardState s) -> holds s (from m) p -> onBoard (to m) ->
  exists s', movePieceAccordingToMove m s = (Ok tt, s').
Proof.
  intros Hwf Hp Hto. unfold movePieceAccordingToMove.
  change (bindM get ?k s) with (k s s). cbv beta.
  unfold bindM at 1. unfold liftR at 1. unfold holds in Hp. rewrite Hp. cbn [piece].
  assert (onBoard (from m)) as Hfrom by (by eapply cellAt_wf_onBoard).
  set (moved := {| type := type p; color := color p; hasMoved := true;
                   justMoved2 := Some (isPawnMoving2 m) |}).
  destruct (setPiece_total (boardState s) (from m) (Some moved) Hwf Hfrom) as [b1 Hb1].
  assert (wfBoard b1) as Hwf1 by (by eapply setPiece_wfBoard).
  unfold bindM at 1. unfold writeBoard at 1. rewrite Hb1.
  cbn [boardState withBoard].
  set (cell := {| piece := Some match promotion m with
                                | Some t => {| type := t; color := turn s; hasMoved := true;
                                               justMoved2 := None |}
                                | None => moved
                                end |}).
  destruct (setCell_total b1 (to m) cell Hwf1 Hto) as [b2 Hb2].
  assert (wfBoard b2) as Hwf2 by (by eapply setCell_wfBoard).
  unfold bindM at 1. unfold writeBoard at 1. cbn [boardState withBoard]. rewrite Hb2.
  destruct (setPiece_total b2 (from m) None Hwf2 Hfrom) as [b3 Hb3].
  unfold writeBoard. cbn [boardState withBoard]. rewrite Hb3. eauto.
Qed.

Lemma makeMove_start (m : Move) (s s' : GameState) :
  makeMove m s = (Ok tt, s') ->
  exists p, holds s (from m) p /\ color p = turn s
    /\ (if enPassant m then executeEnPassant m
        else if castling m then executeCastling m
        else do _ <- addMoveToHistory m; do _ <- movePieceAccordingToMove m; flipTurn) s
       = (Ok tt, s').
Proof.
  intros H. unfold makeMove in H.
  apply bindM_Ok in H as (s0 & s1 & Hget & H). injection Hget as <- <-.
  apply bindM_Ok in H as (c0 & s1 & Hc0 & H). apply liftR_Ok in Hc0 as [Hfrom ->].
  destruct c0 as [[p|]]; cbn [piece] in H; [|discriminate].
  destruct (bool_decide (color p <> turn s)) eqn:Hcol; [discriminate|].
  apply bool_decide_eq_false in Hcol. exists p. split; [exact Hfrom|]. split; [|exact H].
  by destruct (decide (color p = turn s)).
Qed.

(** A move that is neither a capture en passant nor castling. *)
Lemma makeMove_plain_spec (m : Move) (s s' : GameState) :
  enPassant m = false -> castling m = false ->
  makeMove m s = (Ok tt, s') ->
  exists p,
    holds s (from m) p /\ color p = turn s
    /\ turn s' = otherColor (turn s) /\ moveHistory s' = moveHistory s ++ [m]
    /\ (wfBoard (boardState s) -> wfBoard (boardState s'))
    /\ forall pos,
         cellAt (boardState s') pos
         = if decide (pos = from m) then Ok {| piece := None |}
           else if decide (pos = to m)
                then Ok {| piece := Some (movedPiece (turn s) m p) |}
                else cellAt (boardState s) pos.
Proof.
  intros Hep Hc H. apply makeMove_start in H as (p & Hp & Hcol & H). rewrite Hep, Hc in H.
  apply bindM_Ok in H as ([] & s1 & Hhist & H). injection Hhist as <-.
  apply bindM_Ok in H as ([] & s2 & Hmove & H). injection H as <-.
  apply movePiece_spec in Hmove as (p' & b' & Hp' & -> & Hwf & Hcells).
  cbn [boardState turn moveHistory withBoard] in *.
  rewrite <- (holds_inj _ _ _ _ Hp Hp') in Hcells.
  exists p. repeat (split; [done|]). exact Hcells.
Qed.

(** A capture en passant. *)
Lemma makeMove_enPassant_spec (m : Move) (s s' : GameState) :
  enPassant m = true ->
  makeMove m s = (Ok tt, s') ->
  exists p q,
    holds s (from m) p /\ color p = turn s
    /\ holds s (capturedSquare (turn s) m) q /\ from m <> capturedSquare (turn s) m
    /\ turn s' = otherColor (turn s) /\ moveHistory s' = moveHistory s ++ [m]
    /\ (wfBoard (boardState s) -> wfBoard (boardState s'))
    /\ forall pos,
         cellAt (boardState s') pos
         = if decide (pos = from m) then Ok {| piece := None |}
           else if decide (pos = to m)
                then Ok {| piece := Some (movedPiece (turn s) m p) |}
                else if decide (pos = capturedSquare (turn s) m)
                     then Ok {| piece := None |}
                     else cellAt (boardState s) pos.
Proof.
  intros Hep H. apply makeMove_start in H as (p & Hp & Hcol & H). rewrite Hep in H.
  unfold executeEnPassant in H.
  apply bindM_Ok in H as (s0 & s1 & Hget & H). injection Hget as <- <-.
  fold (capturedSquare (turn s) m) in H.
  apply bindM_Ok in H as (c0 & s1 & Hc0 & H). apply liftR_Ok in Hc0 as [Hcap ->].
  destruct c0 as [[q|]]; cbn [piece] in H; [|discriminate].
  apply bindM_Ok in H as ([] & s1 & Hw & H).
  apply writeBoard_Ok in Hw as (b1 & Hb1 & ->).
  apply bindM_Ok in H as ([] & s2 & Hhist & H). injection Hhist as <-.
  apply bindM_Ok in H as ([] & s3 & Hmove & H). injection H as <-.
  apply movePiece_spec in Hmove as (p' & b' & Hp' & -> & Hwf & Hcells).
  cbn [boardState turn moveHistory withBoard] in *.
  unfold holds in Hp'. cbn [boardState] in Hp'.
  rewrite (cellAt_setPiece _ _ _ _ Hb1) in Hp'.
  destruct (decide (from m = capturedSquare (turn s) m)) as [|Hne]; [discriminate|].
  assert (p' = p) as -> by (unfold holds in Hp; rewrite Hp in Hp'; by injection Hp').
  exists p, q. repeat (split; [done|]). split.
  { intros Hwf0. apply Hwf. by eapply setPiece_wfBoard. }
  intros pos. rewrite Hcells.
  destruct (decide (pos = from m)); [done|]. destruct (decide (pos = to m)); [done|].
  apply (cellAt_setPiece _ _ _ _ Hb1).
Qed.

(** Castling, when the king does not stand where the piece of the corner
    lands. *)
Lemma makeMove_castling_spec (m : Move) (s s' : GameState) :
  enPassant m = false -> castling m = true -> from m <> rookEnd m ->
  makeMove m s = (Ok tt, s') ->
  exists p corner,
    holds s (from m) p /\ color p = turn s
    /\ cellAt (boardState s) (rookStart m) = Ok corner /\ from m <> rookStart m
    /\ turn s' = otherColor (turn s) /\ moveHistory s' = moveHistory s ++ [m]
    /\ (wfBoard (boardState s) -> wfBoard (boardState s'))
    /\ forall pos,
         cellAt (boardState s') pos
         = if decide (pos = from m) then Ok {| piece := None |}
           else if decide (pos = to m)
                then Ok {| piece := Some (movedPiece (turn s) m p) |}
                else if decide (pos = rookStart m) then Ok {| piece := None |}
                else if decide (pos = rookEnd m) then Ok {| piece := piece corner |}
                else cellAt (boardState s) pos.
Proof.
  intros Hep Hc HneEnd H. apply makeMove_start in H as (p & Hp & Hcol & H).
  rewrite Hep, Hc in H. unfold executeCastling in H.
  apply bindM_Ok in H as (s0 & s1 & Hget & H). injection Hget as <- <-.
  fold (rookStart m) (rookEnd m) in H.
  destruct (index (boardState s) (from m).1) as [rowCells|] eqn:Hrow; [|discriminate].
  apply bindM_Ok in H as ([] & s1 & Hhist & H). injection Hhist as <-.
  apply bindM_Ok in H as ([] & s2 & Hw1 & H).
  apply writeBoard_Ok in Hw1 as (b1 & Hb1 & ->). cbn [boardState] in Hb1.
  apply bindR_Ok in Hb1 as (cEnd & HcEnd & Hb1).
  destruct (index rowCells (if (to m).2 =? 6 then 7 else 0)) as [corner|] eqn:Hcorner;
    [|discriminate].
  apply bindM_Ok in H as ([] & s3 & Hw2 & H).
  apply writeBoard_Ok in Hw2 as (b2 & Hb2 & ->).
  apply bindM_Ok in H as ([] & s4 & Hmove & H). injection H as <-.
  apply movePiece_spec in Hmove as (p' & b' & Hp' & -> & Hwf & Hcells).
  cbn [boardState turn moveHistory withBoard] in *.
  unfold holds in Hp'. cbn [boardState] in Hp'.
  rewrite (cellAt_setPiece _ _ _ _ Hb2) in Hp'.
  destruct (decide (from m = rookStart m)) as [|HneStart]; [discriminate|].
  rewrite (cellAt_setPiece _ _ _ _ Hb1), decide_False in Hp' by done.
  assert (p' = p) as -> by (unfold holds in Hp; rewrite Hp in Hp'; by injection Hp').
  exists p, corner. repeat (split; [done|]). split.
  { unfold cellAt, rookStart. cbn [fst snd]. by rewrite Hrow, Hcorner. }
  repeat (split; [done|]). split.
  { intros Hwf0. apply Hwf. eapply setPiece_wfBoard; [exact Hb2|].
    by eapply setPiece_wfBoard. }
  intros pos. rewrite Hcells.
  destruct (decide (pos = from m)); [done|]. destruct (decide (pos = to m)); [done|].
  rewrite (cellAt_setPiece _ _ _ _ Hb2).
  destruct (decide (pos = rookStart m)); [done|].
  apply (cellAt_setPiece _ _ _ _ Hb1).
Qed.

(** Whatever the kind of the move: the piece that moves belongs to the side
    to move, the turn passes, and the move is added to the history. *)
Lemma makeMove_bookkeeping (m : Move) (s s' : GameState) :
  makeMove m s = (Ok tt, s') ->
  (exists p, holds s (from m) p /\ color p = turn s)
  /\ turn s' = otherColor (turn s) /\ moveHistory s' = moveHistory s ++ [m].
Proof.
  intros H. pose proof H as H0. apply makeMove_start in H0 as (p & Hp & Hcol & H0).
  split; [by exists p|].
  destruct (enPassant m) eqn:Hep.
  { destruct (makeMove_enPassant_spec m s s' Hep H) as (? & ? & _ & _ & _ & _ & ? & ? & _).
    done. }
  destruct (castling m) eqn:Hc.
  2:{ destruct (makeMove_plain_spec m s s' Hep Hc H) as (? & _ & _ & ? & ? & _). done. }
  clear H. unfold executeCastling in H0.
  apply bindM_Ok in H0 as (s0 & s1 & Hget & H). injection Hget as <- <-.
  destruct (index (boardState s) (from m).1) as [rowCells|]; [|discriminate].
  apply bindM_Ok in H as ([] & s1 & Hhist & H). injection Hhist as <-.
  apply bindM_Ok in H as ([] & s2 & Hw1 & H). apply writeBoard_Ok in Hw1 as (b1 & _ & ->).
  apply bindM_Ok in H as ([] & s3 & Hw2 & H). apply writeBoard_Ok in Hw2 as (b2 & _ & ->).
  apply bindM_Ok in H as ([] & s4 & Hmove & H). injection H as <-.
  apply movePiece_spec in Hmove as (p' & b' & _ & -> & _). done.
Qed.

(** *** Every generated move can be made *)

Lemma bindM_intro {S A B} (m : M S A) (k : A -> M S B) (s s1 : S) (a : A)
    (r : Result B * S) :
  m s = (Ok a, s1) -> k a s1 = r -> bindM m k s = r.
Proof. unfold bindM. by intros -> ->. Qed.

Lemma writeBoard_intro (f : list (list CellState) -> Result (list (list CellState)))
    (s : GameState) (b : list (list CellState)) :
  f (boardState s) = Ok b -> writeBoard f s = (Ok tt, withBoard s b).
Proof. unfold writeBoard. by intros ->. Qed.

Lemma makeMove_intro (m : Move) (s : GameState) (p : Piece) (r : Result unit * GameState) :
  holds s (from m) p -> color p = turn s ->
  (if enPassant m then executeEnPassant m
   else if castling m then executeCastling m
   else do _ <- addMoveToHistory m; do _ <- movePieceAccordingToMove m; flipTurn) s = r ->
  makeMove m s = r.
Proof.
  intros Hp Hcol Hr. unfold makeMove.
  eapply bindM_intro; [reflexivity|].
  eapply bindM_intro; [unfold liftR; unfold holds in Hp; by rewrite Hp|].
  cbn [piece]. by rewrite bool_decide_eq_false_2 by (by intros H).
Qed.

Lemma makeMove_plain_total (m : Move) (s : GameState) (p : Piece) :
  wfBoard (boardState s) -> holds s (from m) p -> color p = turn s -> onBoard (to m) ->
  enPassant m = false -> castling m = false ->
  exists s', makeMove m s = (Ok tt, s').
Proof.
  intros Hwf Hp Hcol Hto Hep Hc.
  set (s1 := {| turn := turn s; boardState := boardState s;
                moveHistory := moveHistory s ++ [m] |}).
  destruct (movePiece_total m s1 p Hwf Hp Hto) as [s2 H2].
  eexists. apply (makeMove_intro m s p _ Hp Hcol). rewrite Hep, Hc.
  eapply bindM_intro; [reflexivity|].
  eapply bindM_intro; [exact H2|]. reflexivity.
Qed.

Lemma makeMove_enPassant_total (m : Move) (s : GameState) (p q : Piece) :
  wfBoard (boardState s) -> holds s (from m) p -> color p = turn s -> onBoard (to m) ->
  enPassant m = true ->
  holds s (capturedSquare (turn s) m) q -> from m <> capturedSquare (turn s) m ->
  exists s', makeMove m s = (Ok tt, s').
Proof.
  intros Hwf Hp Hcol Hto Hep Hq Hne.
  assert (onBoard (capturedSquare (turn s) m)) as Hcap by (by eapply cellAt_wf_onBoard).
  destruct (setPiece_total (boardState s) (capturedSquare (turn s) m) None Hwf Hcap)
    as [b1 Hb1].
  assert (wfBoard b1) as Hwf1 by (by eapply setPiece_wfBoard).
  set (s2 := {| turn := turn s; boardState := b1; moveHistory := moveHistory s ++ [m] |}).
  assert (holds s2 (from m) p) as Hp2.
  { unfold holds. cbn [boardState s2]. rewrite (cellAt_setPiece _ _ _ _ Hb1).
    by rewrite decide_False. }
  destruct (movePiece_total m s2 p Hwf1 Hp2 Hto) as [s3 H3].
  eexists. apply (makeMove_intro m s p _ Hp Hcol). rewrite Hep. unfold executeEnPassant.
  eapply bindM_intro; [reflexivity|]. fold (capturedSquare (turn s) m).
  eapply bindM_intro; [unfold liftR; unfold holds in Hq; by rewrite Hq|]. cbn [piece].
  eapply bindM_intro; [by apply writeBoard_intro|].
  eapply bindM_intro; [reflexivity|].
  eapply bindM_intro; [exact H3|]. reflexivity.
Qed.

Lemma makeMove_castling_total (m : Move) (s : GameState) (p : Piece) :
  wfBoard (boardState s) -> holds s (from m) p -> color p = turn s -> onBoard (to m) ->
  enPassant m = false -> castling m = true ->
  from m <> rookStart m -> from m <> rookEnd m ->
  exists s', makeMove m s = (Ok tt, s').
Proof.
  intros Hwf Hp Hcol Hto Hep Hc HneStart HneEnd.
  assert (onBoard (from m)) as Hfrom by (by eapply cellAt_wf_onBoard).
  assert (onBoard (rookStart m) /\ onBoard (rookEnd m)) as [Hstart Hend].
  { unfold onBoard, rookStart, rookEnd in *. cbn [fst snd].
    destruct ((to m).2 =? 6); lia. }
  destruct (cellAt_onBoard _ _ Hwf Hstart) as [corner Hcorner].
  destruct (cellAt_onBoard _ _ Hwf Hend) as [cEnd HcEnd].
  assert (exists rowCells, index (boardState s) (from m).1 = Some rowCells
            /\ index rowCells (if (to m).2 =? 6 then 7 else 0) = Some corner)
    as (rowCells & Hrow & Hcell).
  { unfold cellAt, rookStart in Hcorner. cbn [fst snd] in Hcorner.
    destruct (index (boardState s) (from m).1) as [rowCells|]; [|discriminate].
    exists rowCells. split; [done|].
    by destruct (index rowCells (if (to m).2 =? 6 then 7 else 0)) as [c|];
      [injection Hcorner as -> | discriminate]. }
  destruct (setPiece_total (boardState s) (rookEnd m) (piece corner) Hwf Hend) as [b1 Hb1].
  assert (wfBoard b1) as Hwf1 by (by eapply setPiece_wfBoard).
  destruct (setPiece_total b1 (rookStart m) None Hwf1 Hstart) as [b2 Hb2].
  assert (wfBoard b2) as Hwf2 by (by eapply setPiece_wfBoard).
  set (s3 := {| turn := turn s; boardState := b2; moveHistory := moveHistory s ++ [m] |}).
  assert (holds s3 (from m) p) as Hp3.
  { unfold holds. cbn [boardState s3]. rewrite (cellAt_setPiece _ _ _ _ Hb2).
    rewrite decide_False by done. rewrite (cellAt_setPiece _ _ _ _ Hb1).
    by rewrite decide_False. }
  destruct (movePiece_total m s3 p Hwf2 Hp3 Hto) as [s4 H4].
  eexists. apply (makeMove_intro m s p _ Hp Hcol). rewrite Hep, Hc. unfold executeCastling.
  eapply bindM_intro; [reflexivity|]. rewrite Hrow, Hcell.
  fold (rookStart m) (rookEnd m).
  eapply bindM_intro; [reflexivity|].
  eapply bindM_intro.
  { apply writeBoard_intro. cbn [boardState]. rewrite HcEnd. cbn [bindR]. exact Hb1. }
  eapply bindM_intro; [by apply writeBoard_intro|].
  eapply bindM_intro; [exact H4|]. reflexivity.
Qed.

(** A move generated for a piece of the side to move is accepted by
    [makeMove]; for castling, when the king does not stand in a corner
    column. *)
Lemma makeMove_generated (s : GameState) (pos : Position) (p : Piece) (m : Move) :
  wfBoard (boardState s) -> holds s pos p -> color p = turn s -> generated s pos m ->
  (castling m = true -> 0 < pos.2 < 7) ->
  exists s', makeMove m s = (Ok tt, s').
Proof.
  intros Hwf Hp Hcol Hgen Hcorner.
  destruct (generated_wellformed s pos p m Hwf Hp Hgen) as (Hfrom & Hto & _).
  destruct Hgen as (l & Hl & Hm).
  destruct (generated_spec s pos p Hwf Hp) as (l' & Hl' & Hspec).
  rewrite Hl in Hl'. injection Hl' as <-. apply Hspec in Hm. clear Hspec Hl.
  rewrite <- Hfrom in Hp.
  assert (forall flags target,
            annotated s flags pos target m ->
            enPassant (flags (plainMove pos target)) = false ->
            castling (flags (plainMove pos target)) = false ->
            exists s', makeMove m s = (Ok tt, s')) as Hplain.
  { intros flags target Ha Hep Hc.
    apply annotated_fields in Ha as (_ & _ & Hep' & Hc' & _).
    apply (makeMove_plain_total m s p); try done; congruence. }
  assert (forall dirs, slidesTo s pos (color p) dirs m -> exists s', makeMove m s = (Ok tt, s'))
    as Hslide.
  { intros dirs (d & k & _ & _ & _ & _ & _ & Ha). by apply (Hplain id _ Ha). }
  assert (forall dirs, stepsTo s pos (color p) dirs m -> exists s', makeMove m s = (Ok tt, s'))
    as Hstep.
  { intros dirs (d & _ & _ & _ & Ha). by apply (Hplain id _ Ha). }
  destruct (type p) eqn:Htype; try (by eapply Hslide); try (by eapply Hstep).
  - destruct Hm as [(_ & _ & Ha) | [(_ & _ & _ & _ & _ & Ha)
                   | [(side & _ & _ & _ & Ha) | (side & q & Hside & Hrow & _ & Hq & _ & _ & _ & Ha)]]];
      try (by eapply (Hplain _ _ Ha)).
    pose proof (annotated_fields _ _ _ _ _ Ha) as (_ & Ht & Hep & _).
    cbn [to enPassant setEnPassant plainMove] in Ht, Hep.
    assert (capturedSquare (turn s) m = (pos.1, pos.2 + side)) as Hcap.
    { unfold capturedSquare. rewrite Ht, <- Hcol. unfold forward. cbn [fst snd].
      f_equal. destruct (color p); lia. }
    apply (makeMove_enPassant_total m s p q); try done.
    + by rewrite Hcap.
    + rewrite Hcap, Hfrom. destruct pos as [r c]. cbn [fst snd]. intros [= H]. lia.
  - destruct Hm as [Hm | (_ & [(_ & _ & _ & He & ->) | (_ & He & _ & ->)])];
      [by eapply Hstep | |].
    + specialize (Hcorner eq_refl).
      apply (makeMove_castling_total _ s p); try done.
      * unfold rookStart. cbn [castlingMove from to fst snd Z.eqb Pos.eqb].
        destruct pos as [r c]. cbn [fst snd] in *. intros [= H]. lia.
      * unfold rookEnd. cbn [castlingMove from to fst snd Z.eqb Pos.eqb].
        intros Heq. cbn [castlingMove from] in Hp. rewrite Heq in Hp.
        by apply holds_not_empty in Hp.
    + specialize (Hcorner eq_refl).
      apply (makeMove_castling_total _ s p); try done.
      * unfold rookStart. cbn [castlingMove from to fst snd Z.eqb Pos.eqb].
        destruct pos as [r c]. cbn [fst snd] in *. intros [= H]. lia.
      * unfold rookEnd. cbn [castlingMove from to fst snd Z.eqb Pos.eqb].
        intros Heq. cbn [castlingMove from] in Hp. rewrite Heq in Hp.
        by apply holds_not_empty in Hp.
Qed.

End MakeMove.

(** ** Legal moves and the end of the game *)

Section Legal.

Import ChessGame.

Lemma doesMovePutMovingPlayerInCheck_Ok (s : GameState) (m : Move) (b : bool) :
  doesMovePutMovingPlayerInCheck s m = Ok b ->
  exists s', makeMove m s = (Ok tt, s') /\ isCheck s' (turn s) = Ok b.
Proof.
  unfold doesMovePutMovingPlayerInCheck.
  destruct (makeMove m s) as [[[]|e| |] s']; intros H; try discriminate. eauto.
Qed.

(** A legal move is a move of a piece of the side to move. *)
Lemma legal_mover (s : GameState) (col : PlayerColor) (l : list Move) (m : Move) :
  wfBoard (boardState s) ->
  getAllLegalMoves s col = Ok l -> m ∈ l ->
  col = turn s /\ exists p, holds s (from m) p /\ color p = col /\ generated s (from m) m.
Proof.
  intros Hwf Hl Hm.
  apply (getAllLegalMoves_spec s col l Hl) in Hm
    as (pos & p & pm & Hpos & Hp & Hcol & Hpm & Hin & Hcheck).
  apply doesMovePutMovingPlayerInCheck_Ok in Hcheck as (s' & Hmake & _).
  apply makeMove_bookkeeping in Hmake as ((p' & Hp' & Hturn) & _).
  assert (generated s pos m) as Hgen by (by exists pm).
  destruct (generated_wellformed s pos p m Hwf Hp Hgen) as (Hfrom & _).
  rewrite Hfrom in *. rewrite (holds_inj _ _ _ _ Hp' Hp) in Hturn.
  split; [congruence|]. by exists p.
Qed.

Lemma legal_only_side_to_move (s : GameState) (col : PlayerColor) (l : list Move) :
  wfBoard (boardState s) -> col <> turn s ->
  getAllLegalMoves s col = Ok l -> l = [].
Proof.
  intros Hwf Hcol Hl. destruct l as [|m l']; [done|].
  destruct (legal_mover s col _ m Hwf Hl) as [Heq _]; [by left | done].
Qed.

Lemma isCheckmate_Ok (s : GameState) (col : PlayerColor) (b : bool) :
  isCheckmate s col = Ok b ->
  exists c, isCheck s col = Ok c
    /\ if c then exists l, getAllLegalMoves s col = Ok l /\ b = bool_decide (l = [])
       else b = false.
Proof.
  unfold isCheckmate. intros H. apply bindR_Ok in H as (c & Hc & H).
  exists c. split; [done|]. destruct c; cbn [negb] in H.
  - apply bindR_Ok in H as (l & Hl & H). injection H as <-. eauto.
  - by injection H.
Qed.

Lemma getEndgameState_spec (s : GameState) (e : EndgameState) :
  getEndgameState s = Ok e ->
  (e = inProgress <-> exists m, legal s (turn s) m)
  /\ (e <> inProgress -> getAllLegalMoves s (turn s) = Ok [])
  /\ (forall col, e = checkmateOf col ->
        isCheck s col = Ok true /\ getAllLegalMoves s col = Ok [])
  /\ (e = draw -> isCheck s (turn s) = Ok false).
Proof.
  unfold getEndgameState, isTerminal. intros H.
  apply bindR_Ok in H as (t & Ht & H). apply bindR_Ok in Ht as (moves & Hmoves & Ht).
  injection Ht as <-.
  destruct (bool_decide (moves = [])) eqn:Hempty; cbn [negb] in H.
  2:{ injection H as <-. apply bool_decide_eq_false in Hempty.
      split; [|split; [done | split; [by intros [] | done]]].
      split; [intros _ | done]. destruct moves as [|m moves]; [done|].
      exists m, (m :: moves). split; [done | by left]. }
  apply bool_decide_eq_true in Hempty as ->.
  assert (forall m, ~ legal s (turn s) m) as Hnone.
  { intros m (l & Hl & Hm). rewrite Hmoves in Hl. injection Hl as <-.
    by apply elem_of_nil in Hm. }
  apply bindR_Ok in H as (w & Hw & H).
  apply isCheckmate_Ok in Hw as (cw & Hcw & Hw).
  destruct w.
  { injection H as <-. destruct cw; [|discriminate]. destruct Hw as (l & Hl & Hb).
    symmetry in Hb. apply bool_decide_eq_true in Hb as ->.
    split; [split; [done | intros [m Hm]; by apply Hnone in Hm]|].
    split; [done|]. split; [|done]. by intros [] Hcol. }
  apply bindR_Ok in H as (b & Hb & H).
  apply isCheckmate_Ok in Hb as (cb & Hcb & Hb).
  destruct b.
  { injection H as <-. destruct cb; [|discriminate]. destruct Hb as (l & Hl & Hb).
    symmetry in Hb. apply bool_decide_eq_true in Hb as ->.
    split; [split; [done | intros [m Hm]; by apply Hnone in Hm]|].
    split; [done|]. split; [|done]. by intros [] Hcol. }
  injection H as <-.
  split; [split; [done | intros [m Hm]; by apply Hnone in Hm]|].
  split; [done|]. split; [by intros []|]. intros _.
  destruct (turn s).
  - destruct cw; [|done]. destruct Hw as (l & Hl & Hw). rewrite Hmoves in Hl.
    injection Hl as <-. by rewrite bool_decide_eq_true_2 in Hw.
  - destruct cb; [|done]. destruct Hb as (l & Hl & Hb). rewrite Hmoves in Hl.
    injection Hl as <-. by rewrite bool_decide_eq_true_2 in Hb.
Qed.

End Legal.

(** ** Check *)

Section Check.

Import ChessGame.

Lemma existsR_spec {A} (f : A -> Result bool) (l : list A) :
  (forall x, x ∈ l -> exists b, f x = Ok b) ->
  exists b, existsR f l = Ok b /\ (b = true <-> exists x, x ∈ l /\ f x = Ok true).
Proof.
  induction l as [|y l IH]; intros Hf; cbn [existsR].
  - exists false. split; [done|]. split; [done|]. intros (x & Hx & _).
    by apply elem_of_nil in Hx.
  - destruct (Hf y) as [b Hb]; [by left|]. rewrite Hb. cbn [bindR]. destruct b.
    + exists true. split; [done|]. split; [|done]. intros _. exists y. split; [by left | done].
    + destruct IH as (b & -> & Hspec); [intros x Hx; apply Hf; by right|].
      exists b. split; [done|]. rewrite Hspec. split.
      * intros (x & Hx & Hfx). exists x. split; [by right | done].
      * intros (x & Hx & Hfx). apply elem_of_cons in Hx as [-> | Hx]; [congruence|].
        by exists x.
Qed.

Lemma findKing_spec (b : list (list CellState)) (col : PlayerColor) (ps : list Position)
    (kpos : Position) :
  findKing b col ps = Ok kpos ->
  kpos ∈ ps /\ exists p, cellAt b kpos = Ok {| piece := Some p |}
                 /\ type p = king /\ color p = col.
Proof.
  induction ps as [|pos ps IH]; cbn [findKing]; [discriminate|].
  intros H. apply bindR_Ok in H as ([[p|]] & Hc & H); cbn [piece] in H.
  - destruct (bool_decide (type p = king) && bool_decide (color p = col)) eqn:Hk.
    + injection H as <-. apply andb_prop in Hk as [Ht Hcol].
      apply bool_decide_eq_true in Ht, Hcol. split; [by left | by exists p].
    + destruct (IH H) as [Hin Hp]. split; [by right | done].
  - destruct (IH H) as [Hin Hp]. split; [by right | done].
Qed.

Lemma endsOnAttacker_spec (s : GameState) (col : PlayerColor)
    (attacks : Piece -> Move -> bool) (m : Move) :
  wfBoard (boardState s) -> onBoard (to m) ->
  exists b, endsOnAttacker s col attacks m = Ok b
    /\ (b = true <-> exists q, holds s (to m) q /\ color q <> col /\ attacks q m = true).
Proof.
  intros Hwf Hto. unfold endsOnAttacker.
  destruct (holds_or_empty s (to m) Hwf Hto) as [He | [q Hq]].
  - pose proof He as He'. unfold emptyAt in He'. rewrite He'. cbn [bindR piece].
    exists false. split; [done|]. split; [done|].
    intros (q & Hq & _). by apply holds_not_empty in Hq.
  - pose proof Hq as Hq'. unfold holds in Hq'. rewrite Hq'. cbn [bindR piece].
    eexists; split; [reflexivity|]. rewrite andb_true_iff, bool_decide_eq_true. split.
    + intros [Hc Ha]. by exists q.
    + intros (q' & Hq'' & Hc & Ha). by rewrite (holds_inj _ _ _ _ Hq Hq'').
Qed.

(** One of the three scans of [isCheck]: over the moves that the king would
    have as the piece that slides or steps in [dirs]. *)
Lemma scan_spec (s : GameState) (col : PlayerColor) (kpos : Position)
    (attacks : Piece -> Move -> bool) (shape : Move -> Prop) (moves : list Move) :
  wfBoard (boardState s) ->
  (forall m, m ∈ moves <-> shape m) ->
  (forall m, shape m -> onBoard (to m)) ->
  exists b, existsR (endsOnAttacker s col attacks) moves = Ok b
    /\ (b = true <->
        exists m q, shape m /\ holds s (to m) q /\ color q <> col /\ attacks q m = true).
Proof.
  intros Hwf Hmoves Hon.
  destruct (existsR_spec (endsOnAttacker s col attacks) moves) as (b & Hb & Hspec).
  { intros m Hm. destruct (endsOnAttacker_spec s col attacks m Hwf) as (b & Hb & _);
      [apply Hon; by apply Hmoves | eauto]. }
  exists b. split; [done|]. rewrite Hspec. split.
  - intros (m & Hm & Hf). apply Hmoves in Hm.
    destruct (endsOnAttacker_spec s col attacks m Hwf (Hon m Hm)) as (b' & Hb' & Hq).
    rewrite Hf in Hb'. injection Hb' as <-. destruct Hq as [Hq _].
    destruct (Hq eq_refl) as (q & H). by exists m, q.
  - intros (m & q & Hm & Hq). exists m. split; [by apply Hmoves|].
    destruct (endsOnAttacker_spec s col attacks m Hwf (Hon m Hm)) as (b' & Hb' & Hspec').
    rewrite Hb'. f_equal. apply Hspec'. by exists q.
Qed.

Lemma seesAlong_slides (s : GameState) (col : PlayerColor) (kpos : Position) (k0 : Piece)
    (dirs : list Position) (P : Piece -> Position -> Prop) :
  wfBoard (boardState s) -> holds s kpos k0 ->
  (exists m q, slidesTo s kpos col dirs m /\ holds s (to m) q /\ color q <> col /\ P q (to m))
  <-> (exists target q, holds s target q /\ color q <> col
         /\ seesAlong s kpos dirs target /\ P q target).
Proof.
  intros Hwf Hk. split.
  - intros (m & q & (d & k & Hd & Hk1 & Hon & Hbetween & _ & Ha) & Hq & Hc & HP).
    apply annotated_fields in Ha as (_ & Ht & _). cbn [to id plainMove] in Ht.
    rewrite Ht in *. exists (along kpos d k), q. repeat (split; [done|]).
    split; [|done]. by exists d, k.
  - intros (target & q & Hq & Hc & (d & k & Hd & Hk1 & -> & Hbetween) & HP).
    assert (onBoard (along kpos d k)) as Hon by (by eapply cellAt_wf_onBoard).
    destruct (annotated_Ok s id kpos (along kpos d k) k0 Hwf Hk Hon) as [m Hm]; [done|].
    pose proof (annotated_fields _ _ _ _ _ Hm) as (_ & Ht & _). cbn [to id plainMove] in Ht.
    exists m, q. rewrite Ht. split; [|done].
    exists d, k. repeat (split; [done|]). split; [|done]. right. by exists q.
Qed.

Lemma slidesTo_onBoard (s : GameState) (col : PlayerColor) (pos : Position)
    (dirs : list Position) (m : Move) :
  slidesTo s pos col dirs m -> onBoard (to m).
Proof.
  intros (d & k & _ & _ & Hon & _ & _ & Ha).
  apply annotated_fields in Ha as (_ & Ht & _). by rewrite Ht.
Qed.

Lemma stepsTo_onBoard (s : GameState) (col : PlayerColor) (pos : Position)
    (dirs : list Position) (m : Move) :
  stepsTo s pos col dirs m -> onBoard (to m).
Proof.
  intros (d & _ & Hon & _ & Ha).
  apply annotated_fields in Ha as (_ & Ht & _). by rewrite Ht.
Qed.

(** [isCheck] answers on every board of eight rows of eight cells on which
    the king is found, and says whether the king is attacked. *)
Lemma isCheck_spec (s : GameState) (col : PlayerColor) (kpos : Position) :
  wfBoard (boardState s) -> getKingPosition s col = Ok kpos ->
  exists b, isCheck s col = Ok b /\ (b = true <-> attacked s col kpos).
Proof.
  intros Hwf Hking. unfold isCheck. rewrite Hking. cbn [bindR].
  apply findKing_spec in Hking as (_ & k0 & Hk & Hkt & Hkc).
  change (holds s kpos k0) in Hk. pose proof Hk as Hk'. unfold holds in Hk'.
  (* the three lists of moves *)
  destruct (movesInDirections_spec s kpos k0 linearDirections Hwf Hk) as (lm & Hlm & HlmSpec).
  { intros d Hd. apply (slideDirections_sliding rook d Hd). }
  destruct (movesInDirections_spec s kpos k0 diagonalDirections Hwf Hk) as (dm & Hdm & HdmSpec).
  { intros d Hd. apply (slideDirections_sliding bishop d Hd). }
  destruct (stepMoves_spec s kpos k0 (color k0) knightDirections Hwf Hk) as (km & Hkm & HkmSpec).
  rewrite Hkc in HlmSpec, HdmSpec, HkmSpec, Hkm.
  unfold getRookMoves, getBishopMoves, getKnightMoves. rewrite Hk'. cbn [bindR piece].
  rewrite Hlm, Hdm, Hkc, Hkm. cbn [bindR].
  (* the three scans *)
  destruct (scan_spec s col kpos
              (fun p _ => bool_decide (type p = rook) || bool_decide (type p = queen))
              _ lm Hwf HlmSpec (slidesTo_onBoard s col kpos _)) as (b1 & -> & H1).
  destruct (scan_spec s col kpos
              (fun p move =>
                 bool_decide (type p = bishop) || bool_decide (type p = queen)
                 || (bool_decide (type p = pawn)
                     && match col with
                        | white => (to move).1 =? kpos.1 + 1
                        | black => (to move).1 =? kpos.1 - 1
                        end))
              _ dm Hwf HdmSpec (slidesTo_onBoard s col kpos _)) as (b2 & -> & H2).
  destruct (scan_spec s col kpos (fun p _ => bool_decide (type p = knight))
              _ km Hwf HkmSpec (stepsTo_onBoard s col kpos _)) as (b3 & -> & H3).
  cbn [bindR].
  rewrite (seesAlong_slides s col kpos k0 linearDirections
             (fun q _ => bool_decide (type q = rook) || bool_decide (type q = queen) = true)
             Hwf Hk) in H1.
  rewrite (seesAlong_slides s col kpos k0 diagonalDirections
             (fun q target =>
                bool_decide (type q = bishop) || bool_decide (type q = queen)
                || (bool_decide (type q = pawn)
                    && match col with
                       | white => target.1 =? kpos.1 + 1
                       | black => target.1 =? kpos.1 - 1
                       end) = true)
             Hwf Hk) in H2.
  exists (b1 || b2 || b3).
  split; [by destruct b1, b2|].
  rewrite !orb_true_iff, H1, H2, H3. unfold attacked. split.
  - intros [[(target & q & Hq & Hc & Hsees & Ht) | (target & q & Hq & Hc & Hsees & Ht)]
           | (m & q & (d & Hd & Hon & _ & Ha) & Hq & Hc & Ht)].
    + exists target, q. split; [done|]. split; [done|]. left. split; [done|].
      apply orb_true_iff in Ht as [Ht | Ht]; apply bool_decide_eq_true in Ht; auto.
    + exists target, q. split; [done|]. split; [done|]. right. left. split; [done|].
      apply orb_true_iff in Ht as [Ht | Ht].
      * apply orb_true_iff in Ht as [Ht | Ht]; apply bool_decide_eq_true in Ht; auto.
      * apply andb_true_iff in Ht as [Ht Hrow]. apply bool_decide_eq_true in Ht.
        right. right. split; [done|]. unfold forward. destruct col; lia.
    + apply annotated_fields in Ha as (_ & Hto & _). cbn [to id plainMove] in Hto.
      rewrite Hto in Hq. exists (along kpos d 1), q. split; [done|]. split; [done|].
      right. right. apply bool_decide_eq_true in Ht. split; [by exists d | done].
  - intros (target & q & Hq & Hc & [[Hsees Ht] | [[Hsees Ht] | [(d & Hd & ->) Ht]]]).
    + left. left. exists target, q. repeat (split; [done|]).
      apply orb_true_iff. destruct Ht as [Ht | Ht]; [left | right];
        by apply bool_decide_eq_true.
    + left. right. exists target, q. repeat (split; [done|]).
      destruct Ht as [Ht | [Ht | [Ht Hrow]]].
      * rewrite (bool_decide_eq_true_2 _ Ht). done.
      * rewrite (bool_decide_eq_true_2 (type q = queen) Ht). by rewrite orb_true_r.
      * rewrite (bool_decide_eq_true_2 (type q = pawn) Ht).
        apply orb_true_iff. right. apply andb_true_iff. split; [done|].
        unfold forward in Hrow. destruct col; lia.
    + right. assert (onBoard (along kpos d 1)) as Hon by (by eapply cellAt_wf_onBoard).
      destruct (annotated_Ok s id kpos (along kpos d 1) k0 Hwf Hk Hon) as [m Hm]; [done|].
      pose proof (annotated_fields _ _ _ _ _ Hm) as (_ & Hto & _).
      cbn [to id plainMove] in Hto.
      exists m, q. rewrite Hto. split; [|by rewrite bool_decide_eq_true].
      exists d. repeat (split; [done|]). split; [|done]. right. by exists q.
Qed.

End Check.

(** ** Finding the king *)

Section King.

Import ChessGame.

Lemma elem_of_allPositions (pos : Position) : pos ∈ allPositions <-> onBoard pos.
Proof.
  unfold allPositions, onBoard. rewrite list_elem_of_bind. split.
  - intros (r & H & Hr). apply list_elem_of_bind in H as (c & H & Hc).
    apply list_elem_of_singleton in H as ->. apply elem_of_seqZ in Hr, Hc. simpl. lia.
  - intros [Hr Hc]. exists pos.1. split; [|apply elem_of_seqZ; lia].
    apply list_elem_of_bind. exists pos.2. split; [|apply elem_of_seqZ; lia].
    apply list_elem_of_singleton. by destruct pos.
Qed.

Lemma findKing_cases (b : list (list CellState)) (col : PlayerColor) (ps : list Position) :
  wfBoard b -> (forall pos, pos ∈ ps -> onBoard pos) ->
  (exists kpos, findKing b col ps = Ok kpos)
  \/ (findKing b col ps = Throw "King not found"
      /\ forall pos p, pos ∈ ps -> cellAt b pos = Ok {| piece := Some p |} ->
           type p = king -> color p <> col).
Proof.
  intros Hwf. induction ps as [|pos ps IH]; intros Hon; cbn [findKing].
  { right. split; [done|]. intros pos p Hpos. by apply elem_of_nil in Hpos. }
  destruct (cellAt_onBoard b pos Hwf) as [[[p|]] Hc]; [apply Hon; by left | |];
    rewrite Hc; cbn [bindR piece].
  - destruct (bool_decide (type p = king) && bool_decide (color p = col)) eqn:Hk;
      [left; eauto|].
    destruct IH as [Hfound | [Hnone Hno]]; [intros q Hq; apply Hon; by right | by left|].
    right. split; [done|]. intros pos' p' Hpos' Hc' Ht.
    apply elem_of_cons in Hpos' as [-> | Hpos']; [|by eapply Hno].
    rewrite Hc in Hc'. injection Hc' as <-. intros Hcol.
    rewrite !bool_decide_eq_true_2 in Hk by done. discriminate.
  - destruct IH as [Hfound | [Hnone Hno]]; [intros q Hq; apply Hon; by right | by left|].
    right. split; [done|]. intros pos' p' Hpos' Hc' Ht.
    apply elem_of_cons in Hpos' as [-> | Hpos']; [|by eapply Hno].
    rewrite Hc in Hc'. discriminate.
Qed.

(** On a board of eight rows of eight cells the king is found when there is
    one, and the search fails with "King not found" when there is none. *)
Lemma getKingPosition_cases (s : GameState) (col : PlayerColor) :
  wfBoard (boardState s) ->
  (exists kpos k, getKingPosition s col = Ok kpos
     /\ holds s kpos k /\ type k = king /\ color k = col)
  \/ (getKingPosition s col = Throw "King not found"
      /\ forall pos p, holds s pos p -> type p = king -> color p <> col).
Proof.
  intros Hwf. unfold getKingPosition.
  destruct (findKing_cases (boardState s) col allPositions Hwf) as [[kpos Hk] | [Hnone Hno]].
  - intros pos. apply elem_of_allPositions.
  - left. pose proof Hk as Hk'. apply findKing_spec in Hk' as (_ & k & Hc & Ht & Hcol).
    by exists kpos, k.
  - right. split; [done|]. intros pos p Hp. apply (Hno pos p); [|done].
    apply elem_of_allPositions. by eapply cellAt_wf_onBoard.
Qed.

End King.

(** ** The piece count *)

Section PieceCount.

Import ChessGame.

Lemma countCell_countOf (pieceCount : PieceCount) (c : CellState) (col : PlayerColor)
    (t : PieceType) :
  countOf (countCell pieceCount c) col t
  = countOf pieceCount col t + (if decide (cellIs col t c) then 1 else 0).
Proof.
  destruct (decide (cellIs col t c)) as [(p & Hp & Hc & Ht) | Hno].
  - unfold countCell. rewrite Hp. subst col t. destruct (color p), (type p); simpl; lia.
  - unfold countCell. destruct (piece c) as [p|] eqn:Hp; [|lia].
    assert (color p <> col \/ type p <> t) as Hdiff.
    { destruct (decide (color p = col)) as [Hc|]; [|by left].
      destruct (decide (type p = t)) as [Ht|]; [|by right].
      exfalso. apply Hno. by exists p. }
    destruct (color p), (type p), col, t; simpl; try lia; destruct Hdiff; done.
Qed.

Lemma countRow_countOf (row : list CellState) (pieceCount : PieceCount) (col : PlayerColor)
    (t : PieceType) :
  countOf (fold_left countCell row pieceCount) col t
  = countOf pieceCount col t + Z.of_nat (length (filter (cellIs col t) row)).
Proof.
  revert pieceCount. induction row as [|c row IH]; intros pieceCount; cbn [fold_left].
  { simpl. lia. }
  rewrite IH, countCell_countOf, filter_cons.
  destruct (decide (cellIs col t c)); cbn [length]; lia.
Qed.

Lemma getPieceCount_countOf (s : GameState) (col : PlayerColor) (t : PieceType) :
  countOf (getPieceCount s) col t
  = Z.of_nat (length (filter (cellIs col t) (concat (boardState s)))).
Proof.
  unfold getPieceCount.
  assert (forall rows pieceCount,
            countOf (fold_left (fun pieceCount row => fold_left countCell row pieceCount)
                       rows pieceCount) col t
            = countOf pieceCount col t
              + Z.of_nat (length (filter (cellIs col t) (concat rows)))) as Hrows.
  { intros rows. induction rows as [|row rows IH]; intros pieceCount; cbn [fold_left concat].
    - simpl. lia.
    - rewrite IH, countRow_countOf, filter_app, length_app. lia. }
  rewrite Hrows. by destruct col, t.
Qed.

End PieceCount.

(** ** The random agent *)

Section Random.

Lemma randomIndex_in_range (r : Q) (n : nat) :
  (0 <= r)%Q -> (r < 1)%Q -> (0 < n)%nat ->
  0 <= Qfloor (r * inject_Z (Z.of_nat n)) < Z.of_nat n.
Proof.
  intros Hr0 Hr1 Hn.
  assert (0 < inject_Z (Z.of_nat n))%Q as Hpos.
  { rewrite <- (Zlt_Qlt 0). lia. }
  split.
  - rewrite <- (Qfloor_Z 0). apply Qfloor_resp_le.
    apply Qmult_le_0_compat; [done | by apply Qlt_le_weak].
  - rewrite Zlt_Qlt. eapply Qle_lt_trans; [apply Qfloor_le|].
    rewrite <- (Qmult_1_l (inject_Z (Z.of_nat n))) at 2.
    by apply Qmult_lt_compat_r.
Qed.

Lemma RandomAgent_selectMove_spec (r : Q) (s : GameState) (moves : list Move) :
  (0 <= r)%Q -> (r < 1)%Q ->
  ChessGame.getAllLegalMoves s (turn s) = Ok moves ->
  (moves = [] /\ RandomAgent.selectMove r s = Throw "No legal moves")
  \/ (exists m, RandomAgent.selectMove r s = Ok (Some m) /\ m ∈ moves).
Proof.
  intros Hr0 Hr1 Hmoves. unfold RandomAgent.selectMove. rewrite Hmoves. cbn [bindR].
  destruct moves as [|m0 moves']; [left; by rewrite bool_decide_eq_true_2|].
  right. rewrite bool_decide_eq_false_2 by done.
  set (moves := m0 :: moves').
  destruct (randomIndex_in_range r (length moves) Hr0 Hr1) as [Hlo Hhi];
    [simpl; lia|].
  destruct (index_in_range moves (Qfloor (r * inject_Z (Z.of_nat (length moves)))))
    as [m Hm]; [lia|].
  exists m. split; [by rewrite Hm|].
  apply index_Some in Hm as [_ Hm]. by eapply list_elem_of_lookup_2.
Qed.

End Random.

(** ** Legal moves keep the king safe *)

Section Safe.

Import ChessGame.

(** After a legal move the king of the side that moved is on the board and
    not attacked. *)
Lemma legal_safe (s : GameState) (col : PlayerColor) (m : Move) :
  wfBoard (boardState s) -> legal s col m ->
  exists s' kpos,
    makeMove m s = (Ok tt, s') /\ getKingPosition s' col = Ok kpos
    /\ ~ attacked s' col kpos.
Proof.
  intros Hwf (l & Hl & Hm).
  destruct (legal_mover s col l m Hwf Hl Hm) as [-> _].
  apply (getAllLegalMoves_spec s (turn s) l Hl) in Hm
    as (pos & p & pm & _ & _ & _ & _ & _ & Hcheck).
  apply doesMovePutMovingPlayerInCheck_Ok in Hcheck as (s' & Hmake & Hcheck).
  pose proof (makeMove_wfBoard m s s' _ Hmake Hwf) as Hwf'.
  pose proof Hcheck as Hking. unfold isCheck in Hking.
  apply bindR_Ok in Hking as (kpos & Hking & _).
  exists s', kpos. split; [exact Hmake|]. split; [exact Hking|].
  destruct (isCheck_spec s' (turn s) kpos Hwf' Hking) as (b & Hb & Hiff).
  rewrite Hcheck in Hb. injection Hb as <-. intros Hatt. apply Hiff in Hatt. discriminate.
Qed.

End Safe.

(** ** The legal moves of the side that is not to move *)

Section OutOfTurn.

Import ChessGame.

Lemma forR_quiet_or_throw {A B} (g : A -> Result (list B))
    (f : list B -> A -> Result (list B)) (Q : string -> Prop) :
  (forall acc x, f acc x = let* ys := g x in Ok (acc ++ ys)) ->
  forall l,
    (forall x, x ∈ l -> g x = Ok [] \/ exists e, g x = Throw e /\ Q e) ->
    (forR l [] f = Ok [] /\ forall x, x ∈ l -> g x = Ok [])
    \/ exists e, forR l [] f = Throw e /\ Q e.
Proof.
  intros Hf l. induction l as [|x l IH]; intros Hl.
  - left. split; [done|]. intros x Hx. by apply elem_of_nil in Hx.
  - cbn [forR]. rewrite Hf.
    assert (x ∈ x :: l) as Hin by (by left).
    destruct (Hl x Hin) as [Hx | (e & Hx & He)].
    + rewrite Hx. cbn [bindR app].
      destruct IH as [[Hall Hquiet] | (e & He & HQ)].
      * intros y Hy. apply Hl. by right.
      * left. split; [done|]. intros y Hy.
        apply elem_of_cons in Hy as [-> | Hy]; [done | by apply Hquiet].
      * right. eauto.
    + right. exists e. by rewrite Hx.
Qed.

Variable s : GameState.
Variable col : PlayerColor.
Hypothesis boardOk : wfBoard (boardState s).
Hypothesis notToMove : col <> turn s.

Lemma legalOfMove_out_of_turn (pos : Position) (p : Piece) (m : Move) :
  holds s pos p -> color p = col -> generated s pos m ->
  legalOfMove s m
  = Throw ("Failed to make move, " +:+ algebraic m +:+ " Not your turn").
Proof.
  intros Hp Hcol Hgen.
  destruct (generated_wellformed s pos p m boardOk Hp Hgen) as (Hfrom & _).
  unfold legalOfMove, doesMovePutMovingPlayerInCheck, makeMove.
  change (bindM get ?k s) with (k s s). cbv beta.
  unfold bindM at 1. unfold liftR. rewrite Hfrom. unfold holds in Hp. rewrite Hp.
  cbn [piece]. rewrite bool_decide_eq_true_2 by congruence. done.
Qed.

Lemma scanCell_out_of_turn (row c : Z) :
  row ∈ seqZ 0 8 -> c ∈ seqZ 0 8 ->
  (scanCell s col row [] c = Ok []
   /\ forall p m, holds s (row, c) p -> color p = col -> ~ generated s (row, c) m)
  \/ exists e, scanCell s col row [] c = Throw e /\ refused s col e.
Proof.
  intros Hrow Hc. apply elem_of_seqZ in Hrow, Hc.
  assert (onBoard (row, c)) as Hon by (split; simpl; lia).
  destruct (holds_or_empty s (row, c) boardOk Hon) as [Hempty | [p Hp]].
  {  left. unfold scanCell. unfold emptyAt in Hempty. rewrite Hempty. split; [done|].
      intros p m Hp. unfold holds in Hp. congruence. }
  unfold scanCell. pose proof Hp as Hp'. unfold holds in Hp'. rewrite Hp'.
  cbn [bindR piece].
  destruct (bool_decide (color p = col)) eqn:Hcol.
  2:{ left. split; [done|]. intros q m Hq Hqc. rewrite (holds_inj _ _ _ _ Hq Hp) in Hqc.
      apply bool_decide_eq_false in Hcol. done. }
  apply bool_decide_eq_true in Hcol.
  destruct (generated_spec s (row, c) p boardOk Hp) as (pm & Hpm & _).
  rewrite Hpm. cbn [bindR]. destruct pm as [|m pm].
  - left. split; [done|]. intros q m _ _ (l & Hl & Hm). rewrite Hpm in Hl.
    injection Hl as <-. by apply elem_of_nil in Hm.
  - right. assert (generated s (row, c) m) as Hgen by (exists (m :: pm); split; [done | by left]).
    exists ("Failed to make move, " +:+ algebraic m +:+ " Not your turn"). split.
    + cbn [forR]. rewrite legalOfPiece_shape.
      by rewrite (legalOfMove_out_of_turn (row, c) p m Hp Hcol Hgen).
    + by exists (row, c), p, m.
Qed.

Lemma getAllLegalMoves_out_of_turn :
  (getAllLegalMoves s col = Ok []
   /\ forall pos p m, holds s pos p -> color p = col -> ~ generated s pos m)
  \/ exists e, getAllLegalMoves s col = Throw e /\ refused s col e.
Proof.
  unfold getAllLegalMoves.
  destruct (forR_quiet_or_throw
              (fun row => forR (seqZ 0 8) [] (scanCell s col row))
              (fun moves row => forR (seqZ 0 8) moves (scanCell s col row))
              (refused s col) (legalOfRow_shape s col) (seqZ 0 8))
    as [[Hall Hrows] | Hthrow]; [| |by right].
  - intros row Hrow.
    destruct (forR_quiet_or_throw (scanCell s col row []) (scanCell s col row) (refused s col)
                (legalOfCell_shape s col row) (seqZ 0 8))
      as [[Hrow_ok _] | Hthrow]; [|by left | by right].
    intros c Hc. destruct (scanCell_out_of_turn row c Hrow Hc) as [[H _] | H]; auto.
  - left. split; [exact Hall|]. intros [row c] p m Hp Hcol Hgen.
    assert (onBoard (row, c)) as [Hr Hc] by (by eapply cellAt_wf_onBoard).
    cbn [fst snd] in Hr, Hc.
    assert (row ∈ seqZ 0 8) as Hrow by (apply elem_of_seqZ; lia).
    assert (c ∈ seqZ 0 8) as Hcin by (apply elem_of_seqZ; lia).
    destruct (scanCell_out_of_turn row c Hrow Hcin) as [[_ Hnone] | (e & He & _)].
    { by apply (Hnone p m). }
    specialize (Hrows row Hrow).
    destruct (forR_quiet_or_throw (scanCell s col row []) (scanCell s col row)
                (fun e' => e' = e') (legalOfCell_shape s col row) (seqZ 0 8))
      as [[_ Hcells] | (e' & He' & _)].
    + intros c' Hc'.
      destruct (scanCell_out_of_turn row c' Hrow Hc') as [[H _] | (e' & H & _)];
        [by left | right; by exists e'].
    + rewrite (Hcells c Hcin) in He. discriminate.
    + rewrite Hrows in He'. discriminate.
Qed.

End OutOfTurn.

(** ** Reading the moves out of an answer *)

Section Extract.

Import LLMMinimaxAgent.

Lemma append_cons (c : ascii) (a b : string) : String c a +:+ b = String c (a +:+ b).
Proof. reflexivity. Qed.

Lemma append_nil (b : string) : "" +:+ b = b.
Proof. reflexivity. Qed.

Lemma stripPrefix_Some (pat s rest : string) :
  stripPrefix pat s = Some rest <-> s = pat +:+ rest.
Proof.
  revert s. induction pat as [|a pat IH]; intros s; cbn [stripPrefix].
  - simpl. split; [by intros [= ->] | by intros ->].
  - destruct s as [|b s]; [split; [done | intros H; discriminate]|].
    destruct (bool_decide (a = b)) eqn:Hab.
    + apply bool_decide_eq_true in Hab as ->. rewrite IH. simpl.
      split; [by intros -> | by intros [= ->]].
    + apply bool_decide_eq_false in Hab. split; [done|]. simpl. intros [= -> _]. done.
Qed.

Lemma afterFirst_Some (pat s rest : string) :
  afterFirst pat s = Some rest -> exists pre, s = pre +:+ pat +:+ rest.
Proof.
  induction s as [|c s IH]; cbn [afterFirst].
  - destruct (stripPrefix pat "") as [r|] eqn:Hr; [|discriminate].
    intros [= ->]. apply stripPrefix_Some in Hr. by exists "".
  - destruct (stripPrefix pat (String c s)) as [r|] eqn:Hr.
    + intros [= ->]. apply stripPrefix_Some in Hr. by exists "".
    + intros H. destruct (IH H) as [pre ->]. by exists (String c pre).
Qed.

Lemma afterFirst_None (pat s : string) :
  afterFirst pat s = None -> forall pre rest, s <> pre +:+ pat +:+ rest.
Proof.
  induction s as [|c s IH]; cbn [afterFirst].
  - destruct (stripPrefix pat "") as [r|] eqn:Hr; [discriminate|]. intros _ pre rest Heq.
    destruct pre; [|discriminate]. simpl in Heq.
    assert (stripPrefix pat "" = Some rest) as H by (by apply stripPrefix_Some).
    congruence.
  - destruct (stripPrefix pat (String c s)) as [r|] eqn:Hr; [discriminate|].
    intros H pre rest Heq. destruct pre as [|c' pre].
    + simpl in Heq. assert (stripPrefix pat (String c s) = Some rest) as H'
        by (by apply stripPrefix_Some).
      congruence.
    + simpl in Heq. injection Heq as -> ->. by eapply IH.
Qed.

Lemma selectedMove_Some (validMoveMapping : gmap string Move) (moveString : string)
    (m : Move) :
  selectedMove validMoveMapping moveString = Some m ->
  exists k, validMoveMapping !! k = Some m.
Proof.
  unfold selectedMove.
  destruct (validMoveMapping !! moveString) as [m0|] eqn:H0; [intros [= <-]; eauto|].
  destruct moveString as [|c rest].
  - rewrite !bool_decide_eq_false_2 by done. discriminate.
  - destruct (bool_decide (c = "P"%char) || bool_decide (c = "p"%char)).
    + destruct (validMoveMapping !! rest) as [m1|] eqn:H1; [intros [= <-]; eauto|].
      destruct (bool_decide (String c rest = "O-O")).
      * destruct (validMoveMapping !! "0-0") as [m2|] eqn:H2; [intros [= <-]; eauto|].
        destruct (bool_decide (String c rest = "O-O-O")); [eauto | discriminate].
      * destruct (bool_decide (String c rest = "O-O-O")); [eauto | discriminate].
    + destruct (bool_decide (String c rest = "O-O")).
      * destruct (validMoveMapping !! "0-0") as [m2|] eqn:H2; [intros [= <-]; eauto|].
        destruct (bool_decide (String c rest = "O-O-O")); [eauto | discriminate].
      * destruct (bool_decide (String c rest = "O-O-O")); [eauto | discriminate].
Qed.

Lemma selectedMove_key (validMoveMapping : gmap string Move) (k : string) (m : Move) :
  validMoveMapping !! k = Some m -> selectedMove validMoveMapping k = Some m.
Proof. unfold selectedMove. by intros ->. Qed.

(** What [extractMovesFromMessage] returns is a list, never empty, of moves
    held by the mapping, and the text contains the marker. *)
Lemma extractMovesFromMessage_sound (validMoveMapping : gmap string Move)
    (llmOutput : string) (moves : list Move) :
  extractMovesFromMessage validMoveMapping llmOutput = Some moves ->
  moves <> []
  /\ (exists pre rest, llmOutput = pre +:+ "Moves: " +:+ rest)
  /\ forall m, m ∈ moves -> exists k, validMoveMapping !! k = Some m.
Proof.
  unfold extractMovesFromMessage, matchMoves.
  destruct (afterFirst "Moves: " llmOutput) as [rest|] eqn:Hrest; [|discriminate].
  cbn [fmap option_fmap option_map].
  destruct (bool_decide (length (omap (selectedMove validMoveMapping)
                                   (map trim (splitOnComma (restOfLine rest)))) = 0%nat))
    eqn:Hlen; [discriminate|].
  intros [= <-]. apply bool_decide_eq_false in Hlen. split; [|split].
  - intros Hnil. by rewrite Hnil in Hlen.
  - apply afterFirst_Some in Hrest as [pre ->]. eauto.
  - intros m Hm. apply list_elem_of_omap in Hm as (str & _ & Hsel).
    by eapply selectedMove_Some.
Qed.

Lemma extractMovesFromMessage_no_marker (validMoveMapping : gmap string Move)
    (llmOutput : string) :
  (forall pre rest, llmOutput <> pre +:+ "Moves: " +:+ rest) ->
  extractMovesFromMessage validMoveMapping llmOutput = None.
Proof.
  intros Hno. unfold extractMovesFromMessage, matchMoves.
  destruct (afterFirst "Moves: " llmOutput) as [rest|] eqn:Hrest; [|done].
  apply afterFirst_Some in Hrest as [pre ->]. by destruct (Hno pre rest).
Qed.

(** *** The mapping from notation to move *)

Lemma validMoveMappingOf_lookup (validMoves : list Move) (k : string) :
  validMoveMappingOf validMoves !! k = lastWithNotation k validMoves.
Proof.
  unfold validMoveMappingOf, lastWithNotation.
  assert (forall (init : gmap string Move),
            fold_left (fun mapping mv => <[algebraic mv := mv]> mapping) validMoves init !! k
            = match last (filter (fun mv => algebraic mv = k) validMoves) with
              | Some m => Some m
              | None => init !! k
              end) as H.
  { induction validMoves as [|x l IH]; intros init; cbn [fold_left]; [reflexivity|].
    rewrite IH, filter_cons. destruct (decide (algebraic x = k)) as [<- | Hne].
    - rewrite lookup_insert_eq.
      destruct (filter (fun mv => algebraic mv = algebraic x) l) as [|y l'] eqn:Hf; [done|].
      rewrite (last_cons x). by destruct (last (y :: l')).
    - by rewrite lookup_insert_ne. }
  rewrite H, lookup_empty. by destruct (last _).
Qed.

Lemma lastWithNotation_Some (k : string) (moves : list Move) (m : Move) :
  lastWithNotation k moves = Some m -> m ∈ moves /\ algebraic m = k.
Proof.
  unfold lastWithNotation. intros H. apply last_Some_elem_of in H.
  by apply list_elem_of_filter in H as [? ?].
Qed.

(** *** An answer in the format that the prompt asks for *)

Lemma restOfLine_eq (s : string) :
  restOfLine s
  = match stripAny lineTerminators s with
    | Some _ => ""
    | None =>
        match s with
        | EmptyString => EmptyString
        | String c s' => String c (restOfLine s')
        end
    end.
Proof. by destruct s. Qed.

(** No line terminator starts with a character of a list of keys, and no
    white space starts or ends with a character of a key. *)
Lemma listChar_no_terminator (c : ascii) (s : string) :
  listChar c = true -> stripAny lineTerminators (String c s) = None.
Proof.
  destruct c as [[] [] [] [] [] [] [] []]; intros H;
    try (vm_compute in H; discriminate H); by vm_compute.
Qed.

Lemma plainChar_no_whiteSpace (c : ascii) (s : string) :
  plainChar c = true -> stripAny (lineTerminators ++ whiteSpaces) (String c s) = None.
Proof.
  destruct c as [[] [] [] [] [] [] [] []]; intros H;
    try (vm_compute in H; discriminate H); by vm_compute.
Qed.

Lemma plainChar_no_whiteSpace_reversed (c : ascii) (s : string) :
  plainChar c = true ->
  stripAny (map reverseString (lineTerminators ++ whiteSpaces)) (String c s) = None.
Proof.
  destruct c as [[] [] [] [] [] [] [] []]; intros H;
    try (vm_compute in H; discriminate H); by vm_compute.
Qed.

Lemma restOfLine_app (a b : string) :
  allChars listChar a = true ->
  restOfLine (a +:+ b) = a +:+ restOfLine b.
Proof.
  induction a as [|c a IH]; [done|]. cbn [allChars]. intros H.
  apply andb_prop in H as [Hc Ha]. rewrite !append_cons.
  rewrite restOfLine_eq, (listChar_no_terminator c _ Hc). f_equal. by apply IH.
Qed.

Lemma restOfLine_endsLine (tail : string) : endsLine tail -> restOfLine tail = "".
Proof.
  intros [-> | [rest Hrest]]; [done|]. by rewrite restOfLine_eq, Hrest.
Qed.

Lemma allChars_impl (P Q : ascii -> bool) (str : string) :
  (forall c, P c = true -> Q c = true) -> allChars P str = true -> allChars Q str = true.
Proof.
  intros HPQ. induction str as [|c str IH]; [done|]. cbn [allChars]. intros H.
  apply andb_prop in H as [Hc Hs]. by rewrite (HPQ c Hc), IH.
Qed.

Lemma allChars_app (P : ascii -> bool) (a b : string) :
  allChars P (a +:+ b) = allChars P a && allChars P b.
Proof.
  induction a as [|c a IH]; [done|]. rewrite append_cons. cbn [allChars].
  by rewrite IH, andb_assoc.
Qed.

Lemma allChars_Forall (P : ascii -> bool) (str : string) :
  allChars P str = true <-> Forall (fun c => P c = true) (list_ascii_of_string str).
Proof.
  induction str as [|c str IH]; cbn [allChars list_ascii_of_string].
  - split; [constructor | done].
  - rewrite andb_true_iff, IH, Forall_cons. done.
Qed.

Lemma reverseString_involutive (str : string) : reverseString (reverseString str) = str.
Proof.
  unfold reverseString.
  by rewrite list_ascii_of_string_of_list_ascii, rev_involutive,
    string_of_list_ascii_of_string.
Qed.

Lemma allChars_reverseString (P : ascii -> bool) (str : string) :
  allChars P str = true -> allChars P (reverseString str) = true.
Proof.
  rewrite !allChars_Forall. unfold reverseString.
  rewrite list_ascii_of_string_of_list_ascii. apply List.Forall_rev.
Qed.

Lemma cleanKey_parts (k : string) :
  cleanKey k = true ->
  allChars (fun c => negb (bool_decide (c = ","%char))) k = true
  /\ allChars listChar k = true.
Proof.
  unfold cleanKey. intros H.
  split; (eapply allChars_impl; [|exact H]); intros c Hc.
  - unfold plainChar in Hc. by apply andb_prop in Hc as [_ Hc].
  - unfold listChar. by rewrite Hc.
Qed.

Lemma splitOnComma_app (k rest : string) :
  allChars (fun c => negb (bool_decide (c = ","%char))) k = true ->
  splitOnComma (k +:+ String ","%char rest) = k :: splitOnComma rest.
Proof.
  induction k as [|c k IH]; cbn [allChars]; intros H.
  - rewrite append_nil. cbn [splitOnComma]. by rewrite bool_decide_eq_true_2.
  - apply andb_prop in H as [Hc Hk]. apply negb_true_iff in Hc.
    rewrite append_cons. cbn [splitOnComma]. rewrite Hc. by rewrite (IH Hk).
Qed.

Lemma splitOnComma_clean (k : string) :
  allChars (fun c => negb (bool_decide (c = ","%char))) k = true ->
  splitOnComma k = [k].
Proof.
  induction k as [|c k IH]; cbn [allChars]; intros H; [done|].
  apply andb_prop in H as [Hc Hk]. apply negb_true_iff in Hc.
  simpl. rewrite Hc. by rewrite (IH Hk).
Qed.

(** Nothing is dropped from a string that starts with a character of a key. *)
Lemma dropLeading_clean (pats : list string) (fuel : nat) (k : string) :
  (forall c str, plainChar c = true -> stripAny pats (String c str) = None) ->
  stripAny pats "" = None ->
  cleanKey k = true -> dropLeading pats fuel k = k.
Proof.
  intros Hplain Hempty Hk. destruct fuel as [|fuel]; [done|]. cbn [dropLeading].
  destruct k as [|c k]; [by rewrite Hempty|].
  unfold cleanKey in Hk. cbn [allChars] in Hk. apply andb_prop in Hk as [Hc _].
  by rewrite (Hplain c k Hc).
Qed.

Lemma trimStart_clean (k : string) : cleanKey k = true -> trimStart k = k.
Proof.
  intros Hk. unfold trimStart.
  apply dropLeading_clean; [apply plainChar_no_whiteSpace | by vm_compute | exact Hk].
Qed.

Lemma trimEnd_clean (k : string) : cleanKey k = true -> trimEnd k = k.
Proof.
  intros Hk. unfold trimEnd.
  rewrite dropLeading_clean;
    [apply reverseString_involutive | apply plainChar_no_whiteSpace_reversed
    | by vm_compute | by apply allChars_reverseString].
Qed.

Lemma trim_clean (k : string) : cleanKey k = true -> trim k = k.
Proof. intros H. unfold trim. by rewrite (trimStart_clean k H), trimEnd_clean. Qed.

Lemma trim_space_clean (k : string) : cleanKey k = true -> trim (String " "%char k) = k.
Proof.
  intros H. unfold trim.
  assert (trimStart (String " "%char k) = k) as ->; [|by apply trimEnd_clean].
  unfold trimStart. cbn [String.length dropLeading].
  assert (stripAny (lineTerminators ++ whiteSpaces) (String " "%char k) = Some k) as ->
    by (by vm_compute).
  apply dropLeading_clean; [apply plainChar_no_whiteSpace | by vm_compute | exact H].
Qed.

(** The strings between the commas of [joinComma keys]: the keys, each but
    the first after a space. *)
Lemma splitOnComma_joinComma (k : string) (keys : list string) :
  Forall (fun k => cleanKey k = true) (k :: keys) ->
  splitOnComma (joinComma (k :: keys)) = k :: map (String " "%char) keys.
Proof.
  revert k. induction keys as [|k' keys IH]; intros k Hclean.
  - apply Forall_cons in Hclean as [Hk _]. apply cleanKey_parts in Hk as [Hk _].
    by apply splitOnComma_clean.
  - apply Forall_cons in Hclean as [Hk Hrest]. pose proof Hrest as Hrest'.
    apply Forall_cons in Hrest' as [Hk' _].
    apply cleanKey_parts in Hk as [Hk _]. apply cleanKey_parts in Hk' as [Hk' _].
    change (joinComma (k :: k' :: keys)) with (k +:+ ", " +:+ joinComma (k' :: keys)).
    change (k +:+ ", " +:+ joinComma (k' :: keys))
      with (k +:+ String ","%char (String " "%char (joinComma (k' :: keys)))).
    rewrite (splitOnComma_app k _ Hk). f_equal.
    assert (forall str, splitOnComma (String " "%char str)
                        = match splitOnComma str with
                          | [] => [String " "%char ""]
                          | w :: ws => String " "%char w :: ws
                          end) as Hsp by done.
    rewrite Hsp, (IH k' Hrest). done.
Qed.

Lemma joinComma_noTerminator (keys : list string) :
  Forall (fun k => cleanKey k = true) keys ->
  allChars listChar (joinComma keys) = true.
Proof.
  induction keys as [|k keys IH]; intros Hclean; [done|].
  apply Forall_cons in Hclean as [Hk Hrest]. apply cleanKey_parts in Hk as (_ & Hk).
  destruct keys as [|k' keys]; [exact Hk|].
  change (joinComma (k :: k' :: keys)) with (k +:+ ", " +:+ joinComma (k' :: keys)).
  rewrite !allChars_app, Hk, (IH Hrest). done.
Qed.

Lemma extractMovesFromMessage_roundtrip (validMoveMapping : gmap string Move)
    (llmOutput : string) (k : string) (keys : list string) (tail : string) :
  afterFirst "Moves: " llmOutput = Some (joinComma (k :: keys) +:+ tail) ->
  endsLine tail ->
  Forall (fun k => cleanKey k = true) (k :: keys) ->
  extractMovesFromMessage validMoveMapping llmOutput
  = match omap (selectedMove validMoveMapping) (k :: keys) with
    | [] => None
    | moves => Some moves
    end.
Proof.
  intros Hmarker Htail Hclean. unfold extractMovesFromMessage, matchMoves.
  rewrite Hmarker. cbn [fmap option_fmap option_map].
  rewrite (restOfLine_app _ _ (joinComma_noTerminator _ Hclean)).
  rewrite (restOfLine_endsLine _ Htail).
  assert (forall str : string, str +:+ "" = str) as Hnil
    by (intros str; induction str as [|c str IH]; [done | by rewrite append_cons, IH]).
  rewrite Hnil, (splitOnComma_joinComma k keys Hclean).
  assert (map trim (k :: map (String " "%char) keys) = k :: keys) as ->.
  { pose proof Hclean as Hc. apply Forall_cons in Hc as [Hk Hkeys].
    cbn [map]. rewrite (trim_clean k Hk).
    f_equal. clear Hclean Hmarker. induction keys as [|k' keys IH]; [done|].
    apply Forall_cons in Hkeys as [Hk' Hkeys].
    cbn [map]. by rewrite (trim_space_clean k' Hk'), IH. }
  destruct (omap (selectedMove validMoveMapping) (k :: keys)) as [|m moves]; done.
Qed.

End Extract.

(** ** The methods of the LLM agent and the state of the agent *)

Section OracleStep.

#[local] Instance oracleStep_refl : Reflexive oracleStep.
Proof.
  intros σ. split; [done|]. split; [|done].
  exists []. by rewrite app_nil_r.
Qed.

Lemma oracleStep_known (σ σ' : AgentState) (gameHash : string) (msg : Message) :
  oracleStep σ σ' -> descriptionKnown σ gameHash msg -> descriptionKnown σ' gameHash msg.
Proof.
  intros (_ & _ & Hc & Hp) (p & H1 & H2). exists p. split; [by apply Hc|].
  by apply Hp.
Qed.

#[local] Instance oracleStep_trans : Transitive oracleStep.
Proof.
  intros σ1 σ2 σ3 ((Ha1 & Ha2 & Ha3 & Ha4) & (ev1 & He1 & Hr1) & Hc1 & Hp1)
    ((Hb1 & Hb2 & Hb3 & Hb4) & (ev2 & He2 & Hr2) & Hc2 & Hp2).
  split; [|split; [|split]].
  - unfold searchUntouched. by rewrite Hb1, Hb2, Hb3, Hb4.
  - exists (ev1 ++ ev2). split; [by rewrite He2, He1, app_assoc | by apply Forall_app].
  - intros h p H. by apply Hc2, Hc1.
  - intros p v H Hv. apply Hp2; [|done]. by apply Hp1.
Qed.

(** A step that only writes the promises of the descriptions, keeping the
    settled ones. *)
Lemma oracleStep_promises (σ σ' : AgentState) :
  searchUntouched σ σ' -> history σ' = history σ ->
  gameDescriptionCache σ' = gameDescriptionCache σ ->
  (forall p v, messagePromises σ !! p = Some v -> v <> Pending ->
     messagePromises σ' !! p = Some v) ->
  oracleStep σ σ'.
Proof.
  intros Hs Hh Hc Hp. split; [done|]. split; [|split].
  - exists []. by rewrite app_nil_r.
  - intros h p H. by rewrite Hc.
  - exact Hp.
Qed.

Lemma oracle_await {A} (promises : AgentState -> list (Promise A)) (p : nat) :
  keeps oracleStep (await promises p).
Proof.
  intros σ. unfold await. destruct (promises σ !! p) as [[| |]|]; reflexivity.
Qed.

Lemma oracle_try {A} (m : M AgentState A) :
  keeps oracleStep m -> keeps oracleStep (try m).
Proof. intros H σ. unfold try. specialize (H σ). by destruct (m σ) as [[| | |] ?]. Qed.

Lemma oracle_newMessagePromise : keeps oracleStep newMessagePromise.
Proof.
  intros σ. apply oracleStep_promises; try done.
  intros p v H _. simpl. by apply lookup_app_l_Some.
Qed.

Lemma oracle_settleMessage (p : nat) (v : Promise Message) :
  keeps oracleStep (LLMMinimaxAgent.settleMessage p v).
Proof.
  intros σ. apply oracleStep_promises; try done.
  intros q w H Hw. simpl. unfold settle.
  destruct (messagePromises σ !! p) as [[| |]|] eqn:Hp; try exact H.
  rewrite list_lookup_insert_ne; [exact H|]. intros ->. congruence.
Qed.

Section WithOracle.

Variable callLLM : CallLLM.
Variable Math_exp : Q -> Q.

Lemma oracle_request (args : CallLLMArgs) :
  keeps oracleStep (LLMMinimaxAgent.request callLLM args).
Proof.
  intros σ. unfold LLMMinimaxAgent.request.
  assert (oracleStep σ (snd (record (CalledLLM args) σ))) as H.
  { split; [done|]. split; [|done].
    exists [CalledLLM args]. split; [done|]. by repeat constructor. }
  by destruct (callLLM _ args).
Qed.

Lemma oracle_askUntilAnswered (triesLeft : nat) (args : CallLLMArgs) :
  keeps oracleStep (LLMMinimaxAgent.askUntilAnswered callLLM triesLeft args).
Proof.
  induction triesLeft as [|k IH]; simpl.
  - apply keeps_ret; apply _.
  - apply keeps_bind; try apply _; [apply oracle_try, oracle_request|].
    intros [e|choices]; [exact IH | apply keeps_ret; apply _].
Qed.

Lemma oracle_askForMoves (fuel tires : nat) (args : CallLLMArgs)
    (validMoveMapping : gmap string Move) :
  keeps oracleStep (LLMMinimaxAgent.askForMoves callLLM fuel tires args validMoveMapping).
Proof.
  revert tires. induction fuel as [|k IH]; intros tires; simpl.
  - intros σ. reflexivity.
  - destruct (bool_decide _); [apply keeps_throw; apply _|].
    apply keeps_bind; try apply _; [apply oracle_try, oracle_request|].
    intros [e|[|messageChoice others]]; [apply IH | apply keeps_throw; apply _ |].
    destruct (content (message messageChoice)) as [[|c text]|];
      try (apply keeps_throw; apply _).
    destruct (LLMMinimaxAgent.extractMovesFromMessage _ _);
      [apply keeps_ret; apply _ | apply IH].
Qed.

Lemma oracle_getGameDescription (s : GameState) :
  keeps oracleStep (LLMMinimaxAgent.getGameDescription callLLM s).
Proof.
  unfold LLMMinimaxAgent.getGameDescription.
  apply keeps_bind; try apply _; [apply keeps_liftR; apply _|]. intros text σ.
  change (bindM get ?k σ) with (k σ σ). cbv beta.
  destruct (gameDescriptionCache σ !! ChessGame.hashGameState s) as [p|] eqn:Hcache.
  { apply oracle_await. }
  unfold bindM at 1. unfold newMessagePromise at 1.
  unfold bindM at 1. unfold modify at 1.
  set (σ2 := setGameDescriptionCache _ _).
  assert (oracleStep σ σ2) as Hσ2.
  { split; [done|]. split; [|split].
    - exists []. by rewrite app_nil_r.
    - intros h q H. unfold σ2. simpl.
      rewrite lookup_insert_ne; [exact H|]. intros <-. congruence.
    - intros q v H _. unfold σ2. simpl. by apply lookup_app_l_Some. }
  etransitivity; [exact Hσ2|].
  match goal with |- oracleStep σ2 (snd (?m σ2)) => cut (keeps oracleStep m) end.
  { intros H. apply H. }
  apply keeps_bind; try apply _; [apply oracle_askUntilAnswered|].
  intros messageChoices. apply keeps_bind; try apply _.
  - destruct messageChoices as [[|messageChoice others]|];
      [apply keeps_ret; apply _ | apply oracle_settleMessage | apply oracle_settleMessage].
  - intros _. apply oracle_await.
Qed.

Lemma oracle_stateEvaluation (s : GameState) :
  keeps oracleStep (LLMMinimaxAgent.stateEvaluation callLLM Math_exp s).
Proof.
  unfold LLMMinimaxAgent.stateEvaluation.
  apply keeps_bind; try apply _; [apply oracle_getGameDescription|]. intros description.
  apply keeps_bind; try apply _; [apply oracle_askUntilAnswered|].
  intros [[|messageChoice others]|]; try (apply keeps_throw; apply _).
  destruct (logprobs messageChoice) as [lp|].
  - destruct (logprobs_content lp) as [|first others']; [apply keeps_throw; apply _|].
    destruct (top_logprobs first) as [topLogprobs|]; [|apply keeps_throw; apply _].
    cbv zeta.
    match goal with
    | |- context [?m !! "white"] =>
        destruct (m !! "white") as [[[| |]|]|], (m !! "black")
    end;
      first [apply keeps_throw; apply _ | apply keeps_ret; apply _
            | intros σ0; reflexivity].
  - destruct (bool_decide _); apply keeps_ret; apply _.
Qed.

Lemma oracle_getSuccessors (fuel : nat) (s : GameState) :
  keeps oracleStep (LLMMinimaxAgent.getSuccessors callLLM fuel s).
Proof.
  unfold LLMMinimaxAgent.getSuccessors,
    LLMMinimaxAgent.getSuccessorsInOneSingleOptionLLMCall.
  apply keeps_bind; try apply _; [apply oracle_getGameDescription|]. intros description.
  apply keeps_bind; try apply _; [apply keeps_liftR; apply _|]. intros validMoves.
  apply keeps_bind; try apply _; [apply oracle_askForMoves|]. intros moves.
  apply keeps_liftR; apply _.
Qed.

End WithOracle.

End OracleStep.

(** ** How many requests a task sends *)

Section Sends.

Variable callLLM : CallLLM.
Variable Math_exp : Q -> Q.

Lemma sends_mono {A} (a b : nat) (m : M AgentState A) :
  (a <= b)%nat -> sendsAtMost a m -> sendsAtMost b m.
Proof. intros Hab H σ. specialize (H σ). lia. Qed.

Lemma sends_quiet {A} (m : M AgentState A) :
  (forall σ, history (snd (m σ)) = history σ) -> sendsAtMost 0 m.
Proof. intros H σ. unfold LLMMinimaxAgent.requestsSent. rewrite H. lia. Qed.

Lemma sends_bind {A B} (a b : nat) (m : M AgentState A) (k : A -> M AgentState B) :
  sendsAtMost a m -> (forall x, sendsAtMost b (k x)) -> sendsAtMost (a + b) (bindM m k).
Proof.
  intros Hm Hk σ. unfold bindM. specialize (Hm σ).
  destruct (m σ) as [[x|e| |] σ1]; simpl in *; try lia.
  specialize (Hk x σ1). lia.
Qed.

Lemma sends_await {A} (promises : AgentState -> list (Promise A)) (p : nat) :
  sendsAtMost 0 (await promises p).
Proof.
  apply sends_quiet. intros σ. unfold await.
  by destruct (promises σ !! p) as [[| |]|].
Qed.

Lemma sends_request (args : CallLLMArgs) :
  sendsAtMost 1 (try (LLMMinimaxAgent.request callLLM args)).
Proof.
  intros σ. unfold try.
  destruct (callLLM (LLMMinimaxAgent.requestsSent σ) args) as [e|choices] eqn:H.
  - rewrite (request_fails callLLM σ args e H). simpl snd.
    by rewrite requestsSent_withRequests.
  - rewrite (request_replies callLLM σ args choices H). simpl snd.
    by rewrite requestsSent_withRequests.
Qed.

Lemma sends_askUntilAnswered (triesLeft : nat) (args : CallLLMArgs) :
  sendsAtMost triesLeft (LLMMinimaxAgent.askUntilAnswered callLLM triesLeft args).
Proof.
  induction triesLeft as [|k IH]; cbn [LLMMinimaxAgent.askUntilAnswered].
  - by apply sends_quiet.
  - apply (sends_bind 1 k); [apply sends_request|].
    intros [e|choices]; [exact IH|].
    apply (sends_mono 0); [lia | by apply sends_quiet].
Qed.

Lemma sends_getGameDescription (s : GameState) :
  sendsAtMost LLMMinimaxAgent.maxLLMTries (LLMMinimaxAgent.getGameDescription callLLM s).
Proof.
  unfold LLMMinimaxAgent.getGameDescription.
  apply (sends_bind 0 LLMMinimaxAgent.maxLLMTries); [by apply sends_quiet|]. intros text.
  apply (sends_bind 0 LLMMinimaxAgent.maxLLMTries); [by apply sends_quiet|]. intros σ0.
  destruct (gameDescriptionCache σ0 !! ChessGame.hashGameState s) as [p|].
  { apply (sends_mono 0); [lia | apply sends_await]. }
  apply (sends_bind 0 LLMMinimaxAgent.maxLLMTries); [by apply sends_quiet|]. intros p.
  apply (sends_bind 0 LLMMinimaxAgent.maxLLMTries); [by apply sends_quiet|]. intros _.
  apply (sends_mono (LLMMinimaxAgent.maxLLMTries + 0)); [lia|].
  apply sends_bind; [apply sends_askUntilAnswered|]. intros messageChoices.
  apply (sends_bind 0 0); [|intros _; apply sends_await].
  destruct messageChoices as [[|messageChoice others]|]; by apply sends_quiet.
Qed.

Lemma sends_stateEvaluation (s : GameState) :
  sendsAtMost (LLMMinimaxAgent.maxLLMTries + LLMMinimaxAgent.maxLLMTries)
    (LLMMinimaxAgent.stateEvaluation callLLM Math_exp s).
Proof.
  unfold LLMMinimaxAgent.stateEvaluation.
  apply sends_bind; [apply sends_getGameDescription|]. intros description.
  apply (sends_mono (LLMMinimaxAgent.maxLLMTries + 0)); [lia|].
  apply sends_bind; [apply sends_askUntilAnswered|].
  intros [[|messageChoice others]|]; try (by apply sends_quiet).
  destruct (logprobs messageChoice) as [lp|].
  - destruct (logprobs_content lp) as [|first others']; [by apply sends_quiet|].
    destruct (top_logprobs first) as [topLogprobs|]; [|by apply sends_quiet].
    cbv zeta.
    match goal with
    | |- context [?m !! "white"] =>
        destruct (m !! "white") as [[[| |]|]|], (m !! "black")
    end; by apply sends_quiet.
  - destruct (bool_decide _); by apply sends_quiet.
Qed.

End Sends.

(** ** A description is asked for once *)

Section Description.

Variable callLLM : CallLLM.

Lemma askUntilAnswered_cache (triesLeft : nat) (args : CallLLMArgs) (σ : AgentState) :
  oracleStep σ (snd (LLMMinimaxAgent.askUntilAnswered callLLM triesLeft args σ)).
Proof. apply oracle_askUntilAnswered. Qed.

Lemma getGameDescription_of_known (s : GameState) (text : string) (σ : AgentState)
    (msg : Message) :
  LLMMinimaxAgent.getTextRepresentation s = Ok text ->
  descriptionKnown σ (ChessGame.hashGameState s) msg ->
  LLMMinimaxAgent.getGameDescription callLLM s σ = (Ok msg, σ).
Proof.
  intros Htext (p & Hp & Hmsg).
  rewrite (getGameDescription_rendered callLLM s text σ Htext), Hp.
  unfold await. by rewrite Hmsg.
Qed.

Lemma getGameDescription_Ok_rendered (s : GameState) (σ σ' : AgentState) (msg : Message) :
  LLMMinimaxAgent.getGameDescription callLLM s σ = (Ok msg, σ') ->
  exists text, LLMMinimaxAgent.getTextRepresentation s = Ok text.
Proof.
  unfold LLMMinimaxAgent.getGameDescription. intros H.
  apply bindM_Ok in H as (text & σ1 & Htext & _).
  apply liftR_Ok in Htext as [Htext _]. by exists text.
Qed.

Lemma getGameDescription_known (s : GameState) (σ σ' : AgentState) (msg : Message) :
  LLMMinimaxAgent.getGameDescription callLLM s σ = (Ok msg, σ') ->
  descriptionKnown σ' (ChessGame.hashGameState s) msg.
Proof.
  intros H. destruct (getGameDescription_Ok_rendered s σ σ' msg H) as [text Htext].
  rewrite (getGameDescription_rendered callLLM s text σ Htext) in H. revert H.
  destruct (gameDescriptionCache σ !! ChessGame.hashGameState s) as [p|] eqn:Hcache.
  { intros H. apply await_Ok in H as [H ->]. by exists p. }
  intros H.
  apply bindM_Ok in H as (p & σ1 & Hnew & H).
  apply bindM_Ok in H as (u & σ2 & Hmod & H).
  apply bindM_Ok in H as (choices & σ3 & Hask & H).
  apply bindM_Ok in H as (u' & σ4 & Hset & H).
  apply await_Ok in H as [H ->]. exists p. split; [|exact H].
  assert (gameDescriptionCache σ2 !! ChessGame.hashGameState s = Some p) as H2.
  { unfold modify in Hmod. injection Hmod as _ <-. simpl. apply lookup_insert_eq. }
  assert (oracleStep σ2 σ3) as (_ & _ & H23 & _).
  { pose proof (oracle_askUntilAnswered callLLM LLMMinimaxAgent.maxLLMTries
                  (describeArgs s) σ2) as Hstep.
    by rewrite Hask in Hstep. }
  apply H23 in H2.
  destruct choices as [[|messageChoice others]|].
  - injection Hset as _ <-. exact H2.
  - unfold LLMMinimaxAgent.settleMessage, modify in Hset. injection Hset as _ <-. exact H2.
  - unfold LLMMinimaxAgent.settleMessage, modify in Hset. injection Hset as _ <-. exact H2.
Qed.

End Description.

(** ** What [getSuccessors] returns *)

Section Successors.

Variable callLLM : CallLLM.

Lemma askForMoves_Ok (fuel tires : nat) (args : CallLLMArgs)
    (validMoveMapping : gmap string Move) (σ σ' : AgentState) (moves : list Move) :
  LLMMinimaxAgent.askForMoves callLLM fuel tires args validMoveMapping σ = (Ok moves, σ') ->
  exists text, LLMMinimaxAgent.extractMovesFromMessage validMoveMapping text = Some moves.
Proof.
  revert tires σ. induction fuel as [|k IH]; intros tires σ; [discriminate|].
  rewrite askForMoves_round.
  destruct (bool_decide _); [discriminate|]. intros H.
  apply bindM_Ok in H as (r & σ1 & _ & H).
  destruct r as [e|[|messageChoice others]]; [by eapply IH | discriminate |].
  destruct (content (message messageChoice)) as [[|c text]|]; try discriminate.
  destruct (LLMMinimaxAgent.extractMovesFromMessage validMoveMapping (String c text))
    as [found|] eqn:Hfound; [|by eapply IH].
  injection H as <- _. eauto.
Qed.

Lemma progressions_Ok (s : GameState) (constantProbability : Q) (moves : list Move)
    (l : list GameStateProgression) :
  LLMMinimaxAgent.progressions s constantProbability moves = Ok l ->
  map move l = moves
  /\ Forall (fun g => stateAfter s (move g) = Ok (nextState g)
                      /\ probability g = constantProbability) l.
Proof.
  revert l. induction moves as [|mv rest IH]; intros l; cbn [LLMMinimaxAgent.progressions].
  - intros [= <-]. split; [done | constructor].
  - intros H. apply bindR_Ok in H as (next & Hnext & H).
    apply bindR_Ok in H as (ps & Hps & H). injection H as <-.
    destruct (IH ps Hps) as [Hmap Hall]. split; [simpl; by rewrite Hmap|].
    constructor; [done | exact Hall].
Qed.

Lemma totalProbability_constant (c : Q) (l : list GameStateProgression) :
  Forall (fun g => probability g = c) l ->
  (totalProbability l == inject_Z (Z.of_nat (length l)) * c)%Q.
Proof.
  induction 1 as [|g l Hg Hl IH]; cbn [totalProbability fold_right length].
  - by rewrite Qmult_0_l.
  - fold (totalProbability l). rewrite IH, Hg, Nat2Z.inj_succ.
    unfold Z.succ. rewrite inject_Z_plus. ring.
Qed.

Lemma getSuccessors_Ok (fuel : nat) (s : GameState) (σ σ' : AgentState)
    (l : list GameStateProgression) :
  LLMMinimaxAgent.getSuccessors callLLM fuel s σ = (Ok l, σ') ->
  exists validMoves,
    ChessGame.getAllLegalMoves s (turn s) = Ok validMoves
    /\ l <> []
    /\ (forall g, g ∈ l ->
          move g ∈ validMoves
          /\ stateAfter s (move g) = Ok (nextState g)
          /\ probability g = (1 / inject_Z (Z.of_nat (length l)))%Q)
    /\ (totalProbability l == 1)%Q.
Proof.
  unfold LLMMinimaxAgent.getSuccessors,
    LLMMinimaxAgent.getSuccessorsInOneSingleOptionLLMCall. intros H.
  apply bindM_Ok in H as (description & σ1 & _ & H).
  apply bindM_Ok in H as (validMoves & σ2 & Hvalid & H).
  apply liftR_Ok in Hvalid as [Hvalid _].
  apply bindM_Ok in H as (moves & σ3 & Hmoves & H).
  apply liftR_Ok in H as [H _].
  apply askForMoves_Ok in Hmoves as (text & Htext).
  apply extractMovesFromMessage_sound in Htext as (Hne & _ & Hin).
  apply progressions_Ok in H as [Hmap Hall].
  assert (length l = length moves) as Hlen by (by rewrite <- Hmap, length_map).
  rewrite <- Hlen in Hall.
  exists validMoves. split; [exact Hvalid|]. split; [|split].
  - intros ->. by destruct moves.
  - intros g Hg. rewrite Forall_forall in Hall. destruct (Hall g Hg) as [Hnext Hprob].
    split; [|done].
    assert (move g ∈ moves) as Hmv.
    { rewrite <- Hmap. by apply list_elem_of_fmap_2. }
    destruct (Hin _ Hmv) as (k & Hk). rewrite validMoveMappingOf_lookup in Hk.
    by apply lastWithNotation_Some in Hk as [? _].
  - rewrite (totalProbability_constant (1 / inject_Z (Z.of_nat (length l)))).
    + field. intros H0. apply (inj inject_Z _ 0%Z) in H0 || idtac.
      destruct l; [by destruct moves|]. simpl in H0. discriminate.
    + eapply Forall_impl; [exact Hall|]. by intros g [_ ?].
Qed.

End Successors.

(** ** The move that the LLM agent selects *)

Section Select.

Lemma selectBest_elem (maximizingPlayer : bool) (results : list CompressedMinimax.MoveResult)
    (best : CompressedMinimax.MoveResult) :
  CompressedMinimax.selectBest maximizingPlayer results = Ok best -> best ∈ results.
Proof.
  destruct results as [|first rest].
  { unfold CompressedMinimax.selectBest, CompressedMinimax.reduce.
    by destruct maximizingPlayer. }
  destruct (fold_prefer maximizingPlayer rest [] [] first)
    as (before & best' & after & Hfold & Hlist & _).
  - intros r Hr. by apply elem_of_nil in Hr.
  - intros r Hr. by apply elem_of_nil in Hr.
  - intros H. simpl in Hlist. rewrite Hlist.
    assert (best = best') as ->.
    { unfold CompressedMinimax.selectBest, CompressedMinimax.reduce in H.
      destruct maximizingPlayer; rewrite Hfold in H; by injection H. }
    apply elem_of_app. right. by left.
Qed.

Lemma withMove_elem (successors : list GameStateProgression)
    (results : list MinimaxIterationResult) (best : CompressedMinimax.MoveResult) :
  best ∈ zip_with CompressedMinimax.withMove successors results ->
  exists successor result,
    successor ∈ successors /\ result ∈ results
    /\ best = CompressedMinimax.withMove successor result.
Proof.
  intros H. apply elem_of_lookup_zip_with_1 in H as (i & g & r & Heq & Hg & Hr).
  exists g, r. split; [by eapply list_elem_of_lookup_2|].
  split; [by eapply list_elem_of_lookup_2 | exact Heq].
Qed.

Variable callLLM : CallLLM.
Variable Math_exp : Q -> Q.
Variable costSetup : CostSetup.

(** The promise that [startGetSuccessors] stores follows the outcome of the
    call of [getSuccessors]. *)
Lemma startGetSuccessors_settled (fuel : nat) (gameHash : string) (s : GameState)
    (σ σ2 : AgentState) (p : nat) :
  CompressedMinimax.startGetSuccessors (LLMMinimaxAgent.getSuccessors callLLM fuel)
    gameHash s σ = (Ok p, σ2) ->
  exists σa r σb,
    LLMMinimaxAgent.getSuccessors callLLM fuel s σa = (r, σb)
    /\ successorsPromises σ2 !! p = Some (settled r).
Proof.
  unfold CompressedMinimax.startGetSuccessors. intros H.
  apply bindM_Ok in H as (p0 & σ1 & Hnew & H).
  unfold newSuccessorsPromise in Hnew. injection Hnew as <- <-.
  apply bindM_Ok in H as (u & σm & Hmod & H).
  unfold modify in Hmod. injection Hmod as _ <-.
  apply bindM_Ok in H as (u' & σr & Hrec & H).
  unfold record, modify in Hrec. injection Hrec as _ <-.
  match type of H with
  | context [LLMMinimaxAgent.getSuccessors callLLM fuel s ?x] => set (σa := x) in *
  end.
  pose proof (oracle_getSuccessors callLLM fuel s σa) as ((_ & _ & _ & Hprom) & _).
  destruct (LLMMinimaxAgent.getSuccessors callLLM fuel s σa) as [r σb] eqn:Hget.
  cbn [snd] in Hprom.
  exists σa, r, σb. split; [exact Hget|].
  assert (successorsPromises σb !! length (successorsPromises σ) = Some Pending) as Hp.
  { rewrite Hprom. unfold σa. cbn [successorsPromises setSuccessorsPromises
      setSuccessorsCache].
    rewrite lookup_app_r by lia. by rewrite Nat.sub_diag. }
  assert (p = length (successorsPromises σ)) as ->.
  { destruct r; injection H as H _; congruence. }
  assert (σ2 = setSuccessorsPromises
                 (settle (length (successorsPromises σ)) (settled r)) σb) as ->.
  { by injection H as _ <-. }
  cbn [successorsPromises setSuccessorsPromises]. unfold settle. rewrite Hp.
  apply list_lookup_insert_eq. by eapply lookup_lt_Some.
Qed.

Lemma selectMove_move (fuel : nat) (s : GameState) (σ σ' : AgentState) (mv : Move) :
  LLMMinimaxAgent.selectMove callLLM Math_exp costSetup fuel s σ = (Ok mv, σ') ->
  match successorsCache σ !! ChessGame.hashGameState s with
  | None =>
      exists validMoves,
        ChessGame.getAllLegalMoves s (turn s) = Ok validMoves /\ mv ∈ validMoves
  | Some p =>
      exists successors,
        successorsPromises σ !! p = Some (Fulfilled successors)
        /\ mv ∈ map move successors
  end.
Proof.
  unfold LLMMinimaxAgent.selectMove, CompressedMinimax.selectMove. intros H.
  apply bindM_Ok in H as (σ0 & σ1 & Hget & H).
  unfold get in Hget. injection Hget as <- <-.
  apply bindM_Ok in H as ([sp budget] & σ2 & Hstart & H).
  apply bindM_Ok in H as (successors & σ3 & Hawait & H).
  apply await_Ok in Hawait as [Hsucc ->].
  destruct (bool_decide (length successors = 0%nat)); [discriminate|].
  apply bindM_Ok in H as (results & σ4 & _ & H).
  apply bindM_Ok in H as (best & σ5 & Hbest & H).
  apply liftR_Ok in Hbest as [Hbest _]. injection H as <- _.
  apply selectBest_elem, withMove_elem in Hbest as (g & r & Hg & _ & ->).
  cbn [CompressedMinimax.withMove CompressedMinimax.mr_move].
  destruct (successorsCache σ !! ChessGame.hashGameState s) as [p|].
  - injection Hstart as <- _ <-. exists successors. split; [exact Hsucc|].
    by apply list_elem_of_fmap_2.
  - apply bindM_Ok in Hstart as (p & σs & Hstart & Hret).
    injection Hret as <- _ <-.
    apply startGetSuccessors_settled in Hstart as (σa & res & σb & Hres & Hp).
    rewrite Hp in Hsucc. destruct res as [l| | |]; try discriminate.
    injection Hsucc as ->.
    apply getSuccessors_Ok in Hres as (validMoves & Hvalid & _ & Hall & _).
    exists validMoves. split; [exact Hvalid|]. by apply Hall.
Qed.

End Select.
(** ** The range of the evaluation *)

Section Evaluation.

Variable callLLM : CallLLM.
Variable Math_exp : Q -> Q.
Hypothesis Math_exp_nonneg : forall x, (0 <= Math_exp x)%Q.

Lemma round_weight (x : Q) : (0 <= x)%Q -> weight (Some (Double.round x)).
Proof.
  intros Hx. destruct (round_nonneg x Hx) as [-> | (v & -> & Hv & Hfix)]; [by left|].
  right. by exists v.
Qed.

Lemma round_notNegative (x : Q) : (0 <= x)%Q -> notNegative (Some (Double.round x)).
Proof.
  intros Hx. destruct (round_nonneg x Hx) as [-> | (v & -> & Hv & _)]; [by left|].
  right. by exists v.
Qed.

(** One round of the sum. *)
Lemma add_weight (acc p : Double.Number) :
  notNegative acc -> weight p ->
  notNegative (Double.add acc p)
  /\ numberLe p (Double.add acc p)
  /\ forall p0, weight p0 -> numberLe p0 acc -> numberLe p0 (Double.add acc p).
Proof.
  intros [-> | (a & -> & Ha)] [-> | (v & -> & Hv & Hfix)]; cbn [Double.add].
  - split; [by left|]. split; [done|]. by intros [[| |]|].
  - split; [by left|]. split; [done|]. by intros [[| |]|].
  - split; [by left|]. split; [done|]. by intros [[| |]|].
  - split; [apply round_notNegative; lra|]. split.
    + cbn [numberLe]. eapply ExtNum_leb_trans; [exact Hfix|]. apply round_mono; lra.
    + intros p0 [-> | (v0 & -> & Hv0 & Hfix0)] Hle; [done|]. cbn [numberLe] in *.
      apply Qle_bool_iff in Hle.
      eapply ExtNum_leb_trans; [exact Hfix0|]. apply round_mono; lra.
Qed.

Lemma sum_bounds (l : list (string * Double.Number)) (acc : Double.Number) :
  (forall tp, tp ∈ l -> weight tp.2) ->
  notNegative acc ->
  notNegative (fold_left (fun acc tp => Double.add acc tp.2) l acc)
  /\ (forall tp, tp ∈ l ->
        numberLe tp.2 (fold_left (fun acc tp => Double.add acc tp.2) l acc))
  /\ forall p0, weight p0 -> numberLe p0 acc ->
       numberLe p0 (fold_left (fun acc tp => Double.add acc tp.2) l acc).
Proof.
  revert acc. induction l as [|x l IH]; intros acc Hl Hacc; cbn [fold_left].
  - split; [exact Hacc|]. split; [|done]. intros tp Htp. by apply elem_of_nil in Htp.
  - assert (weight x.2) as Hx by (apply Hl; by left).
    destruct (add_weight acc x.2 Hacc Hx) as (Hacc' & Hxle & Hkeep).
    destruct (IH (Double.add acc x.2)) as (Hsum & Hall & Hkeep'); [|exact Hacc'|].
    { intros tp Htp. apply Hl. by right. }
    split; [exact Hsum|]. split.
    + intros tp Htp. apply elem_of_cons in Htp as [-> | Htp]; [|by apply Hall].
      by apply Hkeep'.
    + intros p0 Hp0 Hle. apply Hkeep'; [exact Hp0|]. by apply Hkeep.
Qed.

Lemma normalized_lookup {A B} (g : A -> B) (l : list (string * A)) (init : gmap string B)
    (k : string) (w : B) :
  fold_left (fun normalizedProbs tp => <[tp.1 := g tp.2]> normalizedProbs) l init !! k
  = Some w ->
  init !! k = Some w \/ exists tp, tp ∈ l /\ tp.1 = k /\ w = g tp.2.
Proof.
  revert init. induction l as [|x l IH]; intros init; cbn [fold_left]; [by left|].
  intros H. apply IH in H as [H | (tp & Htp & Hk & Hw)].
  - destruct (decide (x.1 = k)) as [Hx | Hx].
    + rewrite <- Hx, lookup_insert_eq in H. injection H as <-.
      right. exists x. split; [by left | done].
    + rewrite lookup_insert_ne in H by done. by left.
  - right. exists tp. split; [by right | done].
Qed.

Lemma round_one : exists u, Double.round 1 = Finite u /\ (u == 1)%Q.
Proof. eexists. split; [by vm_compute | by vm_compute]. Qed.

(** The share of a weight in a sum that is at least as large, when it is a
    finite number, is between 0 and 1. *)
Lemma div_range (p sum : Double.Number) (w : Q) :
  weight p -> notNegative sum -> numberLe p sum ->
  Double.div p sum = Some (Finite w) -> (0 <= w)%Q /\ (w <= 1)%Q.
Proof.
  intros [-> | (v & -> & Hv & _)] [-> | (d & -> & Hd)] Hle; cbn [Double.div]; try done.
  - intros [= <-]. lra.
  - cbn [numberLe ExtNum.leb] in Hle. apply Qle_bool_iff in Hle.
    destruct (Qeq_bool d 0) eqn:Hzero.
    { by destruct (v ?= 0)%Q. }
    apply Qeq_bool_neq in Hzero. assert (0 < d)%Q as Hpos by lra.
    assert (0 <= v / d)%Q as Hlow by (apply Qle_shift_div_l; lra).
    assert (v / d <= 1)%Q as Hhigh by (apply Qle_shift_div_r; lra).
    intros [= Hw].
    destruct (round_nonneg (v / d) Hlow) as [Hinf | (w' & Hw' & Hw0 & _)]; [congruence|].
    assert (w' = w) as -> by congruence. split; [exact Hw0|].
    pose proof (round_mono (v / d) 1 Hlow Hhigh) as Hmono.
    destruct round_one as (u & Hu & Hu1). rewrite Hw, Hu in Hmono.
    apply Qle_bool_iff in Hmono. lra.
Qed.

(** An entry of [normalizeLogprobs] that is a finite number is the share of
    one of the tokens in the sum of all of them. *)
Lemma normalizeLogprobs_range (logprobs : list TokenLogprob) (k : string) (w : Q) :
  LLMMinimaxAgent.normalizeLogprobs Math_exp logprobs !! k = Some (Some (Finite w)) ->
  (0 <= w)%Q /\ (w <= 1)%Q.
Proof.
  unfold LLMMinimaxAgent.normalizeLogprobs. cbv zeta.
  set (l := map (fun t => (token t, Some (Double.round (Math_exp (logprob t))))) logprobs).
  set (d := fold_left (fun acc tp => Double.add acc tp.2) l (Some (Finite 0))).
  intros H.
  apply (normalized_lookup (fun p => Double.div p d)) in H as [H | (tp & Htp & _ & Hw)].
  { by rewrite lookup_empty in H. }
  assert (forall x, x ∈ l -> weight x.2) as Hweights.
  { intros x Hx. apply list_elem_of_fmap in Hx as (t & -> & _).
    apply round_weight, Math_exp_nonneg. }
  destruct (sum_bounds l (Some (Finite 0)) Hweights) as (Hsum & Hall & _).
  { right. exists 0%Q. split; [done | lra]. }
  apply (div_range tp.2 d w); [by apply Hweights | exact Hsum | by apply Hall | done].
Qed.

Lemma stateEvaluation_range (s : GameState) (σ : AgentState) (v : Q) :
  fst (LLMMinimaxAgent.stateEvaluation callLLM Math_exp s σ) = Ok v ->
  v = (-1)%Q \/ ((0 <= v)%Q /\ (v <= 1)%Q).
Proof.
  destruct (LLMMinimaxAgent.stateEvaluation callLLM Math_exp s σ) as [r σ'] eqn:H.
  cbn [fst]. intros ->. unfold LLMMinimaxAgent.stateEvaluation in H.
  apply bindM_Ok in H as (description & σ1 & _ & H).
  apply bindM_Ok in H as (messageChoices & σ2 & _ & H).
  destruct messageChoices as [[|messageChoice others]|]; try discriminate.
  destruct (logprobs messageChoice) as [lp|].
  - destruct (logprobs_content lp) as [|first others']; [discriminate|].
    destruct (top_logprobs first) as [topLogprobs|]; [|discriminate].
    cbv zeta in H.
    destruct (LLMMinimaxAgent.normalizeLogprobs Math_exp topLogprobs !! "white")
      as [[[| w |]|]|] eqn:Hw;
      destruct (LLMMinimaxAgent.normalizeLogprobs Math_exp topLogprobs !! "black");
      try discriminate.
    injection H as <- _. right. by eapply normalizeLogprobs_range.
  - destruct (bool_decide _); injection H as <- _; [by left|].
    right. split; [lra | apply Qle_refl].
Qed.

End Evaluation.

(** ** The caches of the search only grow *)

Section Grows.

#[local] Instance cacheGrows_refl : Reflexive cacheGrows.
Proof.
  intros σ. split; [|done]. intros h e H. exists e. split; [done | apply Qle_refl].
Qed.

#[local] Instance cacheGrows_trans : Transitive cacheGrows.
Proof.
  intros σ1 σ2 σ3 (Ha & Hb & Hc & Hd) (Ha' & Hb' & Hc' & Hd').
  split; [|split; [|split]].
  - intros h e H. destruct (Ha h e H) as (e2 & H2 & Hle).
    destruct (Ha' h e2 H2) as (e3 & H3 & Hle'). exists e3. split; [done|].
    by eapply Qle_trans.
  - intros h p H. by apply Hb', Hb.
  - intros p v H Hv. apply Hc'; [|done]. by apply Hc.
  - intros p v H Hv. apply Hd'; [|done]. by apply Hd.
Qed.

(** A step that leaves the search alone. *)
Lemma cacheGrows_untouched (σ σ' : AgentState) : searchUntouched σ σ' -> cacheGrows σ σ'.
Proof.
  intros (H1 & H2 & H3 & H4). split; [|split; [|split]].
  - intros h e H. exists e. rewrite H1. split; [done | apply Qle_refl].
  - intros h p H. by rewrite H2.
  - intros p v H _. by rewrite H3.
  - intros p v H _. by rewrite H4.
Qed.

Lemma cacheGrows_oracleStep (σ σ' : AgentState) : oracleStep σ σ' -> cacheGrows σ σ'.
Proof. intros [H _]. by apply cacheGrows_untouched. Qed.

Lemma settle_keeps {A} (p q : nat) (v w : Promise A) (l : list (Promise A)) :
  l !! q = Some w -> w <> Pending -> settle p v l !! q = Some w.
Proof.
  intros H Hw. unfold settle. destruct (l !! p) as [[| |]|] eqn:Hp; try exact H.
  rewrite list_lookup_insert_ne; [exact H|]. intros ->. congruence.
Qed.

(** One step at a state, then steps that keep the relation. *)
Lemma grows_bind_from {A B} (m : M AgentState A) (k : A -> M AgentState B)
    (σ : AgentState) :
  cacheGrows σ (snd (m σ)) -> (forall x, keeps cacheGrows (k x)) ->
  cacheGrows σ (snd (bindM m k σ)).
Proof.
  intros Hm Hk. unfold bindM. destruct (m σ) as [[x|e| |] σ1]; simpl in *; try exact Hm.
  etransitivity; [exact Hm | apply Hk].
Qed.

Lemma bindM_bind_ret {S A B C} (m : M S A) (f : A -> B) (k : B -> M S C) (σ : S) :
  bindM (bindM m (fun a => ret (f a))) k σ = bindM m (fun a => k (f a)) σ.
Proof. unfold bindM, ret. by destruct (m σ) as [[a|e| |] σ1]. Qed.

Lemma grows_record (ev : Event) : keeps cacheGrows (record ev).
Proof. intros σ. by apply cacheGrows_untouched. Qed.

Lemma grows_await {A} (promises : AgentState -> list (Promise A)) (p : nat) :
  keeps cacheGrows (await promises p).
Proof.
  intros σ. unfold await. destruct (promises σ !! p) as [[| |]|]; reflexivity.
Qed.

Lemma grows_uncaught {A} (m : M AgentState A) :
  keeps cacheGrows m -> keeps cacheGrows (uncaught m).
Proof. intros H σ. unfold uncaught. specialize (H σ). by destruct (m σ) as [[| | |] ?]. Qed.

Lemma grows_newNumberPromise (v : Promise ExtNum) : keeps cacheGrows (newNumberPromise v).
Proof.
  intros σ. split; [|split; [done|split; [|done]]].
  - intros h e H. exists e. split; [done | apply Qle_refl].
  - intros p w H _. simpl. by apply lookup_app_l_Some.
Qed.

Lemma grows_addToMinimaxCache (gameHash : string) (entry : PendingCacheEntry) :
  keeps cacheGrows (CompressedMinimax.addToMinimaxCache gameHash entry).
Proof.
  intros σ. split; [|done]. intros h e H. simpl.
  destruct (minimaxCache σ !! gameHash) as [existingEntry|] eqn:Hexisting.
  - destruct (Qltb (entry_budget entry) (entry_budget existingEntry)) eqn:Hlt.
    { exists e. split; [done | apply Qle_refl]. }
    destruct (decide (h = gameHash)) as [-> | Hne].
    + exists entry. rewrite lookup_insert_eq. split; [done|].
      rewrite Hexisting in H. injection H as <-.
      unfold Qltb in Hlt. apply negb_false_iff in Hlt. by apply Qle_bool_iff.
    + exists e. rewrite lookup_insert_ne by done. split; [done | apply Qle_refl].
  - exists e. rewrite lookup_insert_ne by congruence. split; [done | apply Qle_refl].
Qed.

Lemma grows_settling (p : nat) (m : M AgentState MinimaxIterationResult) :
  keeps cacheGrows m -> keeps cacheGrows (CompressedMinimax.settling p m).
Proof.
  assert (forall σ v, cacheGrows σ (setNumberPromises (settle p v) σ)) as Hsettle.
  { intros σ v. split; [|split; [done|split; [|done]]].
    - intros h e H. exists e. split; [done | apply Qle_refl].
    - intros q w H Hw. simpl. by apply settle_keeps. }
  intros H σ. unfold CompressedMinimax.settling. specialize (H σ).
  destruct (m σ) as [[r|e| |] σ']; simpl in *; try exact H;
    (etransitivity; [exact H | apply Hsettle]).
Qed.

Section Search.

Variable costSetup : CostSetup.
Variable parallel : bool.
Variable stateEvaluation : GameState -> M AgentState Q.
Variable getSuccessors : GameState -> M AgentState (list GameStateProgression).
Variable estimateNumberOfSuccessors : GameState -> Q.
Hypothesis stateEvaluation_grows : forall s, keeps cacheGrows (stateEvaluation s).
Hypothesis getSuccessors_grows : forall s, keeps cacheGrows (getSuccessors s).

(** The promise of a new call of [getSuccessors] is stored under a hash that
    has no entry. *)
Lemma grows_startGetSuccessors (gameHash : string) (s : GameState) (σ : AgentState) :
  successorsCache σ !! gameHash = None ->
  cacheGrows σ (snd (CompressedMinimax.startGetSuccessors getSuccessors gameHash s σ)).
Proof.
  intros Hmiss. unfold CompressedMinimax.startGetSuccessors.
  unfold bindM at 1. unfold newSuccessorsPromise at 1.
  unfold bindM at 1. unfold modify at 1.
  unfold bindM at 1. unfold record at 1, modify at 1.
  set (σ2 := {| minimaxCache := _ |}).
  assert (cacheGrows σ σ2) as H2.
  { split; [|split; [|split]].
    - intros h e H. exists e. split; [done | apply Qle_refl].
    - intros h p H. unfold σ2. simpl. rewrite lookup_insert_ne; [done | congruence].
    - done.
    - intros p v H _. unfold σ2. simpl. by apply lookup_app_l_Some. }
  pose proof (getSuccessors_grows s σ2) as H3.
  destruct (getSuccessors s σ2) as [r σ3]. cbn [snd] in *.
  etransitivity; [exact H2|]. etransitivity; [exact H3|].
  split; [|split; [done|split; [done|]]].
  - intros h e H. exists e. split; [done | apply Qle_refl].
  - intros q w H Hw. simpl. by apply settle_keeps.
Qed.

Section Children.

Variable minimax : CompressedMinimax.MinimaxCall.
Hypothesis minimax_grows :
  forall depth s budget alpha beta mx, keeps cacheGrows (minimax depth s budget alpha beta mx).

Lemma grows_serialMax (budgetForSearch depth : Q) (successors : list GameStateProgression) :
  forall alpha beta bestValue usedBudget,
    keeps cacheGrows
      (CompressedMinimax.serialMax minimax budgetForSearch depth successors alpha beta
         bestValue usedBudget).
Proof.
  induction successors as [|successor rest IH]; intros alpha beta bestValue usedBudget; simpl.
  - apply keeps_ret; apply _.
  - apply keeps_bind; try apply _; [apply minimax_grows|]. intros r.
    destruct (ExtNum.leb _ _); [apply keeps_ret; apply _ | apply IH].
Qed.

Lemma grows_serialMin (budgetForSearch depth : Q) (successors : list GameStateProgression) :
  forall alpha beta bestValue usedBudget,
    keeps cacheGrows
      (CompressedMinimax.serialMin minimax budgetForSearch depth successors alpha beta
         bestValue usedBudget).
Proof.
  induction successors as [|successor rest IH]; intros alpha beta bestValue usedBudget; simpl.
  - apply keeps_ret; apply _.
  - apply keeps_bind; try apply _; [apply minimax_grows|]. intros r.
    destruct (ExtNum.leb _ _); [apply keeps_ret; apply _ | apply IH].
Qed.

Lemma startAll_grows (budgetForSearch childDepth : Q) (mx : bool)
    (successors : list GameStateProgression) (σ : AgentState) :
  cacheGrows σ
    (snd (CompressedMinimax.startAll minimax budgetForSearch childDepth mx successors σ)).
Proof.
  revert σ. induction successors as [|successor rest IH]; intros σ; simpl; [reflexivity|].
  pose proof (minimax_grows childDepth (nextState successor)
                (budgetForSearch * probability successor)%Q NegInfinity Infinity (negb mx) σ)
    as H.
  destruct (minimax _ _ _ _ _ _ σ) as [r σ']. simpl in H.
  specialize (IH σ').
  destruct (CompressedMinimax.startAll _ _ _ _ rest σ') as [rs σ'']. simpl in *.
  etransitivity; [exact H | exact IH].
Qed.

Lemma grows_joinAll (budgetForSearch childDepth : Q) (mx : bool)
    (successors : list GameStateProgression) :
  keeps cacheGrows
    (fun σ => let (rs, σ') :=
                CompressedMinimax.startAll minimax budgetForSearch childDepth mx successors σ in
              (CompressedMinimax.promiseAll rs, σ')).
Proof.
  intros σ. pose proof (startAll_grows budgetForSearch childDepth mx successors σ) as H.
  by destruct (CompressedMinimax.startAll _ _ _ _ _ σ).
Qed.

Lemma grows_treeSearch (budgetForSearch : Q) (successors : list GameStateProgression)
    (depth : Q) (alpha beta : ExtNum) (mx : bool) :
  keeps cacheGrows
    (if parallel
     then CompressedMinimax.minimaxParallelTreeSearch minimax budgetForSearch successors
            depth mx
     else CompressedMinimax.minimaxSerialTreeSearch minimax budgetForSearch successors
            depth alpha beta mx).
Proof.
  destruct parallel.
  - unfold CompressedMinimax.minimaxParallelTreeSearch.
    apply keeps_bind; try apply _; [apply grows_joinAll|]. intros results.
    destruct mx; apply keeps_ret; apply _.
  - unfold CompressedMinimax.minimaxSerialTreeSearch.
    destruct mx; [apply grows_serialMax | apply grows_serialMin].
Qed.

Lemma grows_evaluateLeaf (s : GameState) (usedBudget : Q) :
  keeps cacheGrows (CompressedMinimax.evaluateLeaf costSetup stateEvaluation s usedBudget).
Proof.
  unfold CompressedMinimax.evaluateLeaf, CompressedMinimax.callStateEvaluation.
  apply keeps_bind; try apply _; [|intros v; apply keeps_ret; apply _].
  apply grows_uncaught. apply keeps_bind; try apply _; [apply grows_record|].
  intros _. apply stateEvaluation_grows.
Qed.

(** What follows the successors in [expandNode]. *)
Lemma grows_searchBelow (depth budget usedBudget : Q) (alpha beta : ExtNum) (mx : bool)
    (successors : list GameStateProgression) :
  keeps cacheGrows
    (if bool_decide (length successors = 0%nat) then throw "No successors found"
     else
       do minimaxTreeSearchResult <-
         (if parallel
          then CompressedMinimax.minimaxParallelTreeSearch minimax (budget - usedBudget)
                 successors depth mx
          else CompressedMinimax.minimaxSerialTreeSearch minimax (budget - usedBudget)
                 successors depth alpha beta mx);
       ret {| computedValue := computedValue minimaxTreeSearchResult;
              usedBudget :=
                (usedBudget + CompressedMinimax.usedBudgetOf minimaxTreeSearchResult)%Q |}).
Proof.
  destruct (bool_decide _); [apply keeps_throw; apply _|].
  apply keeps_bind; try apply _; [apply grows_treeSearch|].
  intros r. apply keeps_ret; apply _.
Qed.

Lemma grows_explore (depth : Q) (s : GameState) (gameHash : string) (budget : Q)
    (alpha beta : ExtNum) (mx : bool) (usedBudget : Q) :
  keeps cacheGrows
    (CompressedMinimax.explore costSetup parallel stateEvaluation getSuccessors
       estimateNumberOfSuccessors minimax depth s gameHash budget alpha beta mx usedBudget).
Proof.
  intros σ. unfold CompressedMinimax.explore.
  change (bindM get ?k σ) with (k σ σ). cbv beta.
  destruct (successorsCache σ !! gameHash) as [p|] eqn:Hcache.
  - rewrite bindM_bind_ret.
    match goal with |- cacheGrows σ (snd (?m σ)) => cut (keeps cacheGrows m) end.
    { intros H. apply H. }
    apply keeps_bind; try apply _; [apply grows_uncaught, grows_await|]. intros l.
    destruct (_ || _); [apply grows_evaluateLeaf|].
    unfold CompressedMinimax.expandNode.
    apply keeps_bind; try apply _; [apply keeps_ret; apply _|].
    intros successors. apply grows_searchBelow.
  - change (bindM (ret None) ?k σ) with (k None σ). cbv beta.
    destruct (_ || _); [apply grows_evaluateLeaf|].
    unfold CompressedMinimax.expandNode.
    apply grows_bind_from; [|intros successors; apply grows_searchBelow].
    apply grows_bind_from; [by apply grows_startGetSuccessors|].
    intros q. apply grows_await.
Qed.

End Children.

Lemma grows_minimax (fuel : nat) :
  forall depth s budget alpha beta mx,
    keeps cacheGrows
      (CompressedMinimax.minimax costSetup parallel stateEvaluation getSuccessors
         estimateNumberOfSuccessors fuel depth s budget alpha beta mx).
Proof.
  induction fuel as [|fuel IH]; intros depth s budget alpha beta mx.
  - intros σ. reflexivity.
  - cbn [CompressedMinimax.minimax].
    apply keeps_bind; try apply _; [apply keeps_get; apply _|]. intros σ.
    destruct (match minimaxCache σ !! ChessGame.hashGameState s with
              | Some cacheResult =>
                  if CompressedMinimax.cacheAnswers cacheResult budget
                  then Some cacheResult else None
              | None => None
              end) as [cacheResult|].
    { apply keeps_bind; try apply _; [apply grows_await|].
      intros v. apply keeps_ret; apply _. }
    apply keeps_bind; try apply _; [apply keeps_liftR; apply _|]. intros e.
    destruct e.
    + apply keeps_bind; try apply _; [apply grows_newNumberPromise|]. intros p.
      apply keeps_bind; try apply _; [apply grows_addToMinimaxCache|]. intros _.
      apply keeps_ret; apply _.
    + apply keeps_bind; try apply _; [apply grows_newNumberPromise|]. intros p.
      apply keeps_bind; try apply _; [apply grows_addToMinimaxCache|]. intros _.
      apply keeps_ret; apply _.
    + apply keeps_bind; try apply _; [apply grows_newNumberPromise|]. intros p.
      apply keeps_bind; try apply _; [apply grows_addToMinimaxCache|]. intros _.
      apply grows_settling, grows_explore, IH.
    + apply keeps_bind; try apply _; [apply grows_newNumberPromise|]. intros p.
      apply keeps_bind; try apply _; [apply grows_addToMinimaxCache|]. intros _.
      apply grows_settling, grows_explore, IH.
Qed.

Lemma grows_selectMove (fuel : nat) (s : GameState) :
  keeps cacheGrows
    (CompressedMinimax.selectMove costSetup parallel stateEvaluation getSuccessors
       estimateNumberOfSuccessors fuel s).
Proof.
  intros σ. unfold CompressedMinimax.selectMove.
  change (bindM get ?k σ) with (k σ σ). cbv beta.
  assert (forall sp, keeps cacheGrows
            (let '(successorsPromise, budget) := sp in
             do successors <- await successorsPromises successorsPromise;
             if bool_decide (length successors = 0%nat) then throw "No successors found"
             else
               do results <-
                 (fun σ0 =>
                    let (rs, σ') :=
                      CompressedMinimax.startAll
                        (CompressedMinimax.minimax costSetup parallel stateEvaluation
                           getSuccessors estimateNumberOfSuccessors fuel)
                        budget 1%Q (bool_decide (turn s = white)) successors σ0 in
                    (CompressedMinimax.promiseAll rs, σ'));
               do best <- liftR (CompressedMinimax.selectBest (bool_decide (turn s = white))
                                   (zip_with CompressedMinimax.withMove successors results));
               ret (CompressedMinimax.mr_move best))) as Hrest.
  { intros [p budget].
    apply keeps_bind; try apply _; [apply grows_await|]. intros successors.
    destruct (bool_decide _); [apply keeps_throw; apply _|].
    apply keeps_bind; try apply _; [apply grows_joinAll, grows_minimax|]. intros results.
    apply keeps_bind; try apply _; [apply keeps_liftR; apply _|]. intros best.
    apply keeps_ret; apply _. }
  destruct (successorsCache σ !! ChessGame.hashGameState s) as [p|] eqn:Hcache.
  - apply grows_bind_from; [reflexivity | exact Hrest].
  - apply grows_bind_from; [|exact Hrest].
    apply grows_bind_from; [by apply grows_startGetSuccessors|].
    intros p. apply keeps_ret; apply _.
Qed.

End Search.

(** The two oracle methods of the LLM agent leave the search alone. *)
Lemma grows_LLM_selectMove (callLLM : CallLLM) (Math_exp : Q -> Q) (costSetup : CostSetup)
    (fuel : nat) (s : GameState) :
  keeps cacheGrows (LLMMinimaxAgent.selectMove callLLM Math_exp costSetup fuel s).
Proof.
  unfold LLMMinimaxAgent.selectMove.
  apply grows_selectMove; intros s' σ; apply cacheGrows_oracleStep;
    [apply oracle_stateEvaluation | apply oracle_getSuccessors].
Qed.

Lemma grows_LLM_minimax (callLLM : CallLLM) (Math_exp : Q -> Q) (costSetup : CostSetup)
    (fuel : nat) (depth : Q) (s : GameState) (budget : Q) (alpha beta : ExtNum) (mx : bool) :
  keeps cacheGrows
    (LLMMinimaxAgent.minimax callLLM Math_exp costSetup fuel depth s budget alpha beta mx).
Proof.
  unfold LLMMinimaxAgent.minimax.
  apply grows_minimax; intros s' σ; apply cacheGrows_oracleStep;
    [apply oracle_stateEvaluation | apply oracle_getSuccessors].
Qed.

(** An entry with a budget at least as large answers what the entry answered. *)
Lemma cacheAnswers_mono (entry entry' : PendingCacheEntry) (budget : Q) :
  (entry_budget entry <= entry_budget entry')%Q ->
  CompressedMinimax.cacheAnswers entry budget = true ->
  CompressedMinimax.cacheAnswers entry' budget = true.
Proof.
  intros Hle H. apply cacheAnswers_true in H. apply cacheAnswers_true.
  destruct (Qlt_le_dec (entry_budget entry') budget) as [Hbelow | Habove];
    [|by left].
  destruct H as [H | H]; [left; lra|]. right.
  unfold Double.sub in *.
  apply (abs_round_below (entry_budget entry - budget) (entry_budget entry' - budget));
    [lra | lra | exact H].
Qed.

Lemma cacheGrows_answers (σ σ' : AgentState) (gameHash : string)
    (entry : PendingCacheEntry) (budget : Q) :
  cacheGrows σ σ' ->
  minimaxCache σ !! gameHash = Some entry ->
  CompressedMinimax.cacheAnswers entry budget = true ->
  exists entry', minimaxCache σ' !! gameHash = Some entry'
    /\ CompressedMinimax.cacheAnswers entry' budget = true.
Proof.
  intros (Hcache & _) Hentry Hanswers.
  destruct (Hcache gameHash entry Hentry) as (entry' & Hentry' & Hle).
  exists entry'. split; [done|]. by eapply cacheAnswers_mono.
Qed.

End Grows.

(** * Further properties of the rules engine *)

(** ** The moves of the pieces *)

(** X1.  The moves that [getMovesFromPosition] generates for a rook, a bishop
    or a queen are exactly the slides along its directions (the four lines
    for a rook, the four diagonals for a bishop, both for a queen): any
    number of steps over empty squares, ending on a square of the board that
    is empty or held by the other side, each with the notation that
    [annotateMove] gives it. *)
Theorem X1_sliding_moves (s : GameState) (pos : Position) (p : Piece) :
  wfBoard (boardState s) -> holds s pos p ->
  type p = rook \/ type p = bishop \/ type p = queen ->
  exists moves,
    ChessGame.getMovesFromPosition s pos = Ok moves
    /\ forall m, m ∈ moves <-> slidesTo s pos (color p) (slideDirections (type p)) m.
Proof. exact (slidingMoves_spec s pos p). Qed.

Lemma X1_sliding_moves_witness :
  exists moves,
    ChessGame.getMovesFromPosition whiteMated (1, 1) = Ok moves
    /\ forall m, m ∈ moves <->
         slidesTo whiteMated (1, 1) (color (aPiece queen black true))
           (slideDirections (type (aPiece queen black true))) m.
Proof.
  apply (X1_sliding_moves whiteMated (1, 1) (aPiece queen black true)).
  - split; [reflexivity | repeat constructor].
  - reflexivity.
  - right; right; reflexivity.
Defined.

(** X2.  The moves generated for a knight are exactly its jumps (one of the
    eight knight directions) to a square of the board that is empty or held
    by the other side. *)
Theorem X2_knight_moves (s : GameState) (pos : Position) (p : Piece) :
  wfBoard (boardState s) -> holds s pos p -> type p = knight ->
  exists moves,
    ChessGame.getMovesFromPosition s pos = Ok moves
    /\ forall m, m ∈ moves <-> stepsTo s pos (color p) ChessGame.knightDirections m.
Proof. exact (knightMoves_spec s pos p). Qed.

Lemma X2_knight_moves_witness :
  exists moves,
    ChessGame.getMovesFromPosition whiteNotMated (1, 1) = Ok moves
    /\ forall m, m ∈ moves <->
         stepsTo whiteNotMated (1, 1) (color (aPiece knight black true))
           ChessGame.knightDirections m.
Proof.
  apply (X2_knight_moves whiteNotMated (1, 1) (aPiece knight black true)).
  - split; [reflexivity | repeat constructor].
  - reflexivity.
  - reflexivity.
Defined.

(** X3.  The moves generated for a king are exactly: one step along a line
    (never along a diagonal) to a square of the board that is empty or held
    by the other side; and castling, generated for a king that has not moved
    whenever the corner of its row holds a piece that has not moved (of any
    type and colour) and columns 1 to 3 of the row (for the corner in column
    0) or columns 5 and 6 (for the corner in column 7) are empty; check plays
    no part in what is generated. *)
Theorem X3_king_moves (s : GameState) (pos : Position) (p : Piece) :
  wfBoard (boardState s) -> holds s pos p -> type p = king ->
  exists moves,
    ChessGame.getMovesFromPosition s pos = Ok moves
    /\ forall m, m ∈ moves <->
         stepsTo s pos (color p) ChessGame.linearDirections m \/ castlesTo s pos p m.
Proof. exact (kingMoves_spec s pos p). Qed.

Lemma X3_king_moves_witness :
  exists moves,
    ChessGame.getMovesFromPosition castlingReady (0, 4) = Ok moves
    /\ forall m, m ∈ moves <->
         stepsTo castlingReady (0, 4) (color (aPiece king white false))
           ChessGame.linearDirections m
         \/ castlesTo castlingReady (0, 4) (aPiece king white false) m.
Proof.
  apply (X3_king_moves castlingReady (0, 4) (aPiece king white false)).
  - split; [reflexivity | repeat constructor].
  - reflexivity.
  - reflexivity.
Defined.

(** X4.  The moves generated for a pawn are exactly: one step forward onto an
    empty square; two steps forward, for a pawn that has not moved, over an
    empty square onto an empty square, marked [isPawnMoving2]; a capture of
    an enemy piece on one of the two squares diagonally ahead; and, from the
    en-passant row, the capture en passant of an enemy pawn beside it whose
    [justMoved2] is set.  No generated move carries a promotion. *)
Theorem X4_pawn_moves (s : GameState) (pos : Position) (p : Piece) :
  wfBoard (boardState s) -> holds s pos p -> type p = pawn ->
  exists moves,
    ChessGame.getMovesFromPosition s pos = Ok moves
    /\ forall m, m ∈ moves <-> pawnMovesTo s pos p m.
Proof. exact (pawnMoves_spec s pos p). Qed.

Lemma X4_pawn_moves_witness :
  exists moves,
    ChessGame.getMovesFromPosition afterE4 (3, 3) = Ok moves
    /\ forall m, m ∈ moves <-> pawnMovesTo afterE4 (3, 3) (aPiece pawn black true) m.
Proof.
  apply (X4_pawn_moves afterE4 (3, 3) (aPiece pawn black true)).
  - split; [reflexivity | repeat constructor].
  - reflexivity.
  - reflexivity.
Defined.

(** X5.  Every move generated for the piece on [pos] starts at [pos], ends on
    a square of the board other than [pos] and carries no promotion; unless
    it is a capture en passant, it ends on a square that is empty or held by
    the other side. *)
Theorem X5_generated_moves_wellformed (s : GameState) (pos : Position) (p : Piece)
    (m : Move) :
  wfBoard (boardState s) -> holds s pos p -> generated s pos m ->
  from m = pos /\ onBoard (to m) /\ to m <> pos /\ promotion m = None
  /\ (enPassant m = false -> notOwn s (color p) (to m)).
Proof. exact (generated_wellformed s pos p m). Qed.

Lemma X5_generated_moves_wellformed_witness :
  from d4xe3 = (3, 3) /\ onBoard (to d4xe3) /\ to d4xe3 <> (3, 3)
  /\ promotion d4xe3 = None
  /\ (enPassant d4xe3 = false ->
      notOwn afterE4 (color (aPiece pawn black true)) (to d4xe3)).
Proof.
  apply (X5_generated_moves_wellformed afterE4 (3, 3) (aPiece pawn black true) d4xe3).
  - split; [reflexivity | repeat constructor].
  - reflexivity.
  - eexists. split; [vm_compute; reflexivity | by_evaluation].
Defined.

(** ** The effect of a move *)

(** X6.  When [makeMove] accepts a move that is neither en passant nor
    castling, the piece on [from] belongs to the side to move; afterwards
    [from] is empty, [to] holds that piece with [hasMoved] set and
    [justMoved2] equal to the move's [isPawnMoving2] (or, for a promotion, a
    new piece of the promoted type), every other cell is as before, the turn
    has passed to the other side and the move is the last of the history. *)
Theorem X6_plain_move_effect (m : Move) (s s' : GameState) :
  enPassant m = false -> castling m = false ->
  ChessGame.makeMove m s = (Ok tt, s') ->
  exists p,
    holds s (from m) p /\ color p = turn s
    /\ turn s' = ChessGame.otherColor (turn s) /\ moveHistory s' = moveHistory s ++ [m]
    /\ (wfBoard (boardState s) -> wfBoard (boardState s'))
    /\ forall pos,
         ChessGame.cellAt (boardState s') pos
         = if decide (pos = from m) then Ok {| piece := None |}
           else if decide (pos = to m)
                then Ok {| piece := Some (movedPiece (turn s) m p) |}
                else ChessGame.cellAt (boardState s) pos.
Proof. exact (makeMove_plain_spec m s s'). Qed.

Lemma X6_plain_move_effect_witness :
  exists p,
    holds pawnsFacing (from e2e4) p /\ color p = turn pawnsFacing
    /\ turn afterE4 = ChessGame.otherColor (turn pawnsFacing)
    /\ moveHistory afterE4 = moveHistory pawnsFacing ++ [e2e4]
    /\ (wfBoard (boardState pawnsFacing) -> wfBoard (boardState afterE4))
    /\ forall pos,
         ChessGame.cellAt (boardState afterE4) pos
         = if decide (pos = from e2e4) then Ok {| piece := None |}
           else if decide (pos = to e2e4)
                then Ok {| piece := Some (movedPiece (turn pawnsFacing) e2e4 p) |}
                else ChessGame.cellAt (boardState pawnsFacing) pos.
Proof.
  apply (X6_plain_move_effect e2e4 pawnsFacing afterE4).
  - reflexivity.
  - reflexivity.
  - reflexivity.
Defined.

(** X7.  When [makeMove] accepts a capture en passant, the square behind
    [to] (one row back for the side to move) held a piece, of whatever type
    and colour, and is empty afterwards; the capturing piece has gone from
    [from] to [to], whatever [to] held; every other cell is as before, the
    turn has passed and the move is the last of the history. *)
Theorem X7_enPassant_effect (m : Move) (s s' : GameState) :
  enPassant m = true ->
  ChessGame.makeMove m s = (Ok tt, s') ->
  exists p q,
    holds s (from m) p /\ color p = turn s
    /\ holds s (capturedSquare (turn s) m) q /\ from m <> capturedSquare (turn s) m
    /\ turn s' = ChessGame.otherColor (turn s) /\ moveHistory s' = moveHistory s ++ [m]
    /\ (wfBoard (boardState s) -> wfBoard (boardState s'))
    /\ forall pos,
         ChessGame.cellAt (boardState s') pos
         = if decide (pos = from m) then Ok {| piece := None |}
           else if decide (pos = to m)
                then Ok {| piece := Some (movedPiece (turn s) m p) |}
                else if decide (pos = capturedSquare (turn s) m)
                     then Ok {| piece := None |}
                     else ChessGame.cellAt (boardState s) pos.
Proof. exact (makeMove_enPassant_spec m s s'). Qed.

Lemma X7_enPassant_effect_witness :
  exists p q,
    holds afterE4 (from d4xe3) p /\ color p = turn afterE4
    /\ holds afterE4 (capturedSquare (turn afterE4) d4xe3) q
    /\ from d4xe3 <> capturedSquare (turn afterE4) d4xe3
    /\ turn (snd (ChessGame.makeMove d4xe3 afterE4)) = ChessGame.otherColor (turn afterE4)
    /\ moveHistory (snd (ChessGame.makeMove d4xe3 afterE4))
       = moveHistory afterE4 ++ [d4xe3]
    /\ (wfBoard (boardState afterE4) ->
        wfBoard (boardState (snd (ChessGame.makeMove d4xe3 afterE4))))
    /\ forall pos,
         ChessGame.cellAt (boardState (snd (ChessGame.makeMove d4xe3 afterE4))) pos
         = if decide (pos = from d4xe3) then Ok {| piece := None |}
           else if decide (pos = to d4xe3)
                then Ok {| piece := Some (movedPiece (turn afterE4) d4xe3 p) |}
                else if decide (pos = capturedSquare (turn afterE4) d4xe3)
                     then Ok {| piece := None |}
                     else ChessGame.cellAt (boardState afterE4) pos.
Proof.
  apply (X7_enPassant_effect d4xe3 afterE4 (snd (ChessGame.makeMove d4xe3 afterE4))).
  - reflexivity.
  - reflexivity.
Defined.

(** X8.  When [makeMove] accepts a castling move whose start is not the
    square where the rook lands, the content of the corner of the row of
    [from] (column 7 when [to] is in column 6, column 0 otherwise) has gone,
    unchanged and with its [hasMoved] flag as it was, to column 5 (or 3) of
    that row; the piece on [from] has gone to [to] with [hasMoved] set; every
    other cell is as before, the turn has passed and the move is the last of
    the history. *)
Theorem X8_castling_effect (m : Move) (s s' : GameState) :
  enPassant m = false -> castling m = true -> from m <> rookEnd m ->
  ChessGame.makeMove m s = (Ok tt, s') ->
  exists p corner,
    holds s (from m) p /\ color p = turn s
    /\ ChessGame.cellAt (boardState s) (rookStart m) = Ok corner
    /\ from m <> rookStart m
    /\ turn s' = ChessGame.otherColor (turn s) /\ moveHistory s' = moveHistory s ++ [m]
    /\ (wfBoard (boardState s) -> wfBoard (boardState s'))
    /\ forall pos,
         ChessGame.cellAt (boardState s') pos
         = if decide (pos = from m) then Ok {| piece := None |}
           else if decide (pos = to m)
                then Ok {| piece := Some (movedPiece (turn s) m p) |}
                else if decide (pos = rookStart m) then Ok {| piece := None |}
                else if decide (pos = rookEnd m) then Ok {| piece := piece corner |}
                else ChessGame.cellAt (boardState s) pos.
Proof. exact (makeMove_castling_spec m s s'). Qed.

Lemma X8_castling_effect_witness :
  exists p corner,
    holds castlingReady (from castleShort) p /\ color p = turn castlingReady
    /\ ChessGame.cellAt (boardState castlingReady) (rookStart castleShort) = Ok corner
    /\ from castleShort <> rookStart castleShort
    /\ turn (snd (ChessGame.makeMove castleShort castlingReady))
       = ChessGame.otherColor (turn castlingReady)
    /\ moveHistory (snd (ChessGame.makeMove castleShort castlingReady))
       = moveHistory castlingReady ++ [castleShort]
    /\ (wfBoard (boardState castlingReady) ->
        wfBoard (boardState (snd (ChessGame.makeMove castleShort castlingReady))))
    /\ forall pos,
         ChessGame.cellAt (boardState (snd (ChessGame.makeMove castleShort castlingReady)))
           pos
         = if decide (pos = from castleShort) then Ok {| piece := None |}
           else if decide (pos = to castleShort)
                then Ok {| piece := Some (movedPiece (turn castlingReady) castleShort p) |}
                else if decide (pos = rookStart castleShort) then Ok {| piece := None |}
                else if decide (pos = rookEnd castleShort)
                     then Ok {| piece := piece corner |}
                     else ChessGame.cellAt (boardState castlingReady) pos.
Proof.
  apply (X8_castling_effect castleShort castlingReady
           (snd (ChessGame.makeMove castleShort castlingReady))).
  - reflexivity.
  - reflexivity.
  - by_evaluation.
  - reflexivity.
Defined.

(** X9.  [makeMove] accepts every move generated for a piece of the side to
    move on a board of 8 by 8 cells, provided that a castling move does not
    start in column 0 or 7 (a king there is itself the piece of the corner). *)
Theorem X9_generated_moves_can_be_made (s : GameState) (pos : Position) (p : Piece)
    (m : Move) :
  wfBoard (boardState s) -> holds s pos p -> color p = turn s -> generated s pos m ->
  (castling m = true -> 0 < pos.2 < 7) ->
  exists s', ChessGame.makeMove m s = (Ok tt, s').
Proof. exact (makeMove_generated s pos p m). Qed.

Lemma X9_generated_moves_can_be_made_witness :
  exists s', ChessGame.makeMove castleShort castlingReady = (Ok tt, s').
Proof.
  apply (X9_generated_moves_can_be_made castlingReady (0, 4) (aPiece king white false)
           castleShort).
  - split; [reflexivity | repeat constructor].
  - reflexivity.
  - reflexivity.
  - eexists. split; [vm_compute; reflexivity | by_evaluation].
  - intros _. simpl. lia.
Defined.

(** ** Legal moves, check and the end of the game *)

(** X10.  [getAllLegalMoves(col)] holds exactly the moves generated for the
    pieces of colour [col] for which [doesMovePutMovingPlayerInCheck] answers
    [false]. *)
Theorem X10_legal_moves (s : GameState) (col : PlayerColor) (l : list Move) :
  ChessGame.getAllLegalMoves s col = Ok l ->
  forall m, m ∈ l <->
    exists pos p,
      onBoard pos /\ holds s pos p /\ color p = col /\ generated s pos m
      /\ ChessGame.doesMovePutMovingPlayerInCheck s m = Ok false.
Proof.
  intros Hl m. rewrite (getAllLegalMoves_spec s col l Hl m). split.
  - intros (pos & p & pm & Hpos & Hp & Hcol & Hpm & Hm & Hcheck).
    exists pos, p. split; [done|]. split; [done|]. split; [done|].
    split; [by exists pm | done].
  - intros (pos & p & Hpos & Hp & Hcol & (pm & Hpm & Hm) & Hcheck).
    exists pos, p, pm. split; [done|]. split; [done|]. split; [done|].
    split; [done|]. split; done.
Qed.

Lemma X10_legal_moves_witness :
  simpleMove (0, 0) (1, 0) "Ka2"
    ∈ [simpleMove (0, 0) (1, 0) "Ka2"; simpleMove (0, 0) (0, 1) "Kb1"] <->
  exists pos p,
    onBoard pos /\ holds whiteNotMated pos p /\ color p = white
    /\ generated whiteNotMated pos (simpleMove (0, 0) (1, 0) "Ka2")
    /\ ChessGame.doesMovePutMovingPlayerInCheck whiteNotMated
         (simpleMove (0, 0) (1, 0) "Ka2") = Ok false.
Proof.
  apply (X10_legal_moves whiteNotMated white
           [simpleMove (0, 0) (1, 0) "Ka2"; simpleMove (0, 0) (0, 1) "Kb1"]).
  vm_compute. reflexivity.
Defined.

(** X11.  A move of [getAllLegalMoves(col)] can be made, and after it the
    king of [col] is on the board and not attacked: no enemy rook or queen on
    an open line, no enemy bishop or queen on an open diagonal, no enemy pawn
    diagonally ahead, no enemy knight a jump away.  (The enemy king is no
    attacker for [isCheck].) *)
Theorem X11_legal_moves_keep_king_safe (s : GameState) (col : PlayerColor) (m : Move) :
  wfBoard (boardState s) -> legal s col m ->
  exists s' kpos,
    ChessGame.makeMove m s = (Ok tt, s') /\ ChessGame.getKingPosition s' col = Ok kpos
    /\ ~ attacked s' col kpos.
Proof. exact (legal_safe s col m). Qed.

Lemma X11_legal_moves_keep_king_safe_witness :
  exists s' kpos,
    ChessGame.makeMove d4xe3 afterE4 = (Ok tt, s')
    /\ ChessGame.getKingPosition s' black = Ok kpos
    /\ ~ attacked s' black kpos.
Proof.
  apply (X11_legal_moves_keep_king_safe afterE4 black d4xe3).
  - split; [reflexivity | repeat constructor].
  - eexists. split; [vm_compute; reflexivity | by_evaluation].
Defined.

(** X12.  For the side that is not to move, on a board of 8 by 8 cells,
    [getAllLegalMoves] returns the empty list when no piece of that side has
    a generated move, and otherwise throws: [makeMove] refuses the first
    generated move it is given to try ("Failed to make move, ... Not your
    turn") and nothing catches the exception. *)
Theorem X12_legal_moves_out_of_turn (s : GameState) (col : PlayerColor) :
  wfBoard (boardState s) -> col <> turn s ->
  (ChessGame.getAllLegalMoves s col = Ok []
   /\ forall pos p m, holds s pos p -> color p = col -> ~ generated s pos m)
  \/ exists e, ChessGame.getAllLegalMoves s col = Throw e /\ refused s col e.
Proof. exact (getAllLegalMoves_out_of_turn s col). Qed.

Lemma X12_legal_moves_out_of_turn_witness :
  (ChessGame.getAllLegalMoves whiteMated black = Ok []
   /\ forall pos p m, holds whiteMated pos p -> color p = black ->
        ~ generated whiteMated pos m)
  \/ exists e, ChessGame.getAllLegalMoves whiteMated black = Throw e
       /\ refused whiteMated black e.
Proof.
  apply (X12_legal_moves_out_of_turn whiteMated black).
  - split; [reflexivity | repeat constructor].
  - discriminate.
Defined.

(** X13.  [getEndgameState] answers [inProgress] exactly when the side to
    move has a legal move.  Otherwise it answers the checkmate of a colour
    only if [isCheck] holds for that colour (white is tested first) and that
    colour has no legal move, and [draw] only if the side to move is not in
    check. *)
Theorem X13_endgame_state (s : GameState) (e : EndgameState) :
  ChessGame.getEndgameState s = Ok e ->
  (e = inProgress <-> exists m, legal s (turn s) m)
  /\ (e <> inProgress -> ChessGame.getAllLegalMoves s (turn s) = Ok [])
  /\ (forall col, e = checkmateOf col ->
        ChessGame.isCheck s col = Ok true /\ ChessGame.getAllLegalMoves s col = Ok [])
  /\ (e = draw -> ChessGame.isCheck s (turn s) = Ok false).
Proof. exact (getEndgameState_spec s e). Qed.

Lemma X13_endgame_state_witness :
  (checkmateWhite = inProgress <-> exists m, legal whiteMated (turn whiteMated) m)
  /\ (checkmateWhite <> inProgress ->
      ChessGame.getAllLegalMoves whiteMated (turn whiteMated) = Ok [])
  /\ (forall col, checkmateWhite = checkmateOf col ->
        ChessGame.isCheck whiteMated col = Ok true
        /\ ChessGame.getAllLegalMoves whiteMated col = Ok [])
  /\ (checkmateWhite = draw -> ChessGame.isCheck whiteMated (turn whiteMated) = Ok false).
Proof.
  apply (X13_endgame_state whiteMated checkmateWhite).
  vm_compute. reflexivity.
Defined.

(** X14.  On a board of 8 by 8 cells with the king of [col] on it, [isCheck]
    answers, and answers [true] exactly when the king is attacked: an enemy
    rook or queen at the end of an open line from the king, an enemy bishop or
    queen at the end of an open diagonal, an enemy pawn on one of the two
    squares diagonally ahead of the king, or an enemy knight a jump away. *)
Theorem X14_isCheck_attacked (s : GameState) (col : PlayerColor) (kpos : Position) :
  wfBoard (boardState s) -> ChessGame.getKingPosition s col = Ok kpos ->
  exists b, ChessGame.isCheck s col = Ok b /\ (b = true <-> attacked s col kpos).
Proof. exact (isCheck_spec s col kpos). Qed.

Lemma X14_isCheck_attacked_witness :
  exists b, ChessGame.isCheck whiteMated white = Ok b
    /\ (b = true <-> attacked whiteMated white (0, 0)).
Proof.
  apply (X14_isCheck_attacked whiteMated white (0, 0)).
  - split; [reflexivity | repeat constructor].
  - vm_compute. reflexivity.
Defined.

(** X15.  On a board of 8 by 8 cells [getKingPosition(col)] returns a square
    that holds a king of [col], or, when no cell holds one, throws "King not
    found". *)
Theorem X15_king_position (s : GameState) (col : PlayerColor) :
  wfBoard (boardState s) ->
  (exists kpos k, ChessGame.getKingPosition s col = Ok kpos
     /\ holds s kpos k /\ type k = king /\ color k = col)
  \/ (ChessGame.getKingPosition s col = Throw "King not found"
      /\ forall pos p, holds s pos p -> type p = king -> color p <> col).
Proof. exact (getKingPosition_cases s col). Qed.

Lemma X15_king_position_witness :
  (exists kpos k, ChessGame.getKingPosition pawnsFacing white = Ok kpos
     /\ holds pawnsFacing kpos k /\ type k = king /\ color k = white)
  \/ (ChessGame.getKingPosition pawnsFacing white = Throw "King not found"
      /\ forall pos p, holds pawnsFacing pos p -> type p = king -> color p <> white).
Proof.
  apply (X15_king_position pawnsFacing white).
  split; [reflexivity | repeat constructor].
Defined.

(** ** Counting, hashing and the random agent *)

(** X16.  Each entry of [getPieceCount] is the number of cells of the board
    that hold a piece of that colour and type. *)
Theorem X16_piece_count (s : GameState) (col : PlayerColor) (t : PieceType) :
  countOf (ChessGame.getPieceCount s) col t
  = Z.of_nat (length (filter (cellIs col t) (concat (boardState s)))).
Proof. exact (getPieceCount_countOf s col t). Qed.

(** X17.  Two states with the same side to move and the same empty cells have
    the same hash, whatever pieces stand on the other cells and whatever
    their flags are. *)
Theorem X17_hash_sees_occupancy_only (s1 s2 : GameState) :
  turn s1 = turn s2 ->
  occupancy (boardState s1) = occupancy (boardState s2) ->
  ChessGame.hashGameState s1 = ChessGame.hashGameState s2.
Proof. exact (hashGameState_occupancy s1 s2). Qed.

Lemma X17_hash_sees_occupancy_only_witness :
  ChessGame.hashGameState whiteMated = ChessGame.hashGameState whiteNotMated.
Proof.
  apply (X17_hash_sees_occupancy_only whiteMated whiteNotMated).
  - reflexivity.
  - vm_compute. reflexivity.
Defined.

(** X18.  With [Math.random()] in the interval from 0 (included) to 1
    (excluded), [RandomAgent.selectMove] throws "No legal moves" when the
    side to move has no legal move, and otherwise returns one of the legal
    moves of the side to move (the index it computes is never out of
    range). *)
Theorem X18_random_agent_move (r : Q) (s : GameState) (moves : list Move) :
  (0 <= r)%Q -> (r < 1)%Q ->
  ChessGame.getAllLegalMoves s (turn s) = Ok moves ->
  (moves = [] /\ RandomAgent.selectMove r s = Throw "No legal moves")
  \/ (exists m, RandomAgent.selectMove r s = Ok (Some m) /\ m ∈ moves).
Proof. exact (RandomAgent_selectMove_spec r s moves). Qed.

Lemma X18_random_agent_move_witness :
  ([simpleMove (0, 0) (1, 0) "Ka2"; simpleMove (0, 0) (0, 1) "Kb1"] = []
   /\ RandomAgent.selectMove (1 # 2) whiteNotMated = Throw "No legal moves")
  \/ (exists m, RandomAgent.selectMove (1 # 2) whiteNotMated = Ok (Some m)
        /\ m ∈ [simpleMove (0, 0) (1, 0) "Ka2"; simpleMove (0, 0) (0, 1) "Kb1"]).
Proof.
  apply (X18_random_agent_move (1 # 2) whiteNotMated).
  - discriminate.
  - reflexivity.
  - vm_compute. reflexivity.
Defined.

(** * Further properties of the LLM agent *)

(** ** Reading the moves out of an answer *)

(** X19.  The mapping from notation to move that
    [getSuccessorsInOneSingleOptionLLMCall] builds holds, under each
    notation, the last of the legal moves with that notation: of two legal
    moves that [annotateMove] gives the same text, the earlier one cannot be
    selected. *)
Theorem X19_mapping_keeps_last_move (validMoves : list Move) (k : string) :
  LLMMinimaxAgent.validMoveMappingOf validMoves !! k = lastWithNotation k validMoves.
Proof. exact (validMoveMappingOf_lookup validMoves k). Qed.

(** X20.  When [extractMovesFromMessage] returns moves, the list is not
    empty, the text contains the marker "Moves: ", and every move returned is
    a move of the mapping. *)
Theorem X20_extracted_moves_are_mapped (validMoveMapping : gmap string Move)
    (llmOutput : string) (moves : list Move) :
  LLMMinimaxAgent.extractMovesFromMessage validMoveMapping llmOutput = Some moves ->
  moves <> []
  /\ (exists pre rest, llmOutput = pre +:+ "Moves: " +:+ rest)
  /\ forall m, m ∈ moves -> exists k, validMoveMapping !! k = Some m.
Proof. exact (extractMovesFromMessage_sound validMoveMapping llmOutput moves). Qed.

Lemma X20_extracted_moves_are_mapped_witness :
  [e2e4] <> []
  /\ (exists pre rest, "Moves: e4" = pre +:+ "Moves: " +:+ rest)
  /\ forall m, m ∈ [e2e4] ->
       exists k, LLMMinimaxAgent.validMoveMappingOf [e2e4] !! k = Some m.
Proof.
  apply (X20_extracted_moves_are_mapped (LLMMinimaxAgent.validMoveMappingOf [e2e4])
           "Moves: e4" [e2e4]).
  vm_compute. reflexivity.
Defined.

(** X21.  An answer in the format that the prompt asks for is read back: when
    the text after the first "Moves: " is a list of move strings joined by a
    comma and a space, up to the end of the line (the end of the text or one
    of the line terminators LF, CR, U+2028, U+2029), and every move string
    consists of printed characters of ASCII other than the space and the
    comma, [extractMovesFromMessage] returns the moves that the strings
    select in the mapping, in their order, leaving out the strings that
    select none (and [null] when none selects a move). *)
Theorem X21_answer_read_back (validMoveMapping : gmap string Move)
    (llmOutput : string) (k : string) (keys : list string) (tail : string) :
  LLMMinimaxAgent.afterFirst "Moves: " llmOutput = Some (joinComma (k :: keys) +:+ tail) ->
  endsLine tail ->
  Forall (fun k => cleanKey k = true) (k :: keys) ->
  LLMMinimaxAgent.extractMovesFromMessage validMoveMapping llmOutput
  = match omap (LLMMinimaxAgent.selectedMove validMoveMapping) (k :: keys) with
    | [] => None
    | moves => Some moves
    end.
Proof.
  exact (extractMovesFromMessage_roundtrip validMoveMapping llmOutput k keys tail).
Qed.

Lemma X21_answer_read_back_witness :
  LLMMinimaxAgent.extractMovesFromMessage (LLMMinimaxAgent.validMoveMappingOf [e2e4; Ng1f3])
    ("I would play. Moves: e4, Nf3"
     +:+ LLMMinimaxAgent.bytes [226; 128; 168] +:+ "Good luck.")
  = match omap (LLMMinimaxAgent.selectedMove
                  (LLMMinimaxAgent.validMoveMappingOf [e2e4; Ng1f3])) ["e4"; "Nf3"] with
    | [] => None
    | moves => Some moves
    end.
Proof.
  apply (X21_answer_read_back (LLMMinimaxAgent.validMoveMappingOf [e2e4; Ng1f3])
           ("I would play. Moves: e4, Nf3"
            +:+ LLMMinimaxAgent.bytes [226; 128; 168] +:+ "Good luck.")
           "e4" ["Nf3"] (LLMMinimaxAgent.bytes [226; 128; 168] +:+ "Good luck.")).
  - vm_compute. reflexivity.
  - right. vm_compute. by eexists.
  - repeat constructor.
Defined.

(** ** The oracle tasks and the state of the agent *)

(** X22.  [getGameDescription], [stateEvaluation] and [getSuccessors] of the
    LLM agent, whatever their outcome, leave the minimax cache, the
    successors cache and the promises of both untouched, make no call that is
    recorded other than requests to the oracle, keep every entry of the
    description cache under its hash and leave every settled description
    promise as it was. *)
Theorem X22_oracle_tasks_frame (callLLM : CallLLM) (Math_exp : Q -> Q) (fuel : nat)
    (s : GameState) :
  keeps oracleStep (LLMMinimaxAgent.getGameDescription callLLM s)
  /\ keeps oracleStep (LLMMinimaxAgent.stateEvaluation callLLM Math_exp s)
  /\ keeps oracleStep (LLMMinimaxAgent.getSuccessors callLLM fuel s).
Proof.
  split; [apply oracle_getGameDescription|].
  split; [apply oracle_stateEvaluation | apply oracle_getSuccessors].
Qed.

(** X23.  Whatever the oracle does, one call of [getGameDescription] sends at
    most 5 requests to it and one call of [stateEvaluation] at most 10 (5 for
    the description and 5 for the evaluation). *)
Theorem X23_requests_are_bounded (callLLM : CallLLM) (Math_exp : Q -> Q) (s : GameState) :
  sendsAtMost 5 (LLMMinimaxAgent.getGameDescription callLLM s)
  /\ sendsAtMost 10 (LLMMinimaxAgent.stateEvaluation callLLM Math_exp s).
Proof.
  split.
  - exact (sends_getGameDescription callLLM s).
  - exact (sends_stateEvaluation callLLM Math_exp s).
Qed.

(** X24.  A description is asked for once: when [getGameDescription] has
    returned a description of a state, then after an evaluation and a request
    for successors (of any states) a further call for the same state returns
    the same description and changes nothing in the agent, so it sends no
    request. *)
Theorem X24_description_asked_once (callLLM : CallLLM) (Math_exp : Q -> Q) (fuel : nat)
    (s s1 s2 : GameState) (σ : AgentState) (msg : Message) :
  fst (LLMMinimaxAgent.getGameDescription callLLM s σ) = Ok msg ->
  let later :=
    snd (LLMMinimaxAgent.getSuccessors callLLM fuel s2
           (snd (LLMMinimaxAgent.stateEvaluation callLLM Math_exp s1
                   (snd (LLMMinimaxAgent.getGameDescription callLLM s σ))))) in
  LLMMinimaxAgent.getGameDescription callLLM s later = (Ok msg, later).
Proof.
  intros Hfirst later. unfold later.
  destruct (LLMMinimaxAgent.getGameDescription callLLM s σ) as [r σ1] eqn:Hcall.
  cbn [fst snd] in *. subst r.
  destruct (getGameDescription_Ok_rendered callLLM s σ σ1 msg Hcall) as [text Htext].
  apply (getGameDescription_of_known callLLM s text); [exact Htext|].
  eapply oracleStep_known; [apply oracle_getSuccessors|].
  eapply oracleStep_known; [apply oracle_stateEvaluation|].
  by eapply getGameDescription_known.
Qed.

Lemma X24_description_asked_once_witness :
  let later :=
    snd (LLMMinimaxAgent.getSuccessors saysDraw 1 pawnsFacing
           (snd (LLMMinimaxAgent.stateEvaluation saysDraw (fun q => q) afterE4
                   (snd (LLMMinimaxAgent.getGameDescription saysDraw
                           initialGameState emptyAgent))))) in
  LLMMinimaxAgent.getGameDescription saysDraw initialGameState later
  = (Ok {| content := Some "a quiet position"; role := assistant |}, later).
Proof.
  apply (X24_description_asked_once saysDraw (fun q => q) 1 initialGameState afterE4
           pawnsFacing emptyAgent).
  vm_compute. reflexivity.
Defined.

(** ** Successors, the selected move and the evaluation *)



(** X26.  The move that [selectMove] of the LLM agent returns: when the
    successors cache has no entry under the hash of the state, it is a legal
    move of the side to move; when the cache has one, it is the move of one
    of the successors that the cached promise is fulfilled with. *)
Theorem X26_selected_move (callLLM : CallLLM) (Math_exp : Q -> Q) (costSetup : CostSetup)
    (fuel : nat) (s : GameState) (σ : AgentState) (mv : Move) :
  fst (LLMMinimaxAgent.selectMove callLLM Math_exp costSetup fuel s σ) = Ok mv ->
  match successorsCache σ !! ChessGame.hashGameState s with
  | None =>
      exists validMoves,
        ChessGame.getAllLegalMoves s (turn s) = Ok validMoves /\ mv ∈ validMoves
  | Some p =>
      exists successors,
        successorsPromises σ !! p = Some (Fulfilled successors)
        /\ mv ∈ map move successors
  end.
Proof.
  destruct (LLMMinimaxAgent.selectMove callLLM Math_exp costSetup fuel s σ)
    as [r σ'] eqn:Hcall.
  cbn [fst]. intros ->. by eapply selectMove_move.
Qed.

Lemma X26_selected_move_witness :
  match successorsCache emptyAgent !! ChessGame.hashGameState initialGameState with
  | None =>
      exists validMoves,
        ChessGame.getAllLegalMoves initialGameState (turn initialGameState) = Ok validMoves
        /\ e2e4 ∈ validMoves
  | Some p =>
      exists successors,
        successorsPromises emptyAgent !! p = Some (Fulfilled successors)
        /\ e2e4 ∈ map move successors
  end.
Proof.
  apply (X26_selected_move saysDraw (fun q => q) packagedCostSetup 3 initialGameState
           emptyAgent e2e4).
  vm_compute. reflexivity.
Defined.

(** X27.  With a function for [Math.exp] that is never negative, a value
    that [stateEvaluation] returns is either -1 (the textual answer "black")
    or between 0 and 1: with log-probabilities it is the share of the token
    "white" in the sum over the tokens listed, in double precision, which is
    never negative, however likely "black" is, and is 0 where the exponential
    of the log-probability of "white" underflows. *)
Theorem X27_evaluation_range (callLLM : CallLLM) (Math_exp : Q -> Q) (s : GameState)
    (σ : AgentState) (v : Q) :
  (forall x, (0 <= Math_exp x)%Q) ->
  fst (LLMMinimaxAgent.stateEvaluation callLLM Math_exp s σ) = Ok v ->
  v = (-1)%Q \/ ((0 <= v)%Q /\ (v <= 1)%Q).
Proof. intros Hexp. exact (stateEvaluation_range callLLM Math_exp Hexp s σ v). Qed.

Lemma X27_evaluation_range_witness :
  exists v,
    fst (LLMMinimaxAgent.stateEvaluation weighsColours halves initialGameState emptyAgent)
    = Ok v
    /\ (v = (-1)%Q \/ ((0 <= v)%Q /\ (v <= 1)%Q)).
Proof.
  assert (forall x, (0 <= halves x)%Q) as Hexp.
  { intros x. unfold halves. destruct (Qle_bool 0 x); [|destruct (Qle_bool (-1) x)]; done. }
  eexists. split; [vm_compute; reflexivity|].
  apply (X27_evaluation_range weighsColours halves initialGameState emptyAgent _ Hexp).
  vm_compute. reflexivity.
Defined.

(** X28.  The loop of [getSuccessorsInOneSingleOptionLLMCall] counts the
    answers in which no move is found: when every answer of the oracle has a
    text from which [extractMovesFromMessage] reads no move, the loop sends
    [maxLLMTries - tires] requests and then throws "Exceeded max tries and
    could not extract moves from LLM output". *)
Theorem X28_unusable_answers_are_counted (callLLM : CallLLM) (tires more : nat)
    (args : CallLLMArgs) (validMoveMapping : gmap string Move) (σ : AgentState) :
  (forall k, (LLMMinimaxAgent.requestsSent σ <= k)%nat ->
     exists c text others,
       callLLM k args
       = Replies ({| message := {| content := Some (String c text); role := assistant |};
                     logprobs := None |} :: others)
       /\ LLMMinimaxAgent.extractMovesFromMessage validMoveMapping (String c text) = None) ->
  (tires <= LLMMinimaxAgent.maxLLMTries)%nat ->
  LLMMinimaxAgent.askForMoves callLLM (S (LLMMinimaxAgent.maxLLMTries - tires + more)) tires
    args validMoveMapping σ
  = (Throw "Exceeded max tries and could not extract moves from LLM output",
     withRequests σ args (LLMMinimaxAgent.maxLLMTries - tires)).
Proof. exact (askForMoves_all_unusable callLLM tires more args validMoveMapping σ). Qed.

Lemma X28_unusable_answers_are_counted_witness :
  LLMMinimaxAgent.askForMoves saysNothing (S (LLMMinimaxAgent.maxLLMTries - 0 + 0)) 0
    (describeArgs initialGameState) ∅ emptyAgent
  = (Throw "Exceeded max tries and could not extract moves from LLM output",
     withRequests emptyAgent (describeArgs initialGameState)
       (LLMMinimaxAgent.maxLLMTries - 0)).
Proof.
  apply (X28_unusable_answers_are_counted saysNothing 0 0 (describeArgs initialGameState)
           ∅ emptyAgent).
  - intros k _. exists "n"%char, "o idea", []. split; reflexivity.
  - unfold LLMMinimaxAgent.maxLLMTries. lia.
Defined.

(** ** The caches of the search *)

(** X29.  Whatever its outcome, a call of [selectMove] or of [minimax] of the
    LLM agent removes no entry from the minimax cache and lowers the budget
    of none, leaves every entry of the successors cache as it was (the
    promise of a new call of [getSuccessors] is only stored under a hash that
    had no entry), and changes no settled promise of either cache. *)
Theorem X29_search_caches_only_grow (callLLM : CallLLM) (Math_exp : Q -> Q)
    (costSetup : CostSetup) (fuel : nat) (depth : Q) (s : GameState) (budget : Q)
    (alpha beta : ExtNum) (maximizingPlayer : bool) :
  keeps cacheGrows (LLMMinimaxAgent.selectMove callLLM Math_exp costSetup fuel s)
  /\ keeps cacheGrows
       (LLMMinimaxAgent.minimax callLLM Math_exp costSetup fuel depth s budget alpha beta
          maximizingPlayer).
Proof.
  split; [apply grows_LLM_selectMove | apply grows_LLM_minimax].
Qed.

(** X30.  What the minimax cache answers it goes on answering: when the
    cache probe of [minimax] answers a request for a state with a budget,
    then after any call of [selectMove] the minimax cache still holds, under
    the hash of that state, an entry for which the probe answers the same
    request. *)
Theorem X30_answered_requests_stay_answered (callLLM : CallLLM) (Math_exp : Q -> Q)
    (costSetup : CostSetup) (fuel : nat) (s root : GameState) (budget : Q)
    (σ : AgentState) (entry : PendingCacheEntry) :
  minimaxCache σ !! ChessGame.hashGameState s = Some entry ->
  CompressedMinimax.cacheAnswers entry budget = true ->
  exists entry',
    minimaxCache (snd (LLMMinimaxAgent.selectMove callLLM Math_exp costSetup fuel root σ))
      !! ChessGame.hashGameState s = Some entry'
    /\ CompressedMinimax.cacheAnswers entry' budget = true.
Proof.
  intros Hentry Hanswers.
  eapply cacheGrows_answers; [apply grows_LLM_selectMove | exact Hentry | exact Hanswers].
Qed.

Lemma X30_answered_requests_stay_answered_witness :
  exists entry',
    minimaxCache (snd (LLMMinimaxAgent.selectMove saysDraw (fun q => q) packagedCostSetup 3
                         initialGameState staleAgent))
      !! ChessGame.hashGameState whiteNotMated = Some entry'
    /\ CompressedMinimax.cacheAnswers entry' 3 = true.
Proof.
  apply (X30_answered_requests_stay_answered saysDraw (fun q => q) packagedCostSetup 3
           whiteNotMated initialGameState 3 staleAgent
           {| entry_computedValue := 0; entry_budget := 5 |}).
  - vm_compute. reflexivity.
  - reflexivity.
Defined.
